(** * desert-sim: the per-frame physics kernel of [SimulationCanvas.tsx]

    A shallow embedding of the ticker callback registered with
    [app.ticker.add] in [src/components/SimulationCanvas.tsx] (the
    multi-hand version, lines 170-382), and the properties of it that the
    specification states; then of what surrounds the tick: the spawn of
    the particles and the set-up of the grid, the colour gradient and the
    auras of the same callback, the callback of the earlier single-hand
    version, and [onResults] and [detectGesture] of the dual-hand
    [HandDetectionService].

    Numbers.  The source computes on JavaScript numbers, which are
    doubles, and keeps the particles in [Float32Array]s.  A number is
    embedded as an extended real: a value is [NaN], an infinity, or a
    finite real.  The arithmetic on finite numbers is exact (the rounding
    of doubles, overflow of finite operands and the sign of zero are not
    represented); the special values follow IEEE-754 as JavaScript
    exposes it, so that [Number.isFinite], the comparisons that are false
    on [NaN], [x || 0.1] and [x | 0] behave as in the source.

    Stores.  The tick is embedded twice.  In the first embedding (section
    [Tick]) a store into a particle array keeps the number as it is; on
    it are stated the properties that do not depend on the precision of
    the arrays: which branch is taken and which expression is stored,
    what is finite, what the grid holds, what the tick depends on.  In
    the second (module [F32]) every store into a [Float32Array] rounds
    the number to binary32, as the source does; on it are stated the
    bounds on the positions, the sums a pair resolution keeps, the contact
    it leaves, the spawn and the free fall, which hold up to this rounding
    only.

    Scope.  The tick is embedded as far as it writes the particle arrays
    and the two grid arrays.  The aura sprites (lines 176-207) and the
    colour gradient (lines 267-278) read these arrays and write none of
    them; they are embedded on their own, next to the tick.  The copy of
    the positions into the sprites (lines 370-371) and the statistics
    (lines 374-381) are left out, as are the set-up of PixiJS, of the
    camera and of MediaPipe and the React components around them. *)

From Stdlib Require Import Reals Lra Lia ZArith Zfloor.
From stdpp Require Import base list strings gmap.

Local Open Scope R_scope.

(** ** JavaScript numbers *)

Module JS.

Inductive num : Type :=
  | NaN
  | PInf
  | NInf
  | Fin (r : R).

Definition Rltb (a b : R) : bool := if Rlt_dec a b then true else false.
Definition Reqb (a b : R) : bool := if Req_dec_T a b then true else false.

Definition isFinite (a : num) : bool :=
  match a with Fin _ => true | _ => false end.

Definition neg (a : num) : num :=
  match a with
  | NaN => NaN
  | PInf => NInf
  | NInf => PInf
  | Fin r => Fin (- r)
  end.

Definition add (a b : num) : num :=
  match a, b with
  | NaN, _ | _, NaN => NaN
  | PInf, NInf | NInf, PInf => NaN
  | PInf, _ | _, PInf => PInf
  | NInf, _ | _, NInf => NInf
  | Fin r, Fin s => Fin (r + s)
  end.

Definition sub (a b : num) : num := add a (neg b).

(** An infinity of sign [pos] multiplied by the finite [r]. *)
Definition inf_times (pos : bool) (r : R) : num :=
  if Rltb 0 r then (if pos then PInf else NInf)
  else if Rltb r 0 then (if pos then NInf else PInf)
  else NaN.

Definition mul (a b : num) : num :=
  match a, b with
  | NaN, _ | _, NaN => NaN
  | PInf, PInf | NInf, NInf => PInf
  | PInf, NInf | NInf, PInf => NInf
  | PInf, Fin r | Fin r, PInf => inf_times true r
  | NInf, Fin r | Fin r, NInf => inf_times false r
  | Fin r, Fin s => Fin (r * s)
  end.

(** Division.  A zero divisor is taken as [+0]. *)
Definition div (a b : num) : num :=
  match a, b with
  | NaN, _ | _, NaN => NaN
  | Fin _, (PInf | NInf) => Fin 0
  | (PInf | NInf), (PInf | NInf) => NaN
  | PInf, Fin s => if Rltb s 0 then NInf else PInf
  | NInf, Fin s => if Rltb s 0 then PInf else NInf
  | Fin r, Fin s =>
      if Reqb s 0 then inf_times true r else Fin (r / s)
  end.

(** [Math.sqrt] *)
Definition sqrt (a : num) : num :=
  match a with
  | NaN | NInf => NaN
  | PInf => PInf
  | Fin r => if Rltb r 0 then NaN else Fin (R_sqrt.sqrt r)
  end.

(** [a < b]; false as soon as one side is [NaN]. *)
Definition lt (a b : num) : bool :=
  match a, b with
  | NaN, _ | _, NaN => false
  | _, NInf | PInf, _ => false
  | NInf, _ | _, PInf => true
  | Fin r, Fin s => Rltb r s
  end.

(** [a > b] *)
Definition gt (a b : num) : bool := lt b a.

(** Truthiness of a number, as [||] tests it: [0] and [NaN] are falsy. *)
Definition truthy (a : num) : bool :=
  match a with
  | NaN => false
  | PInf | NInf => true
  | Fin r => negb (Reqb r 0)
  end.

(** [a || b] on numbers. *)
Definition or_else (a b : num) : num := if truthy a then a else b.

(** Truncation of a real toward zero. *)
Definition Rtrunc (r : R) : Z :=
  if Rltb r 0 then Zceil r else Zfloor r.

(** Reduction of an integer into the signed 32-bit range. *)
Definition wrap32 (z : Z) : Z :=
  ((z + 2 ^ 31) mod 2 ^ 32 - 2 ^ 31)%Z.

(** [a | 0]: ToInt32.  [NaN] and the infinities give [0]. *)
Definition toInt32 (a : num) : Z :=
  match a with
  | Fin r => wrap32 (Rtrunc r)
  | _ => 0%Z
  end.

End JS.

Import JS.

Declare Scope js_scope.
Delimit Scope js_scope with J.
Bind Scope js_scope with num.
Infix "+" := JS.add : js_scope.
Infix "-" := JS.sub : js_scope.
Infix "*" := JS.mul : js_scope.
Infix "/" := JS.div : js_scope.
Infix "<?" := JS.lt : js_scope.
Infix ">?" := JS.gt : js_scope.
Notation "- a" := (JS.neg a) : js_scope.
Infix "||" := JS.or_else : js_scope.

(** ** Data model *)

(** [types.ts]: [HandGesture] and [HandData].  The [id] of a hand is not
    read by the tick and is left out.  The two components of
    [hand.velocity] are read through [hand.velocity?.x || 0]: a missing
    [velocity] gives [undefined], which [||] replaces by [0] as it does
    [NaN], so that [NaN] components stand for it. *)
Inductive HandGesture : Type := NONE | OPEN_PALM | CLOSED_FIST.

Module Hand.
Record t : Type := mk {
  x : num;
  y : num;
  gesture : HandGesture;
  velocity_x : num;
  velocity_y : num
}.
End Hand.

(** [particlesRef.current]: five [Float32Array]s of length
    [particleCount]. *)
Module P.
Record t : Type := mk {
  x : list num;
  y : list num;
  vx : list num;
  vy : list num;
  radius : list num
}.
End P.

(** The four slots [p.x[i]], [p.y[i]], [p.vx[i]], [p.vy[i]] of one
    particle.  Pass 1 reads and writes the arrays at the loop index [i]
    only, so its body is written on the slots of that particle, read at
    the top of the iteration and stored back at its end. *)
Module B.
Record t : Type := mk {
  x : num;
  y : num;
  vx : num;
  vy : num
}.
End B.

(** What the callback closes over, fixed when the effect is set up
    (lines 154-158): the particle count and the grid dimensions. *)
Record Setup : Type := mkSetup {
  particleCount : nat;
  gridW : Z;
  gridH : Z
}.

(** The arrays a tick works on. [gridHead] and [nextParticle] are the
    [Int32Array]s of the spatial grid. *)
Record State : Type := mkState {
  p : P.t;
  gridHead : list Z;
  nextParticle : list Z
}.

(** Reading a [Float32Array] at an index: out of range the source gets
    [undefined], which every arithmetic operation turns into [NaN]. *)
Definition rd (a : list num) (i : nat) : num := default NaN (a !! i).

(** The value standing for [undefined] where an [Int32Array] is read out of
    range: as an index it is itself out of range for every array, it is
    different from the sentinel [-1] and from every loop index. *)
Definition undef : Z := (-2)%Z.

(** Reading an array at an index held in an [Int32] variable. *)
Definition rdZ (a : list num) (j : Z) : num :=
  if (j <? 0)%Z then NaN else rd a (Z.to_nat j).

Definition rdI (a : list Z) (j : Z) : Z :=
  if (j <? 0)%Z then undef else default undef (a !! Z.to_nat j).

(** Writing at an index held in an [Int32] variable; out of range the
    typed array ignores the store, as [<[i := v]>] does on a list. *)
Definition wrZ (a : list num) (j : Z) (v : num) : list num :=
  if (j <? 0)%Z then a else <[Z.to_nat j := v]> a.

Definition body_at (q : P.t) (i : nat) : B.t :=
  B.mk (rd (P.x q) i) (rd (P.y q) i) (rd (P.vx q) i) (rd (P.vy q) i).

Definition store_body (q : P.t) (i : nat) (b : B.t) : P.t :=
  P.mk (<[i := B.x b]> (P.x q)) (<[i := B.y b]> (P.y q))
       (<[i := B.vx b]> (P.vx q)) (<[i := B.vy b]> (P.vy q))
       (P.radius q).

(** ** Constants (lines 12-17, 154, 171, 261) *)

Definition GRAVITY : num := Fin 30.
Definition FRICTION_AIR : num := Fin (98 / 100).
Definition BOUNCE_WALL : num := Fin (3 / 10).
Definition BOUNCE_GROUND : num := Fin (3 / 10).
Definition HAND_RADIUS_SQ : num := (Fin 150 * Fin 150)%J.
Definition INTERACTION_FORCE : num := Fin 800.
Definition CELL_SIZE : num := Fin 12.
Definition dt : num := (Fin 1 / Fin 60)%J.
Definition MAX_VEL : num := Fin 250.
Definition MAX_ITERATIONS : nat := 50.

(** [gridW = Math.ceil(width / CELL_SIZE)] at setup, for a finite width. *)
Definition grid_dim (width : R) : Z := Zceil (width / 12).

(** ** Pass 1: integration and grid insertion (lines 212-311)

    In this section a store into a particle array keeps the number as it
    is; the tick with the stores rounded to binary32 is the module [F32]
    below. *)

Section Tick.

Variable cfg : Setup.
Variables screenW screenH : num.
Variable hands : list Hand.t.
(** [rnd i] is what [Math.random()] returns when iteration [i] of Pass 1
    calls it; an iteration calls it at most once. *)
Variable rnd : nat -> num.

(** Respawn safety (lines 214-219); [u] is the value of [Math.random()]. *)
Definition respawn_safety (u : num) (b : B.t) : B.t :=
  if negb (isFinite (B.x b)) || negb (isFinite (B.y b)) then
    B.mk (u * screenW) (screenH - Fin 50) (Fin 0) (Fin 0)
  else b.

(** One iteration of the loop over the hands (lines 226-251), on the
    accumulated acceleration [(ax, ay)] and the slots of the particle. *)
Definition hand_interaction (hand : Hand.t) (a : num * num * B.t)
  : num * num * B.t :=
  let '(ax, ay, b) := a in
  let handX := (Hand.x hand * screenW)%J in
  let handY := (Hand.y hand * screenH)%J in
  let dx := (B.x b - handX)%J in
  let dy := (B.y b - handY)%J in
  let distSq := (dx * dx + dy * dy)%J in
  if (distSq <? HAND_RADIUS_SQ)%J then
    let dist := JS.sqrt distSq in
    let nx := (dx / (dist || Fin (1 / 10)))%J in
    let ny := (dy / (dist || Fin (1 / 10)))%J in
    let falloff := (Fin 1 - dist / JS.sqrt HAND_RADIUS_SQ)%J in
    let handVelX :=
      ((Hand.velocity_x hand || Fin 0) * screenW * Fin (4 / 100))%J in
    let handVelY :=
      ((Hand.velocity_y hand || Fin 0) * screenH * Fin (4 / 100))%J in
    let b' := B.mk (B.x b) (B.y b)
                   (B.vx b + handVelX * falloff)%J
                   (B.vy b + handVelY * falloff)%J in
    let force :=
      match Hand.gesture hand with
      | OPEN_PALM => (INTERACTION_FORCE * falloff)%J
      | CLOSED_FIST => (- INTERACTION_FORCE * falloff)%J
      | NONE => Fin 0
      end in
    ((ax + nx * force)%J, (ay + ny * force)%J, b')
  else a.

(** The hand loop [for (const hand of hands)]. *)
Definition hand_loop (hs : list Hand.t) (a : num * num * B.t)
  : num * num * B.t :=
  fold_left (fun acc hand => hand_interaction hand acc) hs a.

(** Integration (lines 255-258). *)
Definition integrate (ax ay : num) (b : B.t) : B.t :=
  B.mk (B.x b) (B.y b)
       ((B.vx b + ax * dt) * FRICTION_AIR)%J
       ((B.vy b + ay * dt) * FRICTION_AIR)%J.

(** Max velocity (lines 262-265), one axis. *)
Definition clamp_vel (v : num) : num :=
  if (v >? MAX_VEL)%J then MAX_VEL
  else if (v <? - MAX_VEL)%J then (- MAX_VEL)%J
  else v.

Definition max_velocity (b : B.t) : B.t :=
  B.mk (B.x b) (B.y b) (clamp_vel (B.vx b)) (clamp_vel (B.vy b)).

(** Position update (lines 280-281). *)
Definition move (b : B.t) : B.t :=
  B.mk (B.x b + B.vx b * dt * Fin 5)%J (B.y b + B.vy b * dt * Fin 5)%J
       (B.vx b) (B.vy b).

(** Boundaries (lines 284-300), with [rRad = p.radius[i]]. *)
Definition boundaries (rRad : num) (b : B.t) : B.t :=
  let '(y1, vy1) :=
    if (B.y b >? screenH - rRad)%J then
      ((screenH - rRad)%J, (B.vy b * - BOUNCE_GROUND)%J)
    else if (B.y b <? rRad)%J then
      (rRad, (B.vy b * - BOUNCE_WALL)%J)
    else (B.y b, B.vy b) in
  let '(x1, vx1) :=
    if (B.x b >? screenW - rRad)%J then
      ((screenW - rRad)%J, (B.vx b * - BOUNCE_WALL)%J)
    else if (B.x b <? rRad)%J then
      (rRad, (B.vx b * - BOUNCE_WALL)%J)
    else (B.x b, B.vx b) in
  B.mk x1 y1 vx1 vy1.

(** Lines 221-300: what Pass 1 does to the slots of a particle once the
    respawn check is done. *)
Definition advance (rRad : num) (b : B.t) : B.t :=
  let '(ax, ay, b1) := hand_loop hands (Fin 0, GRAVITY, b) in
  boundaries rRad (move (max_velocity (integrate ax ay b1))).

(** The cell of a position (lines 303-304, 315-316). *)
Definition cell_of (v : num) : Z := toInt32 (v / CELL_SIZE)%J.

Definition in_grid (cx cy : Z) : bool :=
  (0 <=? cx)%Z && (cx <? gridW cfg)%Z && (0 <=? cy)%Z && (cy <? gridH cfg)%Z.

(** Insert into grid (lines 303-310). *)
Definition grid_insert (i : nat) (b : B.t) (st : State) : State :=
  let cx := cell_of (B.x b) in
  let cy := cell_of (B.y b) in
  if in_grid cx cy then
    let cellIdx := (cy * gridW cfg + cx)%Z in
    mkState (p st) (<[Z.to_nat cellIdx := Z.of_nat i]> (gridHead st))
            (<[i := rdI (gridHead st) cellIdx]> (nextParticle st))
  else st.

(** The body of the Pass 1 loop for the index [i]. *)
Definition pass1_body (st : State) (i : nat) : State :=
  let b0 := respawn_safety (rnd i) (body_at (p st) i) in
  let b := advance (rd (P.radius (p st)) i) b0 in
  grid_insert i b
    (mkState (store_body (p st) i b) (gridHead st) (nextParticle st)).

Definition pass1 (st : State) : State :=
  fold_left pass1_body (seq 0 (particleCount cfg)) st.

(** ** Pass 2: particle-particle collisions (lines 314-372) *)

(** The overlap test of line 335 for the loop index [i] and the list
    entry [j]. *)
Definition overlapping (q : P.t) (i : nat) (j : Z) : bool :=
  let dx := (rd (P.x q) i - rdZ (P.x q) j)%J in
  let dy := (rd (P.y q) i - rdZ (P.y q) j)%J in
  let distSq := (dx * dx + dy * dy)%J in
  let rSum := (rd (P.radius q) i + rdZ (P.radius q) j)%J in
  (distSq <? rSum * rSum)%J && (distSq >? Fin (1 / 1000))%J.

(** Positional correction (lines 341-345). *)
Definition positional_correction (i : nat) (j : Z) (nx ny overlap : num)
    (q : P.t) : P.t :=
  let percent := Fin (1 / 2) in
  let x1 := <[i := (rd (P.x q) i + nx * overlap * percent)%J]> (P.x q) in
  let y1 := <[i := (rd (P.y q) i + ny * overlap * percent)%J]> (P.y q) in
  let x2 := wrZ x1 j (rdZ x1 j - nx * overlap * percent)%J in
  let y2 := wrZ y1 j (rdZ y1 j - ny * overlap * percent)%J in
  P.mk x2 y2 (P.vx q) (P.vy q) (P.radius q).

(** Velocity response (lines 347-360). *)
Definition velocity_response (i : nat) (j : Z) (nx ny : num) (q : P.t)
  : P.t :=
  let dvx := (rd (P.vx q) i - rdZ (P.vx q) j)%J in
  let dvy := (rd (P.vy q) i - rdZ (P.vy q) j)%J in
  let dot := (dvx * nx + dvy * ny)%J in
  if (dot <? Fin 0)%J then
    let impulse := Fin (1 / 2) in
    let impulseX := (nx * dot * impulse)%J in
    let impulseY := (ny * dot * impulse)%J in
    let vx1 := <[i := (rd (P.vx q) i - impulseX)%J]> (P.vx q) in
    let vy1 := <[i := (rd (P.vy q) i - impulseY)%J]> (P.vy q) in
    let vx2 := wrZ vx1 j (rdZ vx1 j + impulseX)%J in
    let vy2 := wrZ vy1 j (rdZ vy1 j + impulseY)%J in
    P.mk (P.x q) (P.y q) vx2 vy2 (P.radius q)
  else q.

(** The contact normal and the overlap of lines 336-339. *)
Definition contact (q : P.t) (i : nat) (j : Z) : num * num * num :=
  let dx := (rd (P.x q) i - rdZ (P.x q) j)%J in
  let dy := (rd (P.y q) i - rdZ (P.y q) j)%J in
  let distSq := (dx * dx + dy * dy)%J in
  let rSum := (rd (P.radius q) i + rdZ (P.radius q) j)%J in
  let dist := JS.sqrt distSq in
  ((dx / dist)%J, (dy / dist)%J, (rSum - dist)%J).

(** Lines 336-360: the resolution of an overlapping pair. *)
Definition resolve (i : nat) (j : Z) (q : P.t) : P.t :=
  let '(nx, ny, overlap) := contact q i j in
  velocity_response i j nx ny (positional_correction i j nx ny overlap q).

(** The body of the [while] loop up to line 362. *)
Definition collide (i : nat) (j : Z) (q : P.t) : P.t :=
  if negb (Z.of_nat i =? j)%Z then
    if overlapping q i j then resolve i j q else q
  else q.

(** The [while] loop of lines 328-365.  [budget] is what is left of the 50
    iterations; the result carries the final value of [iterations]. *)
Fixpoint walk (budget : nat) (next : list Z) (i : nat) (j : Z)
    (iterations : nat) (q : P.t) : P.t * nat :=
  match budget with
  | O => (q, iterations)
  | Datatypes.S budget' =>
      if (j =? -1)%Z then (q, iterations)
      else walk budget' next i (rdI next j) (Datatypes.S iterations)
                (collide i j q)
  end.

(** The offsets [(dx, dy)] in the order of the two [for] loops of lines
    318-319. *)
Definition offsets : list (Z * Z) :=
  [(-1, -1); (0, -1); (1, -1);
   (-1, 0); (0, 0); (1, 0);
   (-1, 1); (0, 1); (1, 1)]%Z.

(** Lines 320-366 for one offset.  Next to the arrays the result lists
    the final [iterations] of each cell walked so far. *)
Definition scan_cell (head next : list Z) (i : nat) (cx cy : Z)
    (acc : P.t * list nat) (d : Z * Z) : P.t * list nat :=
  let ncx := (cx + fst d)%Z in
  let ncy := (cy + snd d)%Z in
  if in_grid ncx ncy then
    let cellIdx := (ncy * gridW cfg + ncx)%Z in
    let '(q, n) := walk MAX_ITERATIONS next i (rdI head cellIdx) 0 (fst acc) in
    (q, snd acc ++ [n])
  else acc.

(** The body of the Pass 2 loop for the index [i]. *)
Definition pass2_body (head next : list Z) (q : P.t) (i : nat)
  : P.t * list nat :=
  let cx := cell_of (rd (P.x q) i) in
  let cy := cell_of (rd (P.y q) i) in
  fold_left (scan_cell head next i cx cy) offsets (q, []).

Definition pass2 (head next : list Z) (q : P.t) : P.t :=
  fold_left (fun q i => fst (pass2_body head next q i))
            (seq 0 (particleCount cfg)) q.

(** ** The tick (lines 209-372) *)

(** [gridHead.fill(-1)] *)
Definition clear_grid (st : State) : State :=
  mkState (p st) (replicate (length (gridHead st)) (-1)%Z) (nextParticle st).

Definition after_pass1 (st : State) : State := pass1 (clear_grid st).

Definition tick (st : State) : State :=
  let st1 := after_pass1 st in
  mkState (pass2 (gridHead st1) (nextParticle st1) (p st1))
          (gridHead st1) (nextParticle st1).

End Tick.

(** ** Notions used to state the properties *)

(** [a <= b] on numbers; false as soon as one side is [NaN]. *)
Definition le (a b : num) : Prop :=
  match a, b with
  | NaN, _ | _, NaN => False
  | NInf, _ | _, PInf => True
  | _, NInf | PInf, _ => False
  | Fin r, Fin s => r <= s
  end.

(** [|a| <= b] *)
Definition abs_le (a b : num) : Prop := le (- b)%J a /\ le a b.

(** The slots of a particle of radius [rRad] lie inside the screen. *)
Definition in_bounds (screenW screenH rRad : num) (b : B.t) : Prop :=
  le rRad (B.x b) /\ le (B.x b) (screenW - rRad)%J /\
  le rRad (B.y b) /\ le (B.y b) (screenH - rRad)%J.

Definition finite_body (b : B.t) : Prop :=
  isFinite (B.x b) = true /\ isFinite (B.y b) = true /\
  isFinite (B.vx b) = true /\ isFinite (B.vy b) = true.

(** The velocity a hand injects is finite: [hand.velocity.x || 0] is. *)
Definition finite_hand (h : Hand.t) : Prop :=
  isFinite (Hand.velocity_x h || Fin 0)%J = true /\
  isFinite (Hand.velocity_y h || Fin 0)%J = true.

(** The arrays have the lengths they are allocated with (lines 53-61 and
    157-158). *)
Definition wf_state (cfg : Setup) (st : State) : Prop :=
  length (P.x (p st)) = particleCount cfg /\
  length (P.y (p st)) = particleCount cfg /\
  length (P.vx (p st)) = particleCount cfg /\
  length (P.vy (p st)) = particleCount cfg /\
  length (P.radius (p st)) = particleCount cfg /\
  length (gridHead st) = Z.to_nat (gridW cfg * gridH cfg) /\
  length (nextParticle st) = particleCount cfg.

(** The index of the grid cell Pass 1 files a particle under, if any
    (lines 303-307). *)
Definition cell_index (cfg : Setup) (b : B.t) : option Z :=
  let cx := cell_of (B.x b) in
  let cy := cell_of (B.y b) in
  if in_grid cfg cx cy then Some (cy * gridW cfg + cx)%Z else None.

(** [linked next j l]: following [nextParticle] from the entry [j] one
    meets the particles [l], in this order, and then the sentinel [-1]. *)
Inductive linked (next : list Z) : Z -> list nat -> Prop :=
  | linked_nil : linked next (-1)%Z []
  | linked_cons (k : nat) (l : list nat) :
      linked next (rdI next (Z.of_nat k)) l ->
      linked next (Z.of_nat k) (k :: l).

(** The particles among the first [k] whose slots [f i] fall into the
    cell [c], the highest index first. *)
Definition members (cfg : Setup) (f : nat -> B.t) (k : nat) (c : Z)
  : list nat :=
  rev (List.filter
         (fun i => bool_decide (cell_index cfg (f i) = Some c))
         (seq 0 k)).

(** The slots Pass 1 leaves for the particle [i] of the arrays [q]. *)
Definition pass1_slots (screenW screenH : num) (hands : list Hand.t)
    (rnd : nat -> num) (q : P.t) (i : nat) : B.t :=
  advance screenW screenH hands (rd (P.radius q) i)
          (respawn_safety screenW screenH (rnd i) (body_at q i)).

(** No pair of distinct particles passes the overlap test. *)
Definition no_overlap (q : P.t) : Prop :=
  forall (i : nat) (j : Z), Z.of_nat i <> j -> overlapping q i j = false.

(** The acceleration one hand adds for a particle (lines 249-250). *)
Definition hand_accel (screenW screenH : num) (hand : Hand.t) (b : B.t)
  : num * num :=
  let '(ax, ay, _) := hand_interaction screenW screenH hand (Fin 0, Fin 0, b) in
  (ax, ay).

(** ** Sample inputs *)

(** Two particles of radius 2 at rest, a hundredth of a pixel apart. *)
Definition q_close : P.t :=
  P.mk [Fin 0; Fin (1 / 100)] [Fin 0; Fin 0]
       [Fin 0; Fin 0] [Fin 0; Fin 0] [Fin 2; Fin 2].

(** A simulation of one particle set up on a 12 x 12 screen, whose grid
    has the single cell [grid_dim 12 = 1] wide and high, and which later
    runs on a screen enlarged to 48 x 48. *)
Definition cfg_one : Setup := mkSetup 1 1 1.

Definition st_far : State :=
  mkState (P.mk [Fin 30] [Fin 30] [Fin 0] [Fin 0] [Fin 2]) [(-1)%Z] [(-1)%Z].

Definition rnd_half : nat -> num := fun _ => Fin (1 / 2).

(** A simulation of two particles on a 24 x 24 screen ([grid_dim 24 = 2]):
    both of radius 2, at rest on the ground, the first one touching the
    left wall and the second one pixel to its right. *)
Definition cfg_two : Setup := mkSetup 2 2 2.

Definition st_wall : State :=
  mkState (P.mk [Fin 2; Fin 3] [Fin 22; Fin 22]
                [Fin 0; Fin 0] [Fin 0; Fin 0] [Fin 2; Fin 2])
          [-1; -1; -1; -1]%Z [-1; -1]%Z.

(** An open palm in the middle of a 100 x 100 screen and a particle at
    rest 3 pixels to its right and 4 below, at distance 5. *)
Definition hand_palm : Hand.t :=
  Hand.mk (Fin (1 / 2)) (Fin (1 / 2)) OPEN_PALM (Fin 0) (Fin 0).

Definition b_near : B.t := B.mk (Fin 53) (Fin 54) (Fin 0) (Fin 0).

(** The state [st_wall] with other leftovers in the two grid arrays, and
    another source of random numbers. *)
Definition st_wall_stale : State :=
  mkState (p st_wall) [1; 0; 1; 0]%Z [1; 1]%Z.

Definition rnd_zero : nat -> num := fun _ => Fin 0.

(** One particle on a 120 x 120 screen ([grid_dim 120 = 10]): in
    [st_nan] its position is finite and its horizontal velocity is [NaN];
    in [st_lost] its horizontal position is [NaN]. *)
Definition cfg_wide : Setup := mkSetup 1 10 10.

Definition st_nan : State :=
  mkState (P.mk [Fin 60] [Fin 60] [NaN] [Fin 0] [Fin 2])
          (replicate 100 (-1)%Z) [(-1)%Z].

Definition st_lost : State :=
  mkState (P.mk [NaN] [Fin 60] [Fin 7] [Fin 7] [Fin 2])
          (replicate 100 (-1)%Z) [(-1)%Z].

(** Two particles of radius 2 on a 48 x 48 screen ([grid_dim 48 = 4]),
    both moving right at [MAX_VEL], the lower one moving up and the upper
    one moving down at [MAX_VEL]; after Pass 1 they overlap, the first
    [3/4] to the left of and [1] below the second. *)
Definition cfg_four : Setup := mkSetup 2 4 4.

Definition st_cross : State :=
  mkState (P.mk [Fin (37 / 4); Fin 10] [Fin (275 / 6); Fin 4]
                [Fin 250; Fin 250] [Fin (- 250); Fin 250]
                [Fin 2; Fin 2])
          (replicate 16 (-1)%Z) [-1; -1]%Z.

(** What a tick reads from outside the arrays: the screen, the hands and
    the random numbers of this tick. *)
Record Frame : Type := mkFrame {
  frame_screenW : num;
  frame_screenH : num;
  frame_hands : list Hand.t;
  frame_rnd : nat -> num
}.

(** The ticks of successive frames, the callback being invoked once per
    frame by [app.ticker]. *)
Definition run (cfg : Setup) (frames : list Frame) (st : State) : State :=
  fold_left
    (fun st f =>
       tick cfg (frame_screenW f) (frame_screenH f) (frame_hands f)
            (frame_rnd f) st)
    frames st.

(** The lengths of the four arrays Pass 2 writes. *)
Definition shape (q : P.t) : nat * nat * nat * nat :=
  (length (P.x q), length (P.y q), length (P.vx q), length (P.vy q)).

(** Two particles of radius 3 whose centres are 5 apart, the first moving
    towards the second. *)
Definition q_hit : P.t :=
  P.mk [Fin 0; Fin 3] [Fin 0; Fin 4] [Fin 1; Fin 0] [Fin 1; Fin 0]
       [Fin 3; Fin 3].

(** Every radius the arrays hold is finite. *)
Definition finite_radii (q : P.t) : Prop :=
  forall k : nat,
    (k < length (P.radius q))%nat -> isFinite (rd (P.radius q) k) = true.

(** A particle is settled when a finite position comes with a finite
    velocity. *)
Definition settled (b : B.t) : Prop :=
  isFinite (B.x b) = true -> isFinite (B.y b) = true -> finite_body b.

(** The arrays of a population whose particles are all settled, those
    selected by [S] having finite slots. *)
Definition sane (S : nat -> Prop) (q : P.t) : Prop :=
  finite_radii q /\
  (forall k : nat, settled (body_at q k)) /\
  (forall k : nat, S k -> finite_body (body_at q k)).

(** Two particles on a 24 x 24 screen: the first at rest on the ground,
    the second with a position and a velocity that are not numbers. *)
Definition st_mixed : State :=
  mkState (P.mk [Fin 2; NaN] [Fin 22; PInf] [Fin 0; NaN] [Fin 0; NInf]
                [Fin 2; Fin 2])
          [-1; -1; -1; -1]%Z [-1; -1]%Z.

(** ** The colour of a particle (lines 18-31, 130 and 267-278) *)

Definition COLOR_SLOW_R : num := Fin 20.
Definition COLOR_SLOW_G : num := Fin 30.
Definition COLOR_SLOW_B : num := Fin 150.
Definition COLOR_FAST_R : num := Fin 180.
Definition COLOR_FAST_G : num := Fin 20.
Definition COLOR_FAST_B : num := Fin 20.

Definition DELTA_R : num := (COLOR_FAST_R - COLOR_SLOW_R)%J.
Definition DELTA_G : num := (COLOR_FAST_G - COLOR_SLOW_G)%J.
Definition DELTA_B : num := (COLOR_FAST_B - COLOR_SLOW_B)%J.

Definition COLOR_MAX_SPEED : num := Fin 200.
Definition INV_COLOR_MAX_SPEED : num := (Fin 1 / COLOR_MAX_SPEED)%J.

(** [a << n] on an [Int32] value [a]: the shift count is taken modulo 32
    and the result reduced to 32 bits. *)
Definition shl32 (a n : Z) : Z := wrap32 (Z.shiftl a (n mod 32)).

(** [(r << 16) | (g << 8) | b]; [|] on [Int32] values is [Z.lor]. *)
Definition rgb (r g b : Z) : Z := Z.lor (Z.lor (shl32 r 16) (shl32 g 8)) b.

(** The tint of the sprites at the spawn (line 130). *)
Definition initialTint : Z :=
  rgb (toInt32 COLOR_SLOW_R) (toInt32 COLOR_SLOW_G) (toInt32 COLOR_SLOW_B).

(** Color gradient (lines 267-278): the tint for the velocity
    [(vx, vy)]. *)
Definition tint_of (vx vy : num) : Z :=
  let speedSq := (vx * vx + vy * vy)%J in
  let speed := JS.sqrt speedSq in
  let t0 := (speed * INV_COLOR_MAX_SPEED)%J in
  let t := if (t0 >? Fin 1)%J then Fin 1 else t0 in
  let r := toInt32 (COLOR_SLOW_R + DELTA_R * t)%J in
  let g := toInt32 (COLOR_SLOW_G + DELTA_G * t)%J in
  let b := toInt32 (COLOR_SLOW_B + DELTA_B * t)%J in
  rgb r g b.

(** The tint Pass 1 gives the sprite of the particle [i] of the arrays
    [q]: that of its velocity after the clamp of lines 260-265. *)
Definition pass1_tint (screenW screenH : num) (hands : list Hand.t)
    (rnd : nat -> num) (q : P.t) (i : nat) : Z :=
  let b0 := respawn_safety screenW screenH (rnd i) (body_at q i) in
  let '(ax, ay, b1) := hand_loop screenW screenH hands (Fin 0, GRAVITY, b0) in
  let b2 := max_velocity (integrate ax ay b1) in
  tint_of (B.vx b2) (B.vy b2).

(** A frame with a finite screen, hands of finite velocity and finite
    random numbers. *)
Definition finite_frame (f : Frame) : Prop :=
  isFinite (frame_screenW f) = true /\ isFinite (frame_screenH f) = true /\
  Forall finite_hand (frame_hands f) /\
  forall k : nat, isFinite (frame_rnd f k) = true.

(** The arrays have their lengths, the radii are finite and the
    particles selected by [S] have finite slots. *)
Definition steady (cfg : Setup) (S : nat -> Prop) (st : State) : Prop :=
  wf_state cfg st /\
  (forall k : nat,
     (k < particleCount cfg)%nat -> isFinite (rd (P.radius (p st)) k) = true) /\
  (forall k : nat,
     (k < particleCount cfg)%nat -> S k -> finite_body (body_at (p st) k)).

(** [Number.isNaN] *)
Definition isNaN (a : num) : bool :=
  match a with
  | NaN => true
  | _ => false
  end.

(** ** The spawn (lines 53-61 and 126-158) *)

(** The arrays as allocated: [new Float32Array(particleCount)]. *)
Definition allocate (count : nat) : P.t :=
  P.mk (replicate count (Fin 0)) (replicate count (Fin 0))
       (replicate count (Fin 0)) (replicate count (Fin 0))
       (replicate count (Fin 0)).

(** Spatial grid setup (lines 154-158) for a screen of finite
    dimensions. *)
Definition setup (count : nat) (width height : R) : Setup :=
  mkSetup count (grid_dim width) (grid_dim height).

(** [Math.random()] returns a number in [[0, 1)]. *)
Definition uniform (rnd : nat -> num) : Prop :=
  forall k : nat, exists u : R, rnd k = Fin u /\ 0 <= u < 1.

(** ** The hand detection service ([HandDetectionService], dual-hand
    version; the lines are those of [src/unnamed/part_001]) *)

(** A landmark of MediaPipe Hands. *)
Module Landmark.
Record t : Type := mk {
  x : num;
  y : num;
  z : num
}.
End Landmark.

(** An entry of [results.multiHandedness]. *)
Record Handedness : Type := mkHandedness {
  label : string;
  score : num
}.

(** [Results]: both fields may be missing. *)
Record Results : Type := mkResults {
  multiHandLandmarks : option (list (list Landmark.t));
  multiHandedness : option (list Handedness)
}.

(** An entry of [lastPositions]. *)
Record LastPos : Type := mkLastPos {
  last_x : num;
  last_y : num;
  last_time : num
}.

(** A [HandData] as the service reports it: the [id] and what the tick
    reads. *)
Record Detected : Type := mkDetected {
  hand_id : string;
  hand_data : Hand.t
}.

(** [Math.hypot] of two numbers: an infinite argument gives [Infinity]
    even next to a [NaN]. *)
Definition hypot (a b : num) : num :=
  match a, b with
  | PInf, _ | NInf, _ | _, PInf | _, NInf => PInf
  | _, _ => JS.sqrt (a * a + b * b)%J
  end.

(** The distance of the landmark [l] from the wrist. *)
Definition from_wrist (wrist l : Landmark.t) : num :=
  hypot (Landmark.x l - Landmark.x wrist)%J (Landmark.y l - Landmark.y wrist)%J.

(** [isFingerOpen] (lines 416-422).  Reading a coordinate of a landmark
    the array does not have throws: the result is [None]. *)
Definition isFingerOpen (landmarks : list Landmark.t) (wrist : Landmark.t)
    (tipIdx mcpIdx : nat) : option bool :=
  tip ← landmarks !! tipIdx;
  mcp ← landmarks !! mcpIdx;
  Some (from_wrist wrist tip >? from_wrist wrist mcp * Fin (13 / 10))%J.

(** [detectGesture] (lines 413-438). *)
Definition detectGesture (landmarks : list Landmark.t) : option HandGesture :=
  wrist ← landmarks !! 0%nat;
  indexOpen ← isFingerOpen landmarks wrist 8 5;
  middleOpen ← isFingerOpen landmarks wrist 12 9;
  ringOpen ← isFingerOpen landmarks wrist 16 13;
  pinkyOpen ← isFingerOpen landmarks wrist 20 17;
  thumbTip ← landmarks !! 4%nat;
  thumbIP ← landmarks !! 3%nat;
  let thumbOpen := (from_wrist wrist thumbTip >? from_wrist wrist thumbIP)%J in
  let openCount :=
    length (List.filter (fun b : bool => b)
              [indexOpen; middleOpen; ringOpen; pinkyOpen; thumbOpen]) in
  Some (if (3 <=? openCount)%nat then OPEN_PALM else CLOSED_FIST).

(** The raw handedness of the hand number [index] (lines 365-367). *)
Definition mpLabel (results : Results) (index : nat) : string :=
  let fallback := if (index =? 0)%nat then "Right"%string else "Left"%string in
  match multiHandedness results with
  | Some hs =>
      match hs !! index with
      | Some h => label h
      | None => fallback
      end
  | None => fallback
  end.

(** The label after the swap of line 374. *)
Definition swap_label (mp : string) : string :=
  if bool_decide (mp = "Left"%string) then "Right"%string else "Left"%string.

(** The velocity of lines 385-396 for a hand at [(centerX, centerY)]. *)
Definition velocity_since (now centerX centerY : num)
    (lastPos : option LastPos) : num * num :=
  match lastPos with
  | Some lp =>
      let dt := ((now - last_time lp) / Fin 1000)%J in
      if (dt >? Fin (1 / 100))%J
      then (((centerX - last_x lp) / dt)%J, ((centerY - last_y lp) / dt)%J)
      else (Fin 0, Fin 0)
  | None => (Fin 0, Fin 0)
  end.

(** The callback of [forEach] (lines 363-408) on the history and the
    hands pushed so far; [None] when it throws. *)
Definition each_hand (now : num) (results : Results)
    (acc : gmap string LastPos * list Detected) (index : nat)
    (landmarks : list Landmark.t)
  : option (gmap string LastPos * list Detected) :=
  let lbl := swap_label (mpLabel results index) in
  wrist ← landmarks !! 0%nat;
  middleMCP ← landmarks !! 9%nat;
  let centerX :=
    (Fin 1 - (Landmark.x wrist + Landmark.x middleMCP) / Fin 2)%J in
  let centerY := ((Landmark.y wrist + Landmark.y middleMCP) / Fin 2)%J in
  gesture ← detectGesture landmarks;
  let velocity := velocity_since now centerX centerY (fst acc !! lbl) in
  Some (<[lbl := mkLastPos centerX centerY now]> (fst acc),
        snd acc ++ [mkDetected lbl
                      (Hand.mk centerX centerY gesture
                               (fst velocity) (snd velocity))]).

(** [forEach] from the hand number [index] on.  The result is the
    history and what [onHandUpdate] is called with; when the callback
    throws, the history keeps what the earlier hands stored and
    [onHandUpdate] is not called. *)
Fixpoint for_each (now : num) (results : Results) (index : nat)
    (hands : list (list Landmark.t))
    (acc : gmap string LastPos * list Detected)
  : gmap string LastPos * option (list Detected) :=
  match hands with
  | [] => (fst acc, Some (snd acc))
  | landmarks :: hands' =>
      match each_hand now results acc index landmarks with
      | Some acc' => for_each now results (Datatypes.S index) hands' acc'
      | None => (fst acc, None)
      end
  end.

(** [onResults] (lines 353-411); [now] is what [performance.now()]
    returns. *)
Definition onResults (now : num) (results : Results)
    (lastPositions : gmap string LastPos)
  : gmap string LastPos * option (list Detected) :=
  match multiHandLandmarks results with
  | None | Some [] => (∅, Some [])
  | Some hands => for_each now results 0 hands (lastPositions, [])
  end.

(** The coordinates of a landmark are finite. *)
Definition finite_landmark (l : Landmark.t) : Prop :=
  isFinite (Landmark.x l) = true /\ isFinite (Landmark.y l) = true.

(** A change of frame of the landmarks: each axis scaled, possibly
    mirrored, and shifted. *)
Definition reframe (a b tx ty : R) (l : Landmark.t) : Landmark.t :=
  Landmark.mk (Fin a * Landmark.x l + Fin tx)%J
              (Fin b * Landmark.y l + Fin ty)%J (Landmark.z l).

(** The entries of the history hold finite numbers, the coordinates
    satisfying [ok]. *)
Definition history_in (ok : R -> Prop) (last : gmap string LastPos) : Prop :=
  forall (k : string) (lp : LastPos),
    last !! k = Some lp ->
    exists lx ly lt : R,
      lp = mkLastPos (Fin lx) (Fin ly) (Fin lt) /\ ok lx /\ ok ly.

(** The landmarks the centre of a hand is computed from satisfy [ok],
    and none of the 21 is missing. *)
Definition tracked_in (ok : R -> Prop) (landmarks : list Landmark.t) : Prop :=
  (21 <= length landmarks)%nat /\
  forall (k : nat) (l : Landmark.t),
    landmarks !! k = Some l ->
    exists (lx ly : R) (lz : num),
      l = Landmark.mk (Fin lx) (Fin ly) lz /\ ok lx /\ ok ly.

(** A component of a reported velocity: zero, or at most 100 times the
    distance of the coordinate [c] from one that satisfies [ok]. *)
Definition paced (ok : R -> Prop) (v c : R) : Prop :=
  v = 0 \/ exists l : R, ok l /\ Rabs v <= 100 * Rabs (c - l).

(** A reported hand: an id of the two, a gesture, a position whose
    coordinates satisfy [ok] and a paced velocity. *)
Definition reported_in (ok : R -> Prop) (d : Detected) : Prop :=
  (hand_id d = "Left"%string \/ hand_id d = "Right"%string) /\
  Hand.gesture (hand_data d) <> NONE /\
  exists x y vx vy : R,
    Hand.x (hand_data d) = Fin x /\ Hand.y (hand_data d) = Fin y /\
    Hand.velocity_x (hand_data d) = Fin vx /\
    Hand.velocity_y (hand_data d) = Fin vy /\
    ok x /\ ok y /\ paced ok vx x /\ paced ok vy y.

(** The coordinates normalised by the image: between 0 and 1. *)
Definition normalised (c : R) : Prop := 0 <= c <= 1.

(** A hand with 21 landmarks on it. *)
Definition sample_hand : list Landmark.t :=
  (fun c : R * R => Landmark.mk (Fin (fst c / 100)) (Fin (snd c / 100)) (Fin 0))
  <$> [(50, 90); (42, 85); (36, 78); (32, 70); (28, 62);
       (44, 60); (43, 50); (42, 42); (41, 34);
       (50, 58); (50, 46); (50, 37); (50, 28);
       (56, 60); (57, 50); (58, 42); (59, 35);
       (62, 64); (64, 57); (66, 51); (68, 45)].

(** Every coordinate is admitted: only finiteness is asked. *)
Definition any_coord (c : R) : Prop := True.

(** The hand reports no velocity. *)
Definition still (d : Detected) : Prop :=
  Hand.velocity_x (hand_data d) = Fin 0 /\
  Hand.velocity_y (hand_data d) = Fin 0.

(** Results that show the hand [sample_hand], labelled by MediaPipe as a
    left hand. *)
Definition sample_results : Results :=
  mkResults (Some [sample_hand]) (Some [mkHandedness "Left" (Fin (9 / 10))]).

(** ** The single-hand ticker (the earlier version of the callback,
    lines 567-765) *)

Section TickSingle.

Variable cfg : Setup.
Variables screenW screenH : num.
(** [handDataRef.current] *)
Variable hand : Hand.t.
Variable rnd : nat -> num.

(** Lines 572-579: the hand on the screen; a hand that is nowhere is
    put at [(-1000, -1000)]. *)
Definition hand_point : num * num :=
  let handX := (Hand.x hand * screenW)%J in
  let handY := (Hand.y hand * screenH)%J in
  if negb (isFinite handX) || negb (isFinite handY)
  then (Fin (-1000), Fin (-1000))
  else (handX, handY).

(** Line 574 *)
Definition hasHand : bool :=
  match Hand.gesture hand with
  | NONE => false
  | _ => true
  end.

(** Lines 606-607 *)
Definition hand_vel : num * num :=
  (((if isFinite (Hand.velocity_x hand) then Hand.velocity_x hand else Fin 0)
    * screenW * Fin (4 / 100))%J,
   ((if isFinite (Hand.velocity_y hand) then Hand.velocity_y hand else Fin 0)
    * screenH * Fin (4 / 100))%J).

(** Hand interaction (lines 625-646). *)
Definition hand_interaction_single (a : num * num * B.t) : num * num * B.t :=
  let '(ax, ay, b) := a in
  if hasHand then
    let dx := (B.x b - fst hand_point)%J in
    let dy := (B.y b - snd hand_point)%J in
    let distSq := (dx * dx + dy * dy)%J in
    if (distSq <? HAND_RADIUS_SQ)%J then
      let dist := JS.sqrt distSq in
      let nx := (dx / (dist || Fin (1 / 10)))%J in
      let ny := (dy / (dist || Fin (1 / 10)))%J in
      let falloff := (Fin 1 - dist / JS.sqrt HAND_RADIUS_SQ)%J in
      let b' := B.mk (B.x b) (B.y b)
                     (B.vx b + fst hand_vel * falloff)%J
                     (B.vy b + snd hand_vel * falloff)%J in
      let force :=
        match Hand.gesture hand with
        | OPEN_PALM => (INTERACTION_FORCE * falloff)%J
        | CLOSED_FIST => (- INTERACTION_FORCE * falloff)%J
        | NONE => Fin 0
        end in
      ((ax + nx * force)%J, (ay + ny * force)%J, b')
    else a
  else a.

(** Lines 621-681. *)
Definition advance_single (rRad : num) (b : B.t) : B.t :=
  let '(ax, ay, b1) := hand_interaction_single (Fin 0, GRAVITY, b) in
  boundaries screenW screenH rRad (move (max_velocity (integrate ax ay b1))).

(** The body of the Pass 1 loop (lines 612-692). *)
Definition pass1_body_single (st : State) (i : nat) : State :=
  let b0 := respawn_safety screenW screenH (rnd i) (body_at (p st) i) in
  let b := advance_single (rd (P.radius (p st)) i) b0 in
  grid_insert cfg i b
    (mkState (store_body (p st) i b) (gridHead st) (nextParticle st)).

(** The tick (lines 609-753); Pass 2 is that of the later version. *)
Definition tick_single (st : State) : State :=
  let st1 :=
    fold_left pass1_body_single (seq 0 (particleCount cfg)) (clear_grid st) in
  mkState (pass2 cfg (gridHead st1) (nextParticle st1) (p st1))
          (gridHead st1) (nextParticle st1).

End TickSingle.

(** ** The auras (lines 102-112, 165-169 and 176-207) *)

(** What the ticker writes of an aura sprite. *)
Module Sprite.
Record t : Type := mk {
  x : num;
  y : num;
  alpha : num;
  tint : Z;
  scale : num
}.
End Sprite.

(** The two arrays [auraSprites] and [smoothHands], of two entries
    each. *)
Record Auras : Type := mkAuras {
  auraSprites : list Sprite.t;
  smoothHands : list (num * num)
}.

(** [s.alpha *= 0.9] *)
Definition fade (s : Sprite.t) : Sprite.t :=
  Sprite.mk (Sprite.x s) (Sprite.y s) (Sprite.alpha s * Fin (9 / 10))%J
            (Sprite.tint s) (Sprite.scale s).

(** Smooth movement (lines 190-191), one coordinate. *)
Definition smooth (s handC : num) : num := (s + (handC - s) * Fin (2 / 10))%J.

(** The callback of [hands.forEach] (lines 182-207).  The arrays have
    an entry for every [index] below 2. *)
Definition aura_hand (screenW screenH : num) (au : Auras) (index : nat)
    (hand : Hand.t) : Auras :=
  if (2 <=? index)%nat then au
  else
    match smoothHands au !! index with
    | Some (sx, sy) =>
        let handX := (Hand.x hand * screenW)%J in
        let handY := (Hand.y hand * screenH)%J in
        let sx' := smooth sx handX in
        let sy' := smooth sy handY in
        let sprite :=
          match Hand.gesture hand with
          | OPEN_PALM =>
              Sprite.mk sx' sy' (Fin (4 / 10)) 16766720 (Fin (11 / 10))
          | CLOSED_FIST =>
              Sprite.mk sx' sy' (Fin (5 / 10)) 16777215 (Fin (9 / 10))
          | NONE =>
              Sprite.mk sx' sy' (Fin (2 / 10)) 16769202 (Fin 1)
          end in
        mkAuras (<[index := sprite]> (auraSprites au))
                (<[index := (sx', sy')]> (smoothHands au))
    | None => au
    end.

(** [hands.forEach] from the hand number [index] on. *)
Fixpoint aura_each (screenW screenH : num) (index : nat)
    (hands : list Hand.t) (au : Auras) : Auras :=
  match hands with
  | [] => au
  | hand :: hands' =>
      aura_each screenW screenH (Datatypes.S index) hands'
                (aura_hand screenW screenH au index hand)
  end.

(** Update auras (lines 176-207). *)
Definition update_auras (screenW screenH : num) (hands : list Hand.t)
    (au : Auras) : Auras :=
  aura_each screenW screenH 0 hands
            (mkAuras (fade <$> auraSprites au) (smoothHands au)).

(** The horizontal position the aura [k] is smoothed to. *)
Definition smooth_x (au : Auras) (k : nat) : num :=
  default NaN (fst <$> smoothHands au !! k).

(** ** The candidates of Pass 2 *)

(** The particles Pass 2 is meant to test a particle of the cell
    [(cx, cy)] against: for each of the nine cells around it that is in
    the grid, in the order of the scan, the first [MAX_ITERATIONS] of the
    particles whose slots [f] fall into the cell, the highest index
    first. *)
Definition neighbours (cfg : Setup) (f : nat -> B.t) (cx cy : Z)
  : list nat :=
  flat_map
    (fun d : Z * Z =>
       let ncx := (cx + fst d)%Z in
       let ncy := (cy + snd d)%Z in
       if in_grid cfg ncx ncy
       then firstn MAX_ITERATIONS
              (members cfg f (particleCount cfg) (ncy * gridW cfg + ncx)%Z)
       else [])
    offsets.

(** ** [Float32Array] stores

    The five arrays of the particles are [Float32Array]s: a store rounds
    the number to the nearest value of the binary32 format, ties going to
    the even significand, and what is read back is the rounded value.
    [round32] is this rounding on the reals, for a significand of 24 bits
    and the subnormal values below [2 ^ -126].  There is no overflow: a
    result too large for the format stays finite here. *)

Definition bpow (e : Z) : R := powerRZ 2 e.

(** The exponent [e] of the binade of [x]: [2 ^ e <= |x| < 2 ^ (e + 1)]. *)
Definition mag (x : R) : Z := Zfloor (ln (Rabs x) / ln 2).

(** Rounding to the nearest integer, ties to even. *)
Definition rne (x : R) : Z :=
  let f := Zfloor x in
  if Rltb (x - IZR f) (1 / 2) then f
  else if Rltb (1 / 2) (x - IZR f) then (f + 1)%Z
  else if Z.even f then f else (f + 1)%Z.

(** The exponent of the last place of [x]. *)
Definition fexp (x : R) : Z := Z.max (mag x - 23) (-149).

Definition round32 (x : R) : R :=
  IZR (rne (x * bpow (- fexp x))) * bpow (fexp x).

(** [Math.fround]: the value a [Float32Array] holds after the store of
    [a]. *)
Definition fround (a : num) : num :=
  match a with
  | Fin r => Fin (round32 r)
  | _ => a
  end.

(** ** The tick on [Float32Array]s

    The tick again, with every store into [p.x], [p.y], [p.vx] and [p.vy]
    rounded by [fround]; what is computed between two stores is computed
    on JavaScript numbers as above.  The overlap test, the contact normal
    and the grid write no particle array and are those of the previous
    section. *)

Module F32.

Section Tick.

Variable cfg : Setup.
Variables screenW screenH : num.
Variable hands : list Hand.t.
Variable rnd : nat -> num.

(** Respawn safety (lines 214-219). *)
Definition respawn_safety (u : num) (b : B.t) : B.t :=
  if negb (isFinite (B.x b)) || negb (isFinite (B.y b)) then
    B.mk (fround (u * screenW)) (fround (screenH - Fin 50))
         (fround (Fin 0)) (fround (Fin 0))
  else b.

(** One iteration of the loop over the hands (lines 226-251). *)
Definition hand_interaction (hand : Hand.t) (a : num * num * B.t)
  : num * num * B.t :=
  let '(ax, ay, b) := a in
  let handX := (Hand.x hand * screenW)%J in
  let handY := (Hand.y hand * screenH)%J in
  let dx := (B.x b - handX)%J in
  let dy := (B.y b - handY)%J in
  let distSq := (dx * dx + dy * dy)%J in
  if (distSq <? HAND_RADIUS_SQ)%J then
    let dist := JS.sqrt distSq in
    let nx := (dx / (dist || Fin (1 / 10)))%J in
    let ny := (dy / (dist || Fin (1 / 10)))%J in
    let falloff := (Fin 1 - dist / JS.sqrt HAND_RADIUS_SQ)%J in
    let handVelX :=
      ((Hand.velocity_x hand || Fin 0) * screenW * Fin (4 / 100))%J in
    let handVelY :=
      ((Hand.velocity_y hand || Fin 0) * screenH * Fin (4 / 100))%J in
    let b' := B.mk (B.x b) (B.y b)
                   (fround (B.vx b + handVelX * falloff))
                   (fround (B.vy b + handVelY * falloff)) in
    let force :=
      match Hand.gesture hand with
      | OPEN_PALM => (INTERACTION_FORCE * falloff)%J
      | CLOSED_FIST => (- INTERACTION_FORCE * falloff)%J
      | NONE => Fin 0
      end in
    ((ax + nx * force)%J, (ay + ny * force)%J, b')
  else a.

Definition hand_loop (hs : list Hand.t) (a : num * num * B.t)
  : num * num * B.t :=
  fold_left (fun acc hand => hand_interaction hand acc) hs a.

(** Integration (lines 255-258): two stores for each component. *)
Definition integrate (ax ay : num) (b : B.t) : B.t :=
  B.mk (B.x b) (B.y b)
       (fround (fround (B.vx b + ax * dt) * FRICTION_AIR))
       (fround (fround (B.vy b + ay * dt) * FRICTION_AIR)).

(** Max velocity (lines 262-265), one axis. *)
Definition clamp_vel (v : num) : num :=
  if (v >? MAX_VEL)%J then fround MAX_VEL
  else if (v <? - MAX_VEL)%J then fround (- MAX_VEL)
  else v.

Definition max_velocity (b : B.t) : B.t :=
  B.mk (B.x b) (B.y b) (clamp_vel (B.vx b)) (clamp_vel (B.vy b)).

(** Position update (lines 280-281). *)
Definition move (b : B.t) : B.t :=
  B.mk (fround (B.x b + B.vx b * dt * Fin 5))
       (fround (B.y b + B.vy b * dt * Fin 5))
       (B.vx b) (B.vy b).

(** Boundaries (lines 284-300), with [rRad = p.radius[i]]. *)
Definition boundaries (rRad : num) (b : B.t) : B.t :=
  let '(y1, vy1) :=
    if (B.y b >? screenH - rRad)%J then
      (fround (screenH - rRad), fround (B.vy b * - BOUNCE_GROUND))
    else if (B.y b <? rRad)%J then
      (fround rRad, fround (B.vy b * - BOUNCE_WALL))
    else (B.y b, B.vy b) in
  let '(x1, vx1) :=
    if (B.x b >? screenW - rRad)%J then
      (fround (screenW - rRad), fround (B.vx b * - BOUNCE_WALL))
    else if (B.x b <? rRad)%J then
      (fround rRad, fround (B.vx b * - BOUNCE_WALL))
    else (B.x b, B.vx b) in
  B.mk x1 y1 vx1 vy1.

(** Lines 221-300. *)
Definition advance (rRad : num) (b : B.t) : B.t :=
  let '(ax, ay, b1) := hand_loop hands (Fin 0, GRAVITY, b) in
  boundaries rRad (move (max_velocity (integrate ax ay b1))).

(** The body of the Pass 1 loop for the index [i]. *)
Definition pass1_body (st : State) (i : nat) : State :=
  let b0 := respawn_safety (rnd i) (body_at (p st) i) in
  let b := advance (rd (P.radius (p st)) i) b0 in
  grid_insert cfg i b
    (mkState (store_body (p st) i b) (gridHead st) (nextParticle st)).

Definition pass1 (st : State) : State :=
  fold_left pass1_body (seq 0 (particleCount cfg)) st.

(** Positional correction (lines 341-345). *)
Definition positional_correction (i : nat) (j : Z) (nx ny overlap : num)
    (q : P.t) : P.t :=
  let percent := Fin (1 / 2) in
  let x1 :=
    <[i := fround (rd (P.x q) i + nx * overlap * percent)]> (P.x q) in
  let y1 :=
    <[i := fround (rd (P.y q) i + ny * overlap * percent)]> (P.y q) in
  let x2 := wrZ x1 j (fround (rdZ x1 j - nx * overlap * percent)) in
  let y2 := wrZ y1 j (fround (rdZ y1 j - ny * overlap * percent)) in
  P.mk x2 y2 (P.vx q) (P.vy q) (P.radius q).

(** Velocity response (lines 347-360). *)
Definition velocity_response (i : nat) (j : Z) (nx ny : num) (q : P.t)
  : P.t :=
  let dvx := (rd (P.vx q) i - rdZ (P.vx q) j)%J in
  let dvy := (rd (P.vy q) i - rdZ (P.vy q) j)%J in
  let dot := (dvx * nx + dvy * ny)%J in
  if (dot <? Fin 0)%J then
    let impulse := Fin (1 / 2) in
    let impulseX := (nx * dot * impulse)%J in
    let impulseY := (ny * dot * impulse)%J in
    let vx1 := <[i := fround (rd (P.vx q) i - impulseX)]> (P.vx q) in
    let vy1 := <[i := fround (rd (P.vy q) i - impulseY)]> (P.vy q) in
    let vx2 := wrZ vx1 j (fround (rdZ vx1 j + impulseX)) in
    let vy2 := wrZ vy1 j (fround (rdZ vy1 j + impulseY)) in
    P.mk (P.x q) (P.y q) vx2 vy2 (P.radius q)
  else q.

(** Lines 336-360: the resolution of an overlapping pair. *)
Definition resolve (i : nat) (j : Z) (q : P.t) : P.t :=
  let '(nx, ny, overlap) := contact q i j in
  velocity_response i j nx ny (positional_correction i j nx ny overlap q).

(** The body of the [while] loop up to line 362. *)
Definition collide (i : nat) (j : Z) (q : P.t) : P.t :=
  if negb (Z.of_nat i =? j)%Z then
    if overlapping q i j then resolve i j q else q
  else q.

(** The [while] loop of lines 328-365. *)
Fixpoint walk (budget : nat) (next : list Z) (i : nat) (j : Z)
    (iterations : nat) (q : P.t) : P.t * nat :=
  match budget with
  | O => (q, iterations)
  | Datatypes.S budget' =>
      if (j =? -1)%Z then (q, iterations)
      else walk budget' next i (rdI next j) (Datatypes.S iterations)
                (collide i j q)
  end.

(** Lines 320-366 for one offset. *)
Definition scan_cell (head next : list Z) (i : nat) (cx cy : Z)
    (acc : P.t * list nat) (d : Z * Z) : P.t * list nat :=
  let ncx := (cx + fst d)%Z in
  let ncy := (cy + snd d)%Z in
  if in_grid cfg ncx ncy then
    let cellIdx := (ncy * gridW cfg + ncx)%Z in
    let '(q, n) := walk MAX_ITERATIONS next i (rdI head cellIdx) 0 (fst acc) in
    (q, snd acc ++ [n])
  else acc.

(** The body of the Pass 2 loop for the index [i]. *)
Definition pass2_body (head next : list Z) (q : P.t) (i : nat)
  : P.t * list nat :=
  let cx := cell_of (rd (P.x q) i) in
  let cy := cell_of (rd (P.y q) i) in
  fold_left (scan_cell head next i cx cy) offsets (q, []).

Definition pass2 (head next : list Z) (q : P.t) : P.t :=
  fold_left (fun q i => fst (pass2_body head next q i))
            (seq 0 (particleCount cfg)) q.

Definition after_pass1 (st : State) : State := pass1 (clear_grid st).

Definition tick (st : State) : State :=
  let st1 := after_pass1 st in
  mkState (pass2 (gridHead st1) (nextParticle st1) (p st1))
          (gridHead st1) (nextParticle st1).

End Tick.

(** The slots Pass 1 leaves for the particle [i] of the arrays [q]. *)
Definition pass1_slots (screenW screenH : num) (hands : list Hand.t)
    (rnd : nat -> num) (q : P.t) (i : nat) : B.t :=
  advance screenW screenH hands (rd (P.radius q) i)
          (respawn_safety screenW screenH (rnd i) (body_at q i)).

(** The ticks of successive frames. *)
Definition run (cfg : Setup) (frames : list Frame) (st : State) : State :=
  fold_left
    (fun st f =>
       tick cfg (frame_screenW f) (frame_screenH f) (frame_hands f)
            (frame_rnd f) st)
    frames st.

(** The body of the spawn loop (lines 134-151) for the index [i]. *)
Definition spawn_body (width height : num) (rnd : nat -> num) (q : P.t)
    (i : nat) : P.t :=
  let x := (rnd (5 * i)%nat * width)%J in
  let y := (rnd (5 * i + 1)%nat * height)%J in
  let vx := ((rnd (5 * i + 2)%nat - Fin (1 / 2)) * Fin 5)%J in
  let vy := ((rnd (5 * i + 3)%nat - Fin (1 / 2)) * Fin 5)%J in
  let sizeVar := (Fin (1 / 2) + rnd (5 * i + 4)%nat * Fin (1 / 2))%J in
  P.mk (<[i := fround x]> (P.x q)) (<[i := fround y]> (P.y q))
       (<[i := fround vx]> (P.vx q)) (<[i := fround vy]> (P.vy q))
       (<[i := fround (Fin 3 * sizeVar)]> (P.radius q)).

Definition spawn (count : nat) (width height : num) (rnd : nat -> num)
  : P.t :=
  fold_left (spawn_body width height rnd) (seq 0 count) (allocate count).

(** The state the first tick starts from. *)
Definition init (count : nat) (width height : R) (rnd : nat -> num)
  : State :=
  mkState (spawn count (Fin width) (Fin height) rnd)
          (replicate (Z.to_nat (grid_dim width * grid_dim height)) (-1)%Z)
          (replicate count (-1)%Z).

End F32.

(** A value a [Float32Array] holds: a store leaves it as it is. *)
Definition stored (a : num) : Prop := fround a = a.

(** The slots of a particle of radius [rRad] lie between the values the
    boundary resolution stores: the radius, and the binary32 value
    nearest to the screen dimension less the radius. *)
Definition in_stored_bounds (screenW screenH rRad : num) (b : B.t) : Prop :=
  le rRad (B.x b) /\ le (B.x b) (fround (screenW - rRad)) /\
  le rRad (B.y b) /\ le (B.y b) (fround (screenH - rRad)).

(** ** Sample inputs on [Float32Array]s *)

(** One particle of radius [2 + 2 ^ -22] on a 48 x 48 screen
    ([grid_dim 48 = 4]), at rest a little above the ground: it lies inside
    the screen, [45.96875 <= 48 - radius]. *)
Definition cfg_round : Setup := mkSetup 1 4 4.

Definition st_round : State :=
  mkState (P.mk [Fin 10] [Fin (1471 / 32)] [Fin 0] [Fin 0]
                [Fin (8388609 / 4194304)])
          (replicate 16 (-1)%Z) [(-1)%Z].

(** Two particles of radius 2 at rest on a 48 x 48 screen, 20 pixels
    apart, in the cells [(0, 0)] and [(2, 0)] of the grid [cfg_four]. *)
Definition st_apart : State :=
  mkState (P.mk [Fin 10; Fin 30] [Fin 10; Fin 10]
                [Fin 0; Fin 0] [Fin 0; Fin 0] [Fin 2; Fin 2])
          (replicate 16 (-1)%Z) [-1; -1]%Z.

(** The two values [a] and [b] a pair resolution leaves in the slots of
    an axis are finite and their sum is [s] up to the rounding of the two
    stores, a unit in the last place of each. *)
Definition sum_within_rounding (s : R) (a b : num) : Prop :=
  exists a' b' : R,
    a = Fin a' /\ b = Fin b' /\
    Rabs (a' + b' - s) <= bpow (-23) * (Rabs a' + Rabs b') + bpow (-148).

(** A population of [n] particles on [Float32Array]s all of whose slots
    and radii are finite. *)
Definition finite_population (n : nat) (q : P.t) : Prop :=
  shape q = (n, n, n, n) /\ length (P.radius q) = n /\
  forall k : nat,
    (k < n)%nat ->
    isFinite (rd (P.radius q) k) = true /\ finite_body (body_at q k).

(** * Properties *)

(** ** Facts on numbers *)

Lemma Rltb_true (a b : R) : a < b -> Rltb a b = true.
Proof. intros H. unfold Rltb. destruct (Rlt_dec a b); [reflexivity | contradiction]. Qed.

Lemma Rltb_false (a b : R) : b <= a -> Rltb a b = false.
Proof. intros H. unfold Rltb. destruct (Rlt_dec a b); [lra | reflexivity]. Qed.

Lemma Rltb_iff (a b : R) : Rltb a b = true <-> a < b.
Proof. unfold Rltb. destruct (Rlt_dec a b); split; intros; try easy. Qed.

Lemma Rltb_iff_false (a b : R) : Rltb a b = false <-> b <= a.
Proof. unfold Rltb. destruct (Rlt_dec a b); split; intros; try easy; lra. Qed.

Lemma Reqb_true (a b : R) : a = b -> Reqb a b = true.
Proof. intros H. unfold Reqb. destruct (Req_dec_T a b); [reflexivity | contradiction]. Qed.

Lemma Reqb_false (a b : R) : a <> b -> Reqb a b = false.
Proof. intros H. unfold Reqb. destruct (Req_dec_T a b); [contradiction | reflexivity]. Qed.

Lemma lt_Fin (a b : R) : (Fin a <? Fin b)%J = true <-> a < b.
Proof. apply Rltb_iff. Qed.

Lemma lt_Fin_false (a b : R) : (Fin a <? Fin b)%J = false <-> b <= a.
Proof. apply Rltb_iff_false. Qed.

Lemma div_Fin (a b : R) : b <> 0 -> (Fin a / Fin b)%J = Fin (a / b).
Proof. intros H. unfold JS.div. now rewrite Reqb_false. Qed.

Lemma sqrt_Fin (a : R) : 0 <= a -> JS.sqrt (Fin a) = Fin (R_sqrt.sqrt a).
Proof. intros H. unfold JS.sqrt. now rewrite Rltb_false. Qed.

Lemma isFinite_Fin (a : num) : isFinite a = true <-> exists r, a = Fin r.
Proof.
  split.
  - destruct a; simpl; try discriminate. intros _. now exists r.
  - intros [r ->]. reflexivity.
Qed.

Lemma sqrt_HAND_RADIUS_SQ : JS.sqrt HAND_RADIUS_SQ = Fin 150.
Proof.
  unfold HAND_RADIUS_SQ. simpl JS.mul. rewrite sqrt_Fin by lra.
  f_equal. apply sqrt_square. lra.
Qed.

(** ** The overlap test of Pass 2 *)

Section Overlap.

Variables (q : P.t) (i : nat) (j : Z).
Variables xi yi ri xj yj rj : R.
Hypothesis Hxi : rd (P.x q) i = Fin xi.
Hypothesis Hyi : rd (P.y q) i = Fin yi.
Hypothesis Hri : rd (P.radius q) i = Fin ri.
Hypothesis Hxj : rdZ (P.x q) j = Fin xj.
Hypothesis Hyj : rdZ (P.y q) j = Fin yj.
Hypothesis Hrj : rdZ (P.radius q) j = Fin rj.

Let distSq : R := (xi - xj) * (xi - xj) + (yi - yj) * (yi - yj).
Let rSum : R := ri + rj.

Lemma overlapping_iff :
  overlapping q i j = true <-> 1 / 1000 < distSq < rSum * rSum.
Proof.
  unfold overlapping. rewrite Hxi, Hyi, Hri, Hxj, Hyj, Hrj.
  cbn [JS.sub JS.add JS.mul JS.neg]. unfold JS.gt.
  rewrite andb_true_iff, !lt_Fin. subst distSq rSum.
  replace (xi + - xj) with (xi - xj) by lra.
  replace (yi + - yj) with (yi - yj) by lra.
  tauto.
Qed.

End Overlap.

Lemma collide_unfold (q : P.t) (i : nat) (j : Z) :
  Z.of_nat i <> j ->
  collide i j q = if overlapping q i j then resolve i j q else q.
Proof.
  intros H. unfold collide.
  destruct (Z.eqb_spec (Z.of_nat i) j); [contradiction | reflexivity].
Qed.

Lemma collide_self (q : P.t) (i : nat) : collide i (Z.of_nat i) q = q.
Proof. unfold collide. now rewrite Z.eqb_refl. Qed.

(** C5, as the code has it: a candidate [j <> i] is resolved (positional
    correction, then the impulse if the pair is approaching) exactly when
    [0.001 < distSq < (r_i + r_j)^2]; otherwise the arrays are left as
    they are. *)
Theorem overlap_test_threshold (q : P.t) (i : nat) (j : Z)
    (xi yi ri xj yj rj : R) :
  rd (P.x q) i = Fin xi -> rd (P.y q) i = Fin yi ->
  rd (P.radius q) i = Fin ri ->
  rdZ (P.x q) j = Fin xj -> rdZ (P.y q) j = Fin yj ->
  rdZ (P.radius q) j = Fin rj ->
  Z.of_nat i <> j ->
  (overlapping q i j = true <->
   1 / 1000 < (xi - xj) * (xi - xj) + (yi - yj) * (yi - yj)
            < (ri + rj) * (ri + rj)) /\
  (overlapping q i j = true -> collide i j q = resolve i j q) /\
  (overlapping q i j = false -> collide i j q = q).
Proof.
  intros Hxi Hyi Hri Hxj Hyj Hrj Hij. split; [| split].
  - now apply overlapping_iff.
  - intros H. rewrite collide_unfold by assumption. now rewrite H.
  - intros H. rewrite collide_unfold by assumption. now rewrite H.
Qed.

Lemma overlap_test_threshold_witness :
  (overlapping q_close 0 1 = true <->
   1 / 1000 < (0 - 1 / 100) * (0 - 1 / 100) + (0 - 0) * (0 - 0)
            < (2 + 2) * (2 + 2)) /\
  (overlapping q_close 0 1 = true -> collide 0 1 q_close = resolve 0 1 q_close) /\
  (overlapping q_close 0 1 = false -> collide 0 1 q_close = q_close).
Proof.
  apply (overlap_test_threshold q_close 0 1); try reflexivity.
  simpl. lia.
Defined.

(** C5 as stated fails: at squared distance [0.0001], between [0] and
    [(2 + 2)^2], the pair is not treated as overlapping. *)
Lemma overlap_test_zero_threshold_fails :
  ~ (overlapping q_close 0 1 = true <->
     0 < (0 - 1 / 100) * (0 - 1 / 100) + (0 - 0) * (0 - 0)
       < (2 + 2) * (2 + 2)).
Proof.
  intros [_ H].
  assert (Hov : overlapping q_close 0 1 = true) by (apply H; lra).
  apply (overlapping_iff q_close 0 1 0 0 2 (1 / 100) 0 2) in Hov;
    try reflexivity.
  lra.
Qed.

(** ** Arrays *)

Lemma rd_insert_eq (a : list num) (i : nat) (v : num) :
  (i < length a)%nat -> rd (<[i := v]> a) i = v.
Proof. intros H. unfold rd. now rewrite list_lookup_insert_eq. Qed.

Lemma rd_insert_ne (a : list num) (i k : nat) (v : num) :
  i <> k -> rd (<[i := v]> a) k = rd a k.
Proof. intros H. unfold rd. now rewrite list_lookup_insert_ne. Qed.

Lemma rd_out (a : list num) (i : nat) : (length a <= i)%nat -> rd a i = NaN.
Proof. intros H. unfold rd. now rewrite lookup_ge_None_2. Qed.

Lemma rdI_of_nat (a : list Z) (k : nat) :
  rdI a (Z.of_nat k) = default undef (a !! k).
Proof.
  unfold rdI. destruct (Z.ltb_spec (Z.of_nat k) 0); [lia |].
  now rewrite Nat2Z.id.
Qed.

Lemma rdI_insert_eq (a : list Z) (k : nat) (v : Z) :
  (k < length a)%nat -> rdI (<[k := v]> a) (Z.of_nat k) = v.
Proof. intros H. rewrite rdI_of_nat. now rewrite list_lookup_insert_eq. Qed.

Lemma rdI_insert_ne (a : list Z) (i k : nat) (v : Z) :
  i <> k -> rdI (<[i := v]> a) (Z.of_nat k) = rdI a (Z.of_nat k).
Proof. intros H. rewrite !rdI_of_nat. now rewrite list_lookup_insert_ne. Qed.

Lemma body_at_store_eq (q : P.t) (i : nat) (b : B.t) :
  (i < length (P.x q))%nat -> (i < length (P.y q))%nat ->
  (i < length (P.vx q))%nat -> (i < length (P.vy q))%nat ->
  body_at (store_body q i b) i = b.
Proof.
  intros. unfold body_at, store_body. cbn [P.x P.y P.vx P.vy].
  rewrite !rd_insert_eq by assumption. now destruct b.
Qed.

Lemma body_at_store_ne (q : P.t) (i k : nat) (b : B.t) :
  i <> k -> body_at (store_body q i b) k = body_at q k.
Proof.
  intros. unfold body_at, store_body. cbn [P.x P.y P.vx P.vy].
  now rewrite !rd_insert_ne by assumption.
Qed.

(** ** Pass 1 as a loop *)

Section Pass1.

Variable cfg : Setup.
Variables screenW screenH : num.
Variable hands : list Hand.t.
Variable rnd : nat -> num.

Local Abbreviation body := (pass1_body cfg screenW screenH hands rnd).
Local Abbreviation slots := (pass1_slots screenW screenH hands rnd).
Local Abbreviation upto k st := (fold_left body (seq 0 k) st).

Lemma upto_S (k : nat) (st : State) : upto (S k) st = body (upto k st) k.
Proof. rewrite seq_S, fold_left_app. reflexivity. Qed.

Lemma grid_insert_p (i : nat) (b : B.t) (st : State) :
  p (grid_insert cfg i b st) = p st.
Proof. unfold grid_insert. now destruct (in_grid _ _ _). Qed.

Lemma pass1_body_p (st : State) (i : nat) :
  p (body st i) = store_body (p st) i (slots (p st) i).
Proof. unfold pass1_body. now rewrite grid_insert_p. Qed.

Lemma pass1_body_wf (st : State) (i : nat) :
  wf_state cfg st -> wf_state cfg (body st i).
Proof.
  unfold wf_state. intros (Hx & Hy & Hvx & Hvy & Hr & Hh & Hn).
  rewrite pass1_body_p. unfold store_body. cbn [P.x P.y P.vx P.vy P.radius].
  rewrite !length_insert. repeat split; try assumption.
  - unfold pass1_body, grid_insert. destruct (in_grid _ _ _); cbn [gridHead];
      now rewrite ?length_insert.
  - unfold pass1_body, grid_insert. destruct (in_grid _ _ _); cbn [nextParticle];
      now rewrite ?length_insert.
Qed.

Lemma upto_wf (k : nat) (st : State) :
  wf_state cfg st -> wf_state cfg (upto k st).
Proof.
  intros H. induction k as [| k IH]; [exact H |].
  rewrite upto_S. now apply pass1_body_wf.
Qed.

Lemma upto_radius (k : nat) (st : State) :
  P.radius (p (upto k st)) = P.radius (p st).
Proof.
  induction k as [| k IH]; [reflexivity |].
  rewrite upto_S, pass1_body_p. exact IH.
Qed.

(** After [k] iterations the first [k] particles hold the slots Pass 1
    computes from their own slots before the tick; the others are
    untouched. *)
Lemma upto_slots (k : nat) (st : State) :
  wf_state cfg st -> (k <= particleCount cfg)%nat ->
  forall i : nat,
    body_at (p (upto k st)) i =
    if (i <? k)%nat then slots (p st) i else body_at (p st) i.
Proof.
  intros Hwf. induction k as [| k IH]; intros Hk i.
  - reflexivity.
  - rewrite upto_S, pass1_body_p.
    pose proof (upto_wf k st Hwf) as (Hx & Hy & Hvx & Hvy & _).
    destruct (Nat.eq_dec k i) as [-> | Hne].
    + rewrite body_at_store_eq by lia.
      destruct (Nat.ltb_spec i (S i)); [| lia].
      unfold pass1_slots. rewrite upto_radius.
      rewrite (IH ltac:(lia) i).
      destruct (Nat.ltb_spec i i); [lia | reflexivity].
    + rewrite body_at_store_ne by assumption.
      rewrite (IH ltac:(lia) i).
      destruct (Nat.ltb_spec i k), (Nat.ltb_spec i (S k)); try lia; reflexivity.
Qed.

End Pass1.

(** ** The grid Pass 1 builds *)

Lemma linked_frame (next : list Z) (j : Z) (l : list nat) (k : nat) (v : Z) :
  linked next j l -> ~ In k l -> linked (<[k := v]> next) j l.
Proof.
  induction 1 as [| k0 l Hl IH]; intros Hk.
  - constructor.
  - constructor. rewrite rdI_insert_ne.
    + apply IH. intros Hin. apply Hk. now right.
    + intros ->. apply Hk. now left.
Qed.

Lemma linked_fun (next : list Z) (j : Z) (l1 l2 : list nat) :
  linked next j l1 -> linked next j l2 -> l1 = l2.
Proof.
  intros H1. revert l2. induction H1 as [| k l Hl IH]; intros l2 H2.
  - inversion H2 as [| k l' Hl' Hk]; [reflexivity | lia].
  - inversion H2 as [Hk | k' l' Hl' Hk]; [lia |].
    apply Nat2Z.inj in Hk. subst k'. f_equal. now apply IH.
Qed.

Lemma members_S (cfg : Setup) (f : nat -> B.t) (k : nat) (c : Z) :
  members cfg f (S k) c =
  if bool_decide (cell_index cfg (f k) = Some c)
  then k :: members cfg f k c else members cfg f k c.
Proof.
  unfold members. rewrite seq_S, List.filter_app, rev_app_distr.
  cbn [List.filter Nat.add]. now destruct (bool_decide _).
Qed.

Lemma members_lt (cfg : Setup) (f : nat -> B.t) (k : nat) (c : Z) (i : nat) :
  In i (members cfg f k c) ->
  (i < k)%nat /\ cell_index cfg (f i) = Some c.
Proof.
  unfold members. rewrite <- in_rev, filter_In, in_seq.
  intros [H1 H2]. apply bool_decide_eq_true in H2. split; [lia | assumption].
Qed.

Lemma members_ext (cfg : Setup) (f g : nat -> B.t) (k : nat) (c : Z) :
  (forall i, (i < k)%nat -> f i = g i) ->
  members cfg f k c = members cfg g k c.
Proof.
  intros H. induction k as [| k IH]; [reflexivity |].
  rewrite !members_S, IH by (intros; apply H; lia).
  now rewrite (H k) by lia.
Qed.

Lemma members_count (cfg : Setup) (f : nat -> B.t) (k : nat) (c : Z) (i : nat) :
  count_occ Nat.eq_dec (members cfg f k c) i =
  if bool_decide ((i < k)%nat /\ cell_index cfg (f i) = Some c) then 1%nat
  else 0%nat.
Proof.
  induction k as [| k IH].
  - cbn. rewrite bool_decide_eq_false_2; [reflexivity | lia].
  - rewrite members_S.
    destruct (bool_decide_reflect (cell_index cfg (f k) = Some c)) as [Hk | Hk].
    + destruct (Nat.eq_dec k i) as [-> | Hne].
      * rewrite count_occ_cons_eq by reflexivity. rewrite IH.
        rewrite bool_decide_eq_false_2 by lia.
        rewrite bool_decide_eq_true_2; [reflexivity | split; [lia | assumption]].
      * rewrite count_occ_cons_neq by assumption. rewrite IH.
        erewrite bool_decide_ext; [reflexivity |].
        split; intros [H1 H2]; (split; [lia | exact H2]).
    + rewrite IH.
      destruct (Nat.eq_dec i k) as [-> | Hne].
      * rewrite !bool_decide_eq_false_2; [reflexivity | tauto | lia].
      * erewrite bool_decide_ext; [reflexivity |].
        split; intros [H1 H2]; (split; [lia | exact H2]).
Qed.

Lemma cell_index_range (cfg : Setup) (b : B.t) (c : Z) :
  cell_index cfg b = Some c -> (0 <= c < gridW cfg * gridH cfg)%Z.
Proof.
  unfold cell_index, in_grid.
  destruct (_ && _) eqn:E; [| discriminate]. intros [= <-].
  rewrite !andb_true_iff in E. destruct E as [[[H1 H2] H3] H4].
  apply Z.leb_le in H1, H3. apply Z.ltb_lt in H2, H4. nia.
Qed.

Lemma in_grid_range (cfg : Setup) (cx cy : Z) :
  in_grid cfg cx cy = true ->
  (0 <= cy * gridW cfg + cx < gridW cfg * gridH cfg)%Z.
Proof.
  unfold in_grid. rewrite !andb_true_iff. intros [[[H1 H2] H3] H4].
  apply Z.leb_le in H1, H3. apply Z.ltb_lt in H2, H4. nia.
Qed.

Lemma rdI_insertZ_eq (a : list Z) (c v : Z) :
  (0 <= c)%Z -> (Z.to_nat c < length a)%nat ->
  rdI (<[Z.to_nat c := v]> a) c = v.
Proof.
  intros H0 H. unfold rdI. destruct (Z.ltb_spec c 0); [lia |].
  now rewrite list_lookup_insert_eq.
Qed.

Lemma rdI_insertZ_ne (a : list Z) (c c' v : Z) :
  (0 <= c)%Z -> (0 <= c')%Z -> c <> c' ->
  rdI (<[Z.to_nat c := v]> a) c' = rdI a c'.
Proof.
  intros H0 H0' H. unfold rdI. destruct (Z.ltb_spec c' 0); [lia |].
  rewrite list_lookup_insert_ne; [reflexivity | lia].
Qed.

Lemma rdI_replicate (n : nat) (v c : Z) :
  (0 <= c)%Z -> (Z.to_nat c < n)%nat -> rdI (replicate n v) c = v.
Proof.
  intros H0 H. unfold rdI. destruct (Z.ltb_spec c 0); [lia |].
  now rewrite lookup_replicate_2.
Qed.

Section Grid.

Variable cfg : Setup.
Variables screenW screenH : num.
Variable hands : list Hand.t.
Variable rnd : nat -> num.

Local Abbreviation body := (pass1_body cfg screenW screenH hands rnd).
Local Abbreviation slots := (pass1_slots screenW screenH hands rnd).
Local Abbreviation upto k st := (fold_left body (seq 0 k) st).

Lemma pass1_body_grid (st : State) (i : nat) :
  match cell_index cfg (slots (p st) i) with
  | Some c =>
      gridHead (body st i) = <[Z.to_nat c := Z.of_nat i]> (gridHead st) /\
      nextParticle (body st i) = <[i := rdI (gridHead st) c]> (nextParticle st)
  | None =>
      gridHead (body st i) = gridHead st /\
      nextParticle (body st i) = nextParticle st
  end.
Proof.
  unfold pass1_body, grid_insert, cell_index.
  fold (slots (p st) i).
  destruct (in_grid _ _ _); split; reflexivity.
Qed.

Lemma upto_slots_next (k : nat) (st : State) :
  wf_state cfg st -> (k <= particleCount cfg)%nat ->
  slots (p (upto k st)) k = slots (p st) k.
Proof.
  intros Hwf Hk. unfold pass1_slots.
  rewrite (upto_radius cfg), (upto_slots cfg) by assumption.
  destruct (Nat.ltb_spec k k); [lia | reflexivity].
Qed.

(** After [k] iterations the list of every cell holds the particles
    among the first [k] that fall into it, and ends with the sentinel. *)
Lemma upto_grid (k : nat) (st : State) :
  wf_state cfg st ->
  (forall c, (0 <= c < gridW cfg * gridH cfg)%Z -> rdI (gridHead st) c = (-1)%Z) ->
  (k <= particleCount cfg)%nat ->
  forall c, (0 <= c < gridW cfg * gridH cfg)%Z ->
    linked (nextParticle (upto k st)) (rdI (gridHead (upto k st)) c)
           (members cfg (slots (p st)) k c).
Proof.
  intros Hwf Hclear. induction k as [| k IH]; intros Hk c Hc.
  - cbn. rewrite Hclear by assumption. constructor.
  - rewrite upto_S, members_S.
    pose proof (upto_wf cfg screenW screenH hands rnd k st Hwf)
      as (_ & _ & _ & _ & _ & Hh & Hn).
    pose proof (pass1_body_grid (upto k st) k) as Hg.
    rewrite upto_slots_next in Hg by (assumption || lia).
    specialize (IH ltac:(lia)).
    destruct (cell_index cfg (slots (p st) k)) as [ck |] eqn:Eck.
    + destruct Hg as [-> ->].
      pose proof (cell_index_range _ _ _ Eck) as Hck.
      case_bool_decide as Hd.
      * injection Hd as ->.
        rewrite rdI_insertZ_eq by lia.
        constructor. rewrite rdI_insert_eq by lia.
        apply linked_frame; [now apply IH |].
        intros Hin. apply members_lt in Hin. lia.
      * rewrite rdI_insertZ_ne by (lia || congruence).
        apply linked_frame; [now apply IH |].
        intros Hin. apply members_lt in Hin. lia.
    + destruct Hg as [-> ->].
      rewrite bool_decide_eq_false_2 by discriminate. now apply IH.
Qed.

End Grid.

(** ** The state after Pass 1 *)

Section AfterPass1.

Variable cfg : Setup.
Variables screenW screenH : num.
Variable hands : list Hand.t.
Variable rnd : nat -> num.
Variable st : State.
Hypothesis Hwf : wf_state cfg st.

Local Abbreviation st1 := (after_pass1 cfg screenW screenH hands rnd st).

Lemma clear_grid_wf : wf_state cfg (clear_grid st).
Proof.
  destruct Hwf as (Hx & Hy & Hvx & Hvy & Hr & Hh & Hn).
  unfold wf_state, clear_grid. cbn [p gridHead nextParticle].
  rewrite length_replicate. repeat split; assumption.
Qed.

Lemma after_pass1_wf : wf_state cfg st1.
Proof. apply upto_wf, clear_grid_wf. Qed.

Lemma after_pass1_radius : P.radius (p st1) = P.radius (p st).
Proof. unfold after_pass1, pass1. now rewrite upto_radius. Qed.

Lemma after_pass1_slots (i : nat) :
  (i < particleCount cfg)%nat ->
  body_at (p st1) i = pass1_slots screenW screenH hands rnd (p st) i.
Proof.
  intros Hi. unfold after_pass1, pass1.
  rewrite (upto_slots cfg) by (apply clear_grid_wf || lia).
  destruct (Nat.ltb_spec i (particleCount cfg)); [reflexivity | lia].
Qed.

Lemma after_pass1_grid (c : Z) :
  (0 <= c < gridW cfg * gridH cfg)%Z ->
  linked (nextParticle st1) (rdI (gridHead st1) c)
         (members cfg (body_at (p st1)) (particleCount cfg) c).
Proof.
  intros Hc.
  rewrite (members_ext cfg _ (pass1_slots screenW screenH hands rnd (p st)))
    by apply after_pass1_slots.
  unfold after_pass1, pass1.
  apply (upto_grid cfg screenW screenH hands rnd (particleCount cfg)
           (clear_grid st)); try assumption.
  - apply clear_grid_wf.
  - intros c' Hc'. unfold clear_grid. cbn [gridHead].
    destruct Hwf as (_ & _ & _ & _ & _ & Hh & _).
    apply rdI_replicate; lia.
  - lia.
Qed.

End AfterPass1.

(** C7, as the code has it: once Pass 1 has rebuilt the grid, the list of
    every cell is a proper list (it ends with the sentinel) in which a
    particle occurs once if the cell computed from its position is this
    cell, and not at all otherwise.  So a particle whose cell lies inside
    the grid is in exactly one list, and one whose cell lies outside the
    grid is in none. *)
Theorem grid_membership (cfg : Setup) (screenW screenH : num)
    (hands : list Hand.t) (rnd : nat -> num) (st : State) (i : nat) (c : Z) :
  wf_state cfg st ->
  (i < particleCount cfg)%nat ->
  (0 <= c < gridW cfg * gridH cfg)%Z ->
  exists l : list nat,
    linked (nextParticle (after_pass1 cfg screenW screenH hands rnd st))
           (rdI (gridHead (after_pass1 cfg screenW screenH hands rnd st)) c) l /\
    count_occ Nat.eq_dec l i =
    if bool_decide
         (cell_index cfg
            (body_at (p (after_pass1 cfg screenW screenH hands rnd st)) i)
          = Some c)
    then 1%nat else 0%nat.
Proof.
  intros Hwf Hi Hc.
  eexists. split; [now apply after_pass1_grid |].
  rewrite members_count.
  repeat case_bool_decide; try reflexivity; exfalso; tauto.
Qed.

(** ** Evaluation on concrete inputs *)

Lemma Rtrunc_eq (z : Z) (r : R) :
  (0 <= z)%Z -> IZR z <= r < IZR z + 1 -> Rtrunc r = z.
Proof.
  intros Hz Hr. unfold Rtrunc.
  assert (0 <= IZR z) by now apply IZR_le.
  rewrite Rltb_false by lra. now apply Zfloor_eq.
Qed.

Lemma cell_of_eq (z : Z) (r : R) :
  (0 <= z < 2 ^ 31)%Z -> 12 * IZR z <= r < 12 * IZR z + 12 ->
  cell_of (Fin r) = z.
Proof.
  intros Hz Hr. unfold cell_of, CELL_SIZE. rewrite div_Fin by lra.
  unfold toInt32. rewrite (Rtrunc_eq z) by (lia || lra).
  unfold wrap32. rewrite Z.mod_small; lia.
Qed.

Ltac js_cmp :=
  match goal with
  | |- context [Rltb ?a ?b] =>
      first [rewrite (Rltb_true a b) by lra | rewrite (Rltb_false a b) by lra]
  | |- context [Reqb ?a ?b] =>
      first [rewrite (Reqb_false a b) by lra | rewrite (Reqb_true a b) by lra]
  end.

Ltac js_cbn :=
  cbn -[IZR Rplus Rmult Rminus Rdiv Ropp Rinv R_sqrt.sqrt Zfloor Zceil
        Rltb Reqb cell_of].

Ltac js_eval := js_cbn; repeat (js_cmp; js_cbn).

(** The grids of the sample setups are those of their screens. *)
Lemma sample_grids :
  grid_dim 12 = 1%Z /\ grid_dim 24 = 2%Z /\ grid_dim 48 = 4%Z /\
  grid_dim 120 = 10%Z.
Proof. unfold grid_dim. repeat split; apply Zceil_eq; lra. Qed.

Ltac js_eq := repeat f_equal; lra.

Lemma st_far_slots :
  body_at (p (after_pass1 cfg_one (Fin 48) (Fin 48) [] rnd_half st_far)) 0
  = B.mk (Fin 30) (Fin (30 + 49 / 1200)) (Fin 0) (Fin (49 / 100)).
Proof.
  rewrite after_pass1_slots by (repeat split; cbn; lia).
  unfold pass1_slots, advance, boundaries, move, max_velocity, integrate,
    clamp_vel, respawn_safety, st_far, GRAVITY, dt, FRICTION_AIR, MAX_VEL.
  js_eval. js_eq.
Qed.

(** C7 as stated fails: the simulation [cfg_one] was set up with a grid
    of one cell; on the enlarged screen its particle has the finite
    position [(30, 30.04)] after Pass 1, its cell [(2, 2)] lies outside the
    grid, and it is in the list of no cell. *)
Lemma grid_omits_finite_particle :
  finite_body
    (body_at (p (after_pass1 cfg_one (Fin 48) (Fin 48) [] rnd_half st_far)) 0) /\
  forall (c : Z) (l : list nat),
    (0 <= c < gridW cfg_one * gridH cfg_one)%Z ->
    linked (nextParticle (after_pass1 cfg_one (Fin 48) (Fin 48) [] rnd_half st_far))
           (rdI (gridHead (after_pass1 cfg_one (Fin 48) (Fin 48) [] rnd_half st_far)) c)
           l ->
    ~ In 0%nat l.
Proof.
  split.
  - rewrite st_far_slots. repeat split.
  - intros c l Hc Hl.
    assert (Hwf : wf_state cfg_one st_far) by (repeat split).
    pose proof (after_pass1_grid cfg_one (Fin 48) (Fin 48) [] rnd_half
                  st_far Hwf c Hc) as Hm.
    rewrite (linked_fun _ _ _ _ Hl Hm).
    intros Hin. apply members_lt in Hin. destruct Hin as [_ Hin].
    rewrite st_far_slots in Hin. unfold cell_index in Hin.
    cbn [B.x B.y] in Hin.
    rewrite (cell_of_eq 2 30) in Hin by (lia || lra).
    rewrite (cell_of_eq 2 (30 + 49 / 1200)) in Hin by (lia || lra).
    discriminate Hin.
Qed.

Ltac js_cell z :=
  match goal with
  | |- context [cell_of (Fin ?r)] =>
      rewrite (cell_of_eq z r) by (lia || lra)
  end.

Ltac js_slots :=
  unfold pass1_slots, advance, boundaries, move, max_velocity, integrate,
    clamp_vel, respawn_safety, hand_loop, body_at, GRAVITY, dt, FRICTION_AIR,
    MAX_VEL, BOUNCE_GROUND, BOUNCE_WALL;
  js_eval.

(** The body of the Pass 1 loop, once the slots it computes and their
    cell are known. *)
Lemma pass1_body_eq (cfg : Setup) (screenW screenH : num)
    (hands : list Hand.t) (rnd : nat -> num) (st : State) (i : nat)
    (b : B.t) (cx cy : Z) :
  pass1_slots screenW screenH hands rnd (p st) i = b ->
  cell_of (B.x b) = cx -> cell_of (B.y b) = cy ->
  pass1_body cfg screenW screenH hands rnd st i =
  if in_grid cfg cx cy then
    mkState (store_body (p st) i b)
            (<[Z.to_nat (cy * gridW cfg + cx) := Z.of_nat i]> (gridHead st))
            (<[i := rdI (gridHead st) (cy * gridW cfg + cx)]> (nextParticle st))
  else mkState (store_body (p st) i b) (gridHead st) (nextParticle st).
Proof.
  intros Hb Hx Hy. unfold pass1_body, grid_insert.
  fold (pass1_slots screenW screenH hands rnd (p st) i).
  rewrite Hb, Hx, Hy. reflexivity.
Qed.

Lemma pass2_body_eq (cfg : Setup) (head next : list Z) (q : P.t) (i : nat)
    (cx cy : Z) :
  cell_of (rd (P.x q) i) = cx -> cell_of (rd (P.y q) i) = cy ->
  pass2_body cfg head next q i =
  fold_left (scan_cell cfg head next i cx cy) offsets (q, []).
Proof. intros <- <-. reflexivity. Qed.

Lemma st_wall_pass1 :
  after_pass1 cfg_two (Fin 24) (Fin 24) [] rnd_half st_wall =
  mkState (P.mk [Fin 2; Fin 3] [Fin 22; Fin 22]
                [Fin 0; Fin 0] [Fin (- (147 / 1000)); Fin (- (147 / 1000))]
                [Fin 2; Fin 2])
          [-1; -1; 1; -1]%Z [-1; 0]%Z.
Proof.
  unfold after_pass1, pass1. cbn [particleCount cfg_two seq fold_left].
  rewrite (pass1_body_eq _ _ _ _ _ _ 0
             (B.mk (Fin 2) (Fin 22) (Fin 0) (Fin (- (147 / 1000)))) 0 1).
  2: { unfold st_wall, clear_grid. js_slots. js_eq. }
  2: { cbn [B.x]. js_cell 0%Z. reflexivity. }
  2: { cbn [B.y]. js_cell 1%Z. reflexivity. }
  rewrite (pass1_body_eq _ _ _ _ _ _ 1
             (B.mk (Fin 3) (Fin 22) (Fin 0) (Fin (- (147 / 1000)))) 0 1).
  2: { unfold st_wall, clear_grid. js_slots. js_eq. }
  2: { cbn [B.x]. js_cell 0%Z. reflexivity. }
  2: { cbn [B.y]. js_cell 1%Z. reflexivity. }
  reflexivity.
Qed.

(** ** The resolution of a pair on finite values *)

Lemma rdZ_insert_ne (a : list num) (i : nat) (j : Z) (v : num) :
  Z.of_nat i <> j -> rdZ (<[i := v]> a) j = rdZ a j.
Proof.
  intros H. unfold rdZ. destruct (Z.ltb_spec j 0); [reflexivity |].
  apply rd_insert_ne. lia.
Qed.

Section Pair.

Variables (q : P.t) (i : nat) (j : Z).
Variables xi yi vxi vyi ri xj yj vxj vyj rj : R.
Hypothesis Hij : Z.of_nat i <> j.
Hypothesis Hxi : rd (P.x q) i = Fin xi.
Hypothesis Hyi : rd (P.y q) i = Fin yi.
Hypothesis Hvxi : rd (P.vx q) i = Fin vxi.
Hypothesis Hvyi : rd (P.vy q) i = Fin vyi.
Hypothesis Hri : rd (P.radius q) i = Fin ri.
Hypothesis Hxj : rdZ (P.x q) j = Fin xj.
Hypothesis Hyj : rdZ (P.y q) j = Fin yj.
Hypothesis Hvxj : rdZ (P.vx q) j = Fin vxj.
Hypothesis Hvyj : rdZ (P.vy q) j = Fin vyj.
Hypothesis Hrj : rdZ (P.radius q) j = Fin rj.

(** [d] is the distance of the pair. *)
Variable d : R.
Hypothesis Hd : 0 < d.
Hypothesis Hdd : d * d = (xi - xj) * (xi - xj) + (yi - yj) * (yi - yj).

Lemma contact_Fin :
  contact q i j =
  (Fin ((xi - xj) / d), Fin ((yi - yj) / d), Fin (ri + rj - d)).
Proof.
  unfold contact. rewrite Hxi, Hyi, Hri, Hxj, Hyj, Hrj.
  cbn [JS.sub JS.add JS.mul JS.neg].
  rewrite sqrt_Fin by nra.
  rewrite (sqrt_lem_1 _ d) by nra.
  rewrite !div_Fin by lra. cbn [JS.add JS.neg].
  repeat f_equal; lra.
Qed.

Lemma positional_correction_Fin (nx ny overlap : R) :
  positional_correction i j (Fin nx) (Fin ny) (Fin overlap) q =
  P.mk (wrZ (<[i := Fin (xi + nx * overlap * (1 / 2))]> (P.x q)) j
            (Fin (xj - nx * overlap * (1 / 2))))
       (wrZ (<[i := Fin (yi + ny * overlap * (1 / 2))]> (P.y q)) j
            (Fin (yj - ny * overlap * (1 / 2))))
       (P.vx q) (P.vy q) (P.radius q).
Proof.
  unfold positional_correction.
  rewrite !rdZ_insert_ne by assumption.
  rewrite Hxi, Hyi, Hxj, Hyj. cbn [JS.sub JS.add JS.mul JS.neg].
  reflexivity.
Qed.

Lemma velocity_response_approaching (nx ny : R) :
  (vxi - vxj) * nx + (vyi - vyj) * ny < 0 ->
  velocity_response i j (Fin nx) (Fin ny) q =
  P.mk (P.x q) (P.y q)
       (wrZ (<[i := Fin (vxi - nx * ((vxi - vxj) * nx + (vyi - vyj) * ny)
                               * (1 / 2))]> (P.vx q)) j
            (Fin (vxj + nx * ((vxi - vxj) * nx + (vyi - vyj) * ny) * (1 / 2))))
       (wrZ (<[i := Fin (vyi - ny * ((vxi - vxj) * nx + (vyi - vyj) * ny)
                               * (1 / 2))]> (P.vy q)) j
            (Fin (vyj + ny * ((vxi - vxj) * nx + (vyi - vyj) * ny) * (1 / 2))))
       (P.radius q).
Proof.
  intros Hdot. unfold velocity_response.
  rewrite !rdZ_insert_ne by assumption.
  rewrite Hvxi, Hvyi, Hvxj, Hvyj. cbn [JS.sub JS.add JS.mul JS.neg].
  replace (Fin ((vxi + - vxj) * nx + (vyi + - vyj) * ny) <? Fin 0)%J with true
    by (symmetry; apply lt_Fin; lra).
  repeat f_equal; lra.
Qed.

Lemma velocity_response_separating (nx ny : R) :
  0 <= (vxi - vxj) * nx + (vyi - vyj) * ny ->
  velocity_response i j (Fin nx) (Fin ny) q = q.
Proof.
  intros Hdot. unfold velocity_response.
  rewrite Hvxi, Hvyi, Hvxj, Hvyj. cbn [JS.sub JS.add JS.mul JS.neg].
  replace (Fin ((vxi + - vxj) * nx + (vyi + - vyj) * ny) <? Fin 0)%J with false
    by (symmetry; apply lt_Fin_false; lra).
  reflexivity.
Qed.

End Pair.

Lemma rd_Fin_lt (a : list num) (i : nat) (r : R) :
  rd a i = Fin r -> (i < length a)%nat.
Proof.
  intros H. destruct (Nat.lt_ge_cases i (length a)) as [Hlt | Hge]; [exact Hlt |].
  rewrite rd_out in H by assumption. discriminate H.
Qed.

Lemma rdZ_Fin_range (a : list num) (j : Z) (r : R) :
  rdZ a j = Fin r -> (0 <= j)%Z /\ (Z.to_nat j < length a)%nat.
Proof.
  unfold rdZ. destruct (Z.ltb_spec j 0); [discriminate |].
  intros H'. apply rd_Fin_lt in H'. split; [lia | assumption].
Qed.

Lemma rdZ_wrZ_eq (a : list num) (j : Z) (v : num) :
  (0 <= j)%Z -> (Z.to_nat j < length a)%nat -> rdZ (wrZ a j v) j = v.
Proof.
  intros H0 H. unfold rdZ, wrZ. destruct (Z.ltb_spec j 0); [lia |].
  now apply rd_insert_eq.
Qed.

Lemma rd_wrZ_ne (a : list num) (i : nat) (j : Z) (v : num) :
  Z.of_nat i <> j -> rd (wrZ a j v) i = rd a i.
Proof.
  intros H. unfold wrZ. destruct (Z.ltb_spec j 0); [reflexivity |].
  apply rd_insert_ne. lia.
Qed.

(** Reading back the two slots of an axis after the two stores of a
    pair resolution. *)
Lemma pair_stores (a : list num) (i : nat) (j : Z) (ri rj : R) (vi vj : num) :
  Z.of_nat i <> j -> rd a i = Fin ri -> rdZ a j = Fin rj ->
  rd (wrZ (<[i := vi]> a) j vj) i = vi /\
  rdZ (wrZ (<[i := vi]> a) j vj) j = vj.
Proof.
  intros Hij Hi Hj. apply rd_Fin_lt in Hi. apply rdZ_Fin_range in Hj.
  split.
  - rewrite rd_wrZ_ne by assumption. now apply rd_insert_eq.
  - apply rdZ_wrZ_eq; [tauto |]. rewrite length_insert. tauto.
Qed.

Lemma velocity_response_pos (i : nat) (j : Z) (nx ny : num) (q : P.t) :
  P.x (velocity_response i j nx ny q) = P.x q /\
  P.y (velocity_response i j nx ny q) = P.y q.
Proof. unfold velocity_response. destruct (_ <? _)%J; split; reflexivity. Qed.

Lemma velocity_response_radius (i : nat) (j : Z) (nx ny : num) (q : P.t) :
  P.radius (velocity_response i j nx ny q) = P.radius q.
Proof. unfold velocity_response. destruct (_ <? _)%J; reflexivity. Qed.

(** The body of the Pass 2 loop on finite slots, case by case. *)
Section Collide.

Variables (q : P.t) (i : nat) (j : Z).
Variables xi yi vxi vyi ri xj yj vxj vyj rj : R.
Hypothesis Hij : Z.of_nat i <> j.
Hypothesis Hxi : rd (P.x q) i = Fin xi.
Hypothesis Hyi : rd (P.y q) i = Fin yi.
Hypothesis Hvxi : rd (P.vx q) i = Fin vxi.
Hypothesis Hvyi : rd (P.vy q) i = Fin vyi.
Hypothesis Hri : rd (P.radius q) i = Fin ri.
Hypothesis Hxj : rdZ (P.x q) j = Fin xj.
Hypothesis Hyj : rdZ (P.y q) j = Fin yj.
Hypothesis Hvxj : rdZ (P.vx q) j = Fin vxj.
Hypothesis Hvyj : rdZ (P.vy q) j = Fin vyj.
Hypothesis Hrj : rdZ (P.radius q) j = Fin rj.

Lemma collide_miss :
  ~ (1 / 1000 < (xi - xj) * (xi - xj) + (yi - yj) * (yi - yj)
              < (ri + rj) * (ri + rj)) ->
  collide i j q = q.
Proof.
  intros H. rewrite collide_unfold by assumption.
  destruct (overlapping q i j) eqn:Hov; [| reflexivity].
  apply (overlapping_iff q i j xi yi ri xj yj rj) in Hov; try assumption.
  contradiction.
Qed.

Variable d : R.
Hypothesis Hd : 0 < d.
Hypothesis Hdd : d * d = (xi - xj) * (xi - xj) + (yi - yj) * (yi - yj).
Hypothesis Hov : 1 / 1000 < d * d < (ri + rj) * (ri + rj).

Lemma collide_hit :
  collide i j q =
  velocity_response i j (Fin ((xi - xj) / d)) (Fin ((yi - yj) / d))
    (P.mk (wrZ (<[i := Fin (xi + (xi - xj) / d * (ri + rj - d) * (1 / 2))]>
                  (P.x q)) j
               (Fin (xj - (xi - xj) / d * (ri + rj - d) * (1 / 2))))
          (wrZ (<[i := Fin (yi + (yi - yj) / d * (ri + rj - d) * (1 / 2))]>
                  (P.y q)) j
               (Fin (yj - (yi - yj) / d * (ri + rj - d) * (1 / 2))))
          (P.vx q) (P.vy q) (P.radius q)).
Proof.
  rewrite collide_unfold by assumption.
  replace (overlapping q i j) with true.
  - unfold resolve.
    rewrite (contact_Fin q i j xi yi ri xj yj rj Hxi Hyi Hri Hxj Hyj Hrj
               d Hd Hdd).
    now rewrite (positional_correction_Fin q i j xi yi xj yj).
  - symmetry. apply (overlapping_iff q i j xi yi ri xj yj rj); try assumption.
    lra.
Qed.

End Collide.

Ltac js_walk :=
  lazy -[IZR Rplus Rmult Rminus Rdiv Ropp Rinv R_sqrt.sqrt Zfloor Zceil
         Rltb Reqb cell_of collide velocity_response].

Ltac js_self i :=
  match goal with
  | |- context [collide i ?j ?q] =>
      change (collide i j q) with (collide i (Z.of_nat i) q);
      rewrite (collide_self q i)
  end.

Ltac js_hit i j dv :=
  match goal with
  | |- context [collide i j ?q] =>
      erewrite (collide_hit q i j) with (d := dv);
      [ | lia | reflexivity .. | lra | lra | lra ]
  end.

Ltac js_miss i j :=
  match goal with
  | |- context [collide i j ?q] =>
      erewrite (collide_miss q i j); [ | lia | reflexivity .. | lra ]
  end.

Ltac js_approaching :=
  erewrite velocity_response_approaching; [ | lia | reflexivity .. | lra].

(** ** The cost of Pass 2 *)

Lemma walk_iterations (budget : nat) (next : list Z) (i : nat) (j : Z)
    (iterations : nat) (q : P.t) :
  (iterations <= snd (walk budget next i j iterations q)
   <= iterations + budget)%nat.
Proof.
  revert j iterations q. induction budget as [| b IH]; intros j it q.
  - cbn. lia.
  - cbn [walk]. destruct (j =? -1)%Z.
    + cbn. lia.
    + specialize (IH (rdI next j) (S it) (collide i j q)). lia.
Qed.

Lemma scan_cell_counts (cfg : Setup) (head next : list Z) (i : nat)
    (cx cy : Z) (acc : P.t * list nat) (d : Z * Z) :
  (length (snd (scan_cell cfg head next i cx cy acc d))
   <= S (length (snd acc)))%nat /\
  (Forall (fun n => (n <= MAX_ITERATIONS)%nat) (snd acc) ->
   Forall (fun n => (n <= MAX_ITERATIONS)%nat)
          (snd (scan_cell cfg head next i cx cy acc d))).
Proof.
  unfold scan_cell. destruct (in_grid _ _ _).
  - pose proof (walk_iterations MAX_ITERATIONS next i
                  (rdI head ((cy + snd d) * gridW cfg + (cx + fst d))) 0
                  (fst acc)) as Hw.
    destruct (walk _ _ _ _ _ _) as [q' n]. cbn [snd] in *. split.
    + rewrite length_app. cbn. lia.
    + intros H. apply Forall_app. split; [exact H |].
      constructor; [lia | constructor].
  - split; [lia | tauto].
Qed.

Lemma scan_counts (cfg : Setup) (head next : list Z) (i : nat) (cx cy : Z)
    (ds : list (Z * Z)) (acc : P.t * list nat) :
  (length (snd (fold_left (scan_cell cfg head next i cx cy) ds acc))
   <= length ds + length (snd acc))%nat /\
  (Forall (fun n => (n <= MAX_ITERATIONS)%nat) (snd acc) ->
   Forall (fun n => (n <= MAX_ITERATIONS)%nat)
          (snd (fold_left (scan_cell cfg head next i cx cy) ds acc))).
Proof.
  revert acc. induction ds as [| d ds IH]; intros acc.
  - cbn. split; [lia | tauto].
  - cbn [fold_left length].
    destruct (scan_cell_counts cfg head next i cx cy acc d) as [H1 H2].
    destruct (IH (scan_cell cfg head next i cx cy acc d)) as [H3 H4].
    split; [lia | tauto].
Qed.

Lemma sum_bounded (l : list nat) (b : nat) :
  Forall (fun n => (n <= b)%nat) l -> (list_sum l <= length l * b)%nat.
Proof.
  induction 1 as [| n l Hn Hl IH]; [cbn; lia |].
  change (list_sum (n :: l)) with (n + list_sum l)%nat.
  change (length (n :: l)) with (S (length l)). lia.
Qed.

(** C8: for a particle [i], Pass 2 walks the lists of at most 9 cells;
    each walk ends with [iterations <= 50], so that at most 450 list
    entries are examined.  The walk is a structural recursion on what is
    left of the 50 iterations: it ends whatever [nextParticle] holds. *)
Theorem pass2_candidates_bounded (cfg : Setup) (head next : list Z)
    (q : P.t) (i : nat) :
  (length (snd (pass2_body cfg head next q i)) <= 9)%nat /\
  Forall (fun n => (n <= 50)%nat) (snd (pass2_body cfg head next q i)) /\
  (list_sum (snd (pass2_body cfg head next q i)) <= 450)%nat.
Proof.
  unfold pass2_body.
  destruct (scan_counts cfg head next i
              (cell_of (rd (P.x q) i)) (cell_of (rd (P.y q) i))
              offsets (q, [])) as [H1 H2].
  cbn [snd length offsets Nat.add] in H1.
  specialize (H2 ltac:(constructor)).
  split; [exact H1 | split; [exact H2 |]].
  apply sum_bounded in H2. unfold MAX_ITERATIONS in H2. nia.
Qed.

(** ** The hand interaction *)

Lemma dt_Fin : dt = Fin (1 / 60).
Proof. unfold dt. apply div_Fin. lra. Qed.

Lemma sum_squares_lt (a b : num) (c : R) :
  (a * a + b * b <? Fin c)%J = true ->
  exists ra rb : R, a = Fin ra /\ b = Fin rb /\ ra * ra + rb * rb < c.
Proof.
  destruct a as [| | | ra], b as [| | | rb]; cbn; try discriminate.
  intros H. apply Rltb_iff in H. now exists ra, rb.
Qed.

Section HandInteraction.

Variables screenW screenH : num.
Variable hand : Hand.t.
Variables (b : B.t) (px py dx dy ax ay : R).
Hypothesis Hpx : B.x b = Fin px.
Hypothesis Hpy : B.y b = Fin py.
Hypothesis Hdx : (Fin px - Hand.x hand * screenW)%J = Fin dx.
Hypothesis Hdy : (Fin py - Hand.y hand * screenH)%J = Fin dy.
Hypothesis Hnear : dx * dx + dy * dy < 150 * 150.

(** Inside the interaction radius, with [dx], [dy] the offset of the
    particle from the hand. *)
Lemma hand_interaction_near :
  hand_interaction screenW screenH hand (Fin ax, Fin ay, b) =
  (Fin (ax + dx / (if Reqb (R_sqrt.sqrt (dx * dx + dy * dy)) 0
                   then 1 / 10 else R_sqrt.sqrt (dx * dx + dy * dy))
             * match Hand.gesture hand with
               | OPEN_PALM =>
                   800 * (1 - R_sqrt.sqrt (dx * dx + dy * dy) / 150)
               | CLOSED_FIST =>
                   - 800 * (1 - R_sqrt.sqrt (dx * dx + dy * dy) / 150)
               | NONE => 0
               end),
   Fin (ay + dy / (if Reqb (R_sqrt.sqrt (dx * dx + dy * dy)) 0
                   then 1 / 10 else R_sqrt.sqrt (dx * dx + dy * dy))
             * match Hand.gesture hand with
               | OPEN_PALM =>
                   800 * (1 - R_sqrt.sqrt (dx * dx + dy * dy) / 150)
               | CLOSED_FIST =>
                   - 800 * (1 - R_sqrt.sqrt (dx * dx + dy * dy) / 150)
               | NONE => 0
               end),
   B.mk (Fin px) (Fin py)
        (B.vx b + (Hand.velocity_x hand || Fin 0) * screenW * Fin (4 / 100)
                  * Fin (1 - R_sqrt.sqrt (dx * dx + dy * dy) / 150))%J
        (B.vy b + (Hand.velocity_y hand || Fin 0) * screenH * Fin (4 / 100)
                  * Fin (1 - R_sqrt.sqrt (dx * dx + dy * dy) / 150))%J).
Proof.
  unfold hand_interaction. rewrite Hpx, Hpy, Hdx, Hdy.
  rewrite sqrt_HAND_RADIUS_SQ.
  set (D := dx * dx + dy * dy) in *.
  assert (HD : 0 <= D) by (subst D; nra).
  change (Fin dx * Fin dx + Fin dy * Fin dy)%J with (Fin D).
  replace (Fin D <? HAND_RADIUS_SQ)%J with true
    by (symmetry; unfold HAND_RADIUS_SQ; cbn [JS.mul]; now apply lt_Fin).
  rewrite sqrt_Fin by assumption.
  set (d := R_sqrt.sqrt D).
  unfold JS.or_else, truthy.
  rewrite (div_Fin d 150) by lra.
  assert (He : (if negb (Reqb d 0) then Fin d else Fin (1 / 10))
               = Fin (if Reqb d 0 then 1 / 10 else d))
    by now destruct (Reqb d 0).
  rewrite He.
  assert (Hne : (if Reqb d 0 then 1 / 10 else d) <> 0).
  { unfold Reqb. destruct (Req_dec_T d 0); [lra | assumption]. }
  rewrite !div_Fin by assumption.
  replace (Fin 1 - Fin (d / 150))%J with (Fin (1 - d / 150))
    by (cbn [JS.sub JS.add JS.neg]; f_equal; lra).
  f_equal. unfold INTERACTION_FORCE.
  destruct (Hand.gesture hand); cbn [JS.mul JS.add JS.neg]; reflexivity.
Qed.

End HandInteraction.

(** C4: a hand at distance [d] from a particle, [0 < d < 150], adds to
    its acceleration the vector of magnitude [INTERACTION_FORCE * falloff],
    [falloff = 1 - d / 150], along the unit vector from the hand to the
    particle for an open palm, along the opposite unit vector for a closed
    fist, and adds nothing without a gesture. *)
Theorem hand_force_direction (screenW screenH : num) (hand : Hand.t)
    (b : B.t) (w h hx hy px py : R) :
  screenW = Fin w -> screenH = Fin h ->
  Hand.x hand = Fin hx -> Hand.y hand = Fin hy ->
  B.x b = Fin px -> B.y b = Fin py ->
  0 < R_sqrt.sqrt ((px - hx * w) * (px - hx * w) + (py - hy * h) * (py - hy * h))
    < 150 ->
  let dx := px - hx * w in
  let dy := py - hy * h in
  let d := R_sqrt.sqrt (dx * dx + dy * dy) in
  let falloff := 1 - d / 150 in
  hand_accel screenW screenH hand b =
    match Hand.gesture hand with
    | OPEN_PALM =>
        (Fin (800 * falloff * (dx / d)), Fin (800 * falloff * (dy / d)))
    | CLOSED_FIST =>
        (Fin (800 * falloff * (- dx / d)), Fin (800 * falloff * (- dy / d)))
    | NONE => (Fin 0, Fin 0)
    end /\
  0 < 800 * falloff /\
  (dx / d) * (dx / d) + (dy / d) * (dy / d) = 1.
Proof.
  intros -> -> Hhx Hhy Hpx Hpy Hd dx dy d falloff.
  fold dx dy in Hd. fold d in Hd.
  assert (HD : 0 <= dx * dx + dy * dy) by nra.
  assert (Hdd : d * d = dx * dx + dy * dy) by (apply sqrt_sqrt; exact HD).
  split; [| split].
  - unfold hand_accel.
    rewrite (hand_interaction_near (Fin w) (Fin h) hand b px py dx dy 0 0).
    + fold d. rewrite Reqb_false by lra. fold falloff.
      destruct (Hand.gesture hand); f_equal; f_equal; unfold Rdiv; ring.
    + assumption.
    + assumption.
    + rewrite Hhx. reflexivity.
    + rewrite Hhy. reflexivity.
    + nra.
  - subst falloff. lra.
  - unfold Rdiv.
    replace (dx * / d * (dx * / d) + dy * / d * (dy * / d))
      with ((dx * dx + dy * dy) * / (d * d)) by (field; lra).
    rewrite <- Hdd. field. lra.
Qed.

Lemma hand_force_direction_witness :
  0 < R_sqrt.sqrt ((53 - 1 / 2 * 100) * (53 - 1 / 2 * 100)
                   + (54 - 1 / 2 * 100) * (54 - 1 / 2 * 100)) < 150 /\
  hand_accel (Fin 100) (Fin 100) hand_palm b_near
  = (Fin 464, Fin (1856 / 3)).
Proof.
  assert (Hs : R_sqrt.sqrt ((53 - 1 / 2 * 100) * (53 - 1 / 2 * 100)
                            + (54 - 1 / 2 * 100) * (54 - 1 / 2 * 100)) = 5)
    by (apply sqrt_lem_1; lra).
  assert (Hd : 0 < R_sqrt.sqrt ((53 - 1 / 2 * 100) * (53 - 1 / 2 * 100)
                                + (54 - 1 / 2 * 100) * (54 - 1 / 2 * 100)) < 150)
    by (rewrite Hs; lra).
  split; [exact Hd |].
  destruct (hand_force_direction (Fin 100) (Fin 100) hand_palm b_near
              100 100 (1 / 2) (1 / 2) 53 54
              eq_refl eq_refl eq_refl eq_refl eq_refl eq_refl Hd) as [H _].
  rewrite H. cbn [Hand.gesture hand_palm]. rewrite Hs.
  f_equal; f_equal; lra.
Defined.

(** ** Pass 1 on finite slots *)

Lemma hand_interaction_finite (w h : R) (hand : Hand.t)
    (ax ay px py vx vy : R) :
  finite_hand hand ->
  exists ax' ay' vx' vy' : R,
    hand_interaction (Fin w) (Fin h) hand
      (Fin ax, Fin ay, B.mk (Fin px) (Fin py) (Fin vx) (Fin vy))
    = (Fin ax', Fin ay', B.mk (Fin px) (Fin py) (Fin vx') (Fin vy')).
Proof.
  intros [Hvx Hvy].
  apply isFinite_Fin in Hvx. destruct Hvx as [hvx Hvx].
  apply isFinite_Fin in Hvy. destruct Hvy as [hvy Hvy].
  set (dx := (Fin px - Hand.x hand * Fin w)%J).
  set (dy := (Fin py - Hand.y hand * Fin h)%J).
  destruct (dx * dx + dy * dy <? HAND_RADIUS_SQ)%J eqn:E.
  - unfold HAND_RADIUS_SQ in E. cbn [JS.mul] in E.
    apply sum_squares_lt in E. destruct E as (rdx & rdy & Hdx & Hdy & Hlt).
    rewrite (hand_interaction_near (Fin w) (Fin h) hand _ px py rdx rdy ax ay)
      by (reflexivity || assumption).
    cbn [B.vx B.vy]. rewrite Hvx, Hvy. cbn [JS.mul JS.add].
    do 4 eexists. reflexivity.
  - exists ax, ay, vx, vy. unfold hand_interaction.
    cbn [B.x B.y]. fold dx dy. now rewrite E.
Qed.

Lemma hand_loop_finite (w h : R) (hands : list Hand.t) :
  Forall finite_hand hands ->
  forall ax ay px py vx vy : R,
  exists ax' ay' vx' vy' : R,
    hand_loop (Fin w) (Fin h) hands
      (Fin ax, Fin ay, B.mk (Fin px) (Fin py) (Fin vx) (Fin vy))
    = (Fin ax', Fin ay', B.mk (Fin px) (Fin py) (Fin vx') (Fin vy')).
Proof.
  induction 1 as [| hand hands Hh Hhs IH]; intros ax ay px py vx vy.
  - exists ax, ay, vx, vy. reflexivity.
  - unfold hand_loop. cbn [fold_left].
    destruct (hand_interaction_finite w h hand ax ay px py vx vy Hh)
      as (ax1 & ay1 & vx1 & vy1 & ->).
    apply IH.
Qed.

Lemma clamp_vel_Fin (v : R) :
  exists v' : R, clamp_vel (Fin v) = Fin v' /\ - 250 <= v' <= 250.
Proof.
  unfold clamp_vel, MAX_VEL, JS.gt. cbn [JS.lt JS.neg].
  destruct (Rlt_le_dec 250 v) as [H1 | H1].
  - rewrite Rltb_true by assumption. exists 250. split; [reflexivity | lra].
  - rewrite Rltb_false by assumption.
    destruct (Rlt_le_dec v (- 250)) as [H2 | H2].
    + rewrite Rltb_true by assumption. exists (- 250). split; [reflexivity | lra].
    + rewrite Rltb_false by assumption. exists v. split; [reflexivity | lra].
Qed.

(** One axis of the boundary resolution: [lo] is the radius, [hi] the
    screen dimension, [bounce] the restitution of the upper side. *)
Lemma boundary_axis (hi lo c v bounce : R) :
  - 250 <= v <= 250 -> 0 <= bounce <= 1 ->
  exists c' v' : R,
    (if (Fin c >? Fin hi - Fin lo)%J
     then ((Fin hi - Fin lo)%J, (Fin v * - Fin bounce)%J)
     else if (Fin c <? Fin lo)%J
          then (Fin lo, (Fin v * - Fin (3 / 10))%J)
          else (Fin c, Fin v))
    = (Fin c', Fin v') /\
    - 250 <= v' <= 250 /\ (2 * lo <= hi -> lo <= c' <= hi - lo).
Proof.
  intros Hv Hb. unfold JS.gt. cbn [JS.lt JS.sub JS.add JS.neg JS.mul].
  destruct (Rlt_le_dec (hi + - lo) c) as [H1 | H1].
  - rewrite Rltb_true by assumption. do 2 eexists.
    split; [reflexivity |]. split; [nra | lra].
  - rewrite Rltb_false by assumption.
    destruct (Rlt_le_dec c lo) as [H2 | H2].
    + rewrite Rltb_true by assumption. do 2 eexists.
      split; [reflexivity |]. split; [nra | lra].
    + rewrite Rltb_false by assumption. do 2 eexists.
      split; [reflexivity |]. split; [lra | lra].
Qed.

Lemma advance_finite (w h rr : R) (hands : list Hand.t)
    (px py vx vy : R) :
  Forall finite_hand hands ->
  exists x y vx' vy' : R,
    advance (Fin w) (Fin h) hands (Fin rr)
            (B.mk (Fin px) (Fin py) (Fin vx) (Fin vy))
    = B.mk (Fin x) (Fin y) (Fin vx') (Fin vy') /\
    - 250 <= vx' <= 250 /\ - 250 <= vy' <= 250 /\
    (2 * rr <= w -> rr <= x <= w - rr) /\
    (2 * rr <= h -> rr <= y <= h - rr).
Proof.
  intros Hh. unfold advance.
  destruct (hand_loop_finite w h hands Hh 0 30 px py vx vy)
    as (ax & ay & vx1 & vy1 & Hl).
  unfold GRAVITY. rewrite Hl.
  unfold integrate, max_velocity, move. cbn [B.x B.y B.vx B.vy].
  rewrite dt_Fin. unfold FRICTION_AIR. cbn [JS.mul JS.add].
  destruct (clamp_vel_Fin ((vx1 + ax * (1 / 60)) * (98 / 100)))
    as (cvx & -> & Hcvx).
  destruct (clamp_vel_Fin ((vy1 + ay * (1 / 60)) * (98 / 100)))
    as (cvy & -> & Hcvy).
  cbn [JS.mul JS.add].
  unfold boundaries, BOUNCE_GROUND, BOUNCE_WALL. cbn [B.x B.y B.vx B.vy].
  destruct (boundary_axis h rr (py + cvy * (1 / 60) * 5) cvy (3 / 10))
    as (y' & vy' & -> & Hvy' & Hy'); [assumption | lra |].
  destruct (boundary_axis w rr (px + cvx * (1 / 60) * 5) cvx (3 / 10))
    as (x' & vx' & -> & Hvx' & Hx'); [assumption | lra |].
  exists x', y', vx', vy'. repeat split; tauto.
Qed.

Lemma finite_body_inv (b : B.t) :
  finite_body b ->
  exists px py vx vy : R, b = B.mk (Fin px) (Fin py) (Fin vx) (Fin vy).
Proof.
  destruct b as [bx by_ bvx bvy]. unfold finite_body. cbn.
  intros (H1 & H2 & H3 & H4).
  apply isFinite_Fin in H1, H2, H3, H4.
  destruct H1 as [px ->], H2 as [py ->], H3 as [vx ->], H4 as [vy ->].
  now exists px, py, vx, vy.
Qed.

Lemma respawn_safety_finite (screenW screenH u : num) (b : B.t) :
  isFinite (B.x b) = true -> isFinite (B.y b) = true ->
  respawn_safety screenW screenH u b = b.
Proof. intros Hx Hy. unfold respawn_safety. now rewrite Hx, Hy. Qed.

Lemma respawn_safety_fault (screenW screenH u : num) (b : B.t) :
  isFinite (B.x b) = false \/ isFinite (B.y b) = false ->
  respawn_safety screenW screenH u b =
  B.mk (u * screenW)%J (screenH - Fin 50)%J (Fin 0) (Fin 0).
Proof.
  intros H. unfold respawn_safety.
  destruct H as [-> | ->]; [reflexivity |].
  now rewrite orb_true_r.
Qed.

(** What Pass 1 leaves for a particle whose slots are finite. *)
Lemma pass1_slots_finite (w h rr : R) (hands : list Hand.t)
    (rnd : nat -> num) (q : P.t) (i : nat) :
  Forall finite_hand hands ->
  finite_body (body_at q i) -> rd (P.radius q) i = Fin rr ->
  exists x y vx vy : R,
    pass1_slots (Fin w) (Fin h) hands rnd q i
    = B.mk (Fin x) (Fin y) (Fin vx) (Fin vy) /\
    - 250 <= vx <= 250 /\ - 250 <= vy <= 250 /\
    (2 * rr <= w -> rr <= x <= w - rr) /\
    (2 * rr <= h -> rr <= y <= h - rr).
Proof.
  intros Hh Hb Hr. unfold pass1_slots. rewrite Hr.
  rewrite respawn_safety_finite by apply Hb.
  apply finite_body_inv in Hb. destruct Hb as (px & py & vx & vy & ->).
  now apply advance_finite.
Qed.

(** ** The grid on the screen it was set up for *)

Lemma cell_of_in_range (w x rr : R) :
  0 < rr -> rr <= x <= w - rr -> (grid_dim w <= 2 ^ 31)%Z ->
  (0 <= cell_of (Fin x) < grid_dim w)%Z.
Proof.
  intros Hr Hx Hw. unfold cell_of, CELL_SIZE. rewrite div_Fin by lra.
  unfold toInt32, Rtrunc. rewrite Rltb_false by lra.
  pose proof (Zfloor_bound (x / 12)) as Hf.
  pose proof (Zceil_bound (w / 12)) as Hc. fold (grid_dim w) in Hc.
  assert (H0 : (0 <= Zfloor (x / 12))%Z) by (apply Zfloor_lub; lra).
  assert (H1 : (Zfloor (x / 12) < grid_dim w)%Z) by (apply lt_IZR; lra).
  unfold wrap32. rewrite Z.mod_small by lia. lia.
Qed.

(** As long as the screen is the one the grid was set up for, the guard
    of line 306 lets every particle with finite slots and a positive radius
    through: Pass 1 files it under a cell, and by [after_pass1_grid] it is
    then in the list of this cell and of no other. *)
Lemma pass1_cell_in_grid (cfg : Setup) (hands : list Hand.t)
    (rnd : nat -> num) (st : State) (i : nat) (w h rr : R) :
  gridW cfg = grid_dim w -> gridH cfg = grid_dim h ->
  (grid_dim w <= 2 ^ 31)%Z -> (grid_dim h <= 2 ^ 31)%Z ->
  wf_state cfg st -> (i < particleCount cfg)%nat ->
  Forall finite_hand hands ->
  finite_body (body_at (p st) i) ->
  rd (P.radius (p st)) i = Fin rr ->
  0 < rr -> 2 * rr <= Rmin w h ->
  exists c : Z,
    cell_index cfg (body_at (p (after_pass1 cfg (Fin w) (Fin h) hands rnd st)) i)
    = Some c /\
    In i (members cfg
            (body_at (p (after_pass1 cfg (Fin w) (Fin h) hands rnd st)))
            (particleCount cfg) c).
Proof.
  intros HgW HgH HW HH Hwf Hi Hhands Hb Hr Hpos Hmin.
  pose proof (Rmin_l w h). pose proof (Rmin_r w h).
  assert (Hc : exists c : Z,
    cell_index cfg (body_at (p (after_pass1 cfg (Fin w) (Fin h) hands rnd st)) i)
    = Some c).
  { rewrite after_pass1_slots by assumption.
    destruct (pass1_slots_finite w h rr hands rnd (p st) i Hhands Hb Hr)
      as (x & y & vx & vy & -> & _ & _ & Hx & Hy).
    specialize (Hx ltac:(lra)). specialize (Hy ltac:(lra)).
    pose proof (cell_of_in_range w x rr Hpos Hx HW) as Hcx.
    pose proof (cell_of_in_range h y rr Hpos Hy HH) as Hcy.
    unfold cell_index, in_grid. cbn [B.x B.y]. rewrite HgW, HgH.
    destruct (Z.leb_spec 0 (cell_of (Fin x))); [| lia].
    destruct (Z.ltb_spec (cell_of (Fin x)) (grid_dim w)); [| lia].
    destruct (Z.leb_spec 0 (cell_of (Fin y))); [| lia].
    destruct (Z.ltb_spec (cell_of (Fin y)) (grid_dim h)); [| lia].
    cbn [andb]. eexists. reflexivity. }
  destruct Hc as [c Hc]. exists c. split; [exact Hc |].
  unfold members. rewrite <- in_rev, filter_In, in_seq.
  split; [lia |]. now apply bool_decide_eq_true.
Qed.

(** ** Pass 2 when no pair overlaps *)

Lemma overlapping_NaN_i (q : P.t) (i : nat) (j : Z) :
  rd (P.x q) i = NaN -> overlapping q i j = false.
Proof. intros H. unfold overlapping. rewrite H. reflexivity. Qed.

Lemma overlapping_NaN_j (q : P.t) (i : nat) (j : Z) :
  rdZ (P.x q) j = NaN -> overlapping q i j = false.
Proof.
  intros H. unfold overlapping. rewrite H.
  now destruct (rd (P.x q) i).
Qed.

(** Out of range the positions read as [NaN]: only the pairs of
    particles matter. *)
Lemma no_overlap_intro (q : P.t) :
  (forall i j : nat,
     (i < length (P.x q))%nat -> (j < length (P.x q))%nat -> i <> j ->
     overlapping q i (Z.of_nat j) = false) ->
  no_overlap q.
Proof.
  intros H i j Hij.
  destruct (Nat.lt_ge_cases i (length (P.x q))) as [Hi | Hi].
  - destruct (Z.ltb_spec j 0) as [Hj | Hj].
    + apply overlapping_NaN_j. unfold rdZ.
      destruct (Z.ltb_spec j 0); [reflexivity | lia].
    + destruct (Nat.lt_ge_cases (Z.to_nat j) (length (P.x q))) as [Hj' | Hj'].
      * rewrite <- (Z2Nat.id j) by assumption. apply H; [assumption .. | lia].
      * apply overlapping_NaN_j. unfold rdZ.
        destruct (Z.ltb_spec j 0); [reflexivity |]. now apply rd_out.
  - apply overlapping_NaN_i. now apply rd_out.
Qed.

Lemma collide_no_overlap (q : P.t) (i : nat) (j : Z) :
  no_overlap q -> collide i j q = q.
Proof.
  intros H. unfold collide.
  destruct (Z.eqb_spec (Z.of_nat i) j) as [E | E]; [reflexivity |].
  cbn [negb]. now rewrite H.
Qed.

Lemma walk_no_overlap (budget : nat) (next : list Z) (i : nat) (j : Z)
    (iterations : nat) (q : P.t) :
  no_overlap q -> fst (walk budget next i j iterations q) = q.
Proof.
  intros H. revert j iterations.
  induction budget as [| b IH]; intros j it; [reflexivity |].
  cbn [walk]. destruct (j =? -1)%Z; [reflexivity |].
  rewrite collide_no_overlap by assumption. apply IH.
Qed.

Lemma scan_no_overlap (cfg : Setup) (head next : list Z) (i : nat)
    (cx cy : Z) (q : P.t) (ds : list (Z * Z)) (acc : P.t * list nat) :
  no_overlap q -> fst acc = q ->
  fst (fold_left (scan_cell cfg head next i cx cy) ds acc) = q.
Proof.
  intros H. revert acc. induction ds as [| d ds IH]; intros acc Hacc.
  - exact Hacc.
  - cbn [fold_left]. apply IH. unfold scan_cell.
    destruct (in_grid _ _ _); [| exact Hacc].
    rewrite Hacc.
    pose proof (walk_no_overlap MAX_ITERATIONS next i
                  (rdI head ((cy + snd d) * gridW cfg + (cx + fst d))) 0 q H)
      as Hw.
    destruct (walk _ _ _ _ _ _) as [q' n]. exact Hw.
Qed.

Lemma pass2_no_overlap (cfg : Setup) (head next : list Z) (q : P.t) :
  no_overlap q -> pass2 cfg head next q = q.
Proof.
  intros H. unfold pass2.
  induction (seq 0 (particleCount cfg)) as [| i l IH]; [reflexivity |].
  cbn [fold_left]. unfold pass2_body at 2.
  rewrite (scan_no_overlap cfg head next i _ _ q) by (assumption || reflexivity).
  exact IH.
Qed.

Lemma tick_no_overlap (cfg : Setup) (screenW screenH : num)
    (hands : list Hand.t) (rnd : nat -> num) (st : State) :
  no_overlap (p (after_pass1 cfg screenW screenH hands rnd st)) ->
  p (tick cfg screenW screenH hands rnd st)
  = p (after_pass1 cfg screenW screenH hands rnd st).
Proof. intros H. unfold tick. cbn [p]. now apply pass2_no_overlap. Qed.

(** C2, as the code has it: for a particle with finite slots and radius,
    on a finite screen and with hands of finite velocity, both velocity
    components are within [MAX_VEL] immediately after Pass 1, and still at
    the end of the tick when no pair of particles passes the overlap test
    after Pass 1. *)
Theorem velocity_clamped_after_pass1 (cfg : Setup) (screenW screenH : num)
    (hands : list Hand.t) (rnd : nat -> num) (st : State) (i : nat)
    (w h rr : R) :
  wf_state cfg st -> (i < particleCount cfg)%nat ->
  screenW = Fin w -> screenH = Fin h ->
  Forall finite_hand hands ->
  finite_body (body_at (p st) i) ->
  rd (P.radius (p st)) i = Fin rr ->
  (abs_le (B.vx (body_at (p (after_pass1 cfg screenW screenH hands rnd st)) i))
          MAX_VEL /\
   abs_le (B.vy (body_at (p (after_pass1 cfg screenW screenH hands rnd st)) i))
          MAX_VEL) /\
  (no_overlap (p (after_pass1 cfg screenW screenH hands rnd st)) ->
   abs_le (B.vx (body_at (p (tick cfg screenW screenH hands rnd st)) i)) MAX_VEL /\
   abs_le (B.vy (body_at (p (tick cfg screenW screenH hands rnd st)) i)) MAX_VEL).
Proof.
  intros Hwf Hi -> -> Hhands Hb Hr.
  assert (H1 :
    abs_le (B.vx (body_at (p (after_pass1 cfg (Fin w) (Fin h) hands rnd st)) i))
           MAX_VEL /\
    abs_le (B.vy (body_at (p (after_pass1 cfg (Fin w) (Fin h) hands rnd st)) i))
           MAX_VEL).
  { rewrite after_pass1_slots by assumption.
    destruct (pass1_slots_finite w h rr hands rnd (p st) i Hhands Hb Hr)
      as (x & y & vx & vy & -> & Hvx & Hvy & _).
    unfold abs_le, MAX_VEL. cbn [B.vx B.vy JS.neg le]. lra. }
  split; [exact H1 |].
  intros Hno. now rewrite tick_no_overlap.
Qed.

(** ** The tick as a function of the particle arrays *)

Lemma list_eq_rd (a b : list num) :
  length a = length b ->
  (forall i, (i < length a)%nat -> rd a i = rd b i) ->
  a = b.
Proof.
  intros Hlen H. apply list_eq. intros i.
  destruct (Nat.lt_ge_cases i (length a)) as [Hi | Hi].
  - specialize (H i Hi). unfold rd in H.
    destruct (lookup_lt_is_Some_2 a i Hi) as [va Ha].
    destruct (lookup_lt_is_Some_2 b i ltac:(lia)) as [vb Hb].
    rewrite Ha, Hb in *. cbn in H. now subst.
  - rewrite !lookup_ge_None_2 by lia. reflexivity.
Qed.

Lemma particles_eq (cfg : Setup) (st st' : State) :
  wf_state cfg st -> wf_state cfg st' ->
  P.radius (p st) = P.radius (p st') ->
  (forall i, (i < particleCount cfg)%nat ->
             body_at (p st) i = body_at (p st') i) ->
  p st = p st'.
Proof.
  intros (Hx & Hy & Hvx & Hvy & _) (Hx' & Hy' & Hvx' & Hvy' & _) Hr Hb.
  destruct (p st) as [x y vx vy r], (p st') as [x' y' vx' vy' r'].
  cbn [P.x P.y P.vx P.vy P.radius] in *. subst r'.
  assert (x = x' /\ y = y' /\ vx = vx' /\ vy = vy') as (-> & -> & -> & ->).
  { repeat split; apply list_eq_rd; try congruence;
      intros i Hi; specialize (Hb i ltac:(lia));
      unfold body_at in Hb; cbn [P.x P.y P.vx P.vy] in Hb; congruence. }
  reflexivity.
Qed.

(** The walk of a proper list visits its first [budget] entries. *)
Lemma walk_linked (budget : nat) (next : list Z) (i : nat) (j : Z)
    (l : list nat) (iterations : nat) (q : P.t) :
  linked next j l ->
  walk budget next i j iterations q =
  (fold_left (fun q k => collide i (Z.of_nat k) q) (firstn budget l) q,
   (iterations + length (firstn budget l))%nat).
Proof.
  intros Hl. revert budget iterations q.
  induction Hl as [| k l Hl IH]; intros budget it q.
  - destruct budget; cbn [walk firstn fold_left length]; f_equal; lia.
  - destruct budget as [| b]; cbn [walk firstn fold_left length].
    + f_equal; lia.
    + destruct (Z.eqb_spec (Z.of_nat k) (-1)); [lia |].
      rewrite IH. f_equal. lia.
Qed.

Section SameLists.

Variable cfg : Setup.
Variables head next head' next' : list Z.
Variable M : Z -> list nat.
Hypothesis Hl : forall c, (0 <= c < gridW cfg * gridH cfg)%Z ->
                          linked next (rdI head c) (M c).
Hypothesis Hl' : forall c, (0 <= c < gridW cfg * gridH cfg)%Z ->
                           linked next' (rdI head' c) (M c).

Lemma scan_cell_same (i : nat) (cx cy : Z) (acc : P.t * list nat)
    (d : Z * Z) :
  scan_cell cfg head next i cx cy acc d
  = scan_cell cfg head' next' i cx cy acc d.
Proof.
  unfold scan_cell. destruct (in_grid _ _ _) eqn:E; [| reflexivity].
  apply in_grid_range in E.
  now rewrite (walk_linked _ _ _ _ _ _ _ (Hl _ E)),
              (walk_linked _ _ _ _ _ _ _ (Hl' _ E)).
Qed.

Lemma scan_same (i : nat) (cx cy : Z) (ds : list (Z * Z))
    (acc : P.t * list nat) :
  fold_left (scan_cell cfg head next i cx cy) ds acc
  = fold_left (scan_cell cfg head' next' i cx cy) ds acc.
Proof.
  revert acc. induction ds as [| d ds IH]; intros acc; cbn [fold_left].
  - reflexivity.
  - rewrite IH. apply f_equal. apply scan_cell_same.
Qed.

Lemma pass2_body_same (q : P.t) (i : nat) :
  pass2_body cfg head next q i = pass2_body cfg head' next' q i.
Proof. unfold pass2_body. apply scan_same. Qed.

Lemma pass2_same (q : P.t) :
  pass2 cfg head next q = pass2 cfg head' next' q.
Proof.
  unfold pass2. generalize (seq 0 (particleCount cfg)). intros l.
  revert q. induction l as [| i l IH]; intros q; cbn [fold_left].
  - reflexivity.
  - rewrite IH. do 2 apply f_equal. apply pass2_body_same.
Qed.

End SameLists.

Lemma collide_radius (i : nat) (j : Z) (q : P.t) :
  P.radius (collide i j q) = P.radius q.
Proof.
  unfold collide. destruct (negb _); [| reflexivity].
  destruct (overlapping q i j); [| reflexivity].
  unfold resolve. destruct (contact q i j) as [[nx ny] overlap].
  now rewrite velocity_response_radius.
Qed.

Lemma walk_radius (budget : nat) (next : list Z) (i : nat) (j : Z)
    (iterations : nat) (q : P.t) :
  P.radius (fst (walk budget next i j iterations q)) = P.radius q.
Proof.
  revert j iterations q.
  induction budget as [| b IH]; intros j it q; [reflexivity |].
  cbn [walk]. destruct (j =? -1)%Z; [reflexivity |].
  rewrite IH. apply collide_radius.
Qed.

Lemma scan_radius (cfg : Setup) (head next : list Z) (i : nat) (cx cy : Z)
    (ds : list (Z * Z)) (acc : P.t * list nat) :
  P.radius (fst (fold_left (scan_cell cfg head next i cx cy) ds acc))
  = P.radius (fst acc).
Proof.
  revert acc. induction ds as [| d ds IH]; intros acc; cbn [fold_left].
  - reflexivity.
  - rewrite IH. unfold scan_cell. destruct (in_grid _ _ _); [| reflexivity].
    pose proof (walk_radius MAX_ITERATIONS next i
                  (rdI head ((cy + snd d) * gridW cfg + (cx + fst d))) 0
                  (fst acc)) as Hw.
    destruct (walk _ _ _ _ _ _) as [q' n]. exact Hw.
Qed.

Lemma pass2_radius (cfg : Setup) (head next : list Z) (q : P.t) :
  P.radius (pass2 cfg head next q) = P.radius q.
Proof.
  unfold pass2. generalize (seq 0 (particleCount cfg)). intros l.
  revert q. induction l as [| i l IH]; intros q; cbn [fold_left].
  - reflexivity.
  - rewrite IH. unfold pass2_body. apply scan_radius.
Qed.

Lemma tick_radius (cfg : Setup) (screenW screenH : num)
    (hands : list Hand.t) (rnd : nat -> num) (st : State) :
  P.radius (p (tick cfg screenW screenH hands rnd st)) = P.radius (p st).
Proof.
  unfold tick. cbn [p]. rewrite pass2_radius. apply after_pass1_radius.
Qed.

(** Pass 1 draws no random number for a particle at a finite position,
    and does not read what the grid arrays held before the tick. *)
Lemma after_pass1_deterministic (cfg : Setup) (screenW screenH : num)
    (hands : list Hand.t) (rnd rnd' : nat -> num) (st st' : State) :
  wf_state cfg st -> wf_state cfg st' -> p st = p st' ->
  (forall i, (i < particleCount cfg)%nat ->
     isFinite (rd (P.x (p st)) i) = true /\
     isFinite (rd (P.y (p st)) i) = true) ->
  p (after_pass1 cfg screenW screenH hands rnd st)
  = p (after_pass1 cfg screenW screenH hands rnd' st').
Proof.
  intros Hwf Hwf' Hp Hfin.
  apply (particles_eq cfg).
  - now apply after_pass1_wf.
  - now apply after_pass1_wf.
  - rewrite !after_pass1_radius. now rewrite Hp.
  - intros i Hi. rewrite !after_pass1_slots by assumption.
    rewrite <- Hp. unfold pass1_slots.
    destruct (Hfin i Hi) as [Hx Hy].
    now rewrite !respawn_safety_finite.
Qed.

(** C10: when every particle is at a finite position before the tick,
    the particle arrays after the tick are the same whatever
    [Math.random()] returns and whatever the two grid arrays held before
    the tick: they are a function of the particle arrays before the tick,
    the hands and the screen.  The radii are those before the tick. *)
Theorem tick_deterministic (cfg : Setup) (screenW screenH : num)
    (hands : list Hand.t) (rnd rnd' : nat -> num) (st st' : State) :
  wf_state cfg st -> wf_state cfg st' -> p st = p st' ->
  (forall i, (i < particleCount cfg)%nat ->
     isFinite (rd (P.x (p st)) i) = true /\
     isFinite (rd (P.y (p st)) i) = true) ->
  p (tick cfg screenW screenH hands rnd st)
  = p (tick cfg screenW screenH hands rnd' st') /\
  P.radius (p (tick cfg screenW screenH hands rnd st)) = P.radius (p st).
Proof.
  intros Hwf Hwf' Hp Hfin. split; [| apply tick_radius].
  pose proof (after_pass1_deterministic cfg screenW screenH hands rnd rnd'
                st st' Hwf Hwf' Hp Hfin) as H1.
  unfold tick. cbn [p]. rewrite <- H1.
  apply (pass2_same cfg _ _ _ _
           (members cfg
              (body_at (p (after_pass1 cfg screenW screenH hands rnd st)))
              (particleCount cfg))).
  - intros c Hc. now apply after_pass1_grid.
  - intros c Hc. rewrite H1. now apply after_pass1_grid.
Qed.

Lemma tick_deterministic_witness :
  p (tick cfg_two (Fin 24) (Fin 24) [] rnd_half st_wall)
  = p (tick cfg_two (Fin 24) (Fin 24) [] rnd_zero st_wall_stale) /\
  P.radius (p (tick cfg_two (Fin 24) (Fin 24) [] rnd_half st_wall))
  = P.radius (p st_wall).
Proof.
  apply (tick_deterministic cfg_two (Fin 24) (Fin 24) [] rnd_half rnd_zero
           st_wall st_wall_stale).
  - repeat split.
  - repeat split.
  - reflexivity.
  - intros i Hi. cbn in Hi.
    destruct i as [| [| i]]; [split; reflexivity | split; reflexivity | lia].
Defined.

(** ** The properties on the sample inputs *)

Lemma st_far_wf : wf_state cfg_one st_far.
Proof. repeat split. Qed.

Lemma velocity_clamped_after_pass1_witness :
  (abs_le (B.vx (body_at (p (after_pass1 cfg_one (Fin 48) (Fin 48) [] rnd_half
                                st_far)) 0)) MAX_VEL /\
   abs_le (B.vy (body_at (p (after_pass1 cfg_one (Fin 48) (Fin 48) [] rnd_half
                                st_far)) 0)) MAX_VEL) /\
  (no_overlap (p (after_pass1 cfg_one (Fin 48) (Fin 48) [] rnd_half st_far)) ->
   abs_le (B.vx (body_at (p (tick cfg_one (Fin 48) (Fin 48) [] rnd_half st_far)) 0))
          MAX_VEL /\
   abs_le (B.vy (body_at (p (tick cfg_one (Fin 48) (Fin 48) [] rnd_half st_far)) 0))
          MAX_VEL).
Proof.
  apply (velocity_clamped_after_pass1 cfg_one (Fin 48) (Fin 48) [] rnd_half
           st_far 0 48 48 2).
  - exact st_far_wf.
  - cbn. lia.
  - reflexivity.
  - reflexivity.
  - constructor.
  - repeat split.
  - reflexivity.
Defined.

Lemma grid_membership_witness :
  exists l : list nat,
    linked (nextParticle (after_pass1 cfg_two (Fin 24) (Fin 24) [] rnd_half st_wall))
           (rdI (gridHead (after_pass1 cfg_two (Fin 24) (Fin 24) [] rnd_half st_wall)) 2)
           l /\
    count_occ Nat.eq_dec l 0%nat =
    if bool_decide
         (cell_index cfg_two
            (body_at (p (after_pass1 cfg_two (Fin 24) (Fin 24) [] rnd_half
                           st_wall)) 0)
          = Some 2%Z)
    then 1%nat else 0%nat.
Proof.
  apply (grid_membership cfg_two (Fin 24) (Fin 24) [] rnd_half st_wall 0 2).
  - repeat split.
  - cbn. lia.
  - cbn. lia.
Defined.

(** C6, as the code has it: the fault Pass 1 checks for is a non-finite
    position.  A particle whose [x] or [y] is not finite goes through
    Pass 1 from the safe default: position [(random x, screenH - 50)] and
    zero velocity.  A particle at a finite position goes through Pass 1
    from its own slots, whatever its velocity. *)
Theorem respawn_on_nonfinite_position (cfg : Setup) (screenW screenH : num)
    (hands : list Hand.t) (rnd : nat -> num) (st : State) (i : nat) :
  wf_state cfg st -> (i < particleCount cfg)%nat ->
  (isFinite (rd (P.x (p st)) i) = false \/
   isFinite (rd (P.y (p st)) i) = false ->
   body_at (p (after_pass1 cfg screenW screenH hands rnd st)) i =
   advance screenW screenH hands (rd (P.radius (p st)) i)
     (B.mk (rnd i * screenW)%J (screenH - Fin 50)%J (Fin 0) (Fin 0))) /\
  (isFinite (rd (P.x (p st)) i) = true ->
   isFinite (rd (P.y (p st)) i) = true ->
   body_at (p (after_pass1 cfg screenW screenH hands rnd st)) i =
   advance screenW screenH hands (rd (P.radius (p st)) i)
     (body_at (p st) i)).
Proof.
  intros Hwf Hi. split.
  - intros H. rewrite after_pass1_slots by assumption. unfold pass1_slots.
    now rewrite respawn_safety_fault.
  - intros Hx Hy. rewrite after_pass1_slots by assumption. unfold pass1_slots.
    now rewrite respawn_safety_finite.
Qed.

Lemma st_lost_wf : wf_state cfg_wide st_lost.
Proof. repeat split. Qed.

Lemma respawn_on_nonfinite_position_witness :
  body_at (p (after_pass1 cfg_wide (Fin 120) (Fin 120) [] rnd_half st_lost)) 0 =
  advance (Fin 120) (Fin 120) [] (rd (P.radius (p st_lost)) 0)
    (B.mk (rnd_half 0%nat * Fin 120)%J (Fin 120 - Fin 50)%J (Fin 0) (Fin 0)).
Proof.
  apply (proj1 (respawn_on_nonfinite_position cfg_wide (Fin 120) (Fin 120) []
                  rnd_half st_lost 0 st_lost_wf ltac:(cbn; lia))).
  left. reflexivity.
Defined.

Lemma st_nan_wf : wf_state cfg_wide st_nan.
Proof. repeat split. Qed.

Lemma st_nan_no_overlap :
  no_overlap (p (after_pass1 cfg_wide (Fin 120) (Fin 120) [] rnd_half st_nan)).
Proof.
  apply no_overlap_intro.
  destruct (after_pass1_wf cfg_wide (Fin 120) (Fin 120) [] rnd_half st_nan
              st_nan_wf) as [Hx _].
  rewrite Hx. cbn [particleCount cfg_wide]. intros i j Hi Hj Hij. lia.
Qed.

(** C6 as stated fails: the particle of [st_nan] has a non-finite
    velocity and a finite position.  The tick does not respawn it: it ends
    the tick with [NaN] as horizontal position and velocity, whereas from
    the safe default it would have ended Pass 1 with finite slots. *)
Lemma nan_velocity_not_respawned :
  isFinite (rd (P.vx (p st_nan)) 0) = false /\
  body_at (p (tick cfg_wide (Fin 120) (Fin 120) [] rnd_half st_nan)) 0
  = B.mk NaN (Fin (60 + 49 / 1200)) NaN (Fin (49 / 100)) /\
  advance (Fin 120) (Fin 120) [] (rd (P.radius (p st_nan)) 0)
    (B.mk (rnd_half 0%nat * Fin 120)%J (Fin 120 - Fin 50)%J (Fin 0) (Fin 0))
  = B.mk (Fin 60) (Fin (70 + 49 / 1200)) (Fin 0) (Fin (49 / 100)).
Proof.
  split; [reflexivity | split].
  - rewrite tick_no_overlap by exact st_nan_no_overlap.
    rewrite after_pass1_slots by (exact st_nan_wf || (cbn; lia)).
    unfold st_nan. js_slots. js_eq.
  - unfold st_nan, rnd_half. js_slots. js_eq.
Qed.

Lemma st_cross_pass1 :
  after_pass1 cfg_four (Fin 48) (Fin 48) [] rnd_half st_cross =
  mkState (P.mk [Fin (89 / 3); Fin (365 / 12)]
                [Fin (30549 / 1200); Fin (29349 / 1200)]
                [Fin 245; Fin 245]
                [Fin (- (24451 / 100)); Fin (24549 / 100)]
                [Fin 2; Fin 2])
          (<[10%nat := 1%Z]> (replicate 16 (-1)%Z)) [-1; 0]%Z.
Proof.
  unfold after_pass1, pass1. cbn [particleCount cfg_four seq fold_left].
  rewrite (pass1_body_eq _ _ _ _ _ _ 0
             (B.mk (Fin (89 / 3)) (Fin (30549 / 1200)) (Fin 245)
                   (Fin (- (24451 / 100)))) 2 2).
  2: { unfold st_cross, clear_grid. js_slots. js_eq. }
  2: { cbn [B.x]. js_cell 2%Z. reflexivity. }
  2: { cbn [B.y]. js_cell 2%Z. reflexivity. }
  rewrite (pass1_body_eq _ _ _ _ _ _ 1
             (B.mk (Fin (365 / 12)) (Fin (29349 / 1200)) (Fin 245)
                   (Fin (24549 / 100))) 2 2).
  2: { unfold st_cross, clear_grid. js_slots. js_eq. }
  2: { cbn [B.x]. js_cell 2%Z. reflexivity. }
  2: { cbn [B.y]. js_cell 2%Z. reflexivity. }
  reflexivity.
Qed.

Lemma st_cross_pass2_0 :
  fst (pass2_body cfg_four (<[10%nat := 1%Z]> (replicate 16 (-1)%Z)) [-1; 0]%Z
         (P.mk [Fin (89 / 3); Fin (365 / 12)]
               [Fin (30549 / 1200); Fin (29349 / 1200)]
               [Fin 245; Fin 245]
               [Fin (- (24451 / 100)); Fin (24549 / 100)]
               [Fin 2; Fin 2]) 0)
  = P.mk [Fin (3461 / 120); Fin (3749 / 120)]
         [Fin (31869 / 1200); Fin (28029 / 1200)]
         [Fin (637 / 5); Fin (1813 / 5)]
         [Fin (- (8771 / 100)); Fin (8869 / 100)]
         [Fin 2; Fin 2].
Proof.
  rewrite (pass2_body_eq cfg_four _ _ _ 0 2 2).
  2: { js_cbn. js_cell 2%Z. reflexivity. }
  2: { js_cbn. js_cell 2%Z. reflexivity. }
  js_walk. js_self 0%nat.
  js_hit 0%nat 1%Z (5 / 4).
  js_approaching.
  js_walk. js_eq.
Qed.

Lemma st_cross_pass2_1 :
  fst (pass2_body cfg_four (<[10%nat := 1%Z]> (replicate 16 (-1)%Z)) [-1; 0]%Z
         (P.mk [Fin (3461 / 120); Fin (3749 / 120)]
               [Fin (31869 / 1200); Fin (28029 / 1200)]
               [Fin (637 / 5); Fin (1813 / 5)]
               [Fin (- (8771 / 100)); Fin (8869 / 100)]
               [Fin 2; Fin 2]) 1)
  = P.mk [Fin (3461 / 120); Fin (3749 / 120)]
         [Fin (31869 / 1200); Fin (28029 / 1200)]
         [Fin (637 / 5); Fin (1813 / 5)]
         [Fin (- (8771 / 100)); Fin (8869 / 100)]
         [Fin 2; Fin 2].
Proof.
  rewrite (pass2_body_eq cfg_four _ _ _ 1 2 1).
  2: { js_cbn. js_cell 2%Z. reflexivity. }
  2: { js_cbn. js_cell 1%Z. reflexivity. }
  js_walk. js_self 1%nat.
  js_miss 1%nat 0%Z.
  reflexivity.
Qed.

Lemma st_cross_tick :
  p (tick cfg_four (Fin 48) (Fin 48) [] rnd_half st_cross)
  = P.mk [Fin (3461 / 120); Fin (3749 / 120)]
         [Fin (31869 / 1200); Fin (28029 / 1200)]
         [Fin (637 / 5); Fin (1813 / 5)]
         [Fin (- (8771 / 100)); Fin (8869 / 100)]
         [Fin 2; Fin 2].
Proof.
  unfold tick. rewrite st_cross_pass1. cbn [p gridHead nextParticle].
  unfold pass2. cbn [seq fold_left particleCount cfg_four].
  now rewrite st_cross_pass2_0, st_cross_pass2_1.
Qed.

(** C2 as stated fails: in [st_cross] every velocity component is within
    [MAX_VEL] before the tick; the impulse of Pass 2 along the diagonal
    contact normal leaves the second particle with [vx = 362.6] at the end
    of the tick. *)
Lemma tick_exceeds_max_vel :
  (forall i : nat, (i < 2)%nat ->
     abs_le (rd (P.vx (p st_cross)) i) MAX_VEL /\
     abs_le (rd (P.vy (p st_cross)) i) MAX_VEL) /\
  ~ abs_le
      (B.vx (body_at (p (tick cfg_four (Fin 48) (Fin 48) [] rnd_half st_cross)) 1))
      MAX_VEL.
Proof.
  split.
  - intros i Hi. destruct i as [| [| i]]; [| | lia];
      unfold abs_le, MAX_VEL; cbn; lra.
  - rewrite st_cross_tick. unfold abs_le, MAX_VEL. cbn. lra.
Qed.

(** ** The broad phase *)

Lemma Rtrunc_bounds (r : R) :
  (0 <= r -> IZR (Rtrunc r) <= r < IZR (Rtrunc r) + 1) /\
  (r < 0 -> IZR (Rtrunc r) - 1 < r <= IZR (Rtrunc r)).
Proof.
  unfold Rtrunc. split; intros H.
  - rewrite Rltb_false by lra. apply Zfloor_bound.
  - rewrite Rltb_true by lra. apply Zceil_bound.
Qed.

(** Truncation is monotone and moves by at most one over less than a
    unit. *)
Lemma Rtrunc_step (a b : R) :
  a <= b < a + 1 -> (Rtrunc a <= Rtrunc b <= Rtrunc a + 1)%Z.
Proof.
  intros Hab.
  destruct (Rtrunc_bounds a) as [Ha0 Ha1], (Rtrunc_bounds b) as [Hb0 Hb1].
  assert (Hz : forall z1 z2 : Z, IZR z1 < IZR z2 + 1 -> (z1 <= z2)%Z).
  { intros z1 z2 H. rewrite <- plus_IZR in H. apply lt_IZR in H. lia. }
  destruct (Rlt_le_dec a 0) as [Ha | Ha], (Rlt_le_dec b 0) as [Hb | Hb].
  - specialize (Ha1 Ha). specialize (Hb1 Hb).
    split; [apply Hz; lra |].
    assert (IZR (Rtrunc b) < IZR (Rtrunc a + 1) + 1)
      by (rewrite plus_IZR; lra).
    now apply Hz.
  - specialize (Ha1 Ha). specialize (Hb0 Hb).
    assert ((Rtrunc a < 1)%Z) by (apply lt_IZR; lra).
    assert ((-1 < Rtrunc a)%Z) by (apply lt_IZR; lra).
    assert ((Rtrunc b < 1)%Z) by (apply lt_IZR; lra).
    assert ((-1 < Rtrunc b)%Z) by (apply lt_IZR; lra).
    lia.
  - lra.
  - specialize (Ha0 Ha). specialize (Hb0 Hb).
    split; [apply Hz; lra |].
    assert (IZR (Rtrunc b) < IZR (Rtrunc a + 1) + 1)
      by (rewrite plus_IZR; lra).
    now apply Hz.
Qed.

Lemma Rtrunc_range (r : R) (m : Z) :
  Rabs r < IZR m -> (- m < Rtrunc r < m)%Z.
Proof.
  intros H. assert (Hr : r < IZR m /\ - IZR m < r) by (apply Rabs_def2; exact H).
  assert (Hm : (0 < m)%Z) by (apply lt_IZR; pose proof (Rabs_pos r); lra).
  destruct (Rtrunc_bounds r) as [H0 H1].
  destruct (Rlt_le_dec r 0) as [Hneg | Hpos].
  - specialize (H1 Hneg).
    assert (Hlo : (- m < Rtrunc r)%Z) by (apply lt_IZR; rewrite opp_IZR; lra).
    assert (Hhi : (Rtrunc r < 1)%Z) by (apply lt_IZR; lra).
    lia.
  - specialize (H0 Hpos).
    assert (Hlo : (-1 < Rtrunc r)%Z) by (apply lt_IZR; lra).
    assert (Hhi : (Rtrunc r < m)%Z) by (apply lt_IZR; lra).
    lia.
Qed.

(** The cell of a coordinate below [CELL_SIZE * 2^31] in absolute value
    is its quotient by [CELL_SIZE], truncated. *)
Lemma cell_of_trunc (x : R) :
  Rabs x < 12 * 2 ^ 31 -> cell_of (Fin x) = Rtrunc (x / 12).
Proof.
  intros H. unfold cell_of, CELL_SIZE. rewrite div_Fin by lra.
  unfold toInt32, wrap32.
  assert (Hr : (- 2 ^ 31 < Rtrunc (x / 12) < 2 ^ 31)%Z).
  { apply Rtrunc_range. unfold Rdiv. rewrite Rabs_mult.
    rewrite (Rabs_pos_eq (/ 12)) by lra.
    change (IZR (2 ^ 31)) with (IZR 2147483648).
    assert (2 ^ 31 = 2147483648) by lra. lra. }
  rewrite Z.mod_small by lia. lia.
Qed.

Lemma cell_of_adjacent (a b : R) :
  Rabs a < 12 * 2 ^ 31 -> Rabs b < 12 * 2 ^ 31 -> Rabs (a - b) < 12 ->
  (-1 <= cell_of (Fin b) - cell_of (Fin a) <= 1)%Z.
Proof.
  intros Ha Hb Hab. rewrite !cell_of_trunc by assumption.
  apply Rabs_def2 in Hab.
  destruct (Rle_lt_dec a b) as [H | H].
  - pose proof (Rtrunc_step (a / 12) (b / 12) ltac:(lra)). lia.
  - pose proof (Rtrunc_step (b / 12) (a / 12) ltac:(lra)). lia.
Qed.

Lemma offsets_cover (a b : Z) :
  (-1 <= a <= 1)%Z -> (-1 <= b <= 1)%Z -> In (a, b) offsets.
Proof.
  intros Ha Hb.
  assert (Ha' : a = (-1)%Z \/ a = 0%Z \/ a = 1%Z) by lia.
  assert (Hb' : b = (-1)%Z \/ b = 0%Z \/ b = 1%Z) by lia.
  unfold offsets.
  destruct Ha' as [-> | [-> | ->]], Hb' as [-> | [-> | ->]]; cbn; tauto.
Qed.

Lemma overlap_close (xi yi ri xj yj rj : R) :
  0 <= ri + rj <= 12 ->
  (xi - xj) * (xi - xj) + (yi - yj) * (yi - yj) < (ri + rj) * (ri + rj) ->
  Rabs (xi - xj) < 12 /\ Rabs (yi - yj) < 12.
Proof.
  intros Hr Hd.
  assert (H144 : (ri + rj) * (ri + rj) <= 144) by nra.
  assert (Hsq : forall a b : R, a * a + b * b < 144 -> Rabs a < 12).
  { intros a b H. apply Rabs_def1.
    - destruct (Rlt_le_dec a 12); [assumption | nra].
    - destruct (Rlt_le_dec (- 12) a); [assumption | nra]. }
  split.
  - apply (Hsq _ (yi - yj)). lra.
  - apply (Hsq _ (xi - xj)). lra.
Qed.

(** At the start of Pass 2, a particle [j] that Pass 1 filed in the grid
    and that overlaps the particle [i], their radii summing to at most
    [CELL_SIZE], is in the list of one of the nine cells Pass 2 scans
    around the cell of [i]. *)
Theorem overlapping_partner_in_neighbourhood (cfg : Setup)
    (screenW screenH : num) (hands : list Hand.t) (rnd : nat -> num)
    (st : State) (i j : nat) (xi yi ri xj yj rj : R) (c : Z) :
  wf_state cfg st ->
  (j < particleCount cfg)%nat ->
  rd (P.x (p (after_pass1 cfg screenW screenH hands rnd st))) i = Fin xi ->
  rd (P.y (p (after_pass1 cfg screenW screenH hands rnd st))) i = Fin yi ->
  rd (P.x (p (after_pass1 cfg screenW screenH hands rnd st))) j = Fin xj ->
  rd (P.y (p (after_pass1 cfg screenW screenH hands rnd st))) j = Fin yj ->
  rd (P.radius (p st)) i = Fin ri -> rd (P.radius (p st)) j = Fin rj ->
  Rabs xi < 12 * 2 ^ 31 -> Rabs yi < 12 * 2 ^ 31 ->
  Rabs xj < 12 * 2 ^ 31 -> Rabs yj < 12 * 2 ^ 31 ->
  0 <= ri + rj <= 12 ->
  overlapping (p (after_pass1 cfg screenW screenH hands rnd st)) i (Z.of_nat j)
  = true ->
  cell_index cfg (body_at (p (after_pass1 cfg screenW screenH hands rnd st)) j)
  = Some c ->
  exists d : Z * Z,
    In d offsets /\
    in_grid cfg (cell_of (Fin xi) + fst d) (cell_of (Fin yi) + snd d) = true /\
    c = ((cell_of (Fin yi) + snd d) * gridW cfg + (cell_of (Fin xi) + fst d))%Z /\
    exists l : list nat,
      linked (nextParticle (after_pass1 cfg screenW screenH hands rnd st))
             (rdI (gridHead (after_pass1 cfg screenW screenH hands rnd st)) c) l /\
      In j l.
Proof.
  intros Hwf Hj Hrxi Hryi Hrxj Hryj Hri Hrj Hxi Hyi Hxj Hyj Hr Hov Hc.
  set (st1 := after_pass1 cfg screenW screenH hands rnd st) in *.
  assert (Hrad : P.radius (p st1) = P.radius (p st))
    by apply after_pass1_radius.
  apply (overlapping_iff (p st1) i (Z.of_nat j) xi yi ri xj yj rj) in Hov;
    rewrite ?Hrad; try assumption;
    try (unfold rdZ; destruct (Z.ltb_spec (Z.of_nat j) 0); [lia |];
         rewrite Nat2Z.id; rewrite ?Hrad; assumption).
  destruct (overlap_close xi yi ri xj yj rj Hr (proj2 Hov)) as [Hdx Hdy].
  pose proof (cell_of_adjacent xi xj Hxi Hxj Hdx) as Hcx.
  pose proof (cell_of_adjacent yi yj Hyi Hyj Hdy) as Hcy.
  exists ((cell_of (Fin xj) - cell_of (Fin xi))%Z,
          (cell_of (Fin yj) - cell_of (Fin yi))%Z).
  cbn [fst snd].
  replace (cell_of (Fin xi) + (cell_of (Fin xj) - cell_of (Fin xi)))%Z
    with (cell_of (Fin xj)) by lia.
  replace (cell_of (Fin yi) + (cell_of (Fin yj) - cell_of (Fin yi)))%Z
    with (cell_of (Fin yj)) by lia.
  assert (Hc' := Hc). unfold cell_index, body_at in Hc'.
  cbn [B.x B.y] in Hc'. rewrite Hrxj, Hryj in Hc'.
  destruct (in_grid cfg (cell_of (Fin xj)) (cell_of (Fin yj))) eqn:Hg;
    [| discriminate].
  injection Hc' as Hc'.
  split; [apply offsets_cover; lia |].
  split; [reflexivity |].
  split; [now symmetry |].
  exists (members cfg (body_at (p st1)) (particleCount cfg) c).
  split.
  - apply after_pass1_grid; [assumption |].
    now apply (cell_index_range cfg (body_at (p st1) j)).
  - unfold members. rewrite <- in_rev, filter_In, in_seq.
    split; [lia |]. now apply bool_decide_eq_true.
Qed.

Lemma overlapping_partner_in_neighbourhood_witness :
  exists d : Z * Z,
    In d offsets /\
    in_grid cfg_two (cell_of (Fin 2) + fst d) (cell_of (Fin 22) + snd d) = true /\
    2%Z = ((cell_of (Fin 22) + snd d) * gridW cfg_two + (cell_of (Fin 2) + fst d))%Z /\
    exists l : list nat,
      linked (nextParticle (after_pass1 cfg_two (Fin 24) (Fin 24) [] rnd_half st_wall))
             (rdI (gridHead (after_pass1 cfg_two (Fin 24) (Fin 24) [] rnd_half st_wall)) 2)
             l /\
      In 1%nat l.
Proof.
  apply (overlapping_partner_in_neighbourhood cfg_two (Fin 24) (Fin 24) []
           rnd_half st_wall 0 1 2 22 2 3 22 2 2).
  - repeat split.
  - cbn. lia.
  - rewrite st_wall_pass1. reflexivity.
  - rewrite st_wall_pass1. reflexivity.
  - rewrite st_wall_pass1. reflexivity.
  - rewrite st_wall_pass1. reflexivity.
  - reflexivity.
  - reflexivity.
  - rewrite Rabs_pos_eq; lra.
  - rewrite Rabs_pos_eq; lra.
  - rewrite Rabs_pos_eq; lra.
  - rewrite Rabs_pos_eq; lra.
  - lra.
  - rewrite st_wall_pass1.
    apply (overlapping_iff _ 0 1 2 22 2 3 22 2); try reflexivity. lra.
  - rewrite st_wall_pass1. unfold cell_index, body_at. cbn [B.x B.y P.x P.y rd].
    js_cbn. js_cell 0%Z. js_cell 1%Z. reflexivity.
Defined.

(** ** The arrays across ticks *)

Lemma wrZ_length (a : list num) (j : Z) (v : num) :
  length (wrZ a j v) = length a.
Proof. unfold wrZ. destruct (j <? 0)%Z; [reflexivity | apply length_insert]. Qed.

Lemma collide_shape (i : nat) (j : Z) (q : P.t) :
  shape (collide i j q) = shape q.
Proof.
  unfold collide. destruct (negb _); [| reflexivity].
  destruct (overlapping q i j); [| reflexivity].
  unfold resolve. destruct (contact q i j) as [[nx ny] overlap].
  unfold velocity_response.
  destruct (_ <? _)%J; unfold shape, positional_correction;
    cbn [P.x P.y P.vx P.vy]; now rewrite !wrZ_length, !length_insert.
Qed.

Lemma walk_shape (budget : nat) (next : list Z) (i : nat) (j : Z)
    (iterations : nat) (q : P.t) :
  shape (fst (walk budget next i j iterations q)) = shape q.
Proof.
  revert j iterations q.
  induction budget as [| b IH]; intros j it q; [reflexivity |].
  cbn [walk]. destruct (j =? -1)%Z; [reflexivity |].
  rewrite IH. apply collide_shape.
Qed.

Lemma scan_shape (cfg : Setup) (head next : list Z) (i : nat) (cx cy : Z)
    (ds : list (Z * Z)) (acc : P.t * list nat) :
  shape (fst (fold_left (scan_cell cfg head next i cx cy) ds acc))
  = shape (fst acc).
Proof.
  revert acc. induction ds as [| d ds IH]; intros acc; cbn [fold_left].
  - reflexivity.
  - rewrite IH. unfold scan_cell. destruct (in_grid _ _ _); [| reflexivity].
    pose proof (walk_shape MAX_ITERATIONS next i
                  (rdI head ((cy + snd d) * gridW cfg + (cx + fst d))) 0
                  (fst acc)) as Hw.
    destruct (walk _ _ _ _ _ _) as [q' n]. exact Hw.
Qed.

Lemma pass2_shape (cfg : Setup) (head next : list Z) (q : P.t) :
  shape (pass2 cfg head next q) = shape q.
Proof.
  unfold pass2. generalize (seq 0 (particleCount cfg)). intros l.
  revert q. induction l as [| i l IH]; intros q; cbn [fold_left].
  - reflexivity.
  - rewrite IH. unfold pass2_body. apply scan_shape.
Qed.

Lemma tick_wf (cfg : Setup) (screenW screenH : num) (hands : list Hand.t)
    (rnd : nat -> num) (st : State) :
  wf_state cfg st -> wf_state cfg (tick cfg screenW screenH hands rnd st).
Proof.
  intros Hwf.
  pose proof (after_pass1_wf cfg screenW screenH hands rnd st Hwf)
    as (Hx & Hy & Hvx & Hvy & Hr & Hh & Hn).
  pose proof (pass2_shape cfg
                (gridHead (after_pass1 cfg screenW screenH hands rnd st))
                (nextParticle (after_pass1 cfg screenW screenH hands rnd st))
                (p (after_pass1 cfg screenW screenH hands rnd st))) as Hs.
  unfold shape in Hs. injection Hs as Hsx Hsy Hsvx Hsvy.
  unfold wf_state, tick. cbn [p gridHead nextParticle].
  rewrite pass2_radius. repeat split; congruence.
Qed.

(** Across any sequence of ticks, whatever the screens, the hands and
    the random numbers are, the arrays keep the lengths they were
    allocated with and the radii stay those of the spawn: no particle is
    created, destroyed or resized during a run. *)
Theorem run_keeps_population (cfg : Setup) (frames : list Frame)
    (st : State) :
  wf_state cfg st ->
  wf_state cfg (run cfg frames st) /\
  P.radius (p (run cfg frames st)) = P.radius (p st).
Proof.
  unfold run. revert st.
  induction frames as [| f frames IH]; intros st Hwf; cbn [fold_left].
  - split; [exact Hwf | reflexivity].
  - destruct (IH (tick cfg (frame_screenW f) (frame_screenH f)
                       (frame_hands f) (frame_rnd f) st)) as [H1 H2].
    + now apply tick_wf.
    + split; [exact H1 |]. rewrite H2. apply tick_radius.
Qed.

Lemma run_keeps_population_witness :
  wf_state cfg_two
    (run cfg_two [mkFrame (Fin 24) (Fin 24) [] rnd_half;
                  mkFrame (Fin 48) (Fin 48) [hand_palm] rnd_zero] st_wall) /\
  P.radius
    (p (run cfg_two [mkFrame (Fin 24) (Fin 24) [] rnd_half;
                     mkFrame (Fin 48) (Fin 48) [hand_palm] rnd_zero] st_wall))
  = P.radius (p st_wall).
Proof.
  apply (run_keeps_population cfg_two
           [mkFrame (Fin 24) (Fin 24) [] rnd_half;
            mkFrame (Fin 48) (Fin 48) [hand_palm] rnd_zero] st_wall).
  repeat split.
Defined.

(** ** What the resolution of a pair achieves *)

Section CollideReads.

Variables (q : P.t) (i : nat) (j : Z).
Variables xi yi vxi vyi ri xj yj vxj vyj rj : R.
Hypothesis Hij : Z.of_nat i <> j.
Hypothesis Hxi : rd (P.x q) i = Fin xi.
Hypothesis Hyi : rd (P.y q) i = Fin yi.
Hypothesis Hvxi : rd (P.vx q) i = Fin vxi.
Hypothesis Hvyi : rd (P.vy q) i = Fin vyi.
Hypothesis Hri : rd (P.radius q) i = Fin ri.
Hypothesis Hxj : rdZ (P.x q) j = Fin xj.
Hypothesis Hyj : rdZ (P.y q) j = Fin yj.
Hypothesis Hvxj : rdZ (P.vx q) j = Fin vxj.
Hypothesis Hvyj : rdZ (P.vy q) j = Fin vyj.
Hypothesis Hrj : rdZ (P.radius q) j = Fin rj.
Variable d : R.
Hypothesis Hd : 0 < d.
Hypothesis Hdd : d * d = (xi - xj) * (xi - xj) + (yi - yj) * (yi - yj).
Hypothesis Hov : 1 / 1000 < d * d < (ri + rj) * (ri + rj).

Lemma collide_positions :
  rd (P.x (collide i j q)) i
  = Fin (xi + (xi - xj) / d * (ri + rj - d) * (1 / 2)) /\
  rdZ (P.x (collide i j q)) j
  = Fin (xj - (xi - xj) / d * (ri + rj - d) * (1 / 2)) /\
  rd (P.y (collide i j q)) i
  = Fin (yi + (yi - yj) / d * (ri + rj - d) * (1 / 2)) /\
  rdZ (P.y (collide i j q)) j
  = Fin (yj - (yi - yj) / d * (ri + rj - d) * (1 / 2)).
Proof.
  rewrite (collide_hit q i j xi yi ri xj yj rj Hij Hxi Hyi Hri Hxj Hyj Hrj
             d Hd Hdd Hov).
  match goal with
  | |- context [velocity_response i j ?nx ?ny ?q1] =>
      destruct (velocity_response_pos i j nx ny q1) as [-> ->]
  end.
  cbn [P.x P.y].
  destruct (pair_stores (P.x q) i j xi xj
              (Fin (xi + (xi - xj) / d * (ri + rj - d) * (1 / 2)))
              (Fin (xj - (xi - xj) / d * (ri + rj - d) * (1 / 2)))
              Hij Hxi Hxj) as [-> ->].
  destruct (pair_stores (P.y q) i j yi yj
              (Fin (yi + (yi - yj) / d * (ri + rj - d) * (1 / 2)))
              (Fin (yj - (yi - yj) / d * (ri + rj - d) * (1 / 2)))
              Hij Hyi Hyj) as [-> ->].
  repeat split.
Qed.

Lemma collide_velocities_approaching :
  (vxi - vxj) * ((xi - xj) / d) + (vyi - vyj) * ((yi - yj) / d) < 0 ->
  rd (P.vx (collide i j q)) i
  = Fin (vxi - (xi - xj) / d
               * ((vxi - vxj) * ((xi - xj) / d) + (vyi - vyj) * ((yi - yj) / d))
               * (1 / 2)) /\
  rdZ (P.vx (collide i j q)) j
  = Fin (vxj + (xi - xj) / d
               * ((vxi - vxj) * ((xi - xj) / d) + (vyi - vyj) * ((yi - yj) / d))
               * (1 / 2)) /\
  rd (P.vy (collide i j q)) i
  = Fin (vyi - (yi - yj) / d
               * ((vxi - vxj) * ((xi - xj) / d) + (vyi - vyj) * ((yi - yj) / d))
               * (1 / 2)) /\
  rdZ (P.vy (collide i j q)) j
  = Fin (vyj + (yi - yj) / d
               * ((vxi - vxj) * ((xi - xj) / d) + (vyi - vyj) * ((yi - yj) / d))
               * (1 / 2)).
Proof.
  intros Hdot.
  rewrite (collide_hit q i j xi yi ri xj yj rj Hij Hxi Hyi Hri Hxj Hyj Hrj
             d Hd Hdd Hov).
  match goal with
  | |- context [velocity_response i j _ _ ?q1] =>
      rewrite (velocity_response_approaching q1 i j vxi vyi vxj vyj
                 Hij Hvxi Hvyi Hvxj Hvyj _ _ Hdot)
  end.
  cbn [P.vx P.vy].
  match goal with
  | |- context [wrZ (<[i := ?a]> (P.vx q)) j ?b] =>
      destruct (pair_stores (P.vx q) i j vxi vxj a b Hij Hvxi Hvxj) as [-> ->]
  end.
  match goal with
  | |- context [wrZ (<[i := ?a]> (P.vy q)) j ?b] =>
      destruct (pair_stores (P.vy q) i j vyi vyj a b Hij Hvyi Hvyj) as [-> ->]
  end.
  repeat split.
Qed.

Lemma collide_velocities_separating :
  0 <= (vxi - vxj) * ((xi - xj) / d) + (vyi - vyj) * ((yi - yj) / d) ->
  P.vx (collide i j q) = P.vx q /\ P.vy (collide i j q) = P.vy q.
Proof.
  intros Hdot.
  rewrite (collide_hit q i j xi yi ri xj yj rj Hij Hxi Hyi Hri Hxj Hyj Hrj
             d Hd Hdd Hov).
  match goal with
  | |- context [velocity_response i j _ _ ?q1] =>
      rewrite (velocity_response_separating q1 i j vxi vyi vxj vyj
                 Hvxi Hvyi Hvxj Hvyj _ _ Hdot)
  end.
  split; reflexivity.
Qed.

End CollideReads.

(** ** Non-finite slots do not spread and do not last *)

Lemma lt_between (c : R) (s t : num) :
  (Fin c <? s)%J = true -> (s <? t)%J = true -> exists r : R, s = Fin r.
Proof.
  destruct s as [| | | r], t; cbn; intros H1 H2; try discriminate; now exists r.
Qed.

Lemma sum_squares_Fin (a b : num) (r : R) :
  (a * a + b * b)%J = Fin r -> exists ra rb : R, a = Fin ra /\ b = Fin rb.
Proof.
  destruct a as [| | | ra], b as [| | | rb]; cbn; try discriminate.
  now exists ra, rb.
Qed.

Lemma sub_Fin (a b : num) (r : R) :
  (a - b)%J = Fin r -> exists ra rb : R, a = Fin ra /\ b = Fin rb.
Proof.
  destruct a as [| | | ra], b as [| | | rb]; cbn; try discriminate.
  now exists ra, rb.
Qed.

Lemma rd_radius_cases (q : P.t) (k : nat) :
  finite_radii q ->
  rd (P.radius q) k = NaN \/ exists r : R, rd (P.radius q) k = Fin r.
Proof.
  intros H. destruct (Nat.lt_ge_cases k (length (P.radius q))) as [Hk | Hk].
  - right. apply isFinite_Fin. now apply H.
  - left. now apply rd_out.
Qed.

Lemma rdZ_radius_cases (q : P.t) (j : Z) :
  finite_radii q ->
  rdZ (P.radius q) j = NaN \/ exists r : R, rdZ (P.radius q) j = Fin r.
Proof.
  intros H. unfold rdZ. destruct (j <? 0)%Z; [now left |].
  now apply rd_radius_cases.
Qed.

(** Only a pair at finite positions passes the overlap test. *)
Lemma overlapping_finite (q : P.t) (i : nat) (j : Z) :
  finite_radii q -> overlapping q i j = true ->
  exists xi yi ri xj yj rj : R,
    rd (P.x q) i = Fin xi /\ rd (P.y q) i = Fin yi /\
    rd (P.radius q) i = Fin ri /\
    rdZ (P.x q) j = Fin xj /\ rdZ (P.y q) j = Fin yj /\
    rdZ (P.radius q) j = Fin rj.
Proof.
  intros Hr Hov. unfold overlapping in Hov.
  apply andb_true_iff in Hov. destruct Hov as [H1 H2].
  unfold JS.gt in H2.
  destruct (lt_between _ _ _ H2 H1) as [D HD].
  destruct (sum_squares_Fin _ _ _ HD) as (dx & dy & Hdx & Hdy).
  destruct (sub_Fin _ _ _ Hdx) as (xi & xj & Hxi & Hxj).
  destruct (sub_Fin _ _ _ Hdy) as (yi & yj & Hyi & Hyj).
  rewrite HD in H1.
  destruct (rd_radius_cases q i Hr) as [E | [ri Hri]];
    [rewrite E in H1; discriminate H1 |].
  destruct (rdZ_radius_cases q j Hr) as [E | [rj Hrj]];
    [rewrite E, Hri in H1; discriminate H1 |].
  now exists xi, yi, ri, xj, yj, rj.
Qed.

(** The resolution of a pair touches no third particle. *)
Lemma collide_frame (i : nat) (j : Z) (q : P.t) (k : nat) :
  k <> i -> Z.of_nat k <> j -> body_at (collide i j q) k = body_at q k.
Proof.
  intros Hi Hj. unfold collide. destruct (negb _); [| reflexivity].
  destruct (overlapping q i j); [| reflexivity].
  unfold resolve. destruct (contact q i j) as [[nx ny] overlap].
  unfold velocity_response.
  destruct (_ <? _)%J; unfold positional_correction, body_at;
    cbn [P.x P.y P.vx P.vy];
    rewrite !rd_wrZ_ne, !rd_insert_ne by (assumption || congruence);
    reflexivity.
Qed.

Lemma rdZ_of_nat' (a : list num) (k : nat) : rdZ a (Z.of_nat k) = rd a k.
Proof.
  unfold rdZ. destruct (Z.ltb_spec (Z.of_nat k) 0); [lia |].
  now rewrite Nat2Z.id.
Qed.

(** The two particles of a resolved pair have finite slots afterwards. *)
Lemma collide_pair_finite (q : P.t) (i k : nat) :
  finite_radii q -> i <> k ->
  settled (body_at q i) -> settled (body_at q k) ->
  overlapping q i (Z.of_nat k) = true ->
  finite_body (body_at (collide i (Z.of_nat k) q) i) /\
  finite_body (body_at (collide i (Z.of_nat k) q) k).
Proof.
  intros Hr Hik Hsi Hsk Hov.
  assert (Hij : Z.of_nat i <> Z.of_nat k) by lia.
  destruct (overlapping_finite q i _ Hr Hov)
    as (xi & yi & ri & xj & yj & rj & Hxi & Hyi & Hri & Hxj & Hyj & Hrj).
  assert (Hbi : finite_body (body_at q i))
    by (apply Hsi; cbn [body_at B.x B.y]; [now rewrite Hxi | now rewrite Hyi]).
  assert (Hbk : finite_body (body_at q k)).
  { apply Hsk; cbn [body_at B.x B.y]; rewrite <- rdZ_of_nat';
      [now rewrite Hxj | now rewrite Hyj]. }
  destruct Hbi as (_ & _ & Hvxi & Hvyi). destruct Hbk as (_ & _ & Hvxj & Hvyj).
  cbn [body_at B.vx B.vy] in Hvxi, Hvyi, Hvxj, Hvyj.
  apply isFinite_Fin in Hvxi, Hvyi, Hvxj, Hvyj.
  destruct Hvxi as [vxi Hvxi], Hvyi as [vyi Hvyi].
  destruct Hvxj as [vxj Hvxj], Hvyj as [vyj Hvyj].
  rewrite <- rdZ_of_nat' in Hvxj, Hvyj.
  apply (overlapping_iff q i _ xi yi ri xj yj rj) in Hov; try assumption.
  set (D := (xi - xj) * (xi - xj) + (yi - yj) * (yi - yj)) in *.
  assert (Hd : 0 < R_sqrt.sqrt D) by (apply sqrt_lt_R0; lra).
  assert (Hdd : R_sqrt.sqrt D * R_sqrt.sqrt D = D) by (apply sqrt_sqrt; lra).
  set (d := R_sqrt.sqrt D) in *.
  assert (Hov' : 1 / 1000 < d * d < (ri + rj) * (ri + rj))
    by (rewrite Hdd; exact Hov).
  destruct (collide_positions q i _ xi yi ri xj yj rj Hij Hxi Hyi Hri
              Hxj Hyj Hrj d Hd Hdd Hov') as (Px & Pxj & Py & Pyj).
  assert (Hv : exists a b c e : R,
    rd (P.vx (collide i (Z.of_nat k) q)) i = Fin a /\
    rdZ (P.vx (collide i (Z.of_nat k) q)) (Z.of_nat k) = Fin b /\
    rd (P.vy (collide i (Z.of_nat k) q)) i = Fin c /\
    rdZ (P.vy (collide i (Z.of_nat k) q)) (Z.of_nat k) = Fin e).
  { destruct (Rlt_le_dec
                ((vxi - vxj) * ((xi - xj) / d) + (vyi - vyj) * ((yi - yj) / d)) 0)
      as [Hdot | Hdot].
    - destruct (collide_velocities_approaching q i _ xi yi vxi vyi ri
                  xj yj vxj vyj rj Hij Hxi Hyi Hvxi Hvyi Hri Hxj Hyj Hvxj Hvyj
                  Hrj d Hd Hdd Hov' Hdot) as (H1 & H2 & H3 & H4).
      do 4 eexists. repeat split; eassumption.
    - destruct (collide_velocities_separating q i _ xi yi vxi vyi ri
                  xj yj vxj vyj rj Hij Hxi Hyi Hvxi Hvyi Hri Hxj Hyj Hvxj Hvyj
                  Hrj d Hd Hdd Hov' Hdot) as [-> ->].
      exists vxi, vxj, vyi, vyj. repeat split; assumption. }
  destruct Hv as (a & b & c & e & Va & Vb & Vc & Ve).
  rewrite rdZ_of_nat' in Pxj, Pyj, Vb, Ve.
  unfold finite_body, body_at. cbn [B.x B.y B.vx B.vy].
  rewrite Px, Py, Pxj, Pyj, Va, Vb, Vc, Ve. repeat split.
Qed.

Lemma collide_sane (S : nat -> Prop) (i : nat) (j : Z) (q : P.t) :
  sane S q -> sane S (collide i j q).
Proof.
  intros (Hr & Hs & Hf).
  assert (Hr' : finite_radii (collide i j q))
    by (unfold finite_radii; rewrite collide_radius; exact Hr).
  destruct (Z.eq_dec (Z.of_nat i) j) as [E | E];
    [subst j; rewrite collide_self; exact (conj Hr (conj Hs Hf)) |].
  destruct (overlapping q i j) eqn:Hov;
    [| rewrite collide_unfold, Hov by assumption; exact (conj Hr (conj Hs Hf))].
  destruct (overlapping_finite q i j Hr Hov)
    as (_ & _ & _ & xj & _ & _ & _ & _ & _ & Hxj & _).
  apply rdZ_Fin_range in Hxj. destruct Hxj as [Hj _].
  assert (Hk : exists k : nat, j = Z.of_nat k)
    by (exists (Z.to_nat j); lia).
  destruct Hk as [k ->].
  destruct (collide_pair_finite q i k Hr ltac:(lia) (Hs i) (Hs k) Hov)
    as [Fi Fk].
  assert (Hall : forall m : nat,
    finite_body (body_at (collide i (Z.of_nat k) q) m) \/
    body_at (collide i (Z.of_nat k) q) m = body_at q m).
  { intros m. destruct (Nat.eq_dec m i) as [-> | Hmi]; [now left |].
    destruct (Nat.eq_dec m k) as [-> | Hmk]; [now left |].
    right. apply collide_frame; [assumption | lia]. }
  split; [exact Hr' |]. split.
  - intros m. destruct (Hall m) as [F | ->]; [intros _ _; exact F | apply Hs].
  - intros m Hm. destruct (Hall m) as [F | ->]; [exact F | now apply Hf].
Qed.

(** What every resolution of a pair preserves, Pass 2 preserves. *)
Section Pass2Invariant.

Variable Q : P.t -> Prop.
Hypothesis collide_Q : forall (i : nat) (j : Z) (q : P.t),
  Q q -> Q (collide i j q).

Lemma walk_invariant (budget : nat) (next : list Z) (i : nat) (j : Z)
    (iterations : nat) (q : P.t) :
  Q q -> Q (fst (walk budget next i j iterations q)).
Proof.
  revert j iterations q.
  induction budget as [| b IH]; intros j it q Hq; [exact Hq |].
  cbn [walk]. destruct (j =? -1)%Z; [exact Hq |].
  apply IH, collide_Q, Hq.
Qed.

Lemma scan_invariant (cfg : Setup) (head next : list Z) (i : nat)
    (cx cy : Z) (ds : list (Z * Z)) (acc : P.t * list nat) :
  Q (fst acc) ->
  Q (fst (fold_left (scan_cell cfg head next i cx cy) ds acc)).
Proof.
  revert acc. induction ds as [| d ds IH]; intros acc Hq; cbn [fold_left].
  - exact Hq.
  - apply IH. unfold scan_cell. destruct (in_grid _ _ _); [| exact Hq].
    pose proof (walk_invariant MAX_ITERATIONS next i
                  (rdI head ((cy + snd d) * gridW cfg + (cx + fst d))) 0
                  (fst acc) Hq) as Hw.
    destruct (walk _ _ _ _ _ _) as [q' n]. exact Hw.
Qed.

Lemma pass2_invariant (cfg : Setup) (head next : list Z) (q : P.t) :
  Q q -> Q (pass2 cfg head next q).
Proof.
  unfold pass2. generalize (seq 0 (particleCount cfg)). intros l.
  revert q. induction l as [| i l IH]; intros q Hq; cbn [fold_left].
  - exact Hq.
  - apply IH. unfold pass2_body. now apply scan_invariant.
Qed.

End Pass2Invariant.

Lemma add_Fin_0 (v : num) : (v + Fin 0)%J = v.
Proof. destruct v as [| | | r]; cbn; try reflexivity. f_equal. lra. Qed.

Lemma add_Fin_assoc (v : num) (a b : R) :
  (v + Fin a + Fin b)%J = (v + Fin (a + b))%J.
Proof. destruct v as [| | | r]; cbn; try reflexivity. f_equal. lra. Qed.

(** At a finite position a hand of finite velocity adds a finite
    acceleration, and a finite amount to each velocity component. *)
Lemma hand_interaction_vel (w h : R) (hand : Hand.t)
    (ax ay px py : R) (vx vy : num) :
  finite_hand hand ->
  exists ax' ay' a b : R,
    hand_interaction (Fin w) (Fin h) hand
      (Fin ax, Fin ay, B.mk (Fin px) (Fin py) vx vy)
    = (Fin ax', Fin ay',
       B.mk (Fin px) (Fin py) (vx + Fin a)%J (vy + Fin b)%J).
Proof.
  intros [Hvx Hvy].
  apply isFinite_Fin in Hvx. destruct Hvx as [hvx Hvx].
  apply isFinite_Fin in Hvy. destruct Hvy as [hvy Hvy].
  set (dx := (Fin px - Hand.x hand * Fin w)%J).
  set (dy := (Fin py - Hand.y hand * Fin h)%J).
  destruct (dx * dx + dy * dy <? HAND_RADIUS_SQ)%J eqn:E.
  - unfold HAND_RADIUS_SQ in E. cbn [JS.mul] in E.
    apply sum_squares_lt in E. destruct E as (rdx & rdy & Hdx & Hdy & Hlt).
    rewrite (hand_interaction_near (Fin w) (Fin h) hand _ px py rdx rdy ax ay)
      by (reflexivity || assumption).
    cbn [B.vx B.vy]. rewrite Hvx, Hvy. cbn [JS.mul].
    do 4 eexists. reflexivity.
  - exists ax, ay, 0, 0. unfold hand_interaction.
    cbn [B.x B.y]. fold dx dy. rewrite E. now rewrite !add_Fin_0.
Qed.

Lemma hand_loop_vel (w h : R) (hands : list Hand.t) :
  Forall finite_hand hands ->
  forall (ax ay px py : R) (vx vy : num),
  exists ax' ay' a b : R,
    hand_loop (Fin w) (Fin h) hands
      (Fin ax, Fin ay, B.mk (Fin px) (Fin py) vx vy)
    = (Fin ax', Fin ay',
       B.mk (Fin px) (Fin py) (vx + Fin a)%J (vy + Fin b)%J).
Proof.
  induction 1 as [| hand hands Hh Hhs IH]; intros ax ay px py vx vy.
  - exists ax, ay, 0, 0. unfold hand_loop. cbn [fold_left].
    now rewrite !add_Fin_0.
  - unfold hand_loop. cbn [fold_left].
    destruct (hand_interaction_vel w h hand ax ay px py vx vy Hh)
      as (ax1 & ay1 & a1 & b1 & ->).
    destruct (IH ax1 ay1 px py (vx + Fin a1)%J (vy + Fin b1)%J)
      as (ax2 & ay2 & a2 & b2 & E).
    unfold hand_loop in E. rewrite E, !add_Fin_assoc.
    now exists ax2, ay2, (a1 + a2), (b1 + b2).
Qed.

(** Integration and clamp on one axis: an infinite velocity is clipped,
    [NaN] stays. *)
Lemma speed_axis (v : num) (a g : R) :
  (v = NaN /\
   clamp_vel ((v + Fin a + Fin g * dt) * FRICTION_AIR)%J = NaN) \/
  (exists r : R,
     clamp_vel ((v + Fin a + Fin g * dt) * FRICTION_AIR)%J = Fin r /\
     - 250 <= r <= 250).
Proof.
  rewrite dt_Fin. unfold FRICTION_AIR.
  destruct v as [| | | r].
  - left. split; reflexivity.
  - right. exists 250. cbn [JS.add JS.mul]. unfold inf_times.
    rewrite Rltb_true by lra. split; [reflexivity | lra].
  - right. exists (- 250). cbn [JS.add JS.mul]. unfold inf_times.
    rewrite Rltb_true by lra.
    unfold clamp_vel, MAX_VEL, JS.gt. cbn [JS.lt JS.neg].
    split; [reflexivity | lra].
  - right. cbn [JS.add JS.mul]. apply clamp_vel_Fin.
Qed.

(** Position update and boundaries on one axis when the velocity is
    [NaN]. *)
Lemma boundary_axis_NaN (hi lo bounce c : num) :
  (if (c + NaN * dt * Fin 5 >? hi - lo)%J
   then ((hi - lo)%J, (NaN * - bounce)%J)
   else if (c + NaN * dt * Fin 5 <? lo)%J
        then (lo, (NaN * - BOUNCE_WALL)%J)
        else ((c + NaN * dt * Fin 5)%J, NaN))
  = (NaN, NaN).
Proof.
  cbn [JS.mul].
  replace (c + NaN)%J with NaN by now destruct c.
  unfold JS.gt.
  replace (hi - lo <? NaN)%J with false by now destruct (hi - lo)%J.
  reflexivity.
Qed.

Lemma advance_settled (w h rr : R) (hands : list Hand.t)
    (px py : R) (vx vy : num) :
  Forall finite_hand hands ->
  settled (advance (Fin w) (Fin h) hands (Fin rr)
             (B.mk (Fin px) (Fin py) vx vy)).
Proof.
  intros Hh. unfold advance.
  destruct (hand_loop_vel w h hands Hh 0 30 px py vx vy)
    as (ax & ay & a & b & Hl).
  unfold GRAVITY. rewrite Hl.
  unfold integrate, max_velocity, move. cbn [B.x B.y B.vx B.vy].
  unfold boundaries, BOUNCE_GROUND. cbn [B.x B.y B.vx B.vy].
  destruct (speed_axis vy b ay) as [[_ ->] | (cvy & -> & Hcvy)];
    destruct (speed_axis vx a ax) as [[_ ->] | (cvx & -> & Hcvx)].
  - rewrite !boundary_axis_NaN. intros H. discriminate H.
  - rewrite boundary_axis_NaN. rewrite dt_Fin. unfold BOUNCE_WALL.
    change (Fin px + Fin cvx * Fin (1 / 60) * Fin 5)%J
      with (Fin (px + cvx * (1 / 60) * 5)).
    destruct (boundary_axis w rr (px + cvx * (1 / 60) * 5) cvx (3 / 10))
      as (x' & vx' & -> & _); [assumption | lra |].
    intros _ H. discriminate H.
  - rewrite boundary_axis_NaN. rewrite dt_Fin. unfold BOUNCE_WALL.
    change (Fin py + Fin cvy * Fin (1 / 60) * Fin 5)%J
      with (Fin (py + cvy * (1 / 60) * 5)).
    destruct (boundary_axis h rr (py + cvy * (1 / 60) * 5) cvy (3 / 10))
      as (y' & vy' & -> & _); [assumption | lra |].
    intros H. discriminate H.
  - rewrite dt_Fin. unfold BOUNCE_WALL.
    change (Fin px + Fin cvx * Fin (1 / 60) * Fin 5)%J
      with (Fin (px + cvx * (1 / 60) * 5)).
    change (Fin py + Fin cvy * Fin (1 / 60) * Fin 5)%J
      with (Fin (py + cvy * (1 / 60) * 5)).
    destruct (boundary_axis h rr (py + cvy * (1 / 60) * 5) cvy (3 / 10))
      as (y' & vy' & -> & _); [assumption | lra |].
    destruct (boundary_axis w rr (px + cvx * (1 / 60) * 5) cvx (3 / 10))
      as (x' & vx' & -> & _); [assumption | lra |].
    intros _ _. repeat split.
Qed.

Lemma respawn_slots_finite (w h rr u : R) (hands : list Hand.t) :
  Forall finite_hand hands ->
  finite_body
    (advance (Fin w) (Fin h) hands (Fin rr)
       (B.mk (Fin u * Fin w)%J (Fin h - Fin 50)%J (Fin 0) (Fin 0))).
Proof.
  intros Hh. cbn [JS.mul JS.sub JS.add JS.neg].
  destruct (advance_finite w h rr hands (u * w) (h + - (50)) 0 0 Hh)
    as (x & y & vx & vy & -> & _).
  repeat split.
Qed.

Lemma position_cases (b : B.t) :
  (exists (px py : R) (vx vy : num), b = B.mk (Fin px) (Fin py) vx vy) \/
  (isFinite (B.x b) = false \/ isFinite (B.y b) = false).
Proof.
  destruct b as [[| | | px] [| | | py] vx vy]; cbn; try (right; tauto).
  left. now exists px, py, vx, vy.
Qed.

(** Whatever a particle holds, Pass 1 leaves it settled. *)
Lemma pass1_slots_settled (w h rr : R) (hands : list Hand.t)
    (rnd : nat -> num) (q : P.t) (i : nat) :
  Forall finite_hand hands -> isFinite (rnd i) = true ->
  rd (P.radius q) i = Fin rr ->
  settled (pass1_slots (Fin w) (Fin h) hands rnd q i).
Proof.
  intros Hh Hu Hr. unfold pass1_slots. rewrite Hr.
  apply isFinite_Fin in Hu. destruct Hu as [u Hu].
  destruct (position_cases (body_at q i)) as [(px & py & vx & vy & E) | E].
  - rewrite E. rewrite respawn_safety_finite by reflexivity.
    now apply advance_settled.
  - rewrite respawn_safety_fault, Hu by exact E.
    intros _ _. now apply respawn_slots_finite.
Qed.

(** A settled particle leaves Pass 1 with finite slots. *)
Lemma pass1_slots_heals (w h rr : R) (hands : list Hand.t)
    (rnd : nat -> num) (q : P.t) (i : nat) :
  Forall finite_hand hands -> isFinite (rnd i) = true ->
  rd (P.radius q) i = Fin rr ->
  settled (body_at q i) ->
  finite_body (pass1_slots (Fin w) (Fin h) hands rnd q i).
Proof.
  intros Hh Hu Hr Hs.
  destruct (position_cases (body_at q i)) as [(px & py & vx & vy & E) | E].
  - destruct (pass1_slots_finite w h rr hands rnd q i Hh) as
      (x & y & vx' & vy' & -> & _); [| assumption | repeat split].
    apply Hs; rewrite E; reflexivity.
  - unfold pass1_slots. rewrite Hr.
    apply isFinite_Fin in Hu. destruct Hu as [u Hu].
    rewrite respawn_safety_fault, Hu by exact E.
    now apply respawn_slots_finite.
Qed.

Lemma settled_out (q : P.t) (k : nat) :
  (length (P.x q) <= k)%nat -> settled (body_at q k).
Proof.
  intros Hk H. cbn [body_at B.x] in H. rewrite rd_out in H by assumption.
  discriminate H.
Qed.

Section TickSane.

Variable cfg : Setup.
Variables screenW screenH : num.
Variable hands : list Hand.t.
Variable rnd : nat -> num.
Variable st : State.
Variable S : nat -> Prop.
Hypothesis Hwf : wf_state cfg st.
Hypothesis Hrad : forall i : nat,
  (i < particleCount cfg)%nat -> isFinite (rd (P.radius (p st)) i) = true.
Hypothesis Hsettled : forall i : nat,
  (i < particleCount cfg)%nat ->
  settled (pass1_slots screenW screenH hands rnd (p st) i).
Hypothesis Hfinite : forall i : nat,
  (i < particleCount cfg)%nat -> S i ->
  finite_body (pass1_slots screenW screenH hands rnd (p st) i).
Hypothesis HS : forall i : nat, S i -> (i < particleCount cfg)%nat.

Lemma after_pass1_sane :
  sane S (p (after_pass1 cfg screenW screenH hands rnd st)).
Proof.
  pose proof (after_pass1_wf cfg screenW screenH hands rnd st Hwf)
    as (Hx & _).
  destruct Hwf as (_ & _ & _ & _ & Hlr & _).
  split; [| split].
  - unfold finite_radii. rewrite after_pass1_radius, Hlr. exact Hrad.
  - intros k. destruct (Nat.lt_ge_cases k (particleCount cfg)) as [Hk | Hk].
    + rewrite after_pass1_slots by assumption. now apply Hsettled.
    + apply settled_out. now rewrite Hx.
  - intros k Hk. rewrite after_pass1_slots by auto. auto.
Qed.

Lemma tick_sane : sane S (p (tick cfg screenW screenH hands rnd st)).
Proof.
  unfold tick. cbn [p].
  apply (pass2_invariant (sane S) (collide_sane S)), after_pass1_sane.
Qed.

End TickSane.

(** What a tick of a finite frame preserves, a run of finite frames
    preserves. *)
Lemma run_invariant (cfg : Setup) (Q : State -> Prop) :
  (forall (f : Frame) (st : State),
     finite_frame f -> Q st ->
     Q (tick cfg (frame_screenW f) (frame_screenH f) (frame_hands f)
             (frame_rnd f) st)) ->
  forall (frames : list Frame) (st : State),
    Forall finite_frame frames -> Q st -> Q (run cfg frames st).
Proof.
  intros Htick frames. unfold run.
  induction frames as [| f frames IH]; intros st Hf Hq; cbn [fold_left].
  - exact Hq.
  - inversion Hf as [| f' frames' Hf1 Hf2]; subst. auto.
Qed.

Lemma tick_steady (cfg : Setup) (S : nat -> Prop) (f : Frame) (st : State) :
  finite_frame f -> steady cfg S st ->
  steady cfg S (tick cfg (frame_screenW f) (frame_screenH f) (frame_hands f)
                     (frame_rnd f) st).
Proof.
  intros (Hw & Hh & Hhands & Hu) (Hwf & Hrad & Hfin).
  apply isFinite_Fin in Hw, Hh. destruct Hw as [w ->], Hh as [h ->].
  split; [now apply tick_wf |]. split; [now rewrite tick_radius |].
  intros i Hi Hs.
  apply (tick_sane cfg (Fin w) (Fin h) (frame_hands f) (frame_rnd f) st
           (fun k => (k < particleCount cfg)%nat /\ S k)); try assumption.
  - intros k Hk. specialize (Hrad k Hk). apply isFinite_Fin in Hrad.
    destruct Hrad as [rr Hrr]. now apply (pass1_slots_settled w h rr).
  - intros k Hk [_ Hsk]. specialize (Hrad k Hk). apply isFinite_Fin in Hrad.
    destruct Hrad as [rr Hrr].
    destruct (pass1_slots_finite w h rr (frame_hands f) (frame_rnd f) (p st) k
                Hhands (Hfin k Hk Hsk) Hrr)
      as (x & y & vx & vy & -> & _).
    repeat split.
  - tauto.
  - tauto.
Qed.

(** After a tick of a finite frame, whatever the slots held before,
    every particle is settled. *)
Lemma tick_settled (cfg : Setup) (f : Frame) (st : State) (k : nat) :
  finite_frame f -> steady cfg (fun _ => False) st ->
  settled (body_at (p (tick cfg (frame_screenW f) (frame_screenH f)
                            (frame_hands f) (frame_rnd f) st)) k).
Proof.
  intros (Hw & Hh & Hhands & Hu) (Hwf & Hrad & _).
  apply isFinite_Fin in Hw, Hh. destruct Hw as [w ->], Hh as [h ->].
  assert (H1 : sane (fun _ => False)
                 (p (tick cfg (Fin w) (Fin h) (frame_hands f) (frame_rnd f)
                       st))).
  { apply tick_sane; try assumption; try tauto.
    intros i Hi. specialize (Hrad i Hi). apply isFinite_Fin in Hrad.
    destruct Hrad as [rr Hr]. now apply (pass1_slots_settled w h rr). }
  apply H1.
Qed.

(** A tick of a finite frame on settled particles leaves them all with
    finite slots. *)
Lemma tick_heals (cfg : Setup) (f : Frame) (st : State) :
  finite_frame f -> steady cfg (fun _ => False) st ->
  (forall k : nat, settled (body_at (p st) k)) ->
  steady cfg (fun _ => True)
    (tick cfg (frame_screenW f) (frame_screenH f) (frame_hands f)
          (frame_rnd f) st).
Proof.
  intros (Hw & Hh & Hhands & Hu) (Hwf & Hrad & _) Hs.
  apply isFinite_Fin in Hw, Hh. destruct Hw as [w ->], Hh as [h ->].
  split; [now apply tick_wf |]. split; [now rewrite tick_radius |].
  intros i Hi _.
  apply (tick_sane cfg (Fin w) (Fin h) (frame_hands f) (frame_rnd f) st
           (fun k => (k < particleCount cfg)%nat)); try assumption.
  - intros k Hk. specialize (Hrad k Hk). apply isFinite_Fin in Hrad.
    destruct Hrad as [rr Hrr]. now apply (pass1_slots_settled w h rr).
  - intros k Hk _. specialize (Hrad k Hk). apply isFinite_Fin in Hrad.
    destruct Hrad as [rr Hrr].
    now apply (pass1_slots_heals w h rr).
  - tauto.
Qed.

(** Non-finite slots do not spread.  Over a run of frames with finite
    screens, hands of finite velocity and finite random numbers, a
    particle whose slots are finite at the start has finite slots after
    every tick, whatever the slots of the other particles hold; the radii
    are assumed finite. *)
Theorem run_keeps_finite (cfg : Setup) (frames : list Frame) (st : State)
    (i : nat) :
  wf_state cfg st -> (i < particleCount cfg)%nat ->
  Forall finite_frame frames ->
  (forall k : nat,
     (k < particleCount cfg)%nat -> isFinite (rd (P.radius (p st)) k) = true) ->
  finite_body (body_at (p st) i) ->
  finite_body (body_at (p (run cfg frames st)) i).
Proof.
  intros Hwf Hi Hf Hrad Hb.
  assert (H : steady cfg (fun k => k = i) (run cfg frames st)).
  { apply run_invariant; [intros f s; apply tick_steady | assumption |].
    split; [assumption |]. split; [assumption |]. now intros k _ ->. }
  now apply H.
Qed.

(** Non-finite slots do not last.  Whatever the slots hold at the start,
    [NaN] and infinities included, after two or more frames with finite
    screens, hands of finite velocity and finite random numbers every
    particle has finite slots; the radii are assumed finite. *)
Theorem run_heals (cfg : Setup) (frames : list Frame) (st : State)
    (i : nat) :
  wf_state cfg st -> (i < particleCount cfg)%nat ->
  Forall finite_frame frames -> (2 <= length frames)%nat ->
  (forall k : nat,
     (k < particleCount cfg)%nat -> isFinite (rd (P.radius (p st)) k) = true) ->
  finite_body (body_at (p (run cfg frames st)) i).
Proof.
  intros Hwf Hi Hf Hlen Hrad.
  destruct frames as [| f1 [| f2 frames]]; cbn in Hlen; try lia.
  inversion Hf as [| ? ? Hf1 Hf']; subst.
  inversion Hf' as [| ? ? Hf2 Hfs]; subst.
  assert (H0 : steady cfg (fun _ => False) st)
    by (split; [assumption |]; split; [assumption | tauto]).
  change (run cfg (f1 :: f2 :: frames) st)
    with (run cfg frames
            (tick cfg (frame_screenW f2) (frame_screenH f2) (frame_hands f2)
               (frame_rnd f2)
               (tick cfg (frame_screenW f1) (frame_screenH f1)
                  (frame_hands f1) (frame_rnd f1) st))).
  assert (H : steady cfg (fun _ => True)
                (run cfg frames
                   (tick cfg (frame_screenW f2) (frame_screenH f2)
                      (frame_hands f2) (frame_rnd f2)
                      (tick cfg (frame_screenW f1) (frame_screenH f1)
                         (frame_hands f1) (frame_rnd f1) st)))).
  { apply run_invariant; [intros f s; apply tick_steady | assumption |].
    apply tick_heals; [assumption | now apply tick_steady |].
    intros k. now apply tick_settled. }
  now apply H.
Qed.

Lemma st_mixed_wf : wf_state cfg_two st_mixed.
Proof. repeat split. Qed.

Lemma st_mixed_radii (k : nat) :
  (k < particleCount cfg_two)%nat ->
  isFinite (rd (P.radius (p st_mixed)) k) = true.
Proof.
  destruct k as [| [| k]]; intros Hk; [reflexivity | reflexivity |].
  cbn in Hk. lia.
Qed.

Lemma hand_palm_finite : Forall finite_hand [hand_palm].
Proof.
  repeat constructor; unfold hand_palm, JS.or_else, truthy;
    cbn [Hand.velocity_x Hand.velocity_y];
    now rewrite Reqb_true by reflexivity.
Qed.

Lemma sample_frames_finite :
  Forall finite_frame
    [mkFrame (Fin 24) (Fin 24) [hand_palm] rnd_half;
     mkFrame (Fin 24) (Fin 24) [] rnd_zero].
Proof.
  constructor; [| constructor; [| constructor]].
  - split; [reflexivity |]. split; [reflexivity |].
    split; [exact hand_palm_finite | intros k; reflexivity].
  - split; [reflexivity |]. split; [reflexivity |].
    split; [constructor | intros k; reflexivity].
Qed.

Lemma run_keeps_finite_witness :
  finite_body
    (body_at
       (p (run cfg_two
             [mkFrame (Fin 24) (Fin 24) [hand_palm] rnd_half;
              mkFrame (Fin 24) (Fin 24) [] rnd_zero] st_mixed)) 0).
Proof.
  apply (run_keeps_finite cfg_two
           [mkFrame (Fin 24) (Fin 24) [hand_palm] rnd_half;
            mkFrame (Fin 24) (Fin 24) [] rnd_zero] st_mixed 0).
  - exact st_mixed_wf.
  - cbn. lia.
  - exact sample_frames_finite.
  - exact st_mixed_radii.
  - repeat split.
Defined.

Lemma run_heals_witness :
  finite_body
    (body_at
       (p (run cfg_two
             [mkFrame (Fin 24) (Fin 24) [hand_palm] rnd_half;
              mkFrame (Fin 24) (Fin 24) [] rnd_zero] st_mixed)) 1).
Proof.
  apply (run_heals cfg_two
           [mkFrame (Fin 24) (Fin 24) [hand_palm] rnd_half;
            mkFrame (Fin 24) (Fin 24) [] rnd_zero] st_mixed 1).
  - exact st_mixed_wf.
  - cbn. lia.
  - exact sample_frames_finite.
  - cbn. lia.
  - exact st_mixed_radii.
Defined.

Lemma pass1_cell_in_grid_witness :
  exists c : Z,
    cell_index cfg_two
      (body_at (p (after_pass1 cfg_two (Fin 24) (Fin 24) [] rnd_half
                     st_wall)) 0)
    = Some c /\
    In 0%nat
       (members cfg_two
          (body_at (p (after_pass1 cfg_two (Fin 24) (Fin 24) [] rnd_half
                         st_wall)))
          (particleCount cfg_two) c).
Proof.
  destruct sample_grids as (_ & H24 & _).
  apply (pass1_cell_in_grid cfg_two [] rnd_half st_wall 0 24 24 2).
  - symmetry. exact H24.
  - symmetry. exact H24.
  - rewrite H24. lia.
  - rewrite H24. lia.
  - repeat split.
  - cbn. lia.
  - constructor.
  - repeat split.
  - reflexivity.
  - lra.
  - unfold Rmin. destruct (Rle_dec 24 24); lra.
Defined.

(** ** Pass 1 with no hand in the frame *)

Lemma Rabs_bound (a b : R) : Rabs a <= b -> - b <= a <= b.
Proof. unfold Rabs. destruct (Rcase_abs a); lra. Qed.

(** ** Hands out of reach *)

Lemma mul_not_finite (a b : num) :
  isFinite a = false -> isFinite (a * b)%J = false.
Proof.
  destruct a as [| | | r], b as [| | | s]; cbn; try reflexivity;
    try discriminate; intros _; unfold inf_times;
    destruct (Rltb 0 s); try reflexivity; destruct (Rltb s 0); reflexivity.
Qed.

Lemma sub_not_finite (a b : num) :
  isFinite b = false -> isFinite (a - b)%J = false.
Proof.
  destruct a as [| | | r], b as [| | | s]; cbn; try reflexivity; discriminate.
Qed.

Lemma square_not_finite (a : num) :
  isFinite a = false -> (a * a)%J = NaN \/ (a * a)%J = PInf.
Proof. destruct a as [| | | r]; cbn; try discriminate; tauto. Qed.

Lemma square_sum_far_l (a b : num) (c : R) :
  isFinite a = false -> (a * a + b * b <? Fin c)%J = false.
Proof.
  intros H. destruct (square_not_finite a H) as [-> | ->];
    destruct b as [| | | s]; reflexivity.
Qed.

Lemma square_sum_far_r (a b : num) (c : R) :
  isFinite b = false -> (a * a + b * b <? Fin c)%J = false.
Proof.
  intros H. destruct (square_not_finite b H) as [-> | ->];
    destruct a as [| | | s]; reflexivity.
Qed.

(** A hand one of whose coordinates is not a finite number is out of
    reach of every particle, on every screen: the hand loop passes it
    over, whatever its gesture and its velocity. *)
Theorem hand_without_position_ignored (screenW screenH : num)
    (hand : Hand.t) (a : num * num * B.t) :
  isFinite (Hand.x hand) = false \/ isFinite (Hand.y hand) = false ->
  hand_interaction screenW screenH hand a = a.
Proof.
  intros H. destruct a as [[ax ay] b]. unfold hand_interaction.
  unfold HAND_RADIUS_SQ. cbn [JS.mul].
  destruct H as [H | H].
  - rewrite square_sum_far_l; [reflexivity |].
    now apply sub_not_finite, mul_not_finite.
  - rewrite square_sum_far_r; [reflexivity |].
    now apply sub_not_finite, mul_not_finite.
Qed.

Lemma hand_without_position_ignored_witness :
  hand_interaction (Fin 100) (Fin 100)
    (Hand.mk NaN (Fin (1 / 2)) OPEN_PALM (Fin 1) (Fin 1))
    (Fin 0, GRAVITY, b_near)
  = (Fin 0, GRAVITY, b_near).
Proof.
  apply (hand_without_position_ignored (Fin 100) (Fin 100)
           (Hand.mk NaN (Fin (1 / 2)) OPEN_PALM (Fin 1) (Fin 1))).
  left. reflexivity.
Defined.

(** ** The colour gradient *)

Lemma wrap32_small (z : Z) : (- 2 ^ 31 <= z < 2 ^ 31)%Z -> wrap32 z = z.
Proof. intros H. unfold wrap32. rewrite Z.mod_small by lia. lia. Qed.

Lemma lor_shiftl (a b n : Z) :
  (0 <= n)%Z -> (0 <= b < 2 ^ n)%Z ->
  Z.lor (Z.shiftl a n) b = (a * 2 ^ n + b)%Z.
Proof.
  intros Hn Hb.
  assert (Hl : Z.land (Z.shiftl a n) b = 0%Z).
  { apply Z.bits_inj'. intros k Hk.
    rewrite Z.land_spec, Z.bits_0, Z.shiftl_spec by assumption.
    destruct (Z.lt_ge_cases k n) as [Hlt | Hge].
    - rewrite Z.testbit_neg_r by lia. reflexivity.
    - rewrite <- (Z.mod_small b (2 ^ n)) by assumption.
      rewrite Z.mod_pow2_bits_high by lia. apply andb_false_r. }
  rewrite <- Z.lxor_lor by assumption.
  rewrite <- Z.add_nocarry_lxor by assumption.
  now rewrite Z.shiftl_mul_pow2.
Qed.

(** Three channels of 8 bits packed into a tint. *)
Lemma rgb_pack (r g b : Z) :
  (0 <= r < 256)%Z -> (0 <= g < 256)%Z -> (0 <= b < 256)%Z ->
  rgb r g b = (r * 65536 + g * 256 + b)%Z.
Proof.
  intros Hr Hg Hb. unfold rgb, shl32.
  change (16 mod 32)%Z with 16%Z. change (8 mod 32)%Z with 8%Z.
  rewrite !Z.shiftl_mul_pow2 by lia.
  rewrite !wrap32_small by lia.
  rewrite <- (Z.shiftl_mul_pow2 r 16) by lia.
  rewrite (lor_shiftl r (g * 2 ^ 8) 16) by lia.
  replace (r * 2 ^ 16 + g * 2 ^ 8)%Z with ((r * 2 ^ 8 + g) * 2 ^ 8)%Z by lia.
  rewrite <- (Z.shiftl_mul_pow2 _ 8) by lia.
  rewrite (lor_shiftl _ b 8) by lia. lia.
Qed.

(** A channel of the gradient: the truncation of a value between the
    slow and the fast level. *)
Lemma channel_range (lo hi : Z) (x : R) :
  (0 <= lo)%Z -> (hi < 2 ^ 31)%Z -> IZR lo <= x <= IZR hi ->
  toInt32 (Fin x) = Rtrunc x /\ (lo <= Rtrunc x <= hi)%Z.
Proof.
  intros Hlo Hhi Hx.
  assert (H0 : 0 <= x) by (pose proof (IZR_le 0 lo Hlo); lra).
  destruct (Rtrunc_bounds x) as [Hb _]. specialize (Hb H0).
  assert (H1 : (lo - 1 < Rtrunc x)%Z) by (apply lt_IZR; rewrite minus_IZR; lra).
  assert (H2 : (Rtrunc x < hi + 1)%Z) by (apply lt_IZR; rewrite plus_IZR; lra).
  split; [| lia]. cbn [toInt32]. apply wrap32_small. lia.
Qed.

Lemma INV_COLOR_MAX_SPEED_Fin : INV_COLOR_MAX_SPEED = Fin (1 / 200).
Proof. unfold INV_COLOR_MAX_SPEED, COLOR_MAX_SPEED. apply div_Fin. lra. Qed.

(** The interpolation parameter of a finite velocity. *)
Lemma tint_of_Fin (vx vy : R) :
  exists t : R,
    0 <= t <= 1 /\
    (vx * vx + vy * vy < 200 * 200 -> t = R_sqrt.sqrt (vx * vx + vy * vy) / 200) /\
    (200 * 200 <= vx * vx + vy * vy -> t = 1) /\
    tint_of (Fin vx) (Fin vy)
    = rgb (toInt32 (Fin (20 + (180 - 20) * t)))
          (toInt32 (Fin (30 + (20 - 30) * t)))
          (toInt32 (Fin (150 + (20 - 150) * t))).
Proof.
  unfold tint_of. rewrite INV_COLOR_MAX_SPEED_Fin.
  cbn [JS.mul JS.add].
  set (D := vx * vx + vy * vy).
  assert (HD : 0 <= D) by (subst D; nra).
  rewrite sqrt_Fin by assumption.
  set (s := R_sqrt.sqrt D).
  assert (Hs : 0 <= s) by apply sqrt_pos.
  assert (Hss : s * s = D) by (apply sqrt_sqrt; assumption).
  cbn [JS.mul]. unfold JS.gt. cbn [JS.lt].
  unfold COLOR_SLOW_R, COLOR_SLOW_G, COLOR_SLOW_B, DELTA_R, DELTA_G, DELTA_B,
    COLOR_FAST_R, COLOR_FAST_G, COLOR_FAST_B.
  destruct (Rlt_le_dec 1 (s * (1 / 200))) as [H | H].
  - rewrite Rltb_true by assumption. exists 1.
    split; [lra |]. split; [intros Hlt; nra |]. split; [reflexivity |].
    cbn [JS.mul JS.add JS.sub JS.neg]. reflexivity.
  - rewrite Rltb_false by assumption. exists (s * (1 / 200)).
    split; [lra |]. split; [intros _; subst s; lra |].
    split; [intros Hge; nra |].
    cbn [JS.mul JS.add JS.sub JS.neg]. reflexivity.
Qed.

Lemma tint_of_gradient (vx vy : R) :
  exists r g b : Z,
    tint_of (Fin vx) (Fin vy) = (r * 65536 + g * 256 + b)%Z /\
    (20 <= r <= 180)%Z /\ (20 <= g <= 30)%Z /\ (20 <= b <= 150)%Z.
Proof.
  destruct (tint_of_Fin vx vy) as (t & Ht & _ & _ & ->).
  destruct (channel_range 20 180 (20 + (180 - 20) * t)) as [-> Hr];
    [lia | lia | lra |].
  destruct (channel_range 20 30 (30 + (20 - 30) * t)) as [-> Hg];
    [lia | lia | lra |].
  destruct (channel_range 20 150 (150 + (20 - 150) * t)) as [-> Hb];
    [lia | lia | lra |].
  do 3 eexists. split; [apply rgb_pack; lia |]. tauto.
Qed.

(** The tint Pass 1 gives the sprite of a particle with finite slots is
    a colour of the gradient: three 8-bit channels, each between its level
    in the slow colour (20, 30, 150) and its level in the fast colour
    (180, 20, 20). *)
Theorem pass1_tint_in_gradient (w h : R) (hands : list Hand.t)
    (rnd : nat -> num) (q : P.t) (i : nat) :
  Forall finite_hand hands -> finite_body (body_at q i) ->
  exists r g b : Z,
    pass1_tint (Fin w) (Fin h) hands rnd q i = (r * 65536 + g * 256 + b)%Z /\
    (20 <= r <= 180)%Z /\ (20 <= g <= 30)%Z /\ (20 <= b <= 150)%Z.
Proof.
  intros Hh Hb. unfold pass1_tint.
  rewrite respawn_safety_finite by apply Hb.
  apply finite_body_inv in Hb. destruct Hb as (px & py & vx & vy & ->).
  destruct (hand_loop_finite w h hands Hh 0 30 px py vx vy)
    as (ax & ay & vx1 & vy1 & Hl).
  unfold GRAVITY. rewrite Hl.
  unfold integrate, max_velocity. cbn [B.x B.y B.vx B.vy].
  rewrite dt_Fin. unfold FRICTION_AIR. cbn [JS.mul JS.add].
  destruct (clamp_vel_Fin ((vx1 + ax * (1 / 60)) * (98 / 100)))
    as (cvx & -> & _).
  destruct (clamp_vel_Fin ((vy1 + ay * (1 / 60)) * (98 / 100)))
    as (cvy & -> & _).
  apply tint_of_gradient.
Qed.

Lemma pass1_tint_in_gradient_witness :
  exists r g b : Z,
    pass1_tint (Fin 24) (Fin 24) [] rnd_half (p st_wall) 0
    = (r * 65536 + g * 256 + b)%Z /\
    (20 <= r <= 180)%Z /\ (20 <= g <= 30)%Z /\ (20 <= b <= 150)%Z.
Proof.
  apply (pass1_tint_in_gradient 24 24 [] rnd_half (p st_wall) 0).
  - constructor.
  - repeat split.
Defined.

(** The ends of the gradient: a velocity of zero has the tint of the
    spawn, [0x141E96], and a velocity of norm [COLOR_MAX_SPEED] or above
    has the fast colour [0xB41414]. *)
Theorem tint_ends (vx vy : R) :
  (tint_of (Fin 0) (Fin 0) = initialTint /\ initialTint = 1318550%Z) /\
  (200 * 200 <= vx * vx + vy * vy ->
   tint_of (Fin vx) (Fin vy) = 11801620%Z).
Proof.
  split.
  - assert (Hi : initialTint = 1318550%Z).
    { unfold initialTint, COLOR_SLOW_R, COLOR_SLOW_G, COLOR_SLOW_B.
      destruct (channel_range 20 20 20) as [-> H1]; [lia | lia | lra |].
      destruct (channel_range 30 30 30) as [-> H2]; [lia | lia | lra |].
      destruct (channel_range 150 150 150) as [-> H3]; [lia | lia | lra |].
      rewrite rgb_pack by lia. lia. }
    split; [| exact Hi]. rewrite Hi.
    destruct (tint_of_Fin 0 0) as (t & Ht & Hslow & _ & ->).
    rewrite Hslow by lra.
    replace (0 * 0 + 0 * 0) with 0 by lra. rewrite sqrt_0.
    destruct (channel_range 20 20 (20 + (180 - 20) * (0 / 200))) as [-> H1];
      [lia | lia | lra |].
    destruct (channel_range 30 30 (30 + (20 - 30) * (0 / 200))) as [-> H2];
      [lia | lia | lra |].
    destruct (channel_range 150 150 (150 + (20 - 150) * (0 / 200)))
      as [-> H3]; [lia | lia | lra |].
    rewrite rgb_pack by lia. lia.
  - destruct (tint_of_Fin vx vy) as (t & Ht & _ & Hfast & ->).
    intros Hge. rewrite (Hfast Hge).
    destruct (channel_range 180 180 (20 + (180 - 20) * 1)) as [-> H1];
      [lia | lia | lra |].
    destruct (channel_range 20 20 (30 + (20 - 30) * 1)) as [-> H2];
      [lia | lia | lra |].
    destruct (channel_range 20 20 (150 + (20 - 150) * 1)) as [-> H3];
      [lia | lia | lra |].
    rewrite rgb_pack by lia. lia.
Qed.

Lemma tint_ends_witness :
  tint_of (Fin 200) (Fin 0) = 11801620%Z.
Proof. apply (proj2 (tint_ends 200 0)). lra. Defined.

(** The tint of any velocity: black, 0, when a component is [NaN];
    the fast colour [0xB41414] when no component is [NaN] and one is
    infinite; and a colour of the gradient when both are finite. *)
Theorem tint_black_or_gradient (vx vy : num) :
  (isNaN vx || isNaN vy = true /\ tint_of vx vy = 0%Z) \/
  (isNaN vx || isNaN vy = false /\ isFinite vx && isFinite vy = false /\
   tint_of vx vy = 11801620%Z) \/
  (isFinite vx && isFinite vy = true /\
   exists r g b : Z,
     tint_of vx vy = (r * 65536 + g * 256 + b)%Z /\
     (20 <= r <= 180)%Z /\ (20 <= g <= 30)%Z /\ (20 <= b <= 150)%Z).
Proof.
  assert (Hnan : (vx * vx + vy * vy)%J = NaN -> tint_of vx vy = 0%Z).
  { intros E. unfold tint_of. rewrite E. reflexivity. }
  assert (Hinf : (vx * vx + vy * vy)%J = PInf ->
                 tint_of vx vy = 11801620%Z).
  { intros E. unfold tint_of. rewrite E, INV_COLOR_MAX_SPEED_Fin.
    cbn [JS.sqrt JS.mul]. unfold inf_times. rewrite Rltb_true by lra.
    unfold JS.gt. cbn [JS.lt].
    unfold DELTA_R, DELTA_G, DELTA_B, COLOR_SLOW_R, COLOR_SLOW_G,
      COLOR_SLOW_B, COLOR_FAST_R, COLOR_FAST_G, COLOR_FAST_B.
    cbn [JS.mul JS.add JS.sub JS.neg].
    destruct (channel_range 180 180 (20 + (180 + - (20)) * 1)) as [-> H1];
      [lia | lia | lra |].
    destruct (channel_range 20 20 (30 + (20 + - (30)) * 1)) as [-> H2];
      [lia | lia | lra |].
    destruct (channel_range 20 20 (150 + (20 + - (150)) * 1)) as [-> H3];
      [lia | lia | lra |].
    rewrite rgb_pack by lia. lia. }
  destruct vx as [| | | rx], vy as [| | | ry];
    try (left; split; [reflexivity | apply Hnan; reflexivity]);
    try (right; left; split; [reflexivity |]; split; [reflexivity |];
         apply Hinf; reflexivity).
  right; right. split; [reflexivity | apply tint_of_gradient].
Qed.

(** ** The hand detection service *)

Lemma hypot_Fin (a b : R) :
  hypot (Fin a) (Fin b) = Fin (R_sqrt.sqrt (a * a + b * b)).
Proof. unfold hypot. cbn [JS.mul JS.add]. apply sqrt_Fin. nra. Qed.

Lemma finite_landmark_inv (l : Landmark.t) :
  finite_landmark l ->
  exists (lx ly : R) (lz : num), l = Landmark.mk (Fin lx) (Fin ly) lz.
Proof.
  destruct l as [lx ly lz]. intros [Hx Hy]. cbn in Hx, Hy.
  apply isFinite_Fin in Hx, Hy. destruct Hx as [rx ->], Hy as [ry ->].
  now exists rx, ry, lz.
Qed.

Lemma from_wrist_Fin (wx wy lx ly : R) (wz lz : num) :
  from_wrist (Landmark.mk (Fin wx) (Fin wy) wz)
             (Landmark.mk (Fin lx) (Fin ly) lz)
  = Fin (R_sqrt.sqrt ((lx - wx) * (lx - wx) + (ly - wy) * (ly - wy))).
Proof.
  unfold from_wrist. cbn [Landmark.x Landmark.y JS.sub JS.add JS.neg].
  apply hypot_Fin.
Qed.

Section Reframe.

Variables a b tx ty : R.
Hypothesis Hab : a * a = b * b.
Hypothesis Ha : a <> 0.

Lemma from_wrist_reframe (w l : Landmark.t) :
  finite_landmark w -> finite_landmark l ->
  exists d : R,
    from_wrist w l = Fin d /\
    from_wrist (reframe a b tx ty w) (reframe a b tx ty l)
    = Fin (R_sqrt.sqrt (a * a) * d).
Proof.
  intros Hw Hl.
  destruct (finite_landmark_inv w Hw) as (wx & wy & wz & ->).
  destruct (finite_landmark_inv l Hl) as (lx & ly & lz & ->).
  unfold reframe. cbn [Landmark.x Landmark.y Landmark.z JS.mul JS.add].
  rewrite !from_wrist_Fin. eexists. split; [reflexivity |].
  apply f_equal.
  assert (H1 : 0 <= a * a) by apply Rle_0_sqr.
  assert (H2 : 0 <= (lx - wx) * (lx - wx) + (ly - wy) * (ly - wy)).
  { pose proof (Rle_0_sqr (lx - wx)). pose proof (Rle_0_sqr (ly - wy)).
    unfold Rsqr in *. lra. }
  rewrite <- (sqrt_mult _ _ H1 H2). apply f_equal.
  transitivity (a * a * ((lx - wx) * (lx - wx))
                + b * b * ((ly - wy) * (ly - wy))); [ring |].
  rewrite <- Hab. ring.
Qed.

Lemma scale_pos : 0 < R_sqrt.sqrt (a * a).
Proof. apply sqrt_lt_R0. nra. Qed.

Lemma gt_scaled (k t m : R) :
  (Fin (R_sqrt.sqrt (a * a) * t)
   >? Fin (R_sqrt.sqrt (a * a) * m) * Fin k)%J
  = (Fin t >? Fin m * Fin k)%J.
Proof.
  pose proof scale_pos as Hs. unfold JS.gt. cbn [JS.mul JS.lt].
  unfold Rltb.
  destruct (Rlt_dec _ _) as [H1 | H1], (Rlt_dec _ _) as [H2 | H2];
    try reflexivity; exfalso; nra.
Qed.

Lemma isFingerOpen_reframe (ls : list Landmark.t) (w : Landmark.t)
    (tipIdx mcpIdx : nat) :
  Forall finite_landmark ls -> finite_landmark w ->
  isFingerOpen (reframe a b tx ty <$> ls) (reframe a b tx ty w) tipIdx mcpIdx
  = isFingerOpen ls w tipIdx mcpIdx.
Proof.
  intros Hls Hw. unfold isFingerOpen. rewrite !list_lookup_fmap.
  destruct (ls !! tipIdx) as [t |] eqn:Et; [| reflexivity].
  destruct (ls !! mcpIdx) as [m |] eqn:Em; [| reflexivity].
  simpl.
  destruct (from_wrist_reframe w t Hw (Forall_lookup_1 _ _ _ _ Hls Et))
    as (dt' & -> & ->).
  destruct (from_wrist_reframe w m Hw (Forall_lookup_1 _ _ _ _ Hls Em))
    as (dm & -> & ->).
  now rewrite gt_scaled.
Qed.

Lemma thumb_reframe (w t m : Landmark.t) :
  finite_landmark w -> finite_landmark t -> finite_landmark m ->
  (from_wrist (reframe a b tx ty w) (reframe a b tx ty t)
   >? from_wrist (reframe a b tx ty w) (reframe a b tx ty m))%J
  = (from_wrist w t >? from_wrist w m)%J.
Proof.
  intros Hw Ht Hm.
  destruct (from_wrist_reframe w t Hw Ht) as (dt' & -> & ->).
  destruct (from_wrist_reframe w m Hw Hm) as (dm & -> & ->).
  pose proof (gt_scaled 1 dt' dm) as H. cbn [JS.mul] in H.
  rewrite !Rmult_1_r in H. exact H.
Qed.

End Reframe.

(** The gesture does not depend on the frame the landmarks are given
    in: scaling both axes by factors of the same magnitude, mirroring an
    axis and shifting the hand leave it as it is.  In particular the
    gesture of the hand as the camera sees it is that of the mirrored hand
    whose centre the service reports. *)
Theorem detectGesture_reframe (a b tx ty : R) (ls : list Landmark.t) :
  a * a = b * b -> a <> 0 -> Forall finite_landmark ls ->
  detectGesture (reframe a b tx ty <$> ls) = detectGesture ls.
Proof.
  intros Hab Ha Hls. unfold detectGesture. rewrite !list_lookup_fmap.
  destruct (ls !! 0%nat) as [w |] eqn:E0; [| reflexivity].
  pose proof (Forall_lookup_1 _ _ _ _ Hls E0) as Hw.
  simpl. rewrite !(isFingerOpen_reframe a b tx ty Hab Ha) by assumption.
  destruct (isFingerOpen ls w 8 5) as [o1 |]; [| reflexivity].
  destruct (isFingerOpen ls w 12 9) as [o2 |]; [| reflexivity].
  destruct (isFingerOpen ls w 16 13) as [o3 |]; [| reflexivity].
  destruct (isFingerOpen ls w 20 17) as [o4 |]; [| reflexivity].
  simpl.
  destruct (ls !! 4%nat) as [t |] eqn:E4; [| reflexivity].
  destruct (ls !! 3%nat) as [m |] eqn:E3; [| reflexivity].
  simpl.
  rewrite (thumb_reframe a b tx ty Hab Ha)
    by (assumption || eapply Forall_lookup_1; eassumption).
  reflexivity.
Qed.

Lemma detectGesture_some (ls : list Landmark.t) :
  (21 <= length ls)%nat ->
  exists g : HandGesture, detectGesture ls = Some g /\ g <> NONE.
Proof.
  intros Hlen.
  assert (H : forall k : nat, (k < 21)%nat -> is_Some (ls !! k))
    by (intros k Hk; apply lookup_lt_is_Some_2; lia).
  destruct (H 0%nat ltac:(lia)) as [l0 E0].
  destruct (H 3%nat ltac:(lia)) as [l3 E3].
  destruct (H 4%nat ltac:(lia)) as [l4 E4].
  destruct (H 5%nat ltac:(lia)) as [l5 E5].
  destruct (H 8%nat ltac:(lia)) as [l8 E8].
  destruct (H 9%nat ltac:(lia)) as [l9 E9].
  destruct (H 12%nat ltac:(lia)) as [l12 E12].
  destruct (H 13%nat ltac:(lia)) as [l13 E13].
  destruct (H 16%nat ltac:(lia)) as [l16 E16].
  destruct (H 17%nat ltac:(lia)) as [l17 E17].
  destruct (H 20%nat ltac:(lia)) as [l20 E20].
  unfold detectGesture, isFingerOpen.
  rewrite E0, E3, E4, E5, E8, E9, E12, E13, E16, E17, E20. simpl.
  eexists. split; [reflexivity |].
  match goal with
  | |- (if ?c then _ else _) <> _ => destruct c; discriminate
  end.
Qed.

(** Without elapsed time there is no velocity. *)
Lemma velocity_since_now (now cx cy lx ly : num) :
  velocity_since now cx cy (Some (mkLastPos lx ly now)) = (Fin 0, Fin 0).
Proof.
  unfold velocity_since. cbn [last_time].
  replace ((now - now) / Fin 1000 >? Fin (1 / 100))%J with false;
    [reflexivity |].
  destruct now as [| | | r]; try reflexivity.
  cbn [JS.sub JS.add JS.neg]. rewrite div_Fin by lra.
  symmetry. apply lt_Fin_false. lra.
Qed.

Lemma swap_label_cases (mp : string) :
  swap_label mp = "Left"%string \/ swap_label mp = "Right"%string.
Proof. unfold swap_label. destruct (bool_decide _); tauto. Qed.

Section Reported.

Variable ok : R -> Prop.
Hypothesis ok_x : forall a b : R, ok a -> ok b -> ok (1 - (a + b) / 2).
Hypothesis ok_y : forall a b : R, ok a -> ok b -> ok ((a + b) / 2).

Lemma velocity_since_paced (now cx cy : R) (lastPos : option LastPos) :
  (forall lp : LastPos, lastPos = Some lp ->
   exists lx ly lt : R,
     lp = mkLastPos (Fin lx) (Fin ly) (Fin lt) /\ ok lx /\ ok ly) ->
  exists vx vy : R,
    velocity_since (Fin now) (Fin cx) (Fin cy) lastPos = (Fin vx, Fin vy) /\
    paced ok vx cx /\ paced ok vy cy.
Proof.
  intros H. destruct lastPos as [lp |].
  - destruct (H lp eq_refl) as (lx & ly & lt & -> & Hlx & Hly).
    unfold velocity_since. cbn [last_x last_y last_time JS.sub JS.add JS.neg].
    rewrite (div_Fin _ 1000) by lra.
    set (dt' := (now + - lt) / 1000).
    unfold JS.gt. cbn [JS.lt].
    destruct (Rlt_le_dec (1 / 100) dt') as [Hdt | Hdt].
    + rewrite Rltb_true by assumption. rewrite !div_Fin by lra.
      assert (Hb : forall c l : R,
                Rabs ((c + - l) / dt') <= 100 * Rabs (c - l)).
      { intros c l. unfold Rdiv. rewrite Rabs_mult.
        rewrite (Rabs_right (/ dt'))
          by (apply Rle_ge, Rlt_le, Rinv_0_lt_compat; lra).
        replace (c + - l) with (c - l) by lra.
        pose proof (Rabs_pos (c - l)) as Hp.
        assert (Hi : / dt' <= 100).
        { replace 100 with (/ (1 / 100)) by lra.
          apply Rinv_le_contravar; lra. }
        assert (Hi0 : 0 < / dt') by (apply Rinv_0_lt_compat; lra).
        nra. }
      do 2 eexists. split; [reflexivity |].
      split; right; [exists lx | exists ly]; split; auto.
    + rewrite Rltb_false by assumption.
      exists 0, 0. split; [reflexivity |]. split; now left.
  - exists 0, 0. split; [reflexivity |]. split; now left.
Qed.

Lemma each_hand_reported (now : R) (results : Results)
    (acc : gmap string LastPos * list Detected) (index : nat)
    (ls : list Landmark.t) :
  history_in ok (fst acc) -> Forall (reported_in ok) (snd acc) ->
  tracked_in ok ls ->
  exists acc' : gmap string LastPos * list Detected,
    each_hand (Fin now) results acc index ls = Some acc' /\
    history_in ok (fst acc') /\ Forall (reported_in ok) (snd acc') /\
    length (snd acc') = Datatypes.S (length (snd acc)).
Proof.
  intros Hh Hr [Hlen Hls].
  destruct (lookup_lt_is_Some_2 ls 0%nat ltac:(lia)) as [w E0].
  destruct (lookup_lt_is_Some_2 ls 9%nat ltac:(lia)) as [m E9].
  destruct (Hls _ _ E0) as (wx & wy & wz & -> & Hwx & Hwy).
  destruct (Hls _ _ E9) as (mx & my & mz & -> & Hmx & Hmy).
  destruct (detectGesture_some ls Hlen) as (g & Eg & Hg).
  unfold each_hand. rewrite E0, E9, Eg. cbn [mbind option_bind].
  cbn [Landmark.x Landmark.y JS.add JS.sub JS.neg]. rewrite !div_Fin by lra.
  cbn [JS.add JS.sub JS.neg].
  set (cx := 1 + - ((wx + mx) / 2)). set (cy := (wy + my) / 2).
  assert (Hcx : ok cx).
  { replace cx with (1 - (wx + mx) / 2) by (subst cx; lra). now apply ok_x. }
  assert (Hcy : ok cy) by now apply ok_y.
  set (lbl := swap_label (mpLabel results index)).
  destruct (velocity_since_paced now cx cy (fst acc !! lbl))
    as (vx & vy & -> & Hvx & Hvy).
  { intros lp Hlp. now apply (Hh lbl). }
  eexists. split; [reflexivity |]. cbn [fst snd]. split; [| split].
  - intros k lp Hk. destruct (decide (lbl = k)) as [<- | Hne].
    + rewrite lookup_insert_eq in Hk. injection Hk as <-.
      now exists cx, cy, now.
    + rewrite lookup_insert_ne in Hk by assumption. now apply (Hh k).
  - apply Forall_app. split; [exact Hr |].
    constructor; [| constructor].
    split; [apply swap_label_cases |]. split; [exact Hg |].
    exists cx, cy, vx, vy. cbn. tauto.
  - rewrite length_app. cbn. lia.
Qed.

Lemma for_each_reported (now : R) (results : Results)
    (hands : list (list Landmark.t)) :
  Forall (tracked_in ok) hands ->
  forall (index : nat) (acc : gmap string LastPos * list Detected),
    history_in ok (fst acc) -> Forall (reported_in ok) (snd acc) ->
    exists (last' : gmap string LastPos) (out : list Detected),
      for_each (Fin now) results index hands acc = (last', Some out) /\
      history_in ok last' /\ Forall (reported_in ok) out /\
      length out = (length (snd acc) + length hands)%nat.
Proof.
  induction 1 as [| ls hands Hls Hhands IH]; intros index acc Hh Hr.
  - exists (fst acc), (snd acc). cbn. repeat split; auto.
  - cbn [for_each].
    destruct (each_hand_reported now results acc index ls Hh Hr Hls)
      as (acc' & -> & Hh' & Hr' & Hlen).
    destruct (IH (Datatypes.S index) acc' Hh' Hr')
      as (last' & out & -> & H1 & H2 & H3).
    exists last', out. repeat split; auto. rewrite H3, Hlen. cbn. lia.
Qed.

Lemma onResults_reported (now : R) (results : Results)
    (last : gmap string LastPos) :
  history_in ok last ->
  (forall hands : list (list Landmark.t),
     multiHandLandmarks results = Some hands ->
     Forall (tracked_in ok) hands) ->
  exists (last' : gmap string LastPos) (out : list Detected),
    onResults (Fin now) results last = (last', Some out) /\
    history_in ok last' /\ Forall (reported_in ok) out /\
    length out = length (default [] (multiHandLandmarks results)).
Proof.
  intros Hh Hr. unfold onResults.
  destruct (multiHandLandmarks results) as [[| ls hands] |] eqn:E.
  - exists ∅, []. repeat split; auto. intros k lp Hk.
    rewrite lookup_empty in Hk. discriminate Hk.
  - destruct (for_each_reported now results (ls :: hands) (Hr _ eq_refl)
                0%nat (last, []) Hh ltac:(constructor))
      as (last' & out & -> & H1 & H2 & H3).
    exists last', out. repeat split; auto.
  - exists ∅, []. repeat split; auto. intros k lp Hk.
    rewrite lookup_empty in Hk. discriminate Hk.
Qed.

End Reported.

Lemma reported_finite_hand (ok : R -> Prop) (d : Detected) :
  reported_in ok d -> finite_hand (hand_data d).
Proof.
  intros (_ & _ & x & y & vx & vy & _ & _ & Hvx & Hvy & _).
  unfold finite_hand. rewrite Hvx, Hvy. unfold JS.or_else.
  split; [destruct (truthy (Fin vx)) | destruct (truthy (Fin vy))];
    reflexivity.
Qed.

(** What the service reports is what the tick assumes.  When the
    history holds finite numbers and every hand of the results has its 21
    landmarks, with finite coordinates, [onResults] does not throw: it
    calls [onHandUpdate] with one hand for each hand of the results, each
    with the id ["Left"] or ["Right"], a gesture other than [NONE], a
    finite position and a finite velocity, so that the hands are
    [finite_hand]s; and the history holds finite numbers again. *)
Theorem onResults_reports_finite_hands (now : R) (results : Results)
    (last : gmap string LastPos) :
  history_in any_coord last ->
  (forall hands : list (list Landmark.t),
     multiHandLandmarks results = Some hands ->
     Forall (tracked_in any_coord) hands) ->
  exists (last' : gmap string LastPos) (out : list Detected),
    onResults (Fin now) results last = (last', Some out) /\
    history_in any_coord last' /\
    length out = length (default [] (multiHandLandmarks results)) /\
    Forall (reported_in any_coord) out /\
    Forall finite_hand (hand_data <$> out).
Proof.
  intros Hh Hr.
  destruct (onResults_reported any_coord ltac:(easy) ltac:(easy)
              now results last Hh Hr) as (last' & out & E & H1 & H2 & H3).
  exists last', out. repeat split; try assumption.
  apply Forall_fmap. eapply Forall_impl; [exact H2 |].
  intros d. apply reported_finite_hand.
Qed.

Lemma sample_hand_normalised :
  tracked_in normalised sample_hand.
Proof.
  split; [cbn; lia |].
  intros k l H. unfold sample_hand in H. rewrite list_lookup_fmap in H.
  destruct (_ !! k) as [c |] eqn:E; [| discriminate H].
  injection H as <-. do 3 eexists. split; [reflexivity |].
  revert k c E. apply Forall_lookup.
  unfold normalised. repeat constructor; cbn [fst snd]; lra.
Qed.

Lemma tracked_in_weaken (ok : R -> Prop) (ls : list Landmark.t) :
  tracked_in ok ls -> tracked_in any_coord ls.
Proof.
  intros [Hlen H]. split; [exact Hlen |]. intros k l Hk.
  destruct (H k l Hk) as (lx & ly & lz & -> & _). now exists lx, ly, lz.
Qed.

Lemma history_in_empty (ok : R -> Prop) : history_in ok ∅.
Proof. intros k lp H. rewrite lookup_empty in H. discriminate H. Qed.

Lemma onResults_reports_finite_hands_witness :
  exists (last' : gmap string LastPos) (out : list Detected),
    onResults (Fin 16) sample_results ∅ = (last', Some out) /\
    history_in any_coord last' /\
    length out = length (default [] (multiHandLandmarks sample_results)) /\
    Forall (reported_in any_coord) out /\
    Forall finite_hand (hand_data <$> out).
Proof.
  apply (onResults_reports_finite_hands 16 sample_results ∅).
  - apply history_in_empty.
  - intros hands H. injection H as <-.
    constructor; [| constructor].
    exact (tracked_in_weaken normalised _ sample_hand_normalised).
Defined.

(** On landmarks normalised by the image, and a history of normalised
    positions, the hands are reported at normalised positions, and the
    guard [dt > 0.01] keeps each velocity component within 100 screens per
    second. *)
Theorem onResults_normalised (now : R) (results : Results)
    (last : gmap string LastPos) :
  history_in normalised last ->
  (forall hands : list (list Landmark.t),
     multiHandLandmarks results = Some hands ->
     Forall (tracked_in normalised) hands) ->
  exists (last' : gmap string LastPos) (out : list Detected),
    onResults (Fin now) results last = (last', Some out) /\
    history_in normalised last' /\
    Forall (fun d : Detected =>
              exists x y vx vy : R,
                hand_data d
                = Hand.mk (Fin x) (Fin y) (Hand.gesture (hand_data d))
                          (Fin vx) (Fin vy) /\
                0 <= x <= 1 /\ 0 <= y <= 1 /\
                Rabs vx <= 100 /\ Rabs vy <= 100) out.
Proof.
  intros Hh Hr.
  destruct (onResults_reported normalised
              ltac:(unfold normalised; intros; lra)
              ltac:(unfold normalised; intros; lra)
              now results last Hh Hr) as (last' & out & E & H1 & H2 & H3).
  exists last', out. repeat split; try assumption.
  eapply Forall_impl; [exact H2 |].
  intros [i [hx hy g hvx hvy]]
    (_ & _ & x & y & vx & vy & Hx & Hy & Hvx & Hvy & Hox & Hoy & Hpx & Hpy).
  cbn in Hx, Hy, Hvx, Hvy. subst. cbn [hand_data Hand.gesture].
  assert (Hp : forall v c : R, normalised c -> paced normalised v c ->
               Rabs v <= 100).
  { intros v c Hc [-> | (l & Hl & Hv)]; [rewrite Rabs_R0; lra |].
    assert (Rabs (c - l) <= 1)
      by (unfold normalised in *; apply Rabs_le; lra).
    lra. }
  exists x, y, vx, vy. split; [reflexivity |].
  repeat split; try apply Hox; try apply Hoy; eauto.
Qed.

Lemma onResults_normalised_witness :
  exists (last' : gmap string LastPos) (out : list Detected),
    onResults (Fin 16) sample_results ∅ = (last', Some out) /\
    history_in normalised last' /\
    Forall (fun d : Detected =>
              exists x y vx vy : R,
                hand_data d
                = Hand.mk (Fin x) (Fin y) (Hand.gesture (hand_data d))
                          (Fin vx) (Fin vy) /\
                0 <= x <= 1 /\ 0 <= y <= 1 /\
                Rabs vx <= 100 /\ Rabs vy <= 100) out.
Proof.
  apply (onResults_normalised 16 sample_results ∅).
  - apply history_in_empty.
  - intros hands H. injection H as <-.
    constructor; [| constructor]. exact sample_hand_normalised.
Defined.

(** ** Detection after the hands were lost *)

Lemma each_hand_fresh (now : num) (results : Results)
    (acc acc' : gmap string LastPos * list Detected) (index : nat)
    (ls : list Landmark.t) :
  (forall (k : string) (lp : LastPos),
     fst acc !! k = Some lp -> last_time lp = now) ->
  Forall still (snd acc) ->
  each_hand now results acc index ls = Some acc' ->
  (forall (k : string) (lp : LastPos),
     fst acc' !! k = Some lp -> last_time lp = now) /\
  Forall still (snd acc').
Proof.
  intros Hh Hs. unfold each_hand.
  destruct (ls !! 0%nat) as [w |]; [| discriminate].
  destruct (ls !! 9%nat) as [m |]; [| discriminate].
  destruct (detectGesture ls) as [g |]; [| discriminate].
  cbn [mbind option_bind]. intros E. injection E as <-.
  cbn [fst snd]. split.
  - intros k lp Hk.
    destruct (decide (swap_label (mpLabel results index) = k)) as [<- | Hne].
    + rewrite lookup_insert_eq in Hk. now injection Hk as <-.
    + rewrite lookup_insert_ne in Hk by assumption. now apply (Hh k).
  - apply Forall_app. split; [exact Hs |].
    constructor; [| constructor].
    destruct (fst acc !! swap_label (mpLabel results index)) as [lp |] eqn:El.
    + pose proof (Hh _ _ El) as Ht. destruct lp as [lx ly lt].
      cbn in Ht. subst lt. rewrite velocity_since_now. split; reflexivity.
    + split; reflexivity.
Qed.

Lemma for_each_fresh (now : num) (results : Results)
    (hands : list (list Landmark.t)) :
  forall (index : nat) (acc : gmap string LastPos * list Detected)
         (last' : gmap string LastPos) (out : list Detected),
    (forall (k : string) (lp : LastPos),
       fst acc !! k = Some lp -> last_time lp = now) ->
    Forall still (snd acc) ->
    for_each now results index hands acc = (last', Some out) ->
    Forall still out.
Proof.
  induction hands as [| ls hands IH]; intros index acc last' out Hh Hs E.
  - cbn in E. now injection E as <- <-.
  - cbn [for_each] in E.
    destruct (each_hand now results acc index ls) as [acc' |] eqn:E1;
      [| discriminate E].
    destruct (each_hand_fresh now results acc acc' index ls Hh Hs E1)
      as [Hh' Hs'].
    exact (IH _ _ _ _ Hh' Hs' E).
Qed.

(** After results without a hand the history is empty, and the hands of
    the next results are reported without velocity, wherever they are and
    whatever the clock says: a hand that comes back does not fling the
    particles. *)
Theorem detection_restarts_still (now0 now1 : num) (results0 results1 : Results)
    (last last' : gmap string LastPos) (out : list Detected) :
  multiHandLandmarks results0 = None \/ multiHandLandmarks results0 = Some [] ->
  onResults now1 results1 (fst (onResults now0 results0 last))
  = (last', Some out) ->
  onResults now0 results0 last = (∅, Some []) /\ Forall still out.
Proof.
  intros H0 E.
  assert (E0 : onResults now0 results0 last = (∅, Some []))
    by (unfold onResults; destruct H0 as [-> | ->]; reflexivity).
  split; [exact E0 |]. rewrite E0 in E. cbn [fst] in E.
  unfold onResults in E.
  destruct (multiHandLandmarks results1) as [[| ls hands] |].
  - injection E as <- <-. constructor.
  - eapply for_each_fresh; [| | exact E].
    + intros k lp Hk. cbn [fst] in Hk. rewrite lookup_empty in Hk.
      discriminate Hk.
    + constructor.
  - injection E as <- <-. constructor.
Qed.

Lemma detection_restarts_still_witness :
  onResults (Fin 0) (mkResults None None) ∅ = (∅, Some []) /\
  Forall still (default [] (snd (onResults (Fin 16) sample_results ∅))).
Proof.
  apply (detection_restarts_still (Fin 0) (Fin 16) (mkResults None None)
           sample_results ∅
           (fst (onResults (Fin 16) sample_results ∅))).
  - left. reflexivity.
  - change (fst (onResults (Fin 0) (mkResults None None) ∅))
      with (∅ : gmap string LastPos).
    destruct (onResults_reported normalised
                ltac:(unfold normalised; intros; lra)
                ltac:(unfold normalised; intros; lra)
                16 sample_results ∅ (history_in_empty normalised))
      as (last' & out & -> & _).
    + intros hands H. injection H as <-.
      constructor; [| constructor]. exact sample_hand_normalised.
    + reflexivity.
Defined.

Lemma sample_hand_finite : Forall finite_landmark sample_hand.
Proof.
  unfold sample_hand. apply Forall_fmap, Forall_forall.
  intros c _. split; reflexivity.
Qed.

Lemma detectGesture_reframe_witness :
  detectGesture (reframe (- 1) 1 1 0 <$> sample_hand)
  = detectGesture sample_hand.
Proof.
  apply (detectGesture_reframe (- 1) 1 1 0 sample_hand).
  - lra.
  - lra.
  - exact sample_hand_finite.
Defined.

(** ** From the spawn on *)

(** ** The two versions of the ticker *)

Lemma or_else_finite (v : num) :
  isFinite v = true \/ v = NaN ->
  (if isFinite v then v else Fin 0) = (v || Fin 0)%J.
Proof.
  intros [H | ->]; [| reflexivity].
  apply isFinite_Fin in H. destruct H as [r ->].
  unfold JS.or_else, truthy. cbn [isFinite].
  unfold Reqb. destruct (Req_dec_T r 0) as [-> | _]; reflexivity.
Qed.

Section Versions.

Variable cfg : Setup.
Variables screenW screenH : num.
Variable hand : Hand.t.
Variable rnd : nat -> num.

Lemma tick_single_ext (hands : list Hand.t) :
  (forall a : num * num * B.t,
     hand_interaction_single screenW screenH hand a
     = hand_loop screenW screenH hands a) ->
  forall st : State,
    tick_single cfg screenW screenH hand rnd st
    = tick cfg screenW screenH hands rnd st.
Proof.
  intros H st.
  assert (Hb : forall (s : State) (i : nat),
    pass1_body_single cfg screenW screenH hand rnd s i
    = pass1_body cfg screenW screenH hands rnd s i).
  { intros s i. unfold pass1_body_single, pass1_body, advance_single, advance.
    now rewrite H. }
  unfold tick_single, tick, after_pass1, pass1.
  assert (Hf : forall (l : list nat) (s : State),
    fold_left (pass1_body_single cfg screenW screenH hand rnd) l s
    = fold_left (pass1_body cfg screenW screenH hands rnd) l s).
  { induction l as [| i l IH]; intros s; cbn [fold_left]; [reflexivity |].
    rewrite Hb. apply IH. }
  now rewrite Hf.
Qed.

End Versions.

(** The ticker for several hands does for one hand what the ticker of
    the earlier version did: the two ticks agree on a hand with a gesture
    whose point on the screen is finite and whose velocity components are
    finite or [NaN]; and the earlier tick without a gesture is the tick
    with no hand. *)
Theorem tick_single_agrees (cfg : Setup) (screenW screenH : num)
    (hand : Hand.t) (rnd : nat -> num) (st : State) :
  (Hand.gesture hand <> NONE ->
   isFinite (Hand.x hand * screenW)%J = true ->
   isFinite (Hand.y hand * screenH)%J = true ->
   isFinite (Hand.velocity_x hand) = true \/ Hand.velocity_x hand = NaN ->
   isFinite (Hand.velocity_y hand) = true \/ Hand.velocity_y hand = NaN ->
   tick_single cfg screenW screenH hand rnd st
   = tick cfg screenW screenH [hand] rnd st) /\
  (Hand.gesture hand = NONE ->
   tick_single cfg screenW screenH hand rnd st
   = tick cfg screenW screenH [] rnd st).
Proof.
  split.
  - intros Hg Hx Hy Hvx Hvy. apply tick_single_ext.
    intros [[ax ay] b]. unfold hand_loop. cbn [fold_left].
    unfold hand_interaction_single, hand_interaction, hasHand, hand_point,
      hand_vel.
    rewrite Hx, Hy. cbn [negb orb fst snd].
    rewrite (or_else_finite _ Hvx), (or_else_finite _ Hvy).
    destruct (Hand.gesture hand); [contradiction | reflexivity | reflexivity].
  - intros Hg. apply tick_single_ext.
    intros [[ax ay] b]. unfold hand_loop. cbn [fold_left].
    unfold hand_interaction_single, hasHand. now rewrite Hg.
Qed.

Lemma tick_single_agrees_witness :
  tick_single cfg_two (Fin 100) (Fin 100) hand_palm rnd_half st_wall
  = tick cfg_two (Fin 100) (Fin 100) [hand_palm] rnd_half st_wall.
Proof.
  apply (proj1 (tick_single_agrees cfg_two (Fin 100) (Fin 100) hand_palm
                  rnd_half st_wall)).
  - discriminate.
  - reflexivity.
  - reflexivity.
  - left. reflexivity.
  - left. reflexivity.
Defined.

(** ** The auras *)

(** Hands from the third on are passed over. *)
Lemma aura_each_ignored (screenW screenH : num) (hands : list Hand.t) :
  forall (index : nat) (au : Auras),
    (2 <= index)%nat -> aura_each screenW screenH index hands au = au.
Proof.
  induction hands as [| hand hands IH]; intros index au Hi; [reflexivity |].
  cbn [aura_each]. rewrite IH by lia. unfold aura_hand.
  destruct (Nat.leb_spec 2 index); [reflexivity | lia].
Qed.

Lemma smooth_Fin (s c : R) :
  smooth (Fin s) (Fin c) = Fin (c + 8 / 10 * (s - c)).
Proof. unfold smooth. cbn [JS.add JS.sub JS.neg JS.mul]. f_equal. lra. Qed.

Lemma smooth_not_finite (s c : num) :
  isFinite s = false \/ isFinite c = false -> isFinite (smooth s c) = false.
Proof.
  unfold smooth.
  destruct s as [| | | rs], c as [| | | rc]; cbn; intros [H | H];
    try discriminate H; try reflexivity;
    unfold inf_times; rewrite ?Rltb_true by lra; reflexivity.
Qed.

(** The aura of a hand that stays where it is closes in on it: with
    every frame the smoothed position and the sprite are at four fifths
    of the distance from the hand they were at. *)
Theorem aura_tracks_hand (w h hx hy sx sy : R) (hand : Hand.t)
    (au : Auras) (n : nat) :
  Hand.x hand = Fin hx -> Hand.y hand = Fin hy ->
  length (auraSprites au) = 2%nat -> length (smoothHands au) = 2%nat ->
  smoothHands au !! 0%nat = Some (Fin sx, Fin sy) ->
  smoothHands (Nat.iter n (update_auras (Fin w) (Fin h) [hand]) au) !! 0%nat
  = Some (Fin (hx * w + (8 / 10) ^ n * (sx - hx * w)),
          Fin (hy * h + (8 / 10) ^ n * (sy - hy * h))) /\
  exists s : Sprite.t,
    auraSprites (Nat.iter (Datatypes.S n) (update_auras (Fin w) (Fin h) [hand]) au)
      !! 0%nat = Some s /\
    Sprite.x s = Fin (hx * w + (8 / 10) ^ Datatypes.S n * (sx - hx * w)) /\
    Sprite.y s = Fin (hy * h + (8 / 10) ^ Datatypes.S n * (sy - hy * h)).
Proof.
  intros Hhx Hhy Hls Hlh Hs0.
  assert (Hstep : forall (a : Auras) (x y : R),
    length (auraSprites a) = 2%nat -> length (smoothHands a) = 2%nat ->
    smoothHands a !! 0%nat = Some (Fin x, Fin y) ->
    length (auraSprites (update_auras (Fin w) (Fin h) [hand] a)) = 2%nat /\
    length (smoothHands (update_auras (Fin w) (Fin h) [hand] a)) = 2%nat /\
    smoothHands (update_auras (Fin w) (Fin h) [hand] a) !! 0%nat
    = Some (Fin (hx * w + 8 / 10 * (x - hx * w)),
            Fin (hy * h + 8 / 10 * (y - hy * h))) /\
    exists s : Sprite.t,
      auraSprites (update_auras (Fin w) (Fin h) [hand] a) !! 0%nat = Some s /\
      Sprite.x s = Fin (hx * w + 8 / 10 * (x - hx * w)) /\
      Sprite.y s = Fin (hy * h + 8 / 10 * (y - hy * h))).
  { intros a x y Ha1 Ha2 Ha3.
    unfold update_auras. cbn [aura_each]. unfold aura_hand.
    cbn [Nat.leb smoothHands auraSprites]. rewrite Ha3, Hhx, Hhy.
    cbn [JS.mul]. rewrite !smooth_Fin. cbn [smoothHands auraSprites].
    rewrite !length_insert, length_fmap.
    split; [exact Ha1 |]. split; [exact Ha2 |].
    rewrite !list_lookup_insert_eq by (rewrite ?length_fmap; lia).
    split; [reflexivity |].
    eexists. split; [reflexivity |].
    destruct (Hand.gesture hand); split; reflexivity. }
  assert (Hn : forall m : nat,
    length (auraSprites (Nat.iter m (update_auras (Fin w) (Fin h) [hand]) au))
    = 2%nat /\
    length (smoothHands (Nat.iter m (update_auras (Fin w) (Fin h) [hand]) au))
    = 2%nat /\
    smoothHands (Nat.iter m (update_auras (Fin w) (Fin h) [hand]) au) !! 0%nat
    = Some (Fin (hx * w + (8 / 10) ^ m * (sx - hx * w)),
            Fin (hy * h + (8 / 10) ^ m * (sy - hy * h)))).
  { induction m as [| m (IH1 & IH2 & IH3)].
    - cbn [Nat.iter nat_rect]. split; [exact Hls |]. split; [exact Hlh |].
      rewrite Hs0. apply f_equal. apply f_equal2; apply f_equal;
        cbn [pow]; ring.
    - rewrite !Nat.iter_succ.
      destruct (Hstep _ _ _ IH1 IH2 IH3) as (H1 & H2 & H3 & _).
      split; [exact H1 |]. split; [exact H2 |].
      rewrite H3. apply f_equal. apply f_equal2; apply f_equal;
        cbn [pow]; field. }
  destruct (Hn n) as (H1 & H2 & H3). split; [exact H3 |].
  rewrite Nat.iter_succ.
  destruct (Hstep _ _ _ H1 H2 H3) as (_ & _ & _ & s & Hs & Hx & Hy).
  exists s. split; [exact Hs |].
  rewrite Hx, Hy. split; apply f_equal; cbn [pow]; field.
Qed.

(** What an update makes of the smoothed positions, the two entries and
    the first two hands spelled out. *)
Lemma update_auras_smooth (screenW screenH : num) (hands : list Hand.t)
    (sprites : list Sprite.t) (e0 e1 : num * num) :
  smoothHands (update_auras screenW screenH hands (mkAuras sprites [e0; e1]))
  = match hands with
    | [] => [e0; e1]
    | h0 :: rest =>
        (smooth (fst e0) (Hand.x h0 * screenW)%J,
         smooth (snd e0) (Hand.y h0 * screenH)%J)
        :: match rest with
           | [] => [e1]
           | h1 :: _ =>
               [(smooth (fst e1) (Hand.x h1 * screenW)%J,
                 smooth (snd e1) (Hand.y h1 * screenH)%J)]
           end
    end.
Proof.
  destruct e0 as [sx0 sy0], e1 as [sx1 sy1].
  destruct hands as [| h0 [| h1 rest]]; unfold update_auras;
    cbn [aura_each]; rewrite ?aura_each_ignored by lia; reflexivity.
Qed.

(** The smoothed position of an aura does not recover.  Once it is not
    a finite number, or as soon as the hand of its index is at a point
    that is not finite, it is not finite after the update, whatever the
    hands are: nothing in the update resets it. *)
Theorem aura_lost_for_good (screenW screenH : num) (hands : list Hand.t)
    (au : Auras) (k : nat) :
  length (smoothHands au) = 2%nat -> (k < 2)%nat ->
  isFinite (smooth_x au k) = false \/
  (exists hand : Hand.t,
     hands !! k = Some hand /\ isFinite (Hand.x hand * screenW)%J = false) ->
  isFinite (smooth_x (update_auras screenW screenH hands au) k) = false.
Proof.
  intros Hlen Hk H. destruct au as [sprites sm]. cbn [smoothHands] in Hlen.
  destruct sm as [| e0 [| e1 [| e2 sm]]]; try discriminate Hlen.
  unfold smooth_x in *. rewrite update_auras_smooth.
  cbn [smoothHands] in H.
  destruct k as [| [| k]]; [| | lia].
  - destruct hands as [| h0 rest].
    + destruct H as [H | (hand & Hh & _)]; [exact H | discriminate Hh].
    + cbn. apply smooth_not_finite.
      destruct H as [H | (hand & Hh & Hx)]; [left; exact H |].
      injection Hh as ->. now right.
  - destruct hands as [| h0 [| h1 rest]].
    + destruct H as [H | (hand & Hh & _)]; [exact H | discriminate Hh].
    + destruct H as [H | (hand & Hh & _)]; [exact H | discriminate Hh].
    + cbn. apply smooth_not_finite.
      destruct H as [H | (hand & Hh & Hx)]; [left; exact H |].
      injection Hh as ->. now right.
Qed.

Lemma aura_lost_for_good_witness :
  isFinite
    (smooth_x
       (update_auras (Fin 100) (Fin 100) [hand_palm]
          (mkAuras [] [(NaN, Fin 50); (Fin 50, Fin 50)])) 0)
  = false.
Proof.
  apply (aura_lost_for_good (Fin 100) (Fin 100) [hand_palm]
           (mkAuras [] [(NaN, Fin 50); (Fin 50, Fin 50)]) 0).
  - reflexivity.
  - lia.
  - left. reflexivity.
Defined.

Lemma aura_tracks_hand_witness :
  smoothHands
    (Nat.iter 2 (update_auras (Fin 100) (Fin 100) [hand_palm])
       (mkAuras [Sprite.mk (Fin 0) (Fin 0) (Fin 0) 16777215 (Fin 1);
                 Sprite.mk (Fin 0) (Fin 0) (Fin 0) 16777215 (Fin 1)]
                [(Fin 0, Fin 0); (Fin 50, Fin 50)])) !! 0%nat
  = Some (Fin (1 / 2 * 100 + (8 / 10) ^ 2 * (0 - 1 / 2 * 100)),
          Fin (1 / 2 * 100 + (8 / 10) ^ 2 * (0 - 1 / 2 * 100))) /\
  exists s : Sprite.t,
    auraSprites
      (Nat.iter 3 (update_auras (Fin 100) (Fin 100) [hand_palm])
         (mkAuras [Sprite.mk (Fin 0) (Fin 0) (Fin 0) 16777215 (Fin 1);
                   Sprite.mk (Fin 0) (Fin 0) (Fin 0) 16777215 (Fin 1)]
                  [(Fin 0, Fin 0); (Fin 50, Fin 50)])) !! 0%nat
    = Some s /\
    Sprite.x s = Fin (1 / 2 * 100 + (8 / 10) ^ 3 * (0 - 1 / 2 * 100)) /\
    Sprite.y s = Fin (1 / 2 * 100 + (8 / 10) ^ 3 * (0 - 1 / 2 * 100)).
Proof.
  apply (aura_tracks_hand 100 100 (1 / 2) (1 / 2) 0 0 hand_palm
           (mkAuras [Sprite.mk (Fin 0) (Fin 0) (Fin 0) 16777215 (Fin 1);
                     Sprite.mk (Fin 0) (Fin 0) (Fin 0) 16777215 (Fin 1)]
                    [(Fin 0, Fin 0); (Fin 50, Fin 50)]) 2);
    reflexivity.
Defined.

Lemma sample_frame_finite :
  finite_frame (mkFrame (Fin 24) (Fin 24) [hand_palm] rnd_half).
Proof.
  split; [reflexivity |]. split; [reflexivity |].
  split; [exact hand_palm_finite | intros k; reflexivity].
Qed.

(** ** The narrow phase over the grid *)

Section Scan.

Variable cfg : Setup.
Variables head next : list Z.
Variable M : Z -> list nat.
Hypothesis Hl : forall c, (0 <= c < gridW cfg * gridH cfg)%Z ->
                          linked next (rdI head c) (M c).

Lemma scan_members (i : nat) (cx cy : Z) (ds : list (Z * Z))
    (acc : P.t * list nat) :
  fst (fold_left (scan_cell cfg head next i cx cy) ds acc)
  = fold_left (fun q k => collide i (Z.of_nat k) q)
      (flat_map
         (fun d : Z * Z =>
            if in_grid cfg (cx + fst d) (cy + snd d)
            then firstn MAX_ITERATIONS
                   (M ((cy + snd d) * gridW cfg + (cx + fst d))%Z)
            else [])
         ds)
      (fst acc).
Proof.
  revert acc. induction ds as [| d ds IH]; intros acc.
  - reflexivity.
  - cbn [fold_left flat_map]. rewrite IH, fold_left_app. apply f_equal.
    unfold scan_cell. destruct (in_grid _ _ _) eqn:E; [| reflexivity].
    apply in_grid_range in E.
    now rewrite (walk_linked _ _ _ _ _ _ _ (Hl _ E)).
Qed.

End Scan.

(** The grid does what it is there for.  After Pass 1, the loop of
    Pass 2 for the particle [i] resolves [i], one after the other, against
    the particles Pass 1 filed under the nine cells around the cell of
    [i] that are in the grid: cell by cell in the order of the scan, in a
    cell the highest index first, and at most the first 50 of a cell. *)
Theorem pass2_body_resolves_neighbours (cfg : Setup) (screenW screenH : num)
    (hands : list Hand.t) (rnd : nat -> num) (st : State) (q : P.t)
    (i : nat) :
  wf_state cfg st ->
  fst (pass2_body cfg
         (gridHead (after_pass1 cfg screenW screenH hands rnd st))
         (nextParticle (after_pass1 cfg screenW screenH hands rnd st)) q i)
  = fold_left (fun q k => collide i (Z.of_nat k) q)
      (neighbours cfg
         (body_at (p (after_pass1 cfg screenW screenH hands rnd st)))
         (cell_of (rd (P.x q) i)) (cell_of (rd (P.y q) i)))
      q.
Proof.
  intros Hwf. unfold pass2_body, neighbours.
  apply (scan_members cfg _ _
           (members cfg
              (body_at (p (after_pass1 cfg screenW screenH hands rnd st)))
              (particleCount cfg))).
  intros c Hc. now apply after_pass1_grid.
Qed.

Lemma pass2_body_resolves_neighbours_witness :
  fst (pass2_body cfg_two
         (gridHead (after_pass1 cfg_two (Fin 24) (Fin 24) [] rnd_half st_wall))
         (nextParticle
            (after_pass1 cfg_two (Fin 24) (Fin 24) [] rnd_half st_wall))
         (p (after_pass1 cfg_two (Fin 24) (Fin 24) [] rnd_half st_wall)) 0)
  = fold_left (fun q k => collide 0 (Z.of_nat k) q)
      (neighbours cfg_two
         (body_at (p (after_pass1 cfg_two (Fin 24) (Fin 24) [] rnd_half
                        st_wall)))
         (cell_of
            (rd (P.x (p (after_pass1 cfg_two (Fin 24) (Fin 24) [] rnd_half
                           st_wall))) 0))
         (cell_of
            (rd (P.y (p (after_pass1 cfg_two (Fin 24) (Fin 24) [] rnd_half
                           st_wall))) 0)))
      (p (after_pass1 cfg_two (Fin 24) (Fin 24) [] rnd_half st_wall)).
Proof.
  apply (pass2_body_resolves_neighbours cfg_two (Fin 24) (Fin 24) []
           rnd_half st_wall).
  repeat split.
Defined.

(** A hand exactly on a particle pushes it nowhere: the guard
    [dist || 0.1] makes the direction [(0, 0)] instead of dividing by zero,
    so that the acceleration stays as it is, whatever the gesture, and the
    particle takes the velocity of the hand at full strength. *)
Theorem hand_on_particle (w h hx hy hvx hvy ax ay vx vy : R)
    (hand : Hand.t) :
  Hand.x hand = Fin hx -> Hand.y hand = Fin hy ->
  (Hand.velocity_x hand || Fin 0)%J = Fin hvx ->
  (Hand.velocity_y hand || Fin 0)%J = Fin hvy ->
  hand_interaction (Fin w) (Fin h) hand
    (Fin ax, Fin ay, B.mk (Fin (hx * w)) (Fin (hy * h)) (Fin vx) (Fin vy))
  = (Fin ax, Fin ay,
     B.mk (Fin (hx * w)) (Fin (hy * h))
          (Fin (vx + hvx * w * (4 / 100))) (Fin (vy + hvy * h * (4 / 100)))).
Proof.
  intros Hx Hy Hvx Hvy.
  rewrite (hand_interaction_near (Fin w) (Fin h) hand _ (hx * w) (hy * h)
             0 0 ax ay);
    [| reflexivity | reflexivity
     | rewrite Hx; cbn [JS.mul JS.sub JS.add JS.neg]; f_equal; lra
     | rewrite Hy; cbn [JS.mul JS.sub JS.add JS.neg]; f_equal; lra
     | lra].
  cbn [B.vx B.vy]. rewrite Hvx, Hvy.
  replace (0 * 0 + 0 * 0) with 0 by lra. rewrite sqrt_0.
  rewrite Reqb_true by reflexivity.
  cbn [JS.mul JS.add].
  replace (0 / (1 / 10)) with 0 by lra.
  replace (1 - 0 / 150) with 1 by lra.
  now rewrite !Rmult_0_l, !Rplus_0_r, !Rmult_1_r.
Qed.

Lemma hand_on_particle_witness :
  hand_interaction (Fin 100) (Fin 100) hand_palm
    (Fin 0, Fin 30,
     B.mk (Fin (1 / 2 * 100)) (Fin (1 / 2 * 100)) (Fin 0) (Fin 0))
  = (Fin 0, Fin 30,
     B.mk (Fin (1 / 2 * 100)) (Fin (1 / 2 * 100))
          (Fin (0 + 0 * 100 * (4 / 100))) (Fin (0 + 0 * 100 * (4 / 100)))).
Proof.
  apply (hand_on_particle 100 100 (1 / 2) (1 / 2) 0 0 0 30 0 0 hand_palm).
  - reflexivity.
  - reflexivity.
  - unfold hand_palm, JS.or_else, truthy. cbn [Hand.velocity_x].
    now rewrite Reqb_true by reflexivity.
  - unfold hand_palm, JS.or_else, truthy. cbn [Hand.velocity_y].
    now rewrite Reqb_true by reflexivity.
Defined.

(** ** Rounding to binary32 *)

Lemma bpow_pos e : 0 < bpow e.
Proof. apply powerRZ_lt; lra. Qed.

Lemma bpow_add a b : bpow (a + b) = bpow a * bpow b.
Proof. apply powerRZ_add; lra. Qed.

Lemma bpow_0 : bpow 0 = 1.
Proof. reflexivity. Qed.

Lemma bpow_cancel a : bpow a * bpow (- a) = 1.
Proof. rewrite <- bpow_add, Z.add_opp_diag_r. reflexivity. Qed.

Lemma bpow_cancel' a : bpow (- a) * bpow a = 1.
Proof. rewrite Rmult_comm. apply bpow_cancel. Qed.

Lemma bpow_IZR e : (0 <= e)%Z -> bpow e = IZR (2 ^ e).
Proof.
  intros He. destruct e as [|q|q]; [reflexivity | | lia].
  unfold bpow. change (2 ^ Z.pos q)%Z with (Z.pow_pos 2 q).
  now rewrite Zpower_pos_powerRZ.
Qed.

Lemma bpow_1 : bpow 1 = 2.
Proof. now rewrite bpow_IZR. Qed.

Lemma bpow_ge_1 e : (0 <= e)%Z -> 1 <= bpow e.
Proof.
  intros He. rewrite bpow_IZR by assumption. apply IZR_le.
  pose proof (Z.pow_pos_nonneg 2 e). lia.
Qed.

Lemma bpow_gt_1 e : (0 < e)%Z -> 1 < bpow e.
Proof.
  intros He. rewrite bpow_IZR by lia. apply IZR_lt.
  apply Z.pow_gt_1; lia.
Qed.

Lemma bpow_le a b : (a <= b)%Z -> bpow a <= bpow b.
Proof.
  intros H. replace b with (a + (b - a))%Z by lia. rewrite bpow_add.
  pose proof (bpow_pos a). pose proof (bpow_ge_1 (b - a) ltac:(lia)). nra.
Qed.

Lemma bpow_lt a b : (a < b)%Z -> bpow a < bpow b.
Proof.
  intros H. replace b with (a + (b - a))%Z by lia. rewrite bpow_add.
  pose proof (bpow_pos a). pose proof (bpow_gt_1 (b - a) ltac:(lia)). nra.
Qed.

Lemma bpow_lt_inv a b : bpow a < bpow b -> (a < b)%Z.
Proof.
  intros H. destruct (Z_lt_le_dec a b) as [|Hle]; [assumption|].
  apply bpow_le in Hle. lra.
Qed.

Lemma ln_2_pos : 0 < ln 2.
Proof. pose proof ln_lt_2. lra. Qed.

Lemma ln_bpow e : ln (bpow e) = IZR e * ln 2.
Proof. unfold bpow. rewrite powerRZ_Rpower by lra. apply ln_Rpower. Qed.

Lemma ln_le_mono x y : 0 < x -> x <= y -> ln x <= ln y.
Proof.
  intros Hx [H| ->]; [|lra]. left. now apply ln_increasing.
Qed.

(** [mag x] is the exponent of the binade of [x]. *)
Lemma mag_spec x : x <> 0 -> bpow (mag x) <= Rabs x < bpow (mag x + 1).
Proof.
  intros Hx. assert (Ha : 0 < Rabs x) by now apply Rabs_pos_lt.
  pose proof ln_2_pos as H2.
  destruct (Zfloor_bound (ln (Rabs x) / ln 2)) as [Hl Hu].
  fold (mag x) in Hl, Hu.
  assert (Hl' : IZR (mag x) * ln 2 <= ln (Rabs x)).
  { apply (Rmult_le_compat_r (ln 2)) in Hl; [|lra].
    replace (ln (Rabs x) / ln 2 * ln 2) with (ln (Rabs x)) in Hl by (field; lra).
    exact Hl. }
  assert (Hu' : ln (Rabs x) < IZR (mag x + 1) * ln 2).
  { rewrite plus_IZR. apply (Rmult_lt_compat_r (ln 2)) in Hu; [|lra].
    replace (ln (Rabs x) / ln 2 * ln 2) with (ln (Rabs x)) in Hu by (field; lra).
    exact Hu. }
  rewrite <- ln_bpow in Hl', Hu'. split.
  - destruct (Rle_lt_dec (bpow (mag x)) (Rabs x)) as [|Hc]; [assumption|].
    apply ln_increasing in Hc; [lra | assumption].
  - apply ln_lt_inv; [assumption | apply bpow_pos | assumption].
Qed.

Lemma mag_unique x e : bpow e <= Rabs x < bpow (e + 1) -> mag x = e.
Proof.
  intros [Hl Hu]. pose proof (bpow_pos e) as He.
  pose proof ln_2_pos as H2.
  assert (Ha : 0 < Rabs x) by lra.
  apply Zfloor_eq.
  apply ln_le_mono in Hl; [|assumption].
  apply ln_increasing in Hu; [|assumption].
  rewrite ln_bpow in Hl, Hu. rewrite plus_IZR in Hu. split.
  - apply (Rmult_le_reg_r (ln 2)); [lra|].
    replace (ln (Rabs x) / ln 2 * ln 2) with (ln (Rabs x)) by (field; lra).
    exact Hl.
  - apply (Rmult_lt_reg_r (ln 2)); [lra|].
    replace (ln (Rabs x) / ln 2 * ln 2) with (ln (Rabs x)) by (field; lra).
    lra.
Qed.

Lemma mag_le x y : x <> 0 -> Rabs x <= Rabs y -> (mag x <= mag y)%Z.
Proof.
  intros Hx Hxy. assert (Ha : 0 < Rabs x) by now apply Rabs_pos_lt.
  assert (Hy : y <> 0).
  { intros ->. rewrite Rabs_R0 in Hxy. lra. }
  destruct (mag_spec x Hx) as [Hl _]. destruct (mag_spec y Hy) as [_ Hu].
  assert (H : bpow (mag x) < bpow (mag y + 1)) by lra.
  apply bpow_lt_inv in H. lia.
Qed.

Lemma mag_opp x : mag (- x) = mag x.
Proof. unfold mag. now rewrite Rabs_Ropp. Qed.

Lemma mag_lt_bpow x e : x <> 0 -> Rabs x < bpow e -> (mag x < e)%Z.
Proof.
  intros Hx H. destruct (mag_spec x Hx) as [Hl _].
  apply bpow_lt_inv. lra.
Qed.

Lemma fexp_opp x : fexp (- x) = fexp x.
Proof. unfold fexp. now rewrite mag_opp. Qed.

(** *** Rounding to the nearest integer, ties to even *)

Lemma rne_cases x :
  let f := Zfloor x in
  (x - IZR f < 1 / 2 /\ rne x = f) \/
  (1 / 2 < x - IZR f /\ rne x = (f + 1)%Z) \/
  (x - IZR f = 1 / 2 /\ Z.even (rne x) = true /\
   (rne x = f \/ rne x = (f + 1)%Z)).
Proof.
  intros f. unfold rne. fold f.
  destruct (Rlt_dec (x - IZR f) (1 / 2)) as [H1|H1].
  - left. rewrite Rltb_true by assumption. now split.
  - rewrite Rltb_false by lra.
    destruct (Rlt_dec (1 / 2) (x - IZR f)) as [H2|H2].
    + right; left. rewrite Rltb_true by assumption. now split.
    + rewrite Rltb_false by lra. right; right. split; [lra|].
      destruct (Z.even f) eqn:Ef.
      * split; [assumption | now left].
      * split; [|now right].
        rewrite Z.add_1_r, Z.even_succ, <- Z.negb_even, Ef. reflexivity.
Qed.

Lemma rne_err x : Rabs (IZR (rne x) - x) <= 1 / 2.
Proof.
  destruct (Zfloor_bound x) as [Hl Hu].
  destruct (rne_cases x) as [[H ->]|[[H ->]|[H [_ [-> | ->]]]]];
    rewrite ?plus_IZR; apply Rabs_le; lra.
Qed.

Lemma rne_near x z : Rabs (x - IZR z) < 1 / 2 -> rne x = z.
Proof.
  intros H. apply Rabs_def2 in H. destruct H as [H1 H2].
  destruct (Zfloor_bound x) as [Hl Hu].
  set (f := Zfloor x) in *.
  assert (Hz : (z = f \/ z = f + 1)%Z).
  { assert (IZR z < IZR f + 3 / 2) by lra.
    assert (IZR f - 1 / 2 < IZR z) by lra.
    assert (z < f + 2)%Z.
    { apply lt_IZR. rewrite plus_IZR. lra. }
    assert (f - 1 < z)%Z.
    { apply lt_IZR. rewrite minus_IZR. lra. }
    lia. }
  destruct (rne_cases x) as [[H ->]|[[H ->]|[H _]]]; fold f in H |- *.
  - destruct Hz as [-> | ->]; [reflexivity|]. rewrite plus_IZR in *. lra.
  - destruct Hz as [-> | ->]; [|reflexivity]. lra.
  - destruct Hz as [-> | ->]; rewrite ?plus_IZR in *; lra.
Qed.

Lemma rne_IZR z : rne (IZR z) = z.
Proof.
  apply rne_near. replace (IZR z - IZR z) with 0 by lra.
  rewrite Rabs_R0. lra.
Qed.

Lemma rne_mono x y : x <= y -> (rne x <= rne y)%Z.
Proof.
  intros Hxy.
  destruct (Req_dec x y) as [-> | Hne]; [lia|].
  pose proof (Zfloor_le x y Hxy) as Hf.
  destruct (Zfloor_bound x) as [Hxl Hxu].
  destruct (Zfloor_bound y) as [Hyl Hyu].
  assert (Hx : (Zfloor x <= rne x <= Zfloor x + 1)%Z).
  { destruct (rne_cases x) as [[_ ->]|[[_ ->]|[_ [_ [-> | ->]]]]]; lia. }
  assert (Hy : (Zfloor y <= rne y <= Zfloor y + 1)%Z).
  { destruct (rne_cases y) as [[_ ->]|[[_ ->]|[_ [_ [-> | ->]]]]]; lia. }
  destruct (Z.eq_dec (Zfloor x) (Zfloor y)) as [E|E]; [|lia].
  destruct (rne_cases x) as [[Hx1 Hx2]|[[Hx1 Hx2]|[Hx1 _]]];
  destruct (rne_cases y) as [[Hy1 Hy2]|[[Hy1 Hy2]|[Hy1 _]]];
    rewrite <- ?E in *; try lia; lra.
Qed.

Lemma Zfloor_opp_frac x : IZR (Zfloor x) < x -> Zfloor (- x) = (- Zfloor x - 1)%Z.
Proof.
  intros H. destruct (Zfloor_bound x) as [Hl Hu].
  apply Zfloor_eq. rewrite minus_IZR, opp_IZR. lra.
Qed.

Lemma rne_opp x : rne (- x) = (- rne x)%Z.
Proof.
  destruct (Zfloor_bound x) as [Hl Hu].
  destruct (Req_dec (IZR (Zfloor x)) x) as [E|E].
  - rewrite <- E, <- opp_IZR, !rne_IZR. reflexivity.
  - assert (Hlt : IZR (Zfloor x) < x) by lra.
    pose proof (Zfloor_opp_frac x Hlt) as Ef.
    destruct (rne_cases x) as [[H1 H2]|[[H1 H2]|[H1 [H2 H3]]]];
    destruct (rne_cases (- x)) as [[G1 G2]|[[G1 G2]|[G1 [G2 G3]]]];
      rewrite Ef in *; rewrite ?minus_IZR, ?opp_IZR in *; try lra; try lia.
    destruct H3 as [H3|H3], G3 as [G3|G3]; try lia.
    + rewrite H3 in H2. rewrite G3 in G2.
      replace (- Zfloor x - 1)%Z with (- (Zfloor x + 1))%Z in G2 by lia.
      rewrite Z.even_opp, Z.add_1_r, Z.even_succ, <- Z.negb_even, H2 in G2.
      discriminate.
    + rewrite H3 in H2. rewrite G3 in G2.
      replace (- Zfloor x - 1 + 1)%Z with (- Zfloor x)%Z in G2 by lia.
      rewrite Z.even_opp in G2.
      rewrite Z.add_1_r, Z.even_succ, <- Z.negb_even, G2 in H2.
      discriminate.
Qed.

(** *** The rounding of a store *)

Lemma round32_0 : round32 0 = 0.
Proof.
  unfold round32. rewrite Rmult_0_l.
  change 0 with (IZR 0) at 1. rewrite rne_IZR. lra.
Qed.

Lemma round32_opp x : round32 (- x) = - round32 x.
Proof.
  unfold round32. rewrite fexp_opp.
  replace (- x * bpow (- fexp x)) with (- (x * bpow (- fexp x))) by lra.
  rewrite rne_opp, opp_IZR. lra.
Qed.

Lemma fexp_normal x e :
  bpow e <= Rabs x < bpow (e + 1) -> (-126 <= e)%Z -> fexp x = (e - 23)%Z.
Proof. intros H He. unfold fexp. rewrite (mag_unique x e H). lia. Qed.

(** How a value is rounded, from its binade and its nearest multiple of the
    spacing there. *)
Lemma round32_eq x e z :
  bpow e <= Rabs x < bpow (e + 1) -> (-126 <= e)%Z ->
  Rabs (x * bpow (23 - e) - IZR z) < 1 / 2 ->
  round32 x = IZR z * bpow (e - 23).
Proof.
  intros H He Hz. unfold round32. rewrite (fexp_normal x e H He).
  replace (- (e - 23))%Z with (23 - e)%Z by lia.
  now rewrite (rne_near _ z Hz).
Qed.

Lemma round32_scaled x k :
  (fexp x <= k)%Z -> forall m, x = IZR m * bpow k -> round32 x = x.
Proof.
  intros Hk m Hx. unfold round32.
  set (f := fexp x) in *. clearbody f.
  assert (E : x * bpow (- f) = IZR (m * 2 ^ (k - f))).
  { rewrite mult_IZR, <- bpow_IZR by lia. rewrite Hx.
    replace (k - f)%Z with (k + - f)%Z by lia.
    rewrite bpow_add. ring. }
  rewrite E, rne_IZR, <- E.
  rewrite Rmult_assoc, bpow_cancel'. lra.
Qed.

(** Values with a significand of 24 bits and an exponent in range are
    float32 values: a store leaves them as they are. *)
Lemma round32_exact m k :
  (Z.abs m < 2 ^ 24)%Z -> (-149 <= k)%Z ->
  round32 (IZR m * bpow k) = IZR m * bpow k.
Proof.
  intros Hm Hk. destruct (Z.eq_dec m 0%Z) as [-> | Hm0].
  - rewrite Rmult_0_l. apply round32_0.
  - apply (round32_scaled _ k) with (m := m); [|reflexivity].
    unfold fexp. apply Z.max_lub; [|assumption].
    assert (Hx : IZR m * bpow k <> 0).
    { pose proof (bpow_pos k). apply Rmult_integral_contrapositive_currified.
      - now apply not_0_IZR.
      - lra. }
    assert (Rabs (IZR m * bpow k) < bpow (k + 24)).
    { rewrite Rabs_mult, (Rabs_pos_eq (bpow k)) by (left; apply bpow_pos).
      rewrite Z.add_comm, bpow_add, (bpow_IZR 24) by lia.
      apply Rmult_lt_compat_r; [apply bpow_pos|].
      rewrite <- abs_IZR. now apply IZR_lt. }
    pose proof (mag_lt_bpow _ _ Hx H). lia.
Qed.

Lemma round32_nonneg x : 0 <= x -> 0 <= round32 x.
Proof.
  intros Hx. unfold round32. pose proof (bpow_pos (fexp x)) as Hu.
  pose proof (bpow_pos (- fexp x)) as Hs.
  assert (0 <= x * bpow (- fexp x)) as H by nra.
  apply rne_mono in H. change 0 with (IZR 0) in H at 1.
  rewrite rne_IZR in H. apply IZR_le in H. nra.
Qed.

Lemma round32_nonpos x : x <= 0 -> round32 x <= 0.
Proof.
  intros Hx. pose proof (round32_nonneg (- x) ltac:(lra)) as H.
  rewrite round32_opp in H. lra.
Qed.

Lemma fexp_le x y : x <> 0 -> Rabs x <= Rabs y -> (fexp x <= fexp y)%Z.
Proof. intros Hx H. unfold fexp. pose proof (mag_le x y Hx H). lia. Qed.

Lemma round32_mono_pos x y : 0 < x -> x <= y -> round32 x <= round32 y.
Proof.
  intros Hx Hxy.
  assert (Hx0 : x <> 0) by lra. assert (Hy0 : y <> 0) by lra.
  assert (Hax : Rabs x = x) by (apply Rabs_pos_eq; lra).
  assert (Hay : Rabs y = y) by (apply Rabs_pos_eq; lra).
  pose proof (fexp_le x y Hx0 ltac:(lra)) as Hf.
  destruct (Z.eq_dec (fexp x) (fexp y)) as [E|E].
  - unfold round32. rewrite <- E.
    pose proof (bpow_pos (fexp x)). pose proof (bpow_pos (- fexp x)).
    assert (x * bpow (- fexp x) <= y * bpow (- fexp x)) as H1 by nra.
    apply rne_mono, IZR_le in H1. nra.
  - destruct (mag_spec x Hx0) as [_ Hxu]. destruct (mag_spec y Hy0) as [Hyl _].
    rewrite Hax in Hxu. rewrite Hay in Hyl.
    assert (Hey : fexp y = (mag y - 23)%Z) by (unfold fexp in *; lia).
    assert (Hm : (mag x + 1 <= mag y)%Z) by (unfold fexp in *; lia).
    pose proof (bpow_le _ _ Hm) as Hb.
    apply Rle_trans with (bpow (mag y)).
    + unfold round32.
      pose proof (bpow_pos (fexp x)). pose proof (bpow_pos (- fexp x)).
      assert (x * bpow (- fexp x) <= IZR (2 ^ (mag y - fexp x))) as H1.
      { rewrite <- bpow_IZR by lia.
        replace (mag y - fexp x)%Z with (mag y + - fexp x)%Z by lia.
        rewrite bpow_add. nra. }
      apply rne_mono in H1. rewrite rne_IZR in H1. apply IZR_le in H1.
      rewrite <- bpow_IZR in H1 by lia.
      apply Rle_trans with (bpow (mag y - fexp x) * bpow (fexp x)); [nra|].
      rewrite <- bpow_add. right. f_equal. lia.
    + unfold round32. rewrite Hey.
      pose proof (bpow_pos (mag y - 23)). pose proof (bpow_pos (- (mag y - 23))).
      assert (IZR (2 ^ 23) <= y * bpow (- (mag y - 23))) as H1.
      { rewrite <- bpow_IZR by lia.
        replace 23%Z with (mag y + - (mag y - 23))%Z at 1 by lia.
        rewrite bpow_add. nra. }
      apply rne_mono in H1. rewrite rne_IZR in H1. apply IZR_le in H1.
      rewrite <- bpow_IZR in H1 by lia.
      apply Rle_trans with (bpow 23 * bpow (mag y - 23)); [|nra].
      rewrite <- bpow_add. right. f_equal. lia.
Qed.

(** A store is monotone. *)
Lemma round32_mono x y : x <= y -> round32 x <= round32 y.
Proof.
  intros Hxy. destruct (Rlt_le_dec 0 x) as [Hx|Hx].
  - now apply round32_mono_pos.
  - destruct (Rlt_le_dec y 0) as [Hy|Hy].
    + pose proof (round32_mono_pos (- y) (- x) ltac:(lra) ltac:(lra)) as H.
      rewrite !round32_opp in H. lra.
    + pose proof (round32_nonpos x Hx). pose proof (round32_nonneg y Hy). lra.
Qed.

Lemma round32_repr x :
  exists m k, (Z.abs m < 2 ^ 24)%Z /\ (-149 <= k)%Z /\
              round32 x = IZR m * bpow k.
Proof.
  destruct (Req_dec x 0) as [-> | Hx].
  { exists 0%Z, 0%Z. rewrite round32_0.
    split; [reflexivity | split; [lia | lra]]. }
  set (f := fexp x). set (z := rne (x * bpow (- f))).
  assert (Hf : (-149 <= f)%Z) by (unfold f, fexp; lia).
  assert (Hs : Rabs (x * bpow (- f)) < IZR (2 ^ 24)).
  { rewrite Rabs_mult, (Rabs_pos_eq (bpow (- f))) by (left; apply bpow_pos).
    destruct (mag_spec x Hx) as [_ Hu].
    pose proof (bpow_pos (- f)).
    apply Rlt_le_trans with (bpow (mag x + 1) * bpow (- f)); [nra|].
    rewrite <- bpow_add, <- bpow_IZR by lia. apply bpow_le.
    unfold f, fexp. lia. }
  apply Rabs_def2 in Hs. destruct Hs as [Hs1 Hs2].
  assert (Hz : (- 2 ^ 24 <= z <= 2 ^ 24)%Z).
  { split.
    - rewrite <- (rne_IZR (- 2 ^ 24)). apply rne_mono.
      rewrite opp_IZR. lra.
    - rewrite <- (rne_IZR (2 ^ 24)). apply rne_mono. lra. }
  destruct (Z.eq_dec (Z.abs z) (2 ^ 24)%Z) as [E|E].
  - exists (z / 2)%Z, (f + 1)%Z. split; [|split; [lia|]].
    + assert (z = 2 ^ 24 \/ z = - 2 ^ 24)%Z as [-> | ->] by lia; reflexivity.
    + unfold round32. fold f z. rewrite bpow_add.
      rewrite bpow_1.
      assert (z = 2 ^ 24 \/ z = - 2 ^ 24)%Z as [-> | ->] by lia.
      * change (2 ^ 24 / 2)%Z with (2 ^ 23)%Z.
        change (2 ^ 24)%Z with (2 * 2 ^ 23)%Z. rewrite mult_IZR. ring.
      * change (- 2 ^ 24 / 2)%Z with (- 2 ^ 23)%Z.
        change (- 2 ^ 24)%Z with (2 * - 2 ^ 23)%Z. rewrite mult_IZR. ring.
  - exists z, f. split; [lia|]. split; [assumption | reflexivity].
Qed.

(** What a store has written is left as it is by another store. *)
Lemma round32_idem x : round32 (round32 x) = round32 x.
Proof.
  destruct (round32_repr x) as (m & k & Hm & Hk & ->).
  now apply round32_exact.
Qed.

Lemma round32_err x : Rabs (round32 x - x) <= bpow (fexp x) / 2.
Proof.
  unfold round32. set (f := fexp x). pose proof (bpow_pos f) as Hu.
  pose proof (rne_err (x * bpow (- f))) as H.
  replace (IZR (rne (x * bpow (- f))) * bpow f - x)
    with ((IZR (rne (x * bpow (- f))) - x * bpow (- f)) * bpow f).
  2:{ rewrite Rmult_minus_distr_r, Rmult_assoc, bpow_cancel'. ring. }
  rewrite Rabs_mult, (Rabs_pos_eq (bpow f)) by lra. nra.
Qed.

(** The error of a store: half a unit in the last place. *)
Lemma round32_error x :
  Rabs (round32 x - x) <= bpow (-24) * Rabs x + bpow (-150).
Proof.
  destruct (Req_dec x 0) as [-> | Hx].
  { rewrite round32_0, Rminus_diag, Rabs_R0.
    pose proof (bpow_pos (-24)). pose proof (bpow_pos (-150)). lra. }
  pose proof (round32_err x) as H.
  destruct (mag_spec x Hx) as [Hl _].
  pose proof (bpow_pos (-24)) as H24. pose proof (bpow_pos (-150)) as H150.
  assert (Ha : 0 < Rabs x) by now apply Rabs_pos_lt.
  assert (Hb : bpow (fexp x) / 2 <= bpow (-24) * Rabs x + bpow (-150)).
  { unfold fexp. destruct (Z.max_spec (mag x - 23) (-149)) as [[_ ->]|[_ ->]].
    - replace (-149)%Z with (-150 + 1)%Z by lia. rewrite bpow_add.
      rewrite bpow_1. nra.
    - replace (mag x - 23)%Z with (-24 + 1 + mag x)%Z by lia.
      rewrite !bpow_add. rewrite bpow_1. nra. }
  lra.
Qed.

(** Evaluation on numerals: [d = 2 ^ s] scales [x] into the 24-bit
    integers, and [z] is the integer nearest to it there. *)
Lemma round32_near x z s d :
  (0 <= s <= 149)%Z -> d = (2 ^ s)%Z ->
  8388608 <= Rabs x * IZR d < 16777216 ->
  Rabs (x * IZR d - IZR z) < 1 / 2 ->
  round32 x = IZR z / IZR d.
Proof.
  intros Hs -> Hb Hz. rewrite <- bpow_IZR in * by lia.
  pose proof (bpow_pos s) as Hps.
  assert (Hbin : bpow (23 - s) <= Rabs x < bpow (23 - s + 1)).
  { replace (23 - s + 1)%Z with (24 + - s)%Z by lia.
    replace (23 - s)%Z with (23 + - s)%Z by lia.
    rewrite !bpow_add, (bpow_IZR 23), (bpow_IZR 24) by lia.
    change (IZR (2 ^ 23)) with 8388608. change (IZR (2 ^ 24)) with 16777216.
    pose proof (bpow_cancel s) as Hc. pose proof (bpow_pos (- s)) as Hn.
    split.
    - replace (Rabs x) with (Rabs x * bpow s * bpow (- s))
        by (rewrite Rmult_assoc, Hc; ring).
      apply Rmult_le_compat_r; lra.
    - replace (Rabs x) with (Rabs x * bpow s * bpow (- s))
        by (rewrite Rmult_assoc, Hc; ring).
      apply Rmult_lt_compat_r; lra. }
  rewrite (round32_eq x (23 - s) z Hbin ltac:(lia)).
  - replace (23 - s - 23)%Z with (- s)%Z by lia.
    unfold Rdiv. f_equal. apply Rmult_eq_reg_l with (bpow s); [|lra].
    rewrite bpow_cancel. field. lra.
  - replace (23 - (23 - s))%Z with s by lia. exact Hz.
Qed.

(** Dyadic numerals with at most 24 significant bits are float32 values. *)
Lemma round32_dyadic x m s d :
  (0 <= s <= 149)%Z -> d = (2 ^ s)%Z -> (Z.abs m < 2 ^ 24)%Z ->
  x * IZR d = IZR m -> round32 x = x.
Proof.
  intros Hs -> Hm Hx. rewrite <- bpow_IZR in Hx by lia.
  assert (E : x = IZR m * bpow (- s)).
  { rewrite <- Hx, Rmult_assoc, bpow_cancel. ring. }
  rewrite E. apply round32_exact; [assumption | lia].
Qed.

(** ** Stores on numbers *)

Lemma fround_isFinite (a : num) : isFinite (fround a) = isFinite a.
Proof. now destruct a. Qed.

Lemma fround_idem (a : num) : fround (fround a) = fround a.
Proof. destruct a; cbn [fround]; try reflexivity. now rewrite round32_idem. Qed.

Lemma stored_Fin (r : R) : stored (Fin r) <-> round32 r = r.
Proof.
  unfold stored. cbn [fround]. split; [now intros [= ->] | now intros ->].
Qed.

Lemma round32_int (m : Z) : (Z.abs m < 2 ^ 24)%Z -> round32 (IZR m) = IZR m.
Proof.
  intros H. apply (round32_dyadic _ m 0 1); [lia | reflexivity | exact H | lra].
Qed.

Lemma round32_250 : round32 250 = 250.
Proof. now apply round32_int. Qed.

Lemma round32_m250 : round32 (- (250)) = - (250).
Proof. rewrite round32_opp, round32_250. reflexivity. Qed.

(** The bound of a value carries over to what is stored, as long as the
    bound is itself a binary32 value. *)
Lemma round32_le (x b : R) : round32 b = b -> x <= b -> round32 x <= b.
Proof. intros Hb H. rewrite <- Hb. now apply round32_mono. Qed.

Lemma round32_ge (x b : R) : round32 b = b -> b <= x -> b <= round32 x.
Proof. intros Hb H. rewrite <- Hb. now apply round32_mono. Qed.

(** ** Pass 1 on [Float32Array]s, as a loop *)

Section Pass1F32.

Variable cfg : Setup.
Variables screenW screenH : num.
Variable hands : list Hand.t.
Variable rnd : nat -> num.

Local Abbreviation body := (F32.pass1_body cfg screenW screenH hands rnd).
Local Abbreviation slots := (F32.pass1_slots screenW screenH hands rnd).
Local Abbreviation upto k st := (fold_left body (seq 0 k) st).

Lemma f32_upto_S (k : nat) (st : State) : upto (S k) st = body (upto k st) k.
Proof. rewrite seq_S, fold_left_app. reflexivity. Qed.

Lemma f32_pass1_body_p (st : State) (i : nat) :
  p (body st i) = store_body (p st) i (slots (p st) i).
Proof. unfold F32.pass1_body. now rewrite grid_insert_p. Qed.

Lemma f32_pass1_body_wf (st : State) (i : nat) :
  wf_state cfg st -> wf_state cfg (body st i).
Proof.
  unfold wf_state. intros (Hx & Hy & Hvx & Hvy & Hr & Hh & Hn).
  rewrite f32_pass1_body_p. unfold store_body. cbn [P.x P.y P.vx P.vy P.radius].
  rewrite !length_insert. repeat split; try assumption.
  - unfold F32.pass1_body, grid_insert. destruct (in_grid _ _ _); cbn [gridHead];
      now rewrite ?length_insert.
  - unfold F32.pass1_body, grid_insert. destruct (in_grid _ _ _);
      cbn [nextParticle]; now rewrite ?length_insert.
Qed.

Lemma f32_upto_wf (k : nat) (st : State) :
  wf_state cfg st -> wf_state cfg (upto k st).
Proof.
  intros H. induction k as [| k IH]; [exact H |].
  rewrite f32_upto_S. now apply f32_pass1_body_wf.
Qed.

Lemma f32_upto_radius (k : nat) (st : State) :
  P.radius (p (upto k st)) = P.radius (p st).
Proof.
  induction k as [| k IH]; [reflexivity |].
  rewrite f32_upto_S, f32_pass1_body_p. exact IH.
Qed.

Lemma f32_upto_slots (k : nat) (st : State) :
  wf_state cfg st -> (k <= particleCount cfg)%nat ->
  forall i : nat,
    body_at (p (upto k st)) i =
    if (i <? k)%nat then slots (p st) i else body_at (p st) i.
Proof.
  intros Hwf. induction k as [| k IH]; intros Hk i.
  - reflexivity.
  - rewrite f32_upto_S, f32_pass1_body_p.
    pose proof (f32_upto_wf k st Hwf) as (Hx & Hy & Hvx & Hvy & _).
    destruct (Nat.eq_dec k i) as [-> | Hne].
    + rewrite body_at_store_eq by lia.
      destruct (Nat.ltb_spec i (S i)); [| lia].
      unfold F32.pass1_slots. rewrite f32_upto_radius.
      rewrite (IH ltac:(lia) i).
      destruct (Nat.ltb_spec i i); [lia | reflexivity].
    + rewrite body_at_store_ne by assumption.
      rewrite (IH ltac:(lia) i).
      destruct (Nat.ltb_spec i k), (Nat.ltb_spec i (S k)); try lia; reflexivity.
Qed.

Variable st : State.
Hypothesis Hwf : wf_state cfg st.

Local Abbreviation st1 := (F32.after_pass1 cfg screenW screenH hands rnd st).

Lemma f32_after_pass1_wf : wf_state cfg st1.
Proof. apply f32_upto_wf, clear_grid_wf, Hwf. Qed.

Lemma f32_after_pass1_radius : P.radius (p st1) = P.radius (p st).
Proof. unfold F32.after_pass1, F32.pass1. now rewrite f32_upto_radius. Qed.

Lemma f32_after_pass1_slots (i : nat) :
  (i < particleCount cfg)%nat ->
  body_at (p st1) i = F32.pass1_slots screenW screenH hands rnd (p st) i.
Proof.
  intros Hi. unfold F32.after_pass1, F32.pass1.
  rewrite f32_upto_slots by (apply clear_grid_wf, Hwf || lia).
  destruct (Nat.ltb_spec i (particleCount cfg)); [reflexivity | lia].
Qed.

End Pass1F32.

(** ** Pass 1 on [Float32Array]s, on finite slots *)

(** The hand interaction differs from the one on exact numbers by the
    two stores of the velocity. *)
Lemma f32_hand_interaction_exact (screenW screenH : num) (hand : Hand.t)
    (ax ay : num) (b : B.t) :
  F32.hand_interaction screenW screenH hand (ax, ay, b) =
  let '(ax', ay', b') := hand_interaction screenW screenH hand (ax, ay, b) in
  let dx := (B.x b - Hand.x hand * screenW)%J in
  let dy := (B.y b - Hand.y hand * screenH)%J in
  if (dx * dx + dy * dy <? HAND_RADIUS_SQ)%J
  then (ax', ay', B.mk (B.x b') (B.y b') (fround (B.vx b')) (fround (B.vy b')))
  else (ax', ay', b').
Proof.
  unfold F32.hand_interaction, hand_interaction.
  destruct (_ <? HAND_RADIUS_SQ)%J; reflexivity.
Qed.

Lemma f32_hand_interaction_finite (w h : R) (hand : Hand.t)
    (ax ay px py vx vy : R) :
  finite_hand hand ->
  exists ax' ay' vx' vy' : R,
    F32.hand_interaction (Fin w) (Fin h) hand
      (Fin ax, Fin ay, B.mk (Fin px) (Fin py) (Fin vx) (Fin vy))
    = (Fin ax', Fin ay', B.mk (Fin px) (Fin py) (Fin vx') (Fin vy')).
Proof.
  intros Hh. rewrite f32_hand_interaction_exact.
  destruct (hand_interaction_finite w h hand ax ay px py vx vy Hh)
    as (ax' & ay' & vx' & vy' & ->).
  cbn [B.x B.y B.vx B.vy fround].
  destruct (_ <? HAND_RADIUS_SQ)%J; do 4 eexists; reflexivity.
Qed.

Lemma f32_hand_loop_finite (w h : R) (hands : list Hand.t) :
  Forall finite_hand hands ->
  forall ax ay px py vx vy : R,
  exists ax' ay' vx' vy' : R,
    F32.hand_loop (Fin w) (Fin h) hands
      (Fin ax, Fin ay, B.mk (Fin px) (Fin py) (Fin vx) (Fin vy))
    = (Fin ax', Fin ay', B.mk (Fin px) (Fin py) (Fin vx') (Fin vy')).
Proof.
  induction 1 as [| hand hands Hh Hhs IH]; intros ax ay px py vx vy.
  - exists ax, ay, vx, vy. reflexivity.
  - unfold F32.hand_loop. cbn [fold_left].
    destruct (f32_hand_interaction_finite w h hand ax ay px py vx vy Hh)
      as (ax1 & ay1 & vx1 & vy1 & ->).
    apply IH.
Qed.

Lemma f32_clamp_vel_Fin (v : R) :
  round32 v = v ->
  exists v' : R,
    F32.clamp_vel (Fin v) = Fin v' /\ - 250 <= v' <= 250 /\ round32 v' = v'.
Proof.
  intros Hs. unfold F32.clamp_vel, MAX_VEL, JS.gt. cbn [JS.lt JS.neg fround].
  rewrite round32_m250, round32_250.
  destruct (Rlt_le_dec 250 v) as [H1 | H1].
  - rewrite Rltb_true by assumption. exists 250.
    split; [reflexivity | split; [lra | apply round32_250]].
  - rewrite Rltb_false by assumption.
    destruct (Rlt_le_dec v (- 250)) as [H2 | H2].
    + rewrite Rltb_true by assumption. exists (- 250).
      split; [reflexivity | split; [lra | apply round32_m250]].
    + rewrite Rltb_false by assumption. exists v.
      split; [reflexivity | split; [lra | exact Hs]].
Qed.

(** A velocity within [MAX_VEL] stays so when a bounce scales it and
    stores it. *)
Lemma round32_bounce (v bounce : R) :
  - 250 <= v <= 250 -> 0 <= bounce <= 1 ->
  - 250 <= round32 (v * - bounce) <= 250.
Proof.
  intros Hv Hb. split.
  - apply round32_ge; [apply round32_m250 | nra].
  - apply round32_le; [apply round32_250 | nra].
Qed.

(** One axis of the boundary resolution: [lo] is the radius, [hi] the
    screen dimension, [bounce] the restitution of the upper side. *)
Lemma f32_boundary_axis (hi lo c v bounce : R) :
  - 250 <= v <= 250 -> 0 <= bounce <= 1 ->
  round32 c = c -> round32 v = v ->
  exists c' v' : R,
    (if (Fin c >? Fin hi - Fin lo)%J
     then (fround (Fin hi - Fin lo), fround (Fin v * - Fin bounce))
     else if (Fin c <? Fin lo)%J
          then (fround (Fin lo), fround (Fin v * - Fin (3 / 10)))
          else (Fin c, Fin v))
    = (Fin c', Fin v') /\
    - 250 <= v' <= 250 /\ round32 c' = c' /\ round32 v' = v' /\
    (round32 lo = lo -> 2 * lo <= hi -> lo <= c' <= round32 (hi - lo)).
Proof.
  intros Hv Hb Hc Hsv. unfold JS.gt.
  cbn [JS.lt JS.sub JS.add JS.neg JS.mul fround].
  replace (hi + - lo) with (hi - lo) by lra.
  destruct (Rlt_le_dec (hi - lo) c) as [H1 | H1].
  - rewrite Rltb_true by assumption. do 2 eexists.
    split; [reflexivity |].
    split; [now apply round32_bounce |].
    split; [apply round32_idem |]. split; [apply round32_idem |].
    intros Hlo Hd. split; [apply round32_ge; [assumption | lra] | lra].
  - rewrite Rltb_false by assumption.
    destruct (Rlt_le_dec c lo) as [H2 | H2].
    + rewrite Rltb_true by assumption. do 2 eexists.
      split; [reflexivity |].
      split; [apply round32_bounce; [assumption | lra] |].
      split; [apply round32_idem |]. split; [apply round32_idem |].
      intros Hlo Hd. rewrite Hlo.
      split; [lra | apply round32_ge; [assumption | lra]].
    + rewrite Rltb_false by assumption. do 2 eexists.
      split; [reflexivity |].
      split; [assumption |]. split; [assumption |]. split; [assumption |].
      intros Hlo Hd. split; [assumption |].
      rewrite <- Hc. now apply round32_mono.
Qed.

Lemma f32_advance_finite (w h rr : R) (hands : list Hand.t)
    (px py vx vy : R) :
  Forall finite_hand hands ->
  exists x y vx' vy' : R,
    F32.advance (Fin w) (Fin h) hands (Fin rr)
            (B.mk (Fin px) (Fin py) (Fin vx) (Fin vy))
    = B.mk (Fin x) (Fin y) (Fin vx') (Fin vy') /\
    - 250 <= vx' <= 250 /\ - 250 <= vy' <= 250 /\
    (round32 x = x /\ round32 y = y /\ round32 vx' = vx' /\ round32 vy' = vy') /\
    (round32 rr = rr -> 2 * rr <= w -> rr <= x <= round32 (w - rr)) /\
    (round32 rr = rr -> 2 * rr <= h -> rr <= y <= round32 (h - rr)).
Proof.
  intros Hh. unfold F32.advance.
  destruct (f32_hand_loop_finite w h hands Hh 0 30 px py vx vy)
    as (ax & ay & vx1 & vy1 & Hl).
  unfold GRAVITY. rewrite Hl.
  unfold F32.integrate, F32.max_velocity, F32.move. cbn [B.x B.y B.vx B.vy].
  rewrite dt_Fin. unfold FRICTION_AIR. cbn [JS.mul JS.add fround].
  destruct (f32_clamp_vel_Fin
              (round32 (round32 (vx1 + ax * (1 / 60)) * (98 / 100)))
              (round32_idem _))
    as (cvx & -> & Hcvx & Hsvx).
  destruct (f32_clamp_vel_Fin
              (round32 (round32 (vy1 + ay * (1 / 60)) * (98 / 100)))
              (round32_idem _))
    as (cvy & -> & Hcvy & Hsvy).
  cbn [JS.mul JS.add fround].
  unfold F32.boundaries, BOUNCE_GROUND, BOUNCE_WALL. cbn [B.x B.y B.vx B.vy].
  destruct (f32_boundary_axis h rr (round32 (py + cvy * (1 / 60) * 5)) cvy
              (3 / 10))
    as (y' & vy' & -> & Hvy' & Hsy & Hsvy' & Hy');
    [assumption | lra | apply round32_idem | assumption |].
  destruct (f32_boundary_axis w rr (round32 (px + cvx * (1 / 60) * 5)) cvx
              (3 / 10))
    as (x' & vx' & -> & Hvx' & Hsx & Hsvx' & Hx');
    [assumption | lra | apply round32_idem | assumption |].
  exists x', y', vx', vy'. repeat split; tauto.
Qed.

(** What Pass 1 leaves for a particle whose slots are finite. *)
Lemma f32_pass1_slots_finite (w h rr : R) (hands : list Hand.t)
    (rnd : nat -> num) (q : P.t) (i : nat) :
  Forall finite_hand hands ->
  finite_body (body_at q i) -> rd (P.radius q) i = Fin rr ->
  exists x y vx vy : R,
    F32.pass1_slots (Fin w) (Fin h) hands rnd q i
    = B.mk (Fin x) (Fin y) (Fin vx) (Fin vy) /\
    - 250 <= vx <= 250 /\ - 250 <= vy <= 250 /\
    (round32 x = x /\ round32 y = y /\ round32 vx = vx /\ round32 vy = vy) /\
    (round32 rr = rr -> 2 * rr <= w -> rr <= x <= round32 (w - rr)) /\
    (round32 rr = rr -> 2 * rr <= h -> rr <= y <= round32 (h - rr)).
Proof.
  intros Hh Hb Hr. unfold F32.pass1_slots. rewrite Hr.
  unfold F32.respawn_safety.
  destruct Hb as (Hx & Hy & Hvx & Hvy).
  rewrite Hx, Hy. cbn [negb orb].
  pose proof (finite_body_inv (body_at q i) (conj Hx (conj Hy (conj Hvx Hvy))))
    as (px & py & vx & vy & ->).
  now apply f32_advance_finite.
Qed.

(** ** Evaluation of stores on numerals *)

(** A store of a binary32 value [v], given as [m / d] with [d = 2 ^ s]. *)
Lemma round32_to (x v : R) (m s d : Z) :
  x = v -> (0 <= s <= 149)%Z -> d = (2 ^ s)%Z -> (Z.abs m < 2 ^ 24)%Z ->
  v * IZR d = IZR m -> round32 x = v.
Proof. intros -> Hs Hd Hm Hv. now apply (round32_dyadic v m s d). Qed.

(** A store of a positive [x] in the binade where the values are the
    multiples of [1 / d]: [z / d] is the nearest one. *)
Lemma round32_near_pos (x v : R) (z s d : Z) :
  (0 <= s <= 149)%Z -> d = (2 ^ s)%Z ->
  8388608 <= x * IZR d < 16777216 ->
  - (1 / 2) < x * IZR d - IZR z < 1 / 2 ->
  v * IZR d = IZR z ->
  round32 x = v.
Proof.
  intros Hs Hd Hb Hz Hv.
  assert (Hdp : 0 < IZR d).
  { subst d. rewrite <- bpow_IZR by lia. apply bpow_pos. }
  assert (Hx : 0 <= x) by nra.
  rewrite (round32_near x z s d Hs Hd).
  - apply Rmult_eq_reg_r with (IZR d); [| lra]. rewrite Hv. field. lra.
  - now rewrite Rabs_pos_eq.
  - apply Rabs_def1; lra.
Qed.

Lemma round32_near_neg (x v : R) (z s d : Z) :
  (0 <= s <= 149)%Z -> d = (2 ^ s)%Z ->
  8388608 <= - x * IZR d < 16777216 ->
  - (1 / 2) < - x * IZR d - IZR z < 1 / 2 ->
  v * IZR d = IZR z ->
  round32 x = - v.
Proof.
  intros Hs Hd Hb Hz Hv.
  replace x with (- - x) by lra. rewrite round32_opp. f_equal.
  now apply (round32_near_pos (- x) v z s d).
Qed.

Ltac f32_to v m s d :=
  match goal with
  | |- context [round32 ?e] =>
      rewrite (round32_to e v m s d) by (lra || lia || reflexivity)
  end.

Ltac f32_near v z s d :=
  match goal with
  | |- context [round32 ?e] =>
      rewrite (round32_near_pos e v z s d) by (lra || lia || reflexivity)
  end.

Ltac f32_near_neg v z s d :=
  match goal with
  | |- context [round32 ?e] =>
      rewrite (round32_near_neg e v z s d) by (lra || lia || reflexivity)
  end.

Ltac f32_cbn :=
  cbn -[IZR Rplus Rmult Rminus Rdiv Ropp Rinv R_sqrt.sqrt Zfloor Zceil
        Rltb Reqb cell_of round32].

Ltac f32_eval := f32_cbn; repeat (js_cmp; f32_cbn).

(** C3, as the code has it: a particle whose slots are finite before the
    tick and whose radius is a binary32 value, on a screen at least a
    diameter wide and high and with hands of finite velocity, lies
    immediately after Pass 1 between its radius and the value the clamp
    stores on the far side, the binary32 value nearest to the screen
    dimension less the radius; this value exceeds the bound of the
    specification by at most half a unit in its last place. *)
Theorem pass1_in_stored_bounds (cfg : Setup) (hands : list Hand.t)
    (rnd : nat -> num) (st : State) (i : nat) (w h rr : R) :
  wf_state cfg st -> (i < particleCount cfg)%nat ->
  Forall finite_hand hands ->
  finite_body (body_at (p st) i) ->
  rd (P.radius (p st)) i = Fin rr -> stored (Fin rr) ->
  2 * rr <= Rmin w h ->
  in_stored_bounds (Fin w) (Fin h)
    (rd (P.radius (p (F32.after_pass1 cfg (Fin w) (Fin h) hands rnd st))) i)
    (body_at (p (F32.after_pass1 cfg (Fin w) (Fin h) hands rnd st)) i) /\
  exists x y : R,
    B.x (body_at (p (F32.after_pass1 cfg (Fin w) (Fin h) hands rnd st)) i)
    = Fin x /\
    B.y (body_at (p (F32.after_pass1 cfg (Fin w) (Fin h) hands rnd st)) i)
    = Fin y /\
    rr <= x <= w - rr + (bpow (-24) * Rabs (w - rr) + bpow (-150)) /\
    rr <= y <= h - rr + (bpow (-24) * Rabs (h - rr) + bpow (-150)).
Proof.
  intros Hwf Hi Hh Hb Hr Hs Hmin. apply stored_Fin in Hs.
  rewrite f32_after_pass1_radius, f32_after_pass1_slots, Hr by assumption.
  destruct (f32_pass1_slots_finite w h rr hands rnd (p st) i Hh Hb Hr)
    as (x & y & vx & vy & -> & _ & _ & _ & Hx & Hy).
  pose proof (Rmin_l w h). pose proof (Rmin_r w h).
  specialize (Hx Hs ltac:(lra)). specialize (Hy Hs ltac:(lra)).
  split.
  - unfold in_stored_bounds. cbn [B.x B.y JS.sub JS.add JS.neg le fround].
    replace (w + - rr) with (w - rr) by lra.
    replace (h + - rr) with (h - rr) by lra. tauto.
  - exists x, y. cbn [B.x B.y]. split; [reflexivity |]. split; [reflexivity |].
    pose proof (round32_error (w - rr)) as Ew. apply Rabs_bound in Ew.
    pose proof (round32_error (h - rr)) as Eh. apply Rabs_bound in Eh.
    lra.
Qed.

Lemma f32_integrate_Fin (ax ay px py vx vy : R) :
  F32.integrate (Fin ax) (Fin ay) (B.mk (Fin px) (Fin py) (Fin vx) (Fin vy))
  = B.mk (Fin px) (Fin py)
         (Fin (round32 (round32 (vx + ax * (1 / 60)) * (98 / 100))))
         (Fin (round32 (round32 (vy + ay * (1 / 60)) * (98 / 100)))).
Proof.
  unfold F32.integrate. rewrite dt_Fin. unfold FRICTION_AIR. reflexivity.
Qed.

Lemma f32_move_Fin (px py vx vy : R) :
  F32.move (B.mk (Fin px) (Fin py) (Fin vx) (Fin vy))
  = B.mk (Fin (round32 (px + vx * (1 / 60) * 5)))
         (Fin (round32 (py + vy * (1 / 60) * 5))) (Fin vx) (Fin vy).
Proof. unfold F32.move. rewrite dt_Fin. reflexivity. Qed.

(** Pass 1 without hands. *)
Lemma f32_advance_alone (screenW screenH rRad : num) (b : B.t) :
  F32.advance screenW screenH [] rRad b =
  F32.boundaries screenW screenH rRad
    (F32.move (F32.max_velocity (F32.integrate (Fin 0) (Fin 30) b))).
Proof. reflexivity. Qed.

Ltac f32_clamp :=
  unfold F32.max_velocity, F32.clamp_vel, MAX_VEL; f32_eval.

Ltac f32_bounds :=
  unfold F32.boundaries, BOUNCE_GROUND, BOUNCE_WALL; f32_eval.

Lemma st_round_slots :
  F32.pass1_slots (Fin 48) (Fin 48) [] rnd_half (p st_round) 0
  = B.mk (Fin 10) (Fin 46) (Fin 0) (Fin (- (9865003 / 67108864))).
Proof.
  change (F32.pass1_slots (Fin 48) (Fin 48) [] rnd_half (p st_round) 0)
    with (F32.advance (Fin 48) (Fin 48) [] (Fin (8388609 / 4194304))
            (B.mk (Fin 10) (Fin (1471 / 32)) (Fin 0) (Fin 0))).
  rewrite f32_advance_alone, f32_integrate_Fin.
  f32_to 0 0%Z 0%Z 1%Z. f32_to 0 0%Z 0%Z 1%Z.
  f32_to (1 / 2) 1%Z 1%Z 2%Z.
  f32_near (2055209 / 4194304) 16441672%Z 25%Z 33554432%Z.
  f32_clamp. rewrite f32_move_Fin.
  f32_to 10 10%Z 0%Z 1%Z.
  f32_near (753821 / 16384) 12061136%Z 18%Z 262144%Z.
  f32_bounds.
  f32_near 46 12058624%Z 18%Z 262144%Z.
  f32_near_neg (9865003 / 67108864) 9865003%Z 26%Z 67108864%Z.
  reflexivity.
Qed.

Lemma Rmin_same (a b : R) : a <= b -> a <= Rmin b b.
Proof. intros H. unfold Rmin. now destruct (Rle_dec b b). Qed.

Lemma st_round_wf : wf_state cfg_round st_round.
Proof. repeat split. Qed.

(** C3 as stated fails: the particle of [st_round] lies inside the
    48 x 48 screen before the tick, at rest; it falls on the ground, where
    Pass 1 stores [48 - radius = 45.99999976...] into [p.y], which holds
    [46] afterwards, more than [screenH - radius]. *)
Lemma pass1_rounds_out_of_bounds :
  finite_body (body_at (p st_round) 0) /\
  stored (rd (P.radius (p st_round)) 0) /\
  2 * (8388609 / 4194304) <= Rmin 48 48 /\
  in_bounds (Fin 48) (Fin 48) (rd (P.radius (p st_round)) 0)
            (body_at (p st_round) 0) /\
  ~ in_bounds (Fin 48) (Fin 48)
      (rd (P.radius
             (p (F32.after_pass1 cfg_round (Fin 48) (Fin 48) [] rnd_half
                   st_round))) 0)
      (body_at (p (F32.after_pass1 cfg_round (Fin 48) (Fin 48) [] rnd_half
                     st_round)) 0).
Proof.
  split; [repeat split |]. split.
  { apply stored_Fin.
    apply (round32_dyadic _ 8388609 22 4194304);
      [lia | reflexivity | reflexivity | lra]. }
  split; [apply Rmin_same; lra |]. split.
  - unfold in_bounds. cbn. lra.
  - rewrite f32_after_pass1_radius, f32_after_pass1_slots
      by (apply st_round_wf || (cbn; lia)).
    rewrite st_round_slots. unfold in_bounds. cbn. lra.
Qed.

Lemma st_wall_wf : wf_state cfg_two st_wall.
Proof. repeat split. Qed.

Lemma round32_2 : round32 2 = 2.
Proof. now apply (round32_int 2). Qed.

Lemma pass1_in_stored_bounds_witness :
  in_stored_bounds (Fin 24) (Fin 24)
    (rd (P.radius (p (F32.after_pass1 cfg_two (Fin 24) (Fin 24) [] rnd_half
                        st_wall))) 0)
    (body_at (p (F32.after_pass1 cfg_two (Fin 24) (Fin 24) [] rnd_half st_wall))
             0) /\
  exists x y : R,
    B.x (body_at (p (F32.after_pass1 cfg_two (Fin 24) (Fin 24) [] rnd_half
                       st_wall)) 0) = Fin x /\
    B.y (body_at (p (F32.after_pass1 cfg_two (Fin 24) (Fin 24) [] rnd_half
                       st_wall)) 0) = Fin y /\
    2 <= x <= 24 - 2 + (bpow (-24) * Rabs (24 - 2) + bpow (-150)) /\
    2 <= y <= 24 - 2 + (bpow (-24) * Rabs (24 - 2) + bpow (-150)).
Proof.
  apply (pass1_in_stored_bounds cfg_two [] rnd_half st_wall 0 24 24 2).
  - exact st_wall_wf.
  - cbn. lia.
  - constructor.
  - repeat split.
  - reflexivity.
  - apply stored_Fin, round32_2.
  - apply Rmin_same. lra.
Defined.

(** ** Pass 2 on [Float32Array]s *)

Lemma f32_collide_unfold (q : P.t) (i : nat) (j : Z) :
  Z.of_nat i <> j ->
  F32.collide i j q = if overlapping q i j then F32.resolve i j q else q.
Proof.
  intros H. unfold F32.collide.
  destruct (Z.eqb_spec (Z.of_nat i) j); [contradiction | reflexivity].
Qed.

Lemma f32_collide_self (q : P.t) (i : nat) : F32.collide i (Z.of_nat i) q = q.
Proof. unfold F32.collide. now rewrite Z.eqb_refl. Qed.

Lemma f32_collide_no_overlap (q : P.t) (i : nat) (j : Z) :
  no_overlap q -> F32.collide i j q = q.
Proof.
  intros H. unfold F32.collide.
  destruct (Z.eqb_spec (Z.of_nat i) j) as [E | E]; [reflexivity |].
  cbn [negb]. now rewrite H.
Qed.

Lemma f32_walk_no_overlap (budget : nat) (next : list Z) (i : nat) (j : Z)
    (iterations : nat) (q : P.t) :
  no_overlap q -> fst (F32.walk budget next i j iterations q) = q.
Proof.
  intros H. revert j iterations.
  induction budget as [| b IH]; intros j it; [reflexivity |].
  cbn [F32.walk]. destruct (j =? -1)%Z; [reflexivity |].
  rewrite f32_collide_no_overlap by assumption. apply IH.
Qed.

Lemma f32_scan_no_overlap (cfg : Setup) (head next : list Z) (i : nat)
    (cx cy : Z) (q : P.t) (ds : list (Z * Z)) (acc : P.t * list nat) :
  no_overlap q -> fst acc = q ->
  fst (fold_left (F32.scan_cell cfg head next i cx cy) ds acc) = q.
Proof.
  intros H. revert acc. induction ds as [| d ds IH]; intros acc Hacc.
  - exact Hacc.
  - cbn [fold_left]. apply IH. unfold F32.scan_cell.
    destruct (in_grid _ _ _); [| exact Hacc].
    rewrite Hacc.
    pose proof (f32_walk_no_overlap MAX_ITERATIONS next i
                  (rdI head ((cy + snd d) * gridW cfg + (cx + fst d))) 0 q H)
      as Hw.
    destruct (F32.walk _ _ _ _ _ _) as [q' n]. exact Hw.
Qed.

Lemma f32_pass2_no_overlap (cfg : Setup) (head next : list Z) (q : P.t) :
  no_overlap q -> F32.pass2 cfg head next q = q.
Proof.
  intros H. unfold F32.pass2.
  induction (seq 0 (particleCount cfg)) as [| i l IH]; [reflexivity |].
  cbn [fold_left]. unfold F32.pass2_body at 2.
  rewrite (f32_scan_no_overlap cfg head next i _ _ q)
    by (assumption || reflexivity).
  exact IH.
Qed.

Lemma f32_tick_no_overlap (cfg : Setup) (screenW screenH : num)
    (hands : list Hand.t) (rnd : nat -> num) (st : State) :
  no_overlap (p (F32.after_pass1 cfg screenW screenH hands rnd st)) ->
  p (F32.tick cfg screenW screenH hands rnd st)
  = p (F32.after_pass1 cfg screenW screenH hands rnd st).
Proof. intros H. unfold F32.tick. cbn [p]. now apply f32_pass2_no_overlap. Qed.

(** C1, as the code has it: under the conditions of Pass 1 (finite
    slots, a radius that is a binary32 value, hands of finite velocity, a
    screen at least a diameter wide and high), and when no pair of
    particles passes the overlap test after Pass 1, the particle lies at
    the end of the tick between its radius and the value the clamp stores
    on the far side, the binary32 value nearest to the screen dimension
    less the radius, which exceeds the bound of the specification by at
    most half a unit in its last place. *)
Theorem tick_in_stored_bounds_without_overlap (cfg : Setup)
    (hands : list Hand.t) (rnd : nat -> num) (st : State) (i : nat)
    (w h rr : R) :
  wf_state cfg st -> (i < particleCount cfg)%nat ->
  Forall finite_hand hands ->
  finite_body (body_at (p st) i) ->
  rd (P.radius (p st)) i = Fin rr -> stored (Fin rr) ->
  2 * rr <= Rmin w h ->
  no_overlap (p (F32.after_pass1 cfg (Fin w) (Fin h) hands rnd st)) ->
  in_stored_bounds (Fin w) (Fin h)
    (rd (P.radius (p (F32.tick cfg (Fin w) (Fin h) hands rnd st))) i)
    (body_at (p (F32.tick cfg (Fin w) (Fin h) hands rnd st)) i) /\
  exists x y : R,
    B.x (body_at (p (F32.tick cfg (Fin w) (Fin h) hands rnd st)) i) = Fin x /\
    B.y (body_at (p (F32.tick cfg (Fin w) (Fin h) hands rnd st)) i) = Fin y /\
    rr <= x <= w - rr + (bpow (-24) * Rabs (w - rr) + bpow (-150)) /\
    rr <= y <= h - rr + (bpow (-24) * Rabs (h - rr) + bpow (-150)).
Proof.
  intros Hwf Hi Hh Hb Hr Hs Hmin Hno. apply stored_Fin in Hs.
  rewrite f32_tick_no_overlap by assumption.
  rewrite f32_after_pass1_radius, f32_after_pass1_slots, Hr by assumption.
  destruct (f32_pass1_slots_finite w h rr hands rnd (p st) i Hh Hb Hr)
    as (x & y & vx & vy & -> & _ & _ & _ & Hx & Hy).
  pose proof (Rmin_l w h). pose proof (Rmin_r w h).
  specialize (Hx Hs ltac:(lra)). specialize (Hy Hs ltac:(lra)).
  split.
  - unfold in_stored_bounds. cbn [B.x B.y JS.sub JS.add JS.neg le fround].
    replace (w + - rr) with (w - rr) by lra.
    replace (h + - rr) with (h - rr) by lra. tauto.
  - exists x, y. cbn [B.x B.y]. split; [reflexivity |]. split; [reflexivity |].
    pose proof (round32_error (w - rr)) as Ew. apply Rabs_bound in Ew.
    pose proof (round32_error (h - rr)) as Eh. apply Rabs_bound in Eh.
    lra.
Qed.

(** A population of two particles whose centres are not at an
    overlapping distance. *)
Lemma no_overlap_two (q : P.t) (x0 y0 r0 x1 y1 r1 : R) :
  length (P.x q) = 2%nat ->
  body_at q 0 = B.mk (Fin x0) (Fin y0) (B.vx (body_at q 0)) (B.vy (body_at q 0)) ->
  body_at q 1 = B.mk (Fin x1) (Fin y1) (B.vx (body_at q 1)) (B.vy (body_at q 1)) ->
  rd (P.radius q) 0 = Fin r0 -> rd (P.radius q) 1 = Fin r1 ->
  ~ (1 / 1000 < (x0 - x1) * (x0 - x1) + (y0 - y1) * (y0 - y1)
              < (r0 + r1) * (r0 + r1)) ->
  no_overlap q.
Proof.
  intros Hlen H0 H1 Hr0 Hr1 Hd.
  assert (Hx0 : rd (P.x q) 0 = Fin x0) by (now injection H0).
  assert (Hy0 : rd (P.y q) 0 = Fin y0) by (now injection H0).
  assert (Hx1 : rd (P.x q) 1 = Fin x1) by (now injection H1).
  assert (Hy1 : rd (P.y q) 1 = Fin y1) by (now injection H1).
  apply no_overlap_intro. rewrite Hlen. intros i j Hi Hj Hij.
  destruct (overlapping q i (Z.of_nat j)) eqn:E; [| reflexivity].
  exfalso. apply Hd.
  destruct i as [| [| i]], j as [| [| j]]; try lia.
  - now apply (overlapping_iff q 0 1%Z x0 y0 r0 x1 y1 r1) in E.
  - apply (overlapping_iff q 1 0%Z x1 y1 r1 x0 y0 r0) in E;
      try assumption. nra.
Qed.

Lemma st_apart_wf : wf_state cfg_four st_apart.
Proof. repeat split. Qed.

Lemma st_apart_slots (i : nat) (x : R) :
  (i < 2)%nat -> body_at (p st_apart) i = B.mk (Fin x) (Fin 10) (Fin 0) (Fin 0) ->
  round32 x = x -> 2 <= x <= 46 ->
  F32.pass1_slots (Fin 48) (Fin 48) [] rnd_half (p st_apart) i
  = B.mk (Fin x) (Fin (10528577 / 1048576)) (Fin 0) (Fin (2055209 / 4194304)).
Proof.
  intros Hi Hb Hs Hx. unfold F32.pass1_slots. rewrite Hb.
  replace (rd (P.radius (p st_apart)) i) with (Fin 2)
    by (now destruct i as [| [| i]]; [| | lia]).
  change (F32.respawn_safety (Fin 48) (Fin 48) (rnd_half i)
            (B.mk (Fin x) (Fin 10) (Fin 0) (Fin 0)))
    with (B.mk (Fin x) (Fin 10) (Fin 0) (Fin 0)).
  rewrite f32_advance_alone, f32_integrate_Fin.
  f32_to 0 0%Z 0%Z 1%Z. f32_to 0 0%Z 0%Z 1%Z.
  f32_to (1 / 2) 1%Z 1%Z 2%Z.
  f32_near (2055209 / 4194304) 16441672%Z 25%Z 33554432%Z.
  f32_clamp. rewrite f32_move_Fin.
  replace (x + 0 * (1 / 60) * 5) with x by lra. rewrite Hs.
  f32_near (10528577 / 1048576) 10528577%Z 20%Z 1048576%Z.
  f32_bounds. reflexivity.
Qed.

Lemma round32_10 : round32 10 = 10.
Proof. now apply (round32_int 10). Qed.

Lemma round32_30 : round32 30 = 30.
Proof. now apply (round32_int 30). Qed.

Lemma st_apart_no_overlap :
  no_overlap (p (F32.after_pass1 cfg_four (Fin 48) (Fin 48) [] rnd_half st_apart)).
Proof.
  pose proof (f32_after_pass1_wf cfg_four (Fin 48) (Fin 48) [] rnd_half
                st_apart st_apart_wf) as [Hx _].
  pose proof (f32_after_pass1_slots cfg_four (Fin 48) (Fin 48) [] rnd_half
                st_apart st_apart_wf 0 ltac:(cbn; lia)) as H0.
  pose proof (f32_after_pass1_slots cfg_four (Fin 48) (Fin 48) [] rnd_half
                st_apart st_apart_wf 1 ltac:(cbn; lia)) as H1.
  rewrite (st_apart_slots 0 10) in H0
    by (lia || reflexivity || apply round32_10 || lra).
  rewrite (st_apart_slots 1 30) in H1
    by (lia || reflexivity || apply round32_30 || lra).
  apply (no_overlap_two _ 10 (10528577 / 1048576) 2 30 (10528577 / 1048576) 2).
  - exact Hx.
  - now rewrite H0.
  - now rewrite H1.
  - now rewrite f32_after_pass1_radius.
  - now rewrite f32_after_pass1_radius.
  - lra.
Qed.

Lemma tick_in_stored_bounds_without_overlap_witness :
  in_stored_bounds (Fin 48) (Fin 48)
    (rd (P.radius (p (F32.tick cfg_four (Fin 48) (Fin 48) [] rnd_half st_apart)))
        0)
    (body_at (p (F32.tick cfg_four (Fin 48) (Fin 48) [] rnd_half st_apart)) 0) /\
  exists x y : R,
    B.x (body_at (p (F32.tick cfg_four (Fin 48) (Fin 48) [] rnd_half st_apart)) 0)
    = Fin x /\
    B.y (body_at (p (F32.tick cfg_four (Fin 48) (Fin 48) [] rnd_half st_apart)) 0)
    = Fin y /\
    2 <= x <= 48 - 2 + (bpow (-24) * Rabs (48 - 2) + bpow (-150)) /\
    2 <= y <= 48 - 2 + (bpow (-24) * Rabs (48 - 2) + bpow (-150)).
Proof.
  apply (tick_in_stored_bounds_without_overlap cfg_four [] rnd_half st_apart 0
           48 48 2).
  - exact st_apart_wf.
  - cbn. lia.
  - constructor.
  - repeat split.
  - reflexivity.
  - apply stored_Fin, round32_2.
  - apply Rmin_same. lra.
  - exact st_apart_no_overlap.
Defined.

(** ** The resolution of a pair on [Float32Array]s *)

Section PairF32.

Variables (q : P.t) (i : nat) (j : Z).
Variables xi yi vxi vyi ri xj yj vxj vyj rj : R.
Hypothesis Hij : Z.of_nat i <> j.
Hypothesis Hxi : rd (P.x q) i = Fin xi.
Hypothesis Hyi : rd (P.y q) i = Fin yi.
Hypothesis Hvxi : rd (P.vx q) i = Fin vxi.
Hypothesis Hvyi : rd (P.vy q) i = Fin vyi.
Hypothesis Hri : rd (P.radius q) i = Fin ri.
Hypothesis Hxj : rdZ (P.x q) j = Fin xj.
Hypothesis Hyj : rdZ (P.y q) j = Fin yj.
Hypothesis Hvxj : rdZ (P.vx q) j = Fin vxj.
Hypothesis Hvyj : rdZ (P.vy q) j = Fin vyj.
Hypothesis Hrj : rdZ (P.radius q) j = Fin rj.

Lemma f32_positional_correction_Fin (nx ny overlap : R) :
  F32.positional_correction i j (Fin nx) (Fin ny) (Fin overlap) q =
  P.mk (wrZ (<[i := Fin (round32 (xi + nx * overlap * (1 / 2)))]> (P.x q)) j
            (Fin (round32 (xj - nx * overlap * (1 / 2)))))
       (wrZ (<[i := Fin (round32 (yi + ny * overlap * (1 / 2)))]> (P.y q)) j
            (Fin (round32 (yj - ny * overlap * (1 / 2)))))
       (P.vx q) (P.vy q) (P.radius q).
Proof.
  unfold F32.positional_correction.
  rewrite !rdZ_insert_ne by assumption.
  rewrite Hxi, Hyi, Hxj, Hyj. cbn [JS.sub JS.add JS.mul JS.neg fround].
  reflexivity.
Qed.

Lemma f32_velocity_response_approaching (nx ny : R) :
  (vxi - vxj) * nx + (vyi - vyj) * ny < 0 ->
  F32.velocity_response i j (Fin nx) (Fin ny) q =
  P.mk (P.x q) (P.y q)
       (wrZ (<[i := Fin (round32
                           (vxi - nx * ((vxi - vxj) * nx + (vyi - vyj) * ny)
                                  * (1 / 2)))]> (P.vx q)) j
            (Fin (round32
                    (vxj + nx * ((vxi - vxj) * nx + (vyi - vyj) * ny)
                           * (1 / 2)))))
       (wrZ (<[i := Fin (round32
                           (vyi - ny * ((vxi - vxj) * nx + (vyi - vyj) * ny)
                                  * (1 / 2)))]> (P.vy q)) j
            (Fin (round32
                    (vyj + ny * ((vxi - vxj) * nx + (vyi - vyj) * ny)
                           * (1 / 2)))))
       (P.radius q).
Proof.
  intros Hdot. unfold F32.velocity_response.
  rewrite !rdZ_insert_ne by assumption.
  rewrite Hvxi, Hvyi, Hvxj, Hvyj. cbn [JS.sub JS.add JS.mul JS.neg fround].
  replace (Fin ((vxi + - vxj) * nx + (vyi + - vyj) * ny) <? Fin 0)%J with true
    by (symmetry; apply lt_Fin; lra).
  repeat (f_equal; try lra).
Qed.

Lemma f32_velocity_response_separating (nx ny : R) :
  0 <= (vxi - vxj) * nx + (vyi - vyj) * ny ->
  F32.velocity_response i j (Fin nx) (Fin ny) q = q.
Proof.
  intros Hdot. unfold F32.velocity_response.
  rewrite Hvxi, Hvyi, Hvxj, Hvyj. cbn [JS.sub JS.add JS.mul JS.neg].
  replace (Fin ((vxi + - vxj) * nx + (vyi + - vyj) * ny) <? Fin 0)%J with false
    by (symmetry; apply lt_Fin_false; lra).
  reflexivity.
Qed.

Lemma f32_collide_miss :
  ~ (1 / 1000 < (xi - xj) * (xi - xj) + (yi - yj) * (yi - yj)
              < (ri + rj) * (ri + rj)) ->
  F32.collide i j q = q.
Proof.
  intros H. rewrite f32_collide_unfold by assumption.
  destruct (overlapping q i j) eqn:Hov; [| reflexivity].
  apply (overlapping_iff q i j xi yi ri xj yj rj) in Hov; try assumption.
  contradiction.
Qed.

Variable d : R.
Hypothesis Hd : 0 < d.
Hypothesis Hdd : d * d = (xi - xj) * (xi - xj) + (yi - yj) * (yi - yj).
Hypothesis Hov : 1 / 1000 < d * d < (ri + rj) * (ri + rj).

Lemma f32_collide_hit :
  F32.collide i j q =
  F32.velocity_response i j (Fin ((xi - xj) / d)) (Fin ((yi - yj) / d))
    (P.mk (wrZ (<[i := Fin (round32
                              (xi + (xi - xj) / d * (ri + rj - d) * (1 / 2)))]>
                  (P.x q)) j
               (Fin (round32 (xj - (xi - xj) / d * (ri + rj - d) * (1 / 2)))))
          (wrZ (<[i := Fin (round32
                              (yi + (yi - yj) / d * (ri + rj - d) * (1 / 2)))]>
                  (P.y q)) j
               (Fin (round32 (yj - (yi - yj) / d * (ri + rj - d) * (1 / 2)))))
          (P.vx q) (P.vy q) (P.radius q)).
Proof.
  rewrite f32_collide_unfold by assumption.
  replace (overlapping q i j) with true.
  - unfold F32.resolve.
    rewrite (contact_Fin q i j xi yi ri xj yj rj Hxi Hyi Hri Hxj Hyj Hrj
               d Hd Hdd).
    now rewrite f32_positional_correction_Fin.
  - symmetry. apply (overlapping_iff q i j xi yi ri xj yj rj); try assumption.
    lra.
Qed.

End PairF32.

(** ** The tick on [Float32Array]s, on the sample inputs *)

Lemma f32_pass1_body_eq (cfg : Setup) (screenW screenH : num)
    (hands : list Hand.t) (rnd : nat -> num) (st : State) (i : nat)
    (b : B.t) (cx cy : Z) :
  F32.pass1_slots screenW screenH hands rnd (p st) i = b ->
  cell_of (B.x b) = cx -> cell_of (B.y b) = cy ->
  F32.pass1_body cfg screenW screenH hands rnd st i =
  if in_grid cfg cx cy then
    mkState (store_body (p st) i b)
            (<[Z.to_nat (cy * gridW cfg + cx) := Z.of_nat i]> (gridHead st))
            (<[i := rdI (gridHead st) (cy * gridW cfg + cx)]> (nextParticle st))
  else mkState (store_body (p st) i b) (gridHead st) (nextParticle st).
Proof.
  intros Hb Hx Hy. unfold F32.pass1_body, grid_insert.
  fold (F32.pass1_slots screenW screenH hands rnd (p st) i).
  rewrite Hb, Hx, Hy. reflexivity.
Qed.

Lemma f32_pass2_body_eq (cfg : Setup) (head next : list Z) (q : P.t) (i : nat)
    (cx cy : Z) :
  cell_of (rd (P.x q) i) = cx -> cell_of (rd (P.y q) i) = cy ->
  F32.pass2_body cfg head next q i =
  fold_left (F32.scan_cell cfg head next i cx cy) offsets (q, []).
Proof. intros <- <-. reflexivity. Qed.

Ltac f32_walk :=
  lazy -[IZR Rplus Rmult Rminus Rdiv Ropp Rinv R_sqrt.sqrt Zfloor Zceil
         Rltb Reqb cell_of F32.collide F32.velocity_response round32].

Ltac f32_self i :=
  match goal with
  | |- context [F32.collide i ?j ?q] =>
      change (F32.collide i j q) with (F32.collide i (Z.of_nat i) q);
      rewrite (f32_collide_self q i)
  end.

Ltac f32_hit i j dv :=
  match goal with
  | |- context [F32.collide i j ?q] =>
      erewrite (f32_collide_hit q i j) with (d := dv);
      [ | lia | reflexivity .. | lra | lra | lra ]
  end.

Ltac f32_miss i j :=
  match goal with
  | |- context [F32.collide i j ?q] =>
      erewrite (f32_collide_miss q i j); [ | lia | reflexivity .. | lra ]
  end.

Ltac f32_separating :=
  erewrite f32_velocity_response_separating; [ | reflexivity .. | lra].

Ltac f32_approaching :=
  erewrite f32_velocity_response_approaching; [ | lia | reflexivity .. | lra].

(** A particle of [st_wall] falls on the ground and bounces. *)
Lemma st_wall_slots (i : nat) (x : R) :
  (i < 2)%nat -> body_at (p st_wall) i = B.mk (Fin x) (Fin 22) (Fin 0) (Fin 0) ->
  round32 x = x -> 2 <= x <= 22 ->
  F32.pass1_slots (Fin 24) (Fin 24) [] rnd_half (p st_wall) i
  = B.mk (Fin x) (Fin 22) (Fin 0) (Fin (- (9865003 / 67108864))).
Proof.
  intros Hi Hb Hs Hx. unfold F32.pass1_slots. rewrite Hb.
  replace (rd (P.radius (p st_wall)) i) with (Fin 2)
    by (now destruct i as [| [| i]]; [| | lia]).
  change (F32.respawn_safety (Fin 24) (Fin 24) (rnd_half i)
            (B.mk (Fin x) (Fin 22) (Fin 0) (Fin 0)))
    with (B.mk (Fin x) (Fin 22) (Fin 0) (Fin 0)).
  rewrite f32_advance_alone, f32_integrate_Fin.
  f32_to 0 0%Z 0%Z 1%Z. f32_to 0 0%Z 0%Z 1%Z.
  f32_to (1 / 2) 1%Z 1%Z 2%Z.
  f32_near (2055209 / 4194304) 16441672%Z 25%Z 33554432%Z.
  f32_clamp. rewrite f32_move_Fin.
  replace (x + 0 * (1 / 60) * 5) with x by lra. rewrite Hs.
  f32_near (361117 / 16384) 11555744%Z 19%Z 524288%Z.
  f32_bounds.
  f32_to 22 22%Z 0%Z 1%Z.
  f32_near_neg (9865003 / 67108864) 9865003%Z 26%Z 67108864%Z.
  reflexivity.
Qed.

Lemma round32_3 : round32 3 = 3.
Proof. now apply (round32_int 3). Qed.

Lemma f32_st_wall_pass1 :
  F32.after_pass1 cfg_two (Fin 24) (Fin 24) [] rnd_half st_wall =
  mkState (P.mk [Fin 2; Fin 3] [Fin 22; Fin 22] [Fin 0; Fin 0]
                [Fin (- (9865003 / 67108864)); Fin (- (9865003 / 67108864))]
                [Fin 2; Fin 2])
          [-1; -1; 1; -1]%Z [-1; 0]%Z.
Proof.
  unfold F32.after_pass1, F32.pass1. cbn [particleCount cfg_two seq fold_left].
  rewrite (f32_pass1_body_eq _ _ _ _ _ _ 0
             (B.mk (Fin 2) (Fin 22) (Fin 0) (Fin (- (9865003 / 67108864)))) 0 1).
  2: { apply (st_wall_slots 0 2);
         [lia | reflexivity | apply round32_2 | lra]. }
  2: { cbn [B.x]. js_cell 0%Z. reflexivity. }
  2: { cbn [B.y]. js_cell 1%Z. reflexivity. }
  rewrite (f32_pass1_body_eq _ _ _ _ _ _ 1
             (B.mk (Fin 3) (Fin 22) (Fin 0) (Fin (- (9865003 / 67108864)))) 0 1).
  2: { apply (st_wall_slots 1 3);
         [lia | reflexivity | apply round32_3 | lra]. }
  2: { cbn [B.x]. js_cell 0%Z. reflexivity. }
  2: { cbn [B.y]. js_cell 1%Z. reflexivity. }
  reflexivity.
Qed.

Lemma f32_st_wall_pass2_0 :
  fst (F32.pass2_body cfg_two [-1; -1; 1; -1]%Z [-1; 0]%Z
         (P.mk [Fin 2; Fin 3] [Fin 22; Fin 22] [Fin 0; Fin 0]
               [Fin (- (9865003 / 67108864)); Fin (- (9865003 / 67108864))]
               [Fin 2; Fin 2]) 0)
  = P.mk [Fin (1 / 2); Fin (9 / 2)] [Fin 22; Fin 22] [Fin 0; Fin 0]
         [Fin (- (9865003 / 67108864)); Fin (- (9865003 / 67108864))]
         [Fin 2; Fin 2].
Proof.
  rewrite (f32_pass2_body_eq _ _ _ _ 0 0 1).
  2: { js_cbn. js_cell 0%Z. reflexivity. }
  2: { js_cbn. js_cell 1%Z. reflexivity. }
  f32_walk. f32_self 0%nat.
  f32_hit 0%nat 1%Z 1.
  f32_separating.
  f32_walk.
  f32_to (1 / 2) 1%Z 1%Z 2%Z. f32_to (9 / 2) 9%Z 1%Z 2%Z.
  f32_to 22 22%Z 0%Z 1%Z. f32_to 22 22%Z 0%Z 1%Z.
  reflexivity.
Qed.

Lemma f32_st_wall_pass2_1 :
  fst (F32.pass2_body cfg_two [-1; -1; 1; -1]%Z [-1; 0]%Z
         (P.mk [Fin (1 / 2); Fin (9 / 2)] [Fin 22; Fin 22] [Fin 0; Fin 0]
               [Fin (- (9865003 / 67108864)); Fin (- (9865003 / 67108864))]
               [Fin 2; Fin 2]) 1)
  = P.mk [Fin (1 / 2); Fin (9 / 2)] [Fin 22; Fin 22] [Fin 0; Fin 0]
         [Fin (- (9865003 / 67108864)); Fin (- (9865003 / 67108864))]
         [Fin 2; Fin 2].
Proof.
  rewrite (f32_pass2_body_eq _ _ _ _ 1 0 1).
  2: { js_cbn. js_cell 0%Z. reflexivity. }
  2: { js_cbn. js_cell 1%Z. reflexivity. }
  f32_walk. f32_self 1%nat.
  f32_miss 1%nat 0%Z.
  reflexivity.
Qed.

Lemma f32_st_wall_tick :
  p (F32.tick cfg_two (Fin 24) (Fin 24) [] rnd_half st_wall)
  = P.mk [Fin (1 / 2); Fin (9 / 2)] [Fin 22; Fin 22] [Fin 0; Fin 0]
         [Fin (- (9865003 / 67108864)); Fin (- (9865003 / 67108864))]
         [Fin 2; Fin 2].
Proof.
  unfold F32.tick. rewrite f32_st_wall_pass1. cbn [p gridHead nextParticle].
  unfold F32.pass2. cbn [seq fold_left particleCount cfg_two].
  now rewrite f32_st_wall_pass2_0, f32_st_wall_pass2_1.
Qed.

(** C1 as stated fails: both particles of [st_wall] lie inside the 24 x 24
    screen before the tick; Pass 2 pushes the first one, which touches the
    left wall and overlaps the second, to [x = 0.5], less than its radius
    [2], and nothing brings it back before the tick ends. *)
Lemma tick_leaves_screen :
  in_bounds (Fin 24) (Fin 24) (rd (P.radius (p st_wall)) 0)
            (body_at (p st_wall) 0) /\
  in_bounds (Fin 24) (Fin 24) (rd (P.radius (p st_wall)) 1)
            (body_at (p st_wall) 1) /\
  ~ in_stored_bounds (Fin 24) (Fin 24)
      (rd (P.radius (p (F32.tick cfg_two (Fin 24) (Fin 24) [] rnd_half st_wall)))
          0)
      (body_at (p (F32.tick cfg_two (Fin 24) (Fin 24) [] rnd_half st_wall)) 0) /\
  ~ in_bounds (Fin 24) (Fin 24)
      (rd (P.radius (p (F32.tick cfg_two (Fin 24) (Fin 24) [] rnd_half st_wall)))
          0)
      (body_at (p (F32.tick cfg_two (Fin 24) (Fin 24) [] rnd_half st_wall)) 0).
Proof.
  split; [| split; [| split]].
  - unfold in_bounds. cbn. lra.
  - unfold in_bounds. cbn. lra.
  - rewrite f32_st_wall_tick. unfold in_stored_bounds. cbn. lra.
  - rewrite f32_st_wall_tick. unfold in_bounds. cbn. lra.
Qed.

(** ** The sums of a pair under the rounding of the stores *)

Lemma bpow_double (e : Z) : bpow (e + 1) = 2 * bpow e.
Proof. rewrite bpow_add, bpow_1. ring. Qed.

(** The error of a store, relative to what is stored. *)
Lemma round32_error_stored (x : R) :
  Rabs (round32 x - x) <= bpow (-23) * Rabs (round32 x) + bpow (-149).
Proof.
  pose proof (round32_error x) as H.
  pose proof (bpow_pos (-24)) as H24. pose proof (bpow_pos (-150)) as H150.
  assert (Hs : bpow (-24) <= 1 / 2).
  { pose proof (bpow_cancel 1) as Hc. rewrite bpow_1 in Hc.
    change (- (1))%Z with (-1)%Z in Hc.
    pose proof (bpow_le (-24) (-1) ltac:(lia)). lra. }
  change (-23)%Z with (-24 + 1)%Z. change (-149)%Z with (-150 + 1)%Z.
  rewrite !bpow_double.
  assert (Ht : Rabs x <= Rabs (round32 x) + Rabs (round32 x - x)).
  { replace x with (round32 x - (round32 x - x)) at 1 by lra.
    apply Rabs_triang_inv' || (unfold Rminus at 1; eapply Rle_trans;
      [apply Rabs_triang | rewrite Rabs_Ropp; lra]). }
  pose proof (Rabs_pos (round32 x)). pose proof (Rabs_pos (round32 x - x)).
  nra.
Qed.

Lemma round32_pair (a b s : R) :
  a + b = s ->
  Rabs (round32 a + round32 b - s)
  <= bpow (-23) * (Rabs (round32 a) + Rabs (round32 b)) + bpow (-148).
Proof.
  intros <-.
  replace (round32 a + round32 b - (a + b))
    with ((round32 a - a) + (round32 b - b)) by lra.
  eapply Rle_trans; [apply Rabs_triang |].
  pose proof (round32_error_stored a). pose proof (round32_error_stored b).
  change (-148)%Z with (-149 + 1)%Z. rewrite bpow_double. lra.
Qed.

Lemma sum_within_rounding_stores (a b s : R) :
  a + b = s -> sum_within_rounding s (Fin (round32 a)) (Fin (round32 b)).
Proof.
  intros H. exists (round32 a), (round32 b).
  split; [reflexivity |]. split; [reflexivity |]. now apply round32_pair.
Qed.

Lemma sum_within_rounding_same (a b : R) :
  sum_within_rounding (a + b) (Fin a) (Fin b).
Proof.
  exists a, b. split; [reflexivity |]. split; [reflexivity |].
  rewrite Rminus_diag, Rabs_R0.
  pose proof (bpow_pos (-23)). pose proof (bpow_pos (-148)).
  pose proof (Rabs_pos a). pose proof (Rabs_pos b). nra.
Qed.

Section PairSumsF32.

Variables (q : P.t) (i : nat) (j : Z).
Variables xi yi vxi vyi xj yj vxj vyj : R.
Hypothesis Hij : Z.of_nat i <> j.
Hypothesis Hxi : rd (P.x q) i = Fin xi.
Hypothesis Hyi : rd (P.y q) i = Fin yi.
Hypothesis Hvxi : rd (P.vx q) i = Fin vxi.
Hypothesis Hvyi : rd (P.vy q) i = Fin vyi.
Hypothesis Hxj : rdZ (P.x q) j = Fin xj.
Hypothesis Hyj : rdZ (P.y q) j = Fin yj.
Hypothesis Hvxj : rdZ (P.vx q) j = Fin vxj.
Hypothesis Hvyj : rdZ (P.vy q) j = Fin vyj.

Lemma f32_velocity_response_sums (nx ny : R) :
  sum_within_rounding (vxi + vxj)
    (rd (P.vx (F32.velocity_response i j (Fin nx) (Fin ny) q)) i)
    (rdZ (P.vx (F32.velocity_response i j (Fin nx) (Fin ny) q)) j) /\
  sum_within_rounding (vyi + vyj)
    (rd (P.vy (F32.velocity_response i j (Fin nx) (Fin ny) q)) i)
    (rdZ (P.vy (F32.velocity_response i j (Fin nx) (Fin ny) q)) j).
Proof.
  destruct (Rlt_le_dec ((vxi - vxj) * nx + (vyi - vyj) * ny) 0) as [Hdot | Hdot].
  - rewrite (f32_velocity_response_approaching q i j vxi vyi vxj vyj)
      by assumption.
    cbn [P.vx P.vy].
    set (I := (vxi - vxj) * nx + (vyi - vyj) * ny).
    destruct (pair_stores (P.vx q) i j vxi vxj
                (Fin (round32 (vxi - nx * I * (1 / 2))))
                (Fin (round32 (vxj + nx * I * (1 / 2)))))
      as [-> ->]; try assumption.
    destruct (pair_stores (P.vy q) i j vyi vyj
                (Fin (round32 (vyi - ny * I * (1 / 2))))
                (Fin (round32 (vyj + ny * I * (1 / 2)))))
      as [-> ->]; try assumption.
    split; apply sum_within_rounding_stores; lra.
  - rewrite (f32_velocity_response_separating q i j vxi vyi vxj vyj)
      by assumption.
    rewrite Hvxi, Hvyi, Hvxj, Hvyj. split; apply sum_within_rounding_same.
Qed.

Lemma f32_positional_correction_sums (nx ny overlap : R) :
  sum_within_rounding (xi + xj)
    (rd (P.x (F32.positional_correction i j (Fin nx) (Fin ny) (Fin overlap) q)) i)
    (rdZ (P.x (F32.positional_correction i j (Fin nx) (Fin ny) (Fin overlap) q))
         j) /\
  sum_within_rounding (yi + yj)
    (rd (P.y (F32.positional_correction i j (Fin nx) (Fin ny) (Fin overlap) q)) i)
    (rdZ (P.y (F32.positional_correction i j (Fin nx) (Fin ny) (Fin overlap) q))
         j).
Proof.
  rewrite (f32_positional_correction_Fin q i j xi yi xj yj) by assumption.
  cbn [P.x P.y].
  destruct (pair_stores (P.x q) i j xi xj
              (Fin (round32 (xi + nx * overlap * (1 / 2))))
              (Fin (round32 (xj - nx * overlap * (1 / 2)))))
    as [-> ->]; try assumption.
  destruct (pair_stores (P.y q) i j yi yj
              (Fin (round32 (yi + ny * overlap * (1 / 2))))
              (Fin (round32 (yj - ny * overlap * (1 / 2)))))
    as [-> ->]; try assumption.
  split; apply sum_within_rounding_stores; lra.
Qed.

End PairSumsF32.

Lemma f32_velocity_response_pos (i : nat) (j : Z) (nx ny : num) (q : P.t) :
  P.x (F32.velocity_response i j nx ny q) = P.x q /\
  P.y (F32.velocity_response i j nx ny q) = P.y q.
Proof. unfold F32.velocity_response. destruct (_ <? _)%J; split; reflexivity. Qed.

(** C9, as the code has it: on a pair [i <> j] of particles with finite
    slots, the velocity response subtracts from the one and adds to the
    other the same impulse, and the positional correction the same
    displacement, but each of the four results is rounded by its store.
    The sums [vx_i + vx_j], [vy_i + vy_j], [x_i + x_j] and [y_i + y_j]
    (twice the midpoint) are kept up to these roundings, a unit in the last
    place of each of the two values stored, and so by the whole body of the
    Pass 2 loop. *)
Theorem pair_resolution_conserves_up_to_rounding (q : P.t) (i : nat) (j : Z)
    (xi yi vxi vyi ri xj yj vxj vyj rj : R) :
  Z.of_nat i <> j ->
  rd (P.x q) i = Fin xi -> rd (P.y q) i = Fin yi ->
  rd (P.vx q) i = Fin vxi -> rd (P.vy q) i = Fin vyi ->
  rd (P.radius q) i = Fin ri ->
  rdZ (P.x q) j = Fin xj -> rdZ (P.y q) j = Fin yj ->
  rdZ (P.vx q) j = Fin vxj -> rdZ (P.vy q) j = Fin vyj ->
  rdZ (P.radius q) j = Fin rj ->
  (forall nx ny : R,
     let q' := F32.velocity_response i j (Fin nx) (Fin ny) q in
     sum_within_rounding (vxi + vxj) (rd (P.vx q') i) (rdZ (P.vx q') j) /\
     sum_within_rounding (vyi + vyj) (rd (P.vy q') i) (rdZ (P.vy q') j)) /\
  (forall nx ny overlap : R,
     let q' :=
       F32.positional_correction i j (Fin nx) (Fin ny) (Fin overlap) q in
     sum_within_rounding (xi + xj) (rd (P.x q') i) (rdZ (P.x q') j) /\
     sum_within_rounding (yi + yj) (rd (P.y q') i) (rdZ (P.y q') j)) /\
  (let q' := F32.collide i j q in
   sum_within_rounding (vxi + vxj) (rd (P.vx q') i) (rdZ (P.vx q') j) /\
   sum_within_rounding (vyi + vyj) (rd (P.vy q') i) (rdZ (P.vy q') j) /\
   sum_within_rounding (xi + xj) (rd (P.x q') i) (rdZ (P.x q') j) /\
   sum_within_rounding (yi + yj) (rd (P.y q') i) (rdZ (P.y q') j)).
Proof.
  intros Hij Hxi Hyi Hvxi Hvyi Hri Hxj Hyj Hvxj Hvyj Hrj.
  split; [| split].
  - intros nx ny q'. subst q'. now apply f32_velocity_response_sums.
  - intros nx ny overlap q'. subst q'.
    now apply f32_positional_correction_sums.
  - intros q'. subst q'. rewrite f32_collide_unfold by assumption.
    destruct (overlapping q i j) eqn:Hov.
    + apply (overlapping_iff q i j xi yi ri xj yj rj) in Hov; try assumption.
      set (D := (xi - xj) * (xi - xj) + (yi - yj) * (yi - yj)) in *.
      assert (HD : 0 < D) by lra.
      assert (Hd : 0 < R_sqrt.sqrt D) by now apply sqrt_lt_R0.
      assert (Hdd : R_sqrt.sqrt D * R_sqrt.sqrt D = D)
        by (apply sqrt_sqrt; lra).
      unfold F32.resolve.
      rewrite (contact_Fin q i j xi yi ri xj yj rj Hxi Hyi Hri Hxj Hyj Hrj
                 (R_sqrt.sqrt D) Hd Hdd).
      set (nx := (xi - xj) / R_sqrt.sqrt D).
      set (ny := (yi - yj) / R_sqrt.sqrt D).
      set (ov := ri + rj - R_sqrt.sqrt D).
      set (q1 := F32.positional_correction i j (Fin nx) (Fin ny) (Fin ov) q).
      destruct (f32_velocity_response_pos i j (Fin nx) (Fin ny) q1) as [-> ->].
      destruct (f32_velocity_response_sums q1 i j vxi vyi vxj vyj Hij
                  Hvxi Hvyi Hvxj Hvyj nx ny) as [H1 H2].
      destruct (f32_positional_correction_sums q i j xi yi xj yj Hij
                  Hxi Hyi Hxj Hyj nx ny ov) as [H3 H4].
      fold q1 in H3, H4. tauto.
    + rewrite Hxi, Hyi, Hvxi, Hvyi, Hxj, Hyj, Hvxj, Hvyj.
      repeat split; apply sum_within_rounding_same.
Qed.

Lemma f32_q_hit_collide :
  F32.collide 0 1 q_hit =
  P.mk [Fin (- (5033165 / 16777216)); Fin (13841203 / 4194304)]
       [Fin (- (13421773 / 33554432)); Fin (9227469 / 2097152)]
       [Fin (9730785 / 16777216); Fin (14092861 / 33554432)]
       [Fin (7381975 / 16777216); Fin (9395241 / 16777216)]
       [Fin 3; Fin 3].
Proof.
  unfold q_hit. f32_hit 0%nat 1%Z 5. f32_approaching.
  f32_walk.
  f32_near_neg (5033165 / 16777216) 10066330%Z 25%Z 33554432%Z.
  f32_near (13841203 / 4194304) 13841203%Z 22%Z 4194304%Z.
  f32_near_neg (13421773 / 33554432) 13421773%Z 25%Z 33554432%Z.
  f32_near (9227469 / 2097152) 9227469%Z 21%Z 2097152%Z.
  f32_near (9730785 / 16777216) 9730785%Z 24%Z 16777216%Z.
  f32_near (14092861 / 33554432) 14092861%Z 25%Z 33554432%Z.
  f32_near (7381975 / 16777216) 14763950%Z 25%Z 33554432%Z.
  f32_near (9395241 / 16777216) 9395241%Z 24%Z 16777216%Z.
  reflexivity.
Qed.

(** C9 as stated fails: the two particles of [q_hit] hold binary32
    values, overlap and approach each other; the body of the Pass 2 loop
    leaves [vx_0 + vx_1 = 1 - 2 ^ -25] where it was [1], and moves the
    midpoint of the two positions. *)
Lemma pair_resolution_rounds :
  overlapping q_hit 0 1 = true /\
  (rd (P.vx (F32.collide 0 1 q_hit)) 0 + rdZ (P.vx (F32.collide 0 1 q_hit)) 1)%J
  = Fin (33554431 / 33554432) /\
  (rd (P.vx q_hit) 0 + rdZ (P.vx q_hit) 1)%J = Fin 1 /\
  ((rd (P.x (F32.collide 0 1 q_hit)) 0 + rdZ (P.x (F32.collide 0 1 q_hit)) 1)
   / Fin 2)%J
  <> ((rd (P.x q_hit) 0 + rdZ (P.x q_hit) 1) / Fin 2)%J.
Proof.
  split.
  { apply (overlapping_iff q_hit 0 1 0 0 3 3 4 3); try reflexivity. lra. }
  rewrite f32_q_hit_collide. unfold q_hit. f32_walk. repeat js_cmp.
  split; [f_equal; lra |]. split; [f_equal; lra |].
  intros [= H]. lra.
Qed.

Lemma pair_resolution_conserves_up_to_rounding_witness :
  let q' := F32.collide 0 1 q_hit in
  sum_within_rounding (1 + 0) (rd (P.vx q') 0) (rdZ (P.vx q') 1) /\
  sum_within_rounding (1 + 0) (rd (P.vy q') 0) (rdZ (P.vy q') 1) /\
  sum_within_rounding (0 + 3) (rd (P.x q') 0) (rdZ (P.x q') 1) /\
  sum_within_rounding (0 + 4) (rd (P.y q') 0) (rdZ (P.y q') 1).
Proof.
  refine (proj2 (proj2 (pair_resolution_conserves_up_to_rounding q_hit 0 1
                          0 0 1 1 3 3 4 0 0 3
                          _ eq_refl eq_refl eq_refl eq_refl eq_refl
                          eq_refl eq_refl eq_refl eq_refl eq_refl))).
  cbn. lia.
Defined.

(** ** The spawn *)

Section SpawnF32.

Variables (count : nat) (width height : num) (rnd : nat -> num).

Local Abbreviation sbody := (F32.spawn_body width height rnd).
Local Abbreviation supto k := (fold_left sbody (seq 0 k) (allocate count)).

Lemma supto_S (k : nat) : supto (S k) = sbody (supto k) k.
Proof. rewrite seq_S, fold_left_app. reflexivity. Qed.

Lemma supto_shape (k : nat) :
  shape (supto k) = (count, count, count, count) /\
  length (P.radius (supto k)) = count.
Proof.
  induction k as [| k [IH1 IH2]].
  - unfold shape. cbn. now rewrite !length_replicate.
  - rewrite supto_S. set (q := supto k) in *.
    unfold shape, F32.spawn_body in *.
    cbn [P.x P.y P.vx P.vy P.radius]. now rewrite !length_insert.
Qed.

(** After [k] iterations the first [k] particles hold their spawn. *)
Lemma supto_slots (k i : nat) :
  (k <= count)%nat -> (i < k)%nat ->
  body_at (supto k) i
  = B.mk (fround (rnd (5 * i)%nat * width))
         (fround (rnd (5 * i + 1)%nat * height))
         (fround ((rnd (5 * i + 2)%nat - Fin (1 / 2)) * Fin 5))
         (fround ((rnd (5 * i + 3)%nat - Fin (1 / 2)) * Fin 5)) /\
  rd (P.radius (supto k)) i
  = fround (Fin 3 * (Fin (1 / 2) + rnd (5 * i + 4)%nat * Fin (1 / 2))).
Proof.
  induction k as [| k IH]; intros Hk Hi; [lia |].
  rewrite supto_S.
  destruct (supto_shape k) as [Hs Hr]. unfold shape in Hs.
  injection Hs as Hx Hy Hvx Hvy.
  destruct (Nat.eq_dec k i) as [-> | Hne].
  - clear IH. set (q := supto i) in *.
    unfold F32.spawn_body, body_at. cbn [P.x P.y P.vx P.vy P.radius].
    rewrite !rd_insert_eq by lia. split; reflexivity.
  - specialize (IH ltac:(lia) ltac:(lia)). set (q := supto k) in *.
    unfold F32.spawn_body, body_at. cbn [P.x P.y P.vx P.vy P.radius].
    rewrite !rd_insert_ne by assumption. exact IH.
Qed.

End SpawnF32.

Lemma round32_half (m : Z) :
  (Z.abs m < 2 ^ 24)%Z -> round32 (IZR m / 2) = IZR m / 2.
Proof.
  intros H. apply (round32_dyadic _ m 1 2); [lia | reflexivity | exact H | lra].
Qed.

(** What a spawn stores lies between [lo] and [hi] as the value does,
    when the two bounds are binary32 values. *)
Lemma round32_between (x lo hi : R) :
  round32 lo = lo -> round32 hi = hi -> lo <= x <= hi ->
  lo <= round32 x <= hi.
Proof.
  intros Hlo Hhi [H1 H2]. split; [now apply round32_ge | now apply round32_le].
Qed.

(** The spawn gives the first tick what the theorems on ticks assume:
    arrays of the lengths allocated, finite binary32 values in all slots,
    particles between [0] and the stored screen dimension, velocity
    components within 5/2, and radii in [[3/2, 3]], so that two radii add
    up to less than [CELL_SIZE]. *)
Theorem spawn_population (count : nat) (width height : R)
    (rnd : nat -> num) (i : nat) :
  0 <= width -> 0 <= height -> uniform rnd -> (i < count)%nat ->
  wf_state (setup count width height) (F32.init count width height rnd) /\
  exists x y vx vy rr : R,
    body_at (p (F32.init count width height rnd)) i
    = B.mk (Fin x) (Fin y) (Fin vx) (Fin vy) /\
    rd (P.radius (p (F32.init count width height rnd))) i = Fin rr /\
    (round32 x = x /\ round32 y = y /\ round32 vx = vx /\ round32 vy = vy /\
     round32 rr = rr) /\
    0 <= x <= round32 width /\ 0 <= y <= round32 height /\
    - (5 / 2) <= vx <= 5 / 2 /\ - (5 / 2) <= vy <= 5 / 2 /\
    3 / 2 <= rr <= 3.
Proof.
  intros Hw Hh Hu Hi. split.
  - destruct (supto_shape count (Fin width) (Fin height) rnd count)
      as [Hs Hr].
    unfold shape in Hs. injection Hs as Hx Hy Hvx Hvy.
    unfold wf_state, F32.init, F32.spawn, setup.
    cbn [p gridHead nextParticle particleCount gridW gridH].
    rewrite !length_replicate. repeat split; assumption.
  - destruct (supto_slots count (Fin width) (Fin height) rnd count i)
      as [Hb Hr]; [lia | assumption |].
    unfold F32.init, F32.spawn. cbn [p]. rewrite Hb, Hr.
    destruct (Hu (5 * i)%nat) as (u0 & -> & H0).
    destruct (Hu (5 * i + 1)%nat) as (u1 & -> & H1).
    destruct (Hu (5 * i + 2)%nat) as (u2 & -> & H2).
    destruct (Hu (5 * i + 3)%nat) as (u3 & -> & H3).
    destruct (Hu (5 * i + 4)%nat) as (u4 & -> & H4).
    cbn [JS.mul JS.add JS.sub JS.neg fround].
    do 5 eexists. split; [reflexivity |]. split; [reflexivity |].
    split; [repeat split; apply round32_idem |].
    assert (S5 : round32 (5 / 2) = 5 / 2) by now apply (round32_half 5).
    assert (S5' : round32 (- (5 / 2)) = - (5 / 2))
      by now rewrite round32_opp, S5.
    assert (S3 : round32 (3 / 2) = 3 / 2) by now apply (round32_half 3).
    split; [split; [apply round32_nonneg | apply round32_mono]; nra |].
    split; [split; [apply round32_nonneg | apply round32_mono]; nra |].
    split; [apply round32_between; [assumption .. | lra] |].
    split; [apply round32_between; [assumption .. | lra] |].
    apply round32_between; [assumption | apply round32_3 | lra].
Qed.

Lemma rnd_half_uniform : uniform rnd_half.
Proof. intros k. exists (1 / 2). split; [reflexivity | lra]. Qed.

Lemma spawn_population_witness :
  wf_state (setup 2 24 24) (F32.init 2 24 24 rnd_half) /\
  exists x y vx vy rr : R,
    body_at (p (F32.init 2 24 24 rnd_half)) 1
    = B.mk (Fin x) (Fin y) (Fin vx) (Fin vy) /\
    rd (P.radius (p (F32.init 2 24 24 rnd_half))) 1 = Fin rr /\
    (round32 x = x /\ round32 y = y /\ round32 vx = vx /\ round32 vy = vy /\
     round32 rr = rr) /\
    0 <= x <= round32 24 /\ 0 <= y <= round32 24 /\
    - (5 / 2) <= vx <= 5 / 2 /\ - (5 / 2) <= vy <= 5 / 2 /\
    3 / 2 <= rr <= 3.
Proof.
  apply (spawn_population 2 24 24 rnd_half 1).
  - lra.
  - lra.
  - exact rnd_half_uniform.
  - lia.
Defined.

(** ** Finite slots stay finite on [Float32Array]s *)

Lemma rd_insert_finite (a : list num) (i m : nat) (v : num) :
  isFinite v = true -> isFinite (rd a m) = true ->
  isFinite (rd (<[i := v]> a) m) = true.
Proof.
  intros Hv Ha. destruct (Nat.eq_dec i m) as [-> | Hne].
  - destruct (Nat.lt_ge_cases m (length a)) as [Hlt | Hge].
    + now rewrite rd_insert_eq.
    + rewrite rd_out in Ha by assumption. discriminate Ha.
  - now rewrite rd_insert_ne.
Qed.

Lemma rd_wrZ_finite (a : list num) (j : Z) (m : nat) (v : num) :
  isFinite v = true -> isFinite (rd a m) = true ->
  isFinite (rd (wrZ a j v) m) = true.
Proof.
  intros Hv Ha. unfold wrZ. destruct (j <? 0)%Z; [exact Ha |].
  now apply rd_insert_finite.
Qed.

Lemma f32_velocity_response_radius (i : nat) (j : Z) (nx ny : num) (q : P.t) :
  P.radius (F32.velocity_response i j nx ny q) = P.radius q.
Proof. unfold F32.velocity_response. destruct (_ <? _)%J; reflexivity. Qed.

Lemma f32_collide_radius (i : nat) (j : Z) (q : P.t) :
  P.radius (F32.collide i j q) = P.radius q.
Proof.
  unfold F32.collide. destruct (negb _); [| reflexivity].
  destruct (overlapping q i j); [| reflexivity].
  unfold F32.resolve. destruct (contact q i j) as [[nx ny] overlap].
  now rewrite f32_velocity_response_radius.
Qed.

(** The resolution of a pair keeps a finite population finite. *)
Lemma f32_collide_finite (n : nat) (i : nat) (j : Z) (q : P.t) :
  finite_population n q -> finite_population n (F32.collide i j q).
Proof.
  intros (Hs & Hr & Hf).
  destruct (Z.eq_dec (Z.of_nat i) j) as [E | E];
    [subst j; rewrite f32_collide_self; exact (conj Hs (conj Hr Hf)) |].
  destruct (overlapping q i j) eqn:Hov;
    [| rewrite f32_collide_unfold, Hov by assumption;
       exact (conj Hs (conj Hr Hf))].
  assert (Hrad : finite_radii q).
  { intros k Hk. rewrite Hr in Hk. now apply Hf. }
  destruct (overlapping_finite q i j Hrad Hov)
    as (xi & yi & ri & xj & yj & rj & Hxi & Hyi & Hri & Hxj & Hyj & Hrj).
  unfold shape in Hs. injection Hs as Lx Ly Lvx Lvy.
  assert (Hi : (i < n)%nat) by (rewrite <- Lx; eapply rd_Fin_lt; eassumption).
  pose proof (rdZ_Fin_range _ _ _ Hxj) as [Hj0 Hjn]. rewrite Lx in Hjn.
  destruct (Hf i Hi) as [_ (_ & _ & Hvxi & Hvyi)].
  destruct (Hf (Z.to_nat j) Hjn) as [_ (_ & _ & Hvxj & Hvyj)].
  cbn [body_at B.vx B.vy] in Hvxi, Hvyi, Hvxj, Hvyj.
  rewrite <- rdZ_of_nat', Z2Nat.id in Hvxj, Hvyj by assumption.
  apply isFinite_Fin in Hvxi, Hvyi, Hvxj, Hvyj.
  destruct Hvxi as [vxi Hvxi], Hvyi as [vyi Hvyi].
  destruct Hvxj as [vxj Hvxj], Hvyj as [vyj Hvyj].
  apply (overlapping_iff q i _ xi yi ri xj yj rj) in Hov; try assumption.
  set (D := (xi - xj) * (xi - xj) + (yi - yj) * (yi - yj)) in *.
  assert (Hd : 0 < R_sqrt.sqrt D) by (apply sqrt_lt_R0; lra).
  assert (Hdd : R_sqrt.sqrt D * R_sqrt.sqrt D = D) by (apply sqrt_sqrt; lra).
  set (d := R_sqrt.sqrt D) in *.
  assert (Hov' : 1 / 1000 < d * d < (ri + rj) * (ri + rj))
    by (rewrite Hdd; exact Hov).
  rewrite (f32_collide_hit q i j xi yi ri xj yj rj E Hxi Hyi Hri Hxj Hyj Hrj
             d Hd Hdd Hov').
  set (nx := (xi - xj) / d). set (ny := (yi - yj) / d).
  match goal with
  | |- finite_population n (F32.velocity_response i j _ _ ?t) =>
      set (q1 := t)
  end.
  assert (H1 : finite_population n q1).
  { subst q1. split; [| split].
    - unfold shape. cbn [P.x P.y P.vx P.vy].
      rewrite !wrZ_length, !length_insert. congruence.
    - exact Hr.
    - intros k Hk. destruct (Hf k Hk) as [Hrk (Hx & Hy & Hvx & Hvy)].
      split; [exact Hrk |].
      unfold finite_body, body_at in *. cbn [B.x B.y B.vx B.vy P.x P.y P.vx P.vy] in *.
      repeat split; try assumption;
        apply rd_wrZ_finite; try reflexivity;
        apply rd_insert_finite; try reflexivity; assumption. }
  assert (Hvxi1 : rd (P.vx q1) i = Fin vxi) by exact Hvxi.
  assert (Hvyi1 : rd (P.vy q1) i = Fin vyi) by exact Hvyi.
  assert (Hvxj1 : rdZ (P.vx q1) j = Fin vxj) by exact Hvxj.
  assert (Hvyj1 : rdZ (P.vy q1) j = Fin vyj) by exact Hvyj.
  clearbody q1.
  destruct (Rlt_le_dec ((vxi - vxj) * nx + (vyi - vyj) * ny) 0) as [Hdot | Hdot].
  - rewrite (f32_velocity_response_approaching q1 i j vxi vyi vxj vyj
               E Hvxi1 Hvyi1 Hvxj1 Hvyj1 nx ny Hdot).
    destruct H1 as (Hs1 & Hr1 & Hf1).
    unfold shape in Hs1. injection Hs1 as Mx My Mvx Mvy.
    split; [| split].
    + unfold shape. cbn [P.x P.y P.vx P.vy].
      rewrite !wrZ_length, !length_insert. congruence.
    + exact Hr1.
    + intros k Hk. destruct (Hf1 k Hk) as [Hrk (Hx & Hy & Hvx & Hvy)].
      split; [exact Hrk |].
      unfold finite_body, body_at in *.
      cbn [B.x B.y B.vx B.vy P.x P.y P.vx P.vy] in *.
      repeat split; try assumption;
        apply rd_wrZ_finite; try reflexivity;
        apply rd_insert_finite; try reflexivity; assumption.
  - rewrite (f32_velocity_response_separating q1 i j vxi vyi vxj vyj
               Hvxi1 Hvyi1 Hvxj1 Hvyj1 nx ny Hdot).
    exact H1.
Qed.

(** What every resolution of a pair preserves, Pass 2 preserves. *)
Section Pass2InvariantF32.

Variable Q : P.t -> Prop.
Hypothesis collide_Q : forall (i : nat) (j : Z) (q : P.t),
  Q q -> Q (F32.collide i j q).

Lemma f32_walk_invariant (budget : nat) (next : list Z) (i : nat) (j : Z)
    (iterations : nat) (q : P.t) :
  Q q -> Q (fst (F32.walk budget next i j iterations q)).
Proof.
  revert j iterations q.
  induction budget as [| b IH]; intros j it q Hq; [exact Hq |].
  cbn [F32.walk]. destruct (j =? -1)%Z; [exact Hq |].
  apply IH, collide_Q, Hq.
Qed.

Lemma f32_scan_invariant (cfg : Setup) (head next : list Z) (i : nat)
    (cx cy : Z) (ds : list (Z * Z)) (acc : P.t * list nat) :
  Q (fst acc) ->
  Q (fst (fold_left (F32.scan_cell cfg head next i cx cy) ds acc)).
Proof.
  revert acc. induction ds as [| d ds IH]; intros acc Hq; cbn [fold_left].
  - exact Hq.
  - apply IH. unfold F32.scan_cell. destruct (in_grid _ _ _); [| exact Hq].
    pose proof (f32_walk_invariant MAX_ITERATIONS next i
                  (rdI head ((cy + snd d) * gridW cfg + (cx + fst d))) 0
                  (fst acc) Hq) as Hw.
    destruct (F32.walk _ _ _ _ _ _) as [q' n]. exact Hw.
Qed.

Lemma f32_pass2_invariant (cfg : Setup) (head next : list Z) (q : P.t) :
  Q q -> Q (F32.pass2 cfg head next q).
Proof.
  unfold F32.pass2. generalize (seq 0 (particleCount cfg)). intros l.
  revert q. induction l as [| i l IH]; intros q Hq; cbn [fold_left].
  - exact Hq.
  - apply IH. unfold F32.pass2_body. now apply f32_scan_invariant.
Qed.

End Pass2InvariantF32.

Lemma f32_tick_radius (cfg : Setup) (screenW screenH : num)
    (hands : list Hand.t) (rnd : nat -> num) (st : State) :
  P.radius (p (F32.tick cfg screenW screenH hands rnd st)) = P.radius (p st).
Proof.
  unfold F32.tick. cbn [p].
  rewrite <- (f32_after_pass1_radius cfg screenW screenH hands rnd st).
  apply (f32_pass2_invariant
           (fun q => P.radius q
                     = P.radius (p (F32.after_pass1 cfg screenW screenH hands
                                      rnd st)))).
  - intros i j q Hq. now rewrite f32_collide_radius.
  - reflexivity.
Qed.

(** A tick of a finite frame keeps a finite population finite, with its
    arrays and its grid of the lengths they were allocated with. *)
Lemma f32_tick_finite (cfg : Setup) (f : Frame) (st : State) :
  finite_frame f ->
  wf_state cfg st /\ finite_population (particleCount cfg) (p st) ->
  wf_state cfg (F32.tick cfg (frame_screenW f) (frame_screenH f)
                  (frame_hands f) (frame_rnd f) st) /\
  finite_population (particleCount cfg)
    (p (F32.tick cfg (frame_screenW f) (frame_screenH f) (frame_hands f)
          (frame_rnd f) st)).
Proof.
  intros (HW & HH & Hh & _) [Hwf Hp].
  apply isFinite_Fin in HW, HH. destruct HW as [w ->], HH as [h ->].
  set (st1 := F32.after_pass1 cfg (Fin w) (Fin h) (frame_hands f) (frame_rnd f)
                st).
  pose proof (f32_after_pass1_wf cfg (Fin w) (Fin h) (frame_hands f)
                (frame_rnd f) st Hwf) as Hwf1. fold st1 in Hwf1.
  assert (H1 : finite_population (particleCount cfg) (p st1)).
  { destruct Hwf1 as (Lx & Ly & Lvx & Lvy & Lr & _).
    destruct Hp as (_ & _ & Hf).
    split; [unfold shape; congruence |]. split; [exact Lr |].
    intros k Hk. destruct (Hf k Hk) as [Hrk Hbk]. subst st1.
    rewrite f32_after_pass1_radius, f32_after_pass1_slots by assumption.
    split; [exact Hrk |].
    apply isFinite_Fin in Hrk. destruct Hrk as [rr Hrr].
    destruct (f32_pass1_slots_finite w h rr (frame_hands f) (frame_rnd f)
                (p st) k Hh Hbk Hrr) as (x & y & vx & vy & -> & _).
    repeat split. }
  assert (H2 : finite_population (particleCount cfg)
                 (F32.pass2 cfg (gridHead st1) (nextParticle st1) (p st1))).
  { apply f32_pass2_invariant; [| exact H1].
    intros i j q. apply f32_collide_finite. }
  split; [| exact H2].
  destruct Hwf1 as (_ & _ & _ & _ & _ & Lh & Ln).
  destruct H2 as (Hs & Hr & _). unfold shape in Hs. injection Hs as Lx Ly Lvx Lvy.
  unfold wf_state, F32.tick. fold st1. cbn [p gridHead nextParticle].
  repeat split; assumption.
Qed.

Lemma f32_run_invariant (cfg : Setup) (Q : State -> Prop) :
  (forall (f : Frame) (st : State),
     finite_frame f -> Q st ->
     Q (F32.tick cfg (frame_screenW f) (frame_screenH f) (frame_hands f)
          (frame_rnd f) st)) ->
  forall (frames : list Frame) (st : State),
    Forall finite_frame frames -> Q st -> Q (F32.run cfg frames st).
Proof.
  intros Htick frames. unfold F32.run.
  induction frames as [| f frames IH]; intros st Hf Hq; cbn [fold_left].
  - exact Hq.
  - inversion Hf as [| f' frames' Hf1 Hf2]; subst. auto.
Qed.

Lemma f32_run_radius (cfg : Setup) (frames : list Frame) (st : State) :
  P.radius (p (F32.run cfg frames st)) = P.radius (p st).
Proof.
  unfold F32.run. revert st.
  induction frames as [| f frames IH]; intros st; cbn [fold_left].
  - reflexivity.
  - rewrite IH. apply f32_tick_radius.
Qed.

(** The population the spawn leaves is finite, with radii that are
    binary32 values between 3/2 and 3. *)
Lemma f32_init_steady (count : nat) (width height : R) (rnd : nat -> num) :
  uniform rnd ->
  wf_state (setup count width height) (F32.init count width height rnd) /\
  finite_population count (p (F32.init count width height rnd)) /\
  forall k : nat,
    (k < count)%nat ->
    exists rr : R,
      rd (P.radius (p (F32.init count width height rnd))) k = Fin rr /\
      round32 rr = rr /\ 3 / 2 <= rr <= 3.
Proof.
  intros Hu.
  destruct (supto_shape count (Fin width) (Fin height) rnd count) as [Hs Hr].
  assert (Hrad : forall k : nat,
    (k < count)%nat ->
    exists rr : R,
      rd (P.radius (p (F32.init count width height rnd))) k = Fin rr /\
      round32 rr = rr /\ 3 / 2 <= rr <= 3).
  { intros k Hk.
    destruct (supto_slots count (Fin width) (Fin height) rnd count k)
      as [_ Hrk]; [lia | assumption |].
    unfold F32.init, F32.spawn. cbn [p]. rewrite Hrk.
    destruct (Hu (5 * k + 4)%nat) as (u4 & -> & H4).
    cbn [JS.mul JS.add fround]. eexists. split; [reflexivity |].
    split; [apply round32_idem |].
    apply round32_between;
      [now apply (round32_half 3) | apply round32_3 | lra]. }
  split; [| split; [| exact Hrad]].
  - unfold shape in Hs. injection Hs as Hx Hy Hvx Hvy.
    unfold wf_state, F32.init, F32.spawn, setup.
    cbn [p gridHead nextParticle particleCount gridW gridH].
    rewrite !length_replicate. repeat split; assumption.
  - split; [exact Hs |]. split; [exact Hr |].
    intros k Hk. split.
    + destruct (Hrad k Hk) as (rr & -> & _). reflexivity.
    + destruct (supto_slots count (Fin width) (Fin height) rnd count k)
        as [Hb _]; [lia | assumption |].
      unfold F32.init, F32.spawn. cbn [p]. rewrite Hb.
      destruct (Hu (5 * k)%nat) as (u0 & -> & _).
      destruct (Hu (5 * k + 1)%nat) as (u1 & -> & _).
      destruct (Hu (5 * k + 2)%nat) as (u2 & -> & _).
      destruct (Hu (5 * k + 3)%nat) as (u3 & -> & _).
      repeat split.
Qed.

(** From the spawn on a screen of non-negative dimensions, over frames
    with finite screens, hands of finite velocity and finite random
    numbers, every particle lies after Pass 1 of every frame whose screen
    is at least 6 wide and high between its radius and the value the clamp
    stores on the far side, whatever the sizes of the screens before. *)
Theorem spawned_particles_on_screen (count : nat) (width height : R)
    (rnd0 : nat -> num) (frames : list Frame) (f : Frame) (w h : R)
    (i : nat) :
  0 <= width -> 0 <= height -> uniform rnd0 ->
  Forall finite_frame frames -> finite_frame f ->
  frame_screenW f = Fin w -> frame_screenH f = Fin h ->
  6 <= w -> 6 <= h -> (i < count)%nat ->
  in_stored_bounds (Fin w) (Fin h)
    (rd (P.radius
           (p (F32.run (setup count width height) frames
                 (F32.init count width height rnd0)))) i)
    (body_at
       (p (F32.after_pass1 (setup count width height) (Fin w) (Fin h)
             (frame_hands f) (frame_rnd f)
             (F32.run (setup count width height) frames
                (F32.init count width height rnd0)))) i).
Proof.
  intros _ _ Hu Hfs (_ & _ & Hhands & _) _ _ Hw Hh Hi.
  destruct (f32_init_steady count width height rnd0 Hu) as (H0 & Hp0 & Hr).
  set (cfg := setup count width height) in *.
  set (st0 := F32.init count width height rnd0) in *.
  assert (H : wf_state cfg (F32.run cfg frames st0) /\
              finite_population (particleCount cfg) (p (F32.run cfg frames st0))).
  { apply (f32_run_invariant cfg
             (fun st => wf_state cfg st /\
                        finite_population (particleCount cfg) (p st)));
      [| assumption | now split].
    intros f' st Hf' Hst. now apply f32_tick_finite. }
  destruct H as [Hwf (_ & _ & Hfin)].
  destruct (Hr i Hi) as (rr & Hrr & Hsr & Hb).
  rewrite f32_run_radius, Hrr.
  rewrite f32_after_pass1_slots by assumption.
  destruct (f32_pass1_slots_finite w h rr (frame_hands f) (frame_rnd f)
              (p (F32.run cfg frames st0)) i Hhands)
    as (x & y & vx & vy & -> & _ & _ & _ & Hx & Hy).
  - now apply Hfin.
  - now rewrite f32_run_radius.
  - unfold in_stored_bounds. cbn [B.x B.y JS.sub JS.add JS.neg le fround].
    specialize (Hx Hsr ltac:(lra)). specialize (Hy Hsr ltac:(lra)).
    replace (w + - rr) with (w - rr) by lra.
    replace (h + - rr) with (h - rr) by lra. tauto.
Qed.

Lemma spawned_particles_on_screen_witness :
  in_stored_bounds (Fin 24) (Fin 24)
    (rd (P.radius
           (p (F32.run (setup 2 24 24)
                 [mkFrame (Fin 24) (Fin 24) [hand_palm] rnd_half]
                 (F32.init 2 24 24 rnd_half)))) 1)
    (body_at
       (p (F32.after_pass1 (setup 2 24 24) (Fin 24) (Fin 24)
             (frame_hands (mkFrame (Fin 24) (Fin 24) [] rnd_zero))
             (frame_rnd (mkFrame (Fin 24) (Fin 24) [] rnd_zero))
             (F32.run (setup 2 24 24)
                [mkFrame (Fin 24) (Fin 24) [hand_palm] rnd_half]
                (F32.init 2 24 24 rnd_half)))) 1).
Proof.
  apply (spawned_particles_on_screen 2 24 24 rnd_half
           [mkFrame (Fin 24) (Fin 24) [hand_palm] rnd_half]
           (mkFrame (Fin 24) (Fin 24) [] rnd_zero) 24 24 1).
  - lra.
  - lra.
  - exact rnd_half_uniform.
  - constructor; [| constructor]. exact sample_frame_finite.
  - split; [reflexivity |]. split; [reflexivity |].
    split; [constructor | intros k; reflexivity].
  - reflexivity.
  - reflexivity.
  - lra.
  - lra.
  - lia.
Defined.

(** ** Free fall on [Float32Array]s *)

Lemma round32_abs (x : R) : round32 (Rabs x) = Rabs (round32 x).
Proof.
  unfold Rabs at 1. destruct (Rcase_abs x) as [H | H].
  - rewrite round32_opp. pose proof (round32_nonpos x ltac:(lra)).
    unfold Rabs. destruct (Rcase_abs (round32 x)); lra.
  - pose proof (round32_nonneg x ltac:(lra)).
    unfold Rabs. destruct (Rcase_abs (round32 x)); lra.
Qed.

(** A store does not take a value beyond a bound that is a binary32
    value. *)
Lemma round32_abs_le (x b : R) :
  round32 b = b -> Rabs x <= b -> Rabs (round32 x) <= b.
Proof.
  intros Hb H. rewrite <- round32_abs, <- Hb. now apply round32_mono.
Qed.

Lemma round32_abs_stored (v : R) : round32 v = v -> round32 (Rabs v) = Rabs v.
Proof. intros H. now rewrite round32_abs, H. Qed.

Lemma f32_clamp_vel_abs (v : R) :
  round32 v = v ->
  exists v' : R,
    F32.clamp_vel (Fin v) = Fin v' /\ Rabs v' <= Rabs v /\ round32 v' = v' /\
    (- 250 <= v <= 250 -> v' = v).
Proof.
  intros Hs. unfold F32.clamp_vel, MAX_VEL, JS.gt. cbn [JS.lt JS.neg fround].
  rewrite round32_m250, round32_250.
  destruct (Rlt_le_dec 250 v) as [H1 | H1].
  - rewrite Rltb_true by assumption. exists 250.
    split; [reflexivity |]. split; [| split; [apply round32_250 | lra]].
    rewrite !Rabs_right by lra. lra.
  - rewrite Rltb_false by assumption.
    destruct (Rlt_le_dec v (- 250)) as [H2 | H2].
    + rewrite Rltb_true by assumption. exists (- (250)).
      split; [reflexivity |]. split; [| split; [apply round32_m250 | lra]].
      rewrite !Rabs_left by lra. lra.
    + rewrite Rltb_false by assumption. exists v.
      split; [reflexivity |]. split; [lra | tauto].
Qed.

(** One axis of the boundary resolution: the speed does not grow. *)
Lemma f32_boundary_axis_abs (hi lo c v bounce : R) :
  0 <= bounce <= 1 -> round32 v = v ->
  exists c' v' : R,
    (if (Fin c >? Fin hi - Fin lo)%J
     then (fround (Fin hi - Fin lo), fround (Fin v * - Fin bounce))
     else if (Fin c <? Fin lo)%J
          then (fround (Fin lo), fround (Fin v * - Fin (3 / 10)))
          else (Fin c, Fin v))
    = (Fin c', Fin v') /\
    Rabs v' <= Rabs v.
Proof.
  intros Hb Hs. unfold JS.gt.
  cbn [JS.lt JS.sub JS.add JS.neg JS.mul fround].
  assert (Hbounce : forall k : R,
    0 <= k <= 1 -> Rabs (round32 (v * - k)) <= Rabs v).
  { intros k Hk. apply round32_abs_le; [now apply round32_abs_stored |].
    rewrite Rabs_mult, Rabs_Ropp, (Rabs_right k) by lra.
    pose proof (Rabs_pos v). nra. }
  destruct (Rlt_le_dec (hi + - lo) c) as [H1 | H1].
  - rewrite Rltb_true by assumption. do 2 eexists.
    split; [reflexivity | now apply Hbounce].
  - rewrite Rltb_false by assumption.
    destruct (Rlt_le_dec c lo) as [H2 | H2].
    + rewrite Rltb_true by assumption. do 2 eexists.
      split; [reflexivity | apply Hbounce; lra].
    + rewrite Rltb_false by assumption. do 2 eexists.
      split; [reflexivity | lra].
Qed.

Lemma round32_49_2 : round32 (49 / 2) = 49 / 2.
Proof. now apply (round32_half 49). Qed.

(** With no hand in the frame, Pass 1 is gravity, friction, clamp, move
    and boundaries: the horizontal speed of a particle with finite slots
    does not grow, and a vertical speed within the terminal velocity
    [49/2] of the fall stays within it. *)
Theorem free_fall_speed (cfg : Setup) (rnd : nat -> num) (st : State)
    (i : nat) (w h rr px py vx vy : R) :
  wf_state cfg st -> (i < particleCount cfg)%nat ->
  body_at (p st) i = B.mk (Fin px) (Fin py) (Fin vx) (Fin vy) ->
  stored (Fin vx) ->
  rd (P.radius (p st)) i = Fin rr ->
  exists x' y' vx' vy' : R,
    body_at (p (F32.after_pass1 cfg (Fin w) (Fin h) [] rnd st)) i
    = B.mk (Fin x') (Fin y') (Fin vx') (Fin vy') /\
    Rabs vx' <= Rabs vx /\
    (Rabs vy <= 49 / 2 -> Rabs vy' <= 49 / 2).
Proof.
  intros Hwf Hi Hb Hsx Hr. apply stored_Fin in Hsx.
  rewrite f32_after_pass1_slots by assumption.
  unfold F32.pass1_slots. rewrite Hr, Hb.
  change (F32.respawn_safety (Fin w) (Fin h) (rnd i)
            (B.mk (Fin px) (Fin py) (Fin vx) (Fin vy)))
    with (B.mk (Fin px) (Fin py) (Fin vx) (Fin vy)).
  rewrite f32_advance_alone, f32_integrate_Fin.
  set (vx1 := round32 (round32 (vx + 0 * (1 / 60)) * (98 / 100))).
  set (vy1 := round32 (round32 (vy + 30 * (1 / 60)) * (98 / 100))).
  unfold F32.max_velocity. cbn [B.x B.y B.vx B.vy].
  destruct (f32_clamp_vel_abs vx1 (round32_idem _))
    as (cvx & -> & Hcvx & Hscvx & _).
  destruct (f32_clamp_vel_abs vy1 (round32_idem _))
    as (cvy & -> & Hcvy & Hscvy & _).
  rewrite f32_move_Fin.
  unfold F32.boundaries, BOUNCE_GROUND, BOUNCE_WALL. cbn [B.x B.y B.vx B.vy].
  destruct (f32_boundary_axis_abs h rr (round32 (py + cvy * (1 / 60) * 5)) cvy
              (3 / 10))
    as (y' & vy' & -> & Hvy'); [lra | assumption |].
  destruct (f32_boundary_axis_abs w rr (round32 (px + cvx * (1 / 60) * 5)) cvx
              (3 / 10))
    as (x' & vx' & -> & Hvx'); [lra | assumption |].
  exists x', y', vx', vy'. split; [reflexivity |]. split.
  - assert (H1 : Rabs vx1 <= Rabs vx).
    { subst vx1. replace (vx + 0 * (1 / 60)) with vx by lra. rewrite Hsx.
      apply round32_abs_le; [now apply round32_abs_stored |].
      rewrite Rabs_mult, (Rabs_right (98 / 100)) by lra.
      pose proof (Rabs_pos vx). lra. }
    lra.
  - intros Hv. apply Rabs_bound in Hv.
    assert (H1 : Rabs vy1 <= 49 / 2).
    { subst vy1. apply round32_abs_le; [apply round32_49_2 |].
      assert (H2 : Rabs (round32 (vy + 30 * (1 / 60))) <= 25).
      { apply round32_abs_le; [now apply (round32_int 25) |].
        apply Rabs_le. lra. }
      rewrite Rabs_mult, (Rabs_right (98 / 100)) by lra. lra. }
    lra.
Qed.

Lemma round32_0_stored : stored (Fin 0).
Proof. apply stored_Fin, round32_0. Qed.

Lemma free_fall_speed_witness :
  exists x' y' vx' vy' : R,
    body_at (p (F32.after_pass1 cfg_two (Fin 24) (Fin 24) [] rnd_half st_wall)) 0
    = B.mk (Fin x') (Fin y') (Fin vx') (Fin vy') /\
    Rabs vx' <= Rabs 0 /\
    (Rabs 0 <= 49 / 2 -> Rabs vy' <= 49 / 2).
Proof.
  apply (free_fall_speed cfg_two rnd_half st_wall 0 24 24 2 2 22 0 0).
  - exact st_wall_wf.
  - cbn. lia.
  - reflexivity.
  - exact round32_0_stored.
  - reflexivity.
Defined.

Lemma bpow_m24 : bpow (-24) = / 16777216.
Proof.
  pose proof (bpow_cancel 24) as H. rewrite (bpow_IZR 24) in H by lia.
  change (- (24))%Z with (-24)%Z in H.
  change (IZR (2 ^ 24)) with 16777216 in H.
  apply Rmult_eq_reg_l with 16777216; [| lra]. rewrite H. field.
Qed.

(** What a store leaves unchanged was less than a unit in the last place
    away. *)
Lemma round32_absorbs (g t : R) :
  0 <= g -> g <= t -> round32 t = g ->
  t - g <= bpow (-24) * t + bpow (-150).
Proof.
  intros Hg Ht H. pose proof (round32_error t) as E.
  rewrite H, Rabs_minus_sym, !Rabs_right in E by lra. exact E.
Qed.

(** A particle resting on the ground stays on the ground: with no hand
    in the frame, a particle at the value the clamp stores for the ground,
    whose vertical velocity is in [(-1/2, 1/2)], is there again after
    Pass 1, with a vertical velocity in the same interval. *)
Theorem rest_on_ground (cfg : Setup) (rnd : nat -> num) (st : State)
    (i : nat) (w h rr px vx vy : R) :
  wf_state cfg st -> (i < particleCount cfg)%nat ->
  body_at (p st) i
  = B.mk (Fin px) (Fin (round32 (h - rr))) (Fin vx) (Fin vy) ->
  rd (P.radius (p st)) i = Fin rr -> stored (Fin rr) ->
  0 <= rr -> 2 * rr <= h -> h <= 65536 ->
  - 1 / 2 < vy < 1 / 2 ->
  exists x' vx' vy' : R,
    body_at (p (F32.after_pass1 cfg (Fin w) (Fin h) [] rnd st)) i
    = B.mk (Fin x') (Fin (round32 (h - rr))) (Fin vx') (Fin vy') /\
    - 1 / 2 < vy' < 1 / 2.
Proof.
  intros Hwf Hi Hb Hr Hsr Hrr Hh Hmax Hvy. apply stored_Fin in Hsr.
  rewrite f32_after_pass1_slots by assumption.
  unfold F32.pass1_slots. rewrite Hr, Hb.
  set (g := round32 (h - rr)).
  change (F32.respawn_safety (Fin w) (Fin h) (rnd i)
            (B.mk (Fin px) (Fin g) (Fin vx) (Fin vy)))
    with (B.mk (Fin px) (Fin g) (Fin vx) (Fin vy)).
  rewrite f32_advance_alone, f32_integrate_Fin.
  set (vx1 := round32 (round32 (vx + 0 * (1 / 60)) * (98 / 100))).
  set (vy1 := round32 (round32 (vy + 30 * (1 / 60)) * (98 / 100))).
  assert (S1 : round32 1 = 1) by now apply (round32_int 1).
  assert (Hvy1 : 0 <= vy1 <= 1).
  { assert (Ha : 0 <= round32 (vy + 30 * (1 / 60)) <= 1).
    { split; [apply round32_nonneg; lra |].
      apply round32_le; [exact S1 | lra]. }
    subst vy1. split; [apply round32_nonneg; nra |].
    apply round32_le; [exact S1 | nra]. }
  assert (Hg : rr <= g).
  { subst g. apply round32_ge; [exact Hsr | lra]. }
  assert (Hg' : g <= 65536).
  { subst g. apply round32_le; [now apply (round32_int 65536) | lra]. }
  assert (Hsg : round32 g = g) by apply round32_idem.
  unfold F32.max_velocity. cbn [B.x B.y B.vx B.vy].
  destruct (f32_clamp_vel_Fin vx1 (round32_idem _))
    as (cvx & -> & Hcvx & Hscvx).
  destruct (f32_clamp_vel_abs vy1 (round32_idem _))
    as (cvy & -> & _ & _ & Hcvy).
  specialize (Hcvy ltac:(lra)). subst cvy.
  rewrite f32_move_Fin.
  set (y1 := round32 (g + vy1 * (1 / 60) * 5)).
  assert (Hy1 : g <= y1).
  { subst y1. apply round32_ge; [exact Hsg | lra]. }
  unfold F32.boundaries, BOUNCE_GROUND, BOUNCE_WALL. cbn [B.x B.y B.vx B.vy].
  destruct (f32_boundary_axis w rr (round32 (px + cvx * (1 / 60) * 5)) cvx
              (3 / 10))
    as (x' & vx' & -> & _);
    [assumption | lra | apply round32_idem | assumption |].
  unfold JS.gt. cbn [JS.lt JS.sub JS.add JS.neg JS.mul fround].
  replace (h + - rr) with (h - rr) by lra. fold g.
  destruct (Rlt_le_dec (h - rr) y1) as [H1 | H1].
  - rewrite Rltb_true by assumption.
    exists x', vx', (round32 (vy1 * - (3 / 10))).
    split; [reflexivity |].
    assert (S38 : round32 (- (3 / 8)) = - (3 / 8)).
    { rewrite round32_opp. f_equal.
      apply (round32_dyadic _ 3 3 8); [lia | reflexivity | reflexivity | lra]. }
    pose proof (round32_ge (vy1 * - (3 / 10)) (- (3 / 8)) S38 ltac:(lra)).
    pose proof (round32_nonpos (vy1 * - (3 / 10)) ltac:(lra)).
    lra.
  - rewrite Rltb_false by assumption.
    rewrite Rltb_false by lra.
    assert (Hy : y1 = g).
    { apply Rle_antisym; [| exact Hy1].
      replace y1 with (round32 y1) by apply round32_idem.
      subst g. now apply round32_mono. }
    rewrite Hy. exists x', vx', vy1. split; [reflexivity |].
    pose proof (round32_absorbs g (g + vy1 * (1 / 60) * 5) ltac:(lra)
                  ltac:(lra) Hy) as Ha.
    pose proof (bpow_le (-150) (-24) ltac:(lia)) as Hb150.
    rewrite bpow_m24 in Ha, Hb150. lra.
Qed.

Lemma rest_on_ground_witness :
  exists x' vx' vy' : R,
    body_at (p (F32.after_pass1 cfg_two (Fin 24) (Fin 24) [] rnd_half st_wall)) 0
    = B.mk (Fin x') (Fin (round32 (24 - 2))) (Fin vx') (Fin vy') /\
    - 1 / 2 < vy' < 1 / 2.
Proof.
  apply (rest_on_ground cfg_two rnd_half st_wall 0 24 24 2 2 0 0).
  - exact st_wall_wf.
  - cbn. lia.
  - unfold st_wall, body_at. cbn. repeat f_equal. symmetry.
    apply (round32_to _ 22 22 0 1); lra || lia || reflexivity.
  - reflexivity.
  - apply stored_Fin, round32_2.
  - lra.
  - lra.
  - lra.
  - lra.
Defined.

(** ** The contact a resolution leaves *)

Lemma norm_sub_additive (u v s t : R) :
  R_sqrt.sqrt ((u + s) * (u + s) + (v + t) * (v + t))
  <= R_sqrt.sqrt (u * u + v * v) + R_sqrt.sqrt (s * s + t * t).
Proof.
  set (U := u * u + v * v). set (S := s * s + t * t).
  assert (HU : 0 <= U) by (subst U; nra).
  assert (HS : 0 <= S) by (subst S; nra).
  pose proof (sqrt_pos U) as HsU. pose proof (sqrt_pos S) as HsS.
  assert (Hcs : u * s + v * t <= R_sqrt.sqrt U * R_sqrt.sqrt S).
  { rewrite <- sqrt_mult by assumption.
    apply Rle_trans with (Rabs (u * s + v * t)); [apply Rle_abs |].
    rewrite <- sqrt_Rsqr_abs. apply sqrt_le_1_alt. unfold Rsqr, U, S.
    pose proof (Rle_0_sqr (u * t - v * s)) as H. unfold Rsqr in H. lra. }
  rewrite <- (sqrt_square (R_sqrt.sqrt U + R_sqrt.sqrt S)) by lra.
  apply sqrt_le_1_alt.
  pose proof (sqrt_sqrt U HU). pose proof (sqrt_sqrt S HS).
  unfold U, S in *. nra.
Qed.

Lemma norm_le_sum (s t : R) :
  R_sqrt.sqrt (s * s + t * t) <= Rabs s + Rabs t.
Proof.
  pose proof (Rabs_pos s). pose proof (Rabs_pos t).
  rewrite <- (sqrt_square (Rabs s + Rabs t)) by lra.
  apply sqrt_le_1_alt.
  pose proof (Rabs_mult s s) as H1. pose proof (Rabs_mult t t) as H2.
  rewrite (Rabs_right (s * s)) in H1 by nra.
  rewrite (Rabs_right (t * t)) in H2 by nra. nra.
Qed.

(** Moving the two ends of a segment moves its length by no more than
    the moves add up to. *)
Lemma norm_perturb (a b e f : R) :
  Rabs (R_sqrt.sqrt ((a + e) * (a + e) + (b + f) * (b + f))
        - R_sqrt.sqrt (a * a + b * b))
  <= Rabs e + Rabs f.
Proof.
  pose proof (norm_sub_additive a b e f) as H1.
  pose proof (norm_sub_additive (a + e) (b + f) (- e) (- f)) as H2.
  replace (a + e + - e) with a in H2 by lra.
  replace (b + f + - f) with b in H2 by lra.
  replace (- e * - e + - f * - f) with (e * e + f * f) in H2 by lra.
  pose proof (norm_le_sum e f). apply Rabs_le. lra.
Qed.

Section CollideReadsF32.

Variables (q : P.t) (i : nat) (j : Z).
Variables xi yi ri xj yj rj : R.
Hypothesis Hij : Z.of_nat i <> j.
Hypothesis Hxi : rd (P.x q) i = Fin xi.
Hypothesis Hyi : rd (P.y q) i = Fin yi.
Hypothesis Hri : rd (P.radius q) i = Fin ri.
Hypothesis Hxj : rdZ (P.x q) j = Fin xj.
Hypothesis Hyj : rdZ (P.y q) j = Fin yj.
Hypothesis Hrj : rdZ (P.radius q) j = Fin rj.
Variable d : R.
Hypothesis Hd : 0 < d.
Hypothesis Hdd : d * d = (xi - xj) * (xi - xj) + (yi - yj) * (yi - yj).
Hypothesis Hov : 1 / 1000 < d * d < (ri + rj) * (ri + rj).

Lemma f32_collide_positions :
  rd (P.x (F32.collide i j q)) i
  = Fin (round32 (xi + (xi - xj) / d * (ri + rj - d) * (1 / 2))) /\
  rdZ (P.x (F32.collide i j q)) j
  = Fin (round32 (xj - (xi - xj) / d * (ri + rj - d) * (1 / 2))) /\
  rd (P.y (F32.collide i j q)) i
  = Fin (round32 (yi + (yi - yj) / d * (ri + rj - d) * (1 / 2))) /\
  rdZ (P.y (F32.collide i j q)) j
  = Fin (round32 (yj - (yi - yj) / d * (ri + rj - d) * (1 / 2))).
Proof.
  rewrite (f32_collide_hit q i j xi yi ri xj yj rj Hij Hxi Hyi Hri Hxj Hyj Hrj
             d Hd Hdd Hov).
  match goal with
  | |- context [F32.velocity_response i j ?nx ?ny ?q1] =>
      destruct (f32_velocity_response_pos i j nx ny q1) as [-> ->]
  end.
  cbn [P.x P.y].
  match goal with
  | |- context [wrZ (<[i := ?a]> (P.x q)) j ?b] =>
      destruct (pair_stores (P.x q) i j xi xj a b Hij Hxi Hxj) as [-> ->]
  end.
  match goal with
  | |- context [wrZ (<[i := ?a]> (P.y q)) j ?b] =>
      destruct (pair_stores (P.y q) i j yi yj a b Hij Hyi Hyj) as [-> ->]
  end.
  repeat split.
Qed.

End CollideReadsF32.

(** Once the loop body has resolved an overlapping pair, the slots of the
    two centres hold the binary32 values nearest to the points [(Xi, Yi)]
    and [(Xj, Yj)] where the centres were along the line through them,
    moved apart about their midpoint to the distance [r_i + r_j]; the
    distance of the stored centres is [r_i + r_j] up to a unit in the last
    place of each of the four coordinates. *)
Theorem overlap_resolved_to_contact (q : P.t) (i : nat) (j : Z)
    (xi yi ri xj yj rj : R) :
  Z.of_nat i <> j ->
  rd (P.x q) i = Fin xi -> rd (P.y q) i = Fin yi ->
  rd (P.radius q) i = Fin ri ->
  rdZ (P.x q) j = Fin xj -> rdZ (P.y q) j = Fin yj ->
  rdZ (P.radius q) j = Fin rj ->
  overlapping q i j = true ->
  exists Xi Yi Xj Yj : R,
    rd (P.x (F32.collide i j q)) i = Fin (round32 Xi) /\
    rd (P.y (F32.collide i j q)) i = Fin (round32 Yi) /\
    rdZ (P.x (F32.collide i j q)) j = Fin (round32 Xj) /\
    rdZ (P.y (F32.collide i j q)) j = Fin (round32 Yj) /\
    (Xi - Xj) * (Xi - Xj) + (Yi - Yj) * (Yi - Yj) = (ri + rj) * (ri + rj) /\
    (Xi - Xj) * (yi - yj) = (Yi - Yj) * (xi - xj) /\
    Xi + Xj = xi + xj /\ Yi + Yj = yi + yj /\
    Rabs (R_sqrt.sqrt
            ((round32 Xi - round32 Xj) * (round32 Xi - round32 Xj)
             + (round32 Yi - round32 Yj) * (round32 Yi - round32 Yj))
          - Rabs (ri + rj))
    <= bpow (-23) * (Rabs (round32 Xi) + Rabs (round32 Xj)
                     + Rabs (round32 Yi) + Rabs (round32 Yj))
       + 4 * bpow (-149).
Proof.
  intros Hij Hxi Hyi Hri Hxj Hyj Hrj Hov.
  apply (overlapping_iff q i j xi yi ri xj yj rj) in Hov; try assumption.
  set (D := (xi - xj) * (xi - xj) + (yi - yj) * (yi - yj)) in *.
  assert (Hd : 0 < R_sqrt.sqrt D) by (apply sqrt_lt_R0; lra).
  assert (Hdd : R_sqrt.sqrt D * R_sqrt.sqrt D = D) by (apply sqrt_sqrt; lra).
  set (d := R_sqrt.sqrt D) in *.
  assert (Hov' : 1 / 1000 < d * d < (ri + rj) * (ri + rj))
    by (rewrite Hdd; exact Hov).
  destruct (f32_collide_positions q i j xi yi ri xj yj rj Hij Hxi Hyi Hri
              Hxj Hyj Hrj d Hd Hdd Hov') as (Hx' & Hxj' & Hy' & Hyj').
  set (Xi := xi + (xi - xj) / d * (ri + rj - d) * (1 / 2)) in *.
  set (Xj := xj - (xi - xj) / d * (ri + rj - d) * (1 / 2)) in *.
  set (Yi := yi + (yi - yj) / d * (ri + rj - d) * (1 / 2)) in *.
  set (Yj := yj - (yi - yj) / d * (ri + rj - d) * (1 / 2)) in *.
  exists Xi, Yi, Xj, Yj.
  split; [exact Hx' |]. split; [exact Hy' |].
  split; [exact Hxj' |]. split; [exact Hyj' |].
  assert (Ex : Xi - Xj = (xi - xj) * ((ri + rj) / d))
    by (subst Xi Xj; field; lra).
  assert (Ey : Yi - Yj = (yi - yj) * ((ri + rj) / d))
    by (subst Yi Yj; field; lra).
  assert (Hsum : (Xi - Xj) * (Xi - Xj) + (Yi - Yj) * (Yi - Yj)
                 = (ri + rj) * (ri + rj)).
  { rewrite Ex, Ey.
    replace ((xi - xj) * ((ri + rj) / d) * ((xi - xj) * ((ri + rj) / d))
             + (yi - yj) * ((ri + rj) / d) * ((yi - yj) * ((ri + rj) / d)))
      with (D * ((ri + rj) * (ri + rj)) / (d * d)) by (subst D; field; lra).
    rewrite Hdd. field. lra. }
  split; [exact Hsum |].
  split; [rewrite Ex, Ey; ring |].
  split; [subst Xi Xj; lra |]. split; [subst Yi Yj; lra |].
  assert (Hn : R_sqrt.sqrt ((Xi - Xj) * (Xi - Xj) + (Yi - Yj) * (Yi - Yj))
               = Rabs (ri + rj)).
  { rewrite Hsum. fold (Rsqr (ri + rj)). apply sqrt_Rsqr_abs. }
  rewrite <- Hn.
  pose proof (norm_perturb (Xi - Xj) (Yi - Yj)
                ((round32 Xi - Xi) - (round32 Xj - Xj))
                ((round32 Yi - Yi) - (round32 Yj - Yj))) as Hp.
  replace (Xi - Xj + (round32 Xi - Xi - (round32 Xj - Xj)))
    with (round32 Xi - round32 Xj) in Hp by lra.
  replace (Yi - Yj + (round32 Yi - Yi - (round32 Yj - Yj)))
    with (round32 Yi - round32 Yj) in Hp by lra.
  eapply Rle_trans; [exact Hp |].
  pose proof (round32_error_stored Xi) as E1.
  pose proof (round32_error_stored Xj) as E2.
  pose proof (round32_error_stored Yi) as E3.
  pose proof (round32_error_stored Yj) as E4.
  assert (T1 : Rabs (round32 Xi - Xi - (round32 Xj - Xj))
               <= Rabs (round32 Xi - Xi) + Rabs (round32 Xj - Xj)).
  { unfold Rminus at 1. eapply Rle_trans; [apply Rabs_triang |].
    rewrite Rabs_Ropp. lra. }
  assert (T2 : Rabs (round32 Yi - Yi - (round32 Yj - Yj))
               <= Rabs (round32 Yi - Yi) + Rabs (round32 Yj - Yj)).
  { unfold Rminus at 1. eapply Rle_trans; [apply Rabs_triang |].
    rewrite Rabs_Ropp. lra. }
  lra.
Qed.

Lemma overlap_resolved_to_contact_witness :
  exists Xi Yi Xj Yj : R,
    rd (P.x (F32.collide 0 1 q_hit)) 0 = Fin (round32 Xi) /\
    rd (P.y (F32.collide 0 1 q_hit)) 0 = Fin (round32 Yi) /\
    rdZ (P.x (F32.collide 0 1 q_hit)) 1 = Fin (round32 Xj) /\
    rdZ (P.y (F32.collide 0 1 q_hit)) 1 = Fin (round32 Yj) /\
    (Xi - Xj) * (Xi - Xj) + (Yi - Yj) * (Yi - Yj) = (3 + 3) * (3 + 3) /\
    (Xi - Xj) * (0 - 4) = (Yi - Yj) * (0 - 3) /\
    Xi + Xj = 0 + 3 /\ Yi + Yj = 0 + 4 /\
    Rabs (R_sqrt.sqrt
            ((round32 Xi - round32 Xj) * (round32 Xi - round32 Xj)
             + (round32 Yi - round32 Yj) * (round32 Yi - round32 Yj))
          - Rabs (3 + 3))
    <= bpow (-23) * (Rabs (round32 Xi) + Rabs (round32 Xj)
                     + Rabs (round32 Yi) + Rabs (round32 Yj))
       + 4 * bpow (-149).
Proof.
  apply (overlap_resolved_to_contact q_hit 0 1 0 0 3 3 4 3);
    try reflexivity.
  - cbn. lia.
  - apply (overlapping_iff q_hit 0 1 0 0 3 3 4 3); try reflexivity. lra.
Defined.

(** ** Pass 1 on [Float32Array]s *)

(** On [Float32Array]s as on exact numbers, Pass 1 leaves a particle
    whose slots are finite before the tick, on a finite screen and with
    hands of finite velocity, finite binary32 values in its four slots and
    both velocity components within [MAX_VEL]. *)
Theorem pass1_stores_clamped (cfg : Setup) (hands : list Hand.t)
    (rnd : nat -> num) (st : State) (i : nat) (w h rr : R) :
  wf_state cfg st -> (i < particleCount cfg)%nat ->
  Forall finite_hand hands ->
  finite_body (body_at (p st) i) ->
  rd (P.radius (p st)) i = Fin rr ->
  finite_body (body_at (p (F32.after_pass1 cfg (Fin w) (Fin h) hands rnd st)) i) /\
  stored (B.x (body_at (p (F32.after_pass1 cfg (Fin w) (Fin h) hands rnd st)) i)) /\
  stored (B.y (body_at (p (F32.after_pass1 cfg (Fin w) (Fin h) hands rnd st)) i)) /\
  stored (B.vx (body_at (p (F32.after_pass1 cfg (Fin w) (Fin h) hands rnd st)) i)) /\
  stored (B.vy (body_at (p (F32.after_pass1 cfg (Fin w) (Fin h) hands rnd st)) i)) /\
  abs_le (B.vx (body_at (p (F32.after_pass1 cfg (Fin w) (Fin h) hands rnd st)) i))
         MAX_VEL /\
  abs_le (B.vy (body_at (p (F32.after_pass1 cfg (Fin w) (Fin h) hands rnd st)) i))
         MAX_VEL.
Proof.
  intros Hwf Hi Hh Hb Hr.
  rewrite f32_after_pass1_slots by assumption.
  destruct (f32_pass1_slots_finite w h rr hands rnd (p st) i Hh Hb Hr)
    as (x & y & vx & vy & -> & Hvx & Hvy & (Sx & Sy & Svx & Svy) & _).
  cbn [B.x B.y B.vx B.vy].
  split; [repeat split |].
  split; [now apply stored_Fin |]. split; [now apply stored_Fin |].
  split; [now apply stored_Fin |]. split; [now apply stored_Fin |].
  unfold abs_le, MAX_VEL. cbn [JS.neg le]. lra.
Qed.

Lemma pass1_stores_clamped_witness :
  finite_body
    (body_at (p (F32.after_pass1 cfg_two (Fin 24) (Fin 24) [hand_palm] rnd_half
                   st_wall)) 0) /\
  stored (B.x (body_at (p (F32.after_pass1 cfg_two (Fin 24) (Fin 24)
                             [hand_palm] rnd_half st_wall)) 0)) /\
  stored (B.y (body_at (p (F32.after_pass1 cfg_two (Fin 24) (Fin 24)
                             [hand_palm] rnd_half st_wall)) 0)) /\
  stored (B.vx (body_at (p (F32.after_pass1 cfg_two (Fin 24) (Fin 24)
                              [hand_palm] rnd_half st_wall)) 0)) /\
  stored (B.vy (body_at (p (F32.after_pass1 cfg_two (Fin 24) (Fin 24)
                              [hand_palm] rnd_half st_wall)) 0)) /\
  abs_le (B.vx (body_at (p (F32.after_pass1 cfg_two (Fin 24) (Fin 24)
                              [hand_palm] rnd_half st_wall)) 0)) MAX_VEL /\
  abs_le (B.vy (body_at (p (F32.after_pass1 cfg_two (Fin 24) (Fin 24)
                              [hand_palm] rnd_half st_wall)) 0)) MAX_VEL.
Proof.
  apply (pass1_stores_clamped cfg_two [hand_palm] rnd_half st_wall 0 24 24 2).
  - repeat split.
  - cbn. lia.
  - exact hand_palm_finite.
  - repeat split.
  - reflexivity.
Defined.
